(* ===== verification/_CoqProject ===== *)
-Q . S2P
Prelude.v
Io.v
Posix.v
CLib.v
HttpPath.v
Epoll.v
Nghttp2.v
NgServer.v
NgServerMain.v
NgClient.v
RawSocket.v
Arp.v
RedisArgs.v
Metrics.v
MetricsMock.v
Sampler.v
Curl.v
Jaeger.v
Sockets.v
Timer.v
CurlClients.v
Asio.v
AsioSystem.v
Tcp.v
Pairs.v
Dns.v
Wasm.v
Logging.v
BoostDns.v
Grpc.v
