(* ===== verification/Prelude.v ===== *)
(** A verification of the C and C++ programs of the Client-Server repository.

    * The program

    The repository is a collection of small network programs.  Those in C and
    C++ are: an HTTP/2 server and client on nghttp2 (src/http2/nghttp2_server,
    src/http2/nghttp2_client), clients on libcurl with their helpers and timers
    (src/http2/libcurl_client), an epoll echo server (src/sockets/epoll), an echo
    server and client on Boost.Asio coroutines (src/sockets/asio), a plain TCP
    server and client and a raw-socket sender (src/sockets), an ARP client and
    several name resolvers (src/sockets/dns_lookup), a Redis module
    (src/database/redis/module), a metrics registry with a command loop
    (src/opentelemetry/prometheus), a trace sampler, a header carrier and a traced
    HTTP client (src/opentelemetry/jaeger), loggers (src/opentelemetry/logging), a
    gRPC client (src/grpc/cpp/hello) and an Envoy filter
    (src/proxy/envoy/wasm/dscp).  They do not call each other; what they share is
    the way they talk to the operating system and to libraries, and that is what
    the first files of the development model.

    * How code is modelled

    Code that only computes is a function: buffers are lists of bytes, with every
    access checked against the bounds ([CLib.load], [CLib.store], the [outcome]
    type of Io), machine integers are [Z] with their wrap-around written out
    ([wrap], [u16], [u64], [i32]), signed overflow is undefined behaviour.

    Code that calls the kernel, nghttp2, the OpenTelemetry SDK or libcurl is a
    program of Io.v: a tree of calls whose answers come from an environment, an
    arbitrary function of the history and the call.  A theorem for every
    environment holds for every behaviour of the code that is not in the
    repository; where a theorem needs documented behaviour (a read returns at most
    what was asked for, sendto fails on a closed descriptor) it is a named
    predicate on environments ([Posix.sys_ok], [Nghttp2.ng_ok], [Arp.sendto_ok]),
    and a concrete environment is shown to satisfy it.  [wp] is the weakest
    precondition calculus the proofs use, and [wp_run] its soundness.

    Code that runs interleaved, the threads of the timers and the coroutines of
    Boost.Asio, is a machine: a label is what the scheduler or the library does
    next, and a theorem holds for every sequence of labels.  Code that is called
    by a host, the Envoy filter, is a set of functions over a type class that
    states what the host promises ([Wasm.ProxyHost], [Wasm.ProxyHostLaws]).

    * The files

    - Prelude: integers, bytes and byte orders, tactics, shared lemmas.
    - Io: programs, environments, runs and weakest preconditions.
    - Posix: system calls, what their documentation says, views of a history.
    - CLib: the string and memory functions of C that the sources use.
    - HttpPath: [ends_with], [hex_to_uint], [percent_decode] and [check_path] of
      nghttp2_server/nghttp2.h.
    - Epoll: sockets/epoll/epoll_server.cc, the whole program.
    - Nghttp2: the calls of nghttp2 and a heap with explicit allocation.
    - NgServer, NgServerMain: the callbacks and objects of
      nghttp2_server/nghttp2.h and the event loop of its main.cc.
    - NgClient: nghttp2_client/nghttp2.h and main.cc.
    - RawSocket: sockets/raw_socket_client.cc.
    - Arp: sockets/dns_lookup/arp.cc.
    - RedisArgs: database/redis/module/utils.h and example.c.
    - Metrics: opentelemetry/prometheus/metrics.h, metrics.cc and example.cc;
      MetricsMock: its test doubles metrics_mock.h and metrics_mock.cc.
    - Sampler: opentelemetry/jaeger/sampler.h.
    - Curl: http2/libcurl_client/util.h.
    - Jaeger: opentelemetry/jaeger/tracer.h, tracer.cc, http.cc, example.cc.
    - Sockets: sockets/utils.h, socket_server.cc and socket_client.cc.
    - Timer: http2/libcurl_client/timer.h.
    - CurlClients: http2/libcurl_client/http2_easy_client.cc and
      http2_multi_client.cc, on Timer.
    - Asio: sockets/asio/server.cc and client.cc.
    - AsioSystem: that client connected to that server.
    - Tcp: a network of TCP connections between a server over the calls of Posix
      and any number of clients (the class [Tcp.TcpClient]), the discipline of a
      server that answers every chunk once, and what it gives to every connection.
    - Pairs: the epoll server with the Asio client, and the plain server with the
      plain client, on that network.
    - Dns: sockets/dns_lookup/utils.h, dns.cc and posix_async.
    - Wasm: proxy/envoy/wasm/dscp/dscp-filter.cc.
    - Logging: opentelemetry/logging; module FmtLog for fmt_logger, module OtelLog
      for logger and logger_factory.
    - BoostDns: sockets/dns_lookup/boost.
    - Grpc: grpc/cpp/hello/client.cc.

    A definition has the name of the function it models; a part of a function,
    such as a loop, has a name of its own next to it.

    * What the theorems show

    - Paths: [check_path] accepts exactly the absolute paths without a backslash
      and without [.] and [..] segments, so a request never leaves the served
      directory; on a value that does not end in an escape [percent_decode] ends,
      stays in its buffers, equals a recursive decoder and inverts an RFC 3986
      encoder; on one that does, its last copy reads past the terminator.
    - Servers: what the epoll server writes is what it read, and it serves the
      connection accepted last; what the plain server answers, which descriptors
      are closed, which histories are free of undefined behaviour; for the HTTP/2
      server the contracts of its callbacks, that no sequence of them answers a
      request, what the deletion of a session object frees, and what its event loop
      hands to nghttp2 in the buffer it reads into.
    - Pairs of programs: on a network that splits, delays and partly takes what is
      written, with any number of clients, the Asio client of the epoll server
      shows a part of its own message, and the plain server reads a prefix of what
      the connection took from each client and has answered every piece of it once.
    - HTTP/2 client: the results of its callbacks against the contract of nghttp2,
      and that a complete run releases exactly what it acquired.
    - Packets: the checksum is the one of RFC 1071; the packet of the raw client is
      the IPv4/UDP packet it is meant to be, and its exit code tells whether it was
      sent; the ARP request is the frame of RFC 826, replies are read back, every
      path of the interface query, and what each result of the ARP program means.
    - Redis module: the reply for every argument vector, with the overflow of a
      sum or product as the only undefined behaviour.
    - Metrics: ownership of instruments in every reachable state of the registry,
      and a refinement of the command loop to a map from names to numbers, for
      inputs without the spelling SYN, which the README has and the loop has not.
    - Sampler: the double arithmetic of the threshold is exact to 2050 in 2^64,
      does not wrap and is monotone, so spans that do not ask for sampling by an
      attribute are sampled consistently between ratios.
    - libcurl: a hex dump can be read back; the memory of the easy client for
      every sequence of callbacks, with the second socket of a transfer as the only
      access to a deleted object; the numbers of the timers in every interleaving,
      up to the overflow of their [int], also as the multi client makes them, the access of a thread
      to a destroyed timer, and what stops an interval timer.
    - Asio: in every order of resumptions each connection gets its own bytes back,
      and a write that is not disturbed is completed; the client, connected to the
      server among other connections, only ever shows its own bytes.
    - Resolvers: the polling client ends when the resolver does; what each of the
      programs prints.
    - Tracing: what is set through the header carrier is got on the other side,
      whatever case the names have there; the traced client ends with its input,
      one request and one answer for every line.
    - Logging: what the formatted logger writes, with its colour sequences, can be
      read back; the factory and its loggers refine an abstract log, for export
      types of the enumeration.
    - Filter: no callback stops a message, requests pass unchanged, responses are
      edited in three headers and in their bodies, for every host with the
      documented laws.

    Some theorems state what the code does where a comment, a README or a contract
    says something else: the lifetime of a descriptor or object, a buffer printed
    without a terminator, input that is lost.

    * Bounds and fuel

    Endless loops run for a number of rounds that the theorems quantify over, so
    they speak of every finite part of a run.  A loop that ends has a fuel: that of
    [percent_decode] and [dump] is the length of the input, which is proved to be
    enough; that of a read loop is a parameter, and running out of it is the
    outcome [OutOfFuel], which is not undefined behaviour and not a result.

    * What is not modelled

    Code of other languages, configuration and notes.  Of the C++ code: the UDP
    coroutines of the Asio server, which nothing starts and which use an operation
    datagram sockets do not have; the log handlers of the SDK, which only print;
    debugging samples and unit tests.  Lines printed for information by a function
    that otherwise computes (the sampler) are left out.  The network of Tcp has no
    end of a stream and no time: a read may return nothing at any moment, so its
    theorems say what is transferred and not when.  The HTTP/2 client and server
    are not connected to each other: the server hands none of its input to
    nghttp2, so there is no exchange to describe. *)

From stdpp Require Import base list gmap strings pretty numbers.

Declare Scope cs_scope.
Delimit Scope cs_scope with cs.

(** * Machine integers

    A [w]-bit unsigned quantity is a [Z]; every store into a variable of that
    type goes through [wrap w]. *)

Definition wrap (w z : Z) : Z := (z `mod` 2 ^ w)%Z.
Definition u8 (z : Z) : Z := wrap 8 z.
Definition u16 (z : Z) : Z := wrap 16 z.
Definition u32 (z : Z) : Z := wrap 32 z.
Definition u64 (z : Z) : Z := wrap 64 z.

(** Two's complement reading of the low [w] bits. *)
Definition swrap (w z : Z) : Z :=
  let m := wrap w z in
  if (m <? 2 ^ (w - 1))%Z then m else (m - 2 ^ w)%Z.
Definition i32 (z : Z) : Z := swrap 32 z.

Definition is_byte (z : Z) : Prop := (0 ≤ z < 256)%Z.
Abbreviation is_bytes := (Forall is_byte).

Definition in_i64 (z : Z) : bool := ((- 2 ^ 63 <=? z) && (z <? 2 ^ 63))%Z.

(** * Byte strings

    A byte is a [Z] in [0, 256); a buffer, a packet or the characters of a C
    string are a [list Z].  [bs] turns a literal into its bytes. *)

Fixpoint bs (s : string) : list Z :=
  match s with
  | EmptyString => []
  | String a s' => Z.of_N (Ascii.N_of_ascii a) :: bs s'
  end.

(** Byte orders: [le n z] and [be n z] are the [n] low bytes of [z], least and
    most significant first. *)

Fixpoint le (n : nat) (z : Z) : list Z :=
  match n with
  | O => []
  | S n' => (z `mod` 256)%Z :: le n' (z `div` 256)%Z
  end.

Definition be (n : nat) (z : Z) : list Z := reverse (le n z).

Fixpoint le_val (l : list Z) : Z :=
  match l with
  | [] => 0%Z
  | b :: l' => (b + 256 * le_val l')%Z
  end.

Definition be_val (l : list Z) : Z := le_val (reverse l).

(** [htons]/[ntohs] of a little-endian host: swap the two low bytes. *)
Definition htons (z : Z) : Z :=
  (Z.lor (Z.shiftl (Z.land z 255) 8) (Z.land (Z.shiftr z 8) 255))%Z.
Definition ntohs (z : Z) : Z := htons z.

(** * Tactics *)

(** Split every [if] and [match] of the goal, recording the equations. *)
Ltac split_ifs :=
  repeat (case_match; simplify_eq/=).

(** Split the first [if] of the goal and simplify. *)
Ltac case_if :=
  match goal with |- context [if ?b then _ else _] => destruct b eqn:?; cbn end.

(** Turn boolean comparisons on [Z] in the context into propositions. *)
Ltac b2p :=
  repeat match goal with
  | H : (_ && _) = true |- _ => apply andb_true_iff in H; destruct H
  | H : (_ || _) = false |- _ => apply orb_false_iff in H; destruct H
  | H : negb _ = true |- _ => apply negb_true_iff in H
  | H : negb _ = false |- _ => apply negb_false_iff in H
  | H : (_ =? _)%Z = true |- _ => apply Z.eqb_eq in H
  | H : (_ =? _)%Z = false |- _ => apply Z.eqb_neq in H
  | H : (_ <? _)%Z = true |- _ => apply Z.ltb_lt in H
  | H : (_ <? _)%Z = false |- _ => apply Z.ltb_ge in H
  | H : (_ <=? _)%Z = true |- _ => apply Z.leb_le in H
  | H : (_ <=? _)%Z = false |- _ => apply Z.leb_gt in H
  | H : (_ <? _)%nat = true |- _ => apply Nat.ltb_lt in H
  | H : (_ <? _)%nat = false |- _ => apply Nat.ltb_ge in H
  | H : (_ =? _)%nat = true |- _ => apply Nat.eqb_eq in H
  | H : (_ =? _)%nat = false |- _ => apply Nat.eqb_neq in H
  end.

(** Linear arithmetic with division and modulus by constants. *)
Ltac zlia := Z.div_mod_to_equations; lia.

(** * Lemmas *)

Create HintDb cs discriminated.
Create Rewrite HintDb cs.

Lemma wrap_range w z : (0 ≤ w)%Z → (0 ≤ wrap w z < 2 ^ w)%Z.
Proof. intros. apply Z.mod_pos_bound. lia. Qed.

Lemma wrap_small w z : (0 ≤ z < 2 ^ w)%Z → wrap w z = z.
Proof. apply Z.mod_small. Qed.

Lemma u8_byte z : is_byte (u8 z).
Proof. apply (wrap_range 8). lia. Qed.

Lemma length_le n z : length (le n z) = n.
Proof. revert z; induction n; naive_solver. Qed.

Lemma length_be n z : length (be n z) = n.
Proof. unfold be. by rewrite length_reverse, length_le. Qed.

Lemma le_bytes n z : is_bytes (le n z).
Proof.
  revert z; induction n; intros z; simpl; constructor; auto.
  unfold is_byte. apply Z.mod_pos_bound. lia.
Qed.

Lemma be_bytes n z : is_bytes (be n z).
Proof. unfold be. apply Forall_reverse, le_bytes. Qed.

Lemma le_val_le n z : le_val (le n z) = wrap (8 * Z.of_nat n) z.
Proof.
  revert z; induction n as [|n IH]; intros z; [symmetry; apply Z.mod_1_r|].
  cbn [le le_val]. rewrite IH. unfold wrap.
  replace (8 * Z.of_nat (S n))%Z with (8 + 8 * Z.of_nat n)%Z by lia.
  rewrite Z.pow_add_r, Z.rem_mul_r by lia. reflexivity.
Qed.

Lemma be_val_be n z : be_val (be n z) = wrap (8 * Z.of_nat n) z.
Proof. unfold be_val, be. by rewrite reverse_involutive, le_val_le. Qed.

Lemma le_val_range l : is_bytes l → (0 ≤ le_val l < 2 ^ (8 * Z.of_nat (length l)))%Z.
Proof.
  induction 1 as [|b l Hb _ IH]; [cbn; lia|].
  cbn [le_val length].
  replace (8 * Z.of_nat (S (length l)))%Z with (8 + 8 * Z.of_nat (length l))%Z by lia.
  rewrite Z.pow_add_r by lia. unfold is_byte in Hb. lia.
Qed.

Lemma le_le_val l : is_bytes l → le (length l) (le_val l) = l.
Proof.
  induction 1 as [|b l Hb _ IH]; [done|]. cbn [le_val le length].
  unfold is_byte in Hb.
  replace ((b + 256 * le_val l) `mod` 256)%Z with b by zlia.
  replace ((b + 256 * le_val l) `div` 256)%Z with (le_val l) by zlia.
  by rewrite IH.
Qed.

Lemma bs_bytes s : is_bytes (bs s).
Proof.
  induction s as [|a s IH]; cbn [bs]; constructor; [|done]. unfold is_byte.
  pose proof (Ascii.N_ascii_bounded a). lia.
Qed.

Lemma length_bs s : length (bs s) = String.length s.
Proof. induction s; simpl; congruence. Qed.

Lemma i32_small z : (- 2 ^ 31 ≤ z < 2 ^ 31)%Z → i32 z = z.
Proof.
  intros Hz. unfold i32, swrap, wrap. change (2 ^ (32 - 1))%Z with 2147483648%Z.
  change (2 ^ 32)%Z with 4294967296%Z. change (2 ^ 31)%Z with 2147483648%Z in Hz.
  destruct (Z.ltb_spec (z `mod` 4294967296) 2147483648); zlia.
Qed.

Lemma bs_inj s s' : bs s = bs s' → s = s'.
Proof.
  revert s'. induction s as [|a s IH]; intros [|a' s']; cbn; try done.
  intros [= E1 E2]. f_equal; [|by apply IH].
  apply N2Z.inj in E1. rewrite <- (Ascii.ascii_N_embedding a), E1. apply Ascii.ascii_N_embedding.
Qed.

(** Disjoint bit patterns add without carry. *)
Lemma lor_shiftl_add x y n :
  (0 ≤ n)%Z → (0 ≤ y < 2 ^ n)%Z → (Z.lor (Z.shiftl x n) y = x * 2 ^ n + y)%Z.
Proof.
  intros Hn Hy. assert (Z.land (Z.shiftl x n) y = 0%Z) as H0.
  { apply Z.bits_inj'. intros i Hi. rewrite Z.land_spec, Z.bits_0.
    destruct (Z.lt_ge_cases i n); [by rewrite Z.shiftl_spec_low by lia|].
    rewrite <- (Z.mod_small y (2 ^ n)), Z.mod_pow2_bits_high by lia.
    apply andb_false_r. }
  rewrite <- Z.lxor_lor, <- Z.add_nocarry_lxor, Z.shiftl_mul_pow2 by done. done.
Qed.

Lemma htons_div z : (htons z = z `mod` 256 * 256 + (z `div` 256) `mod` 256)%Z.
Proof.
  unfold htons. change 255%Z with (Z.ones 8).
  rewrite !Z.land_ones, Z.shiftr_div_pow2, lor_shiftl_add by first [lia | zlia]. done.
Qed.

(** The two bytes in memory of [htons z] are those of [z] in network order. *)
Lemma le_htons z : le 2 (htons z) = be 2 z.
Proof.
  rewrite htons_div. cbn. f_equal; [|f_equal]; zlia.
Qed.

Lemma ntohs_htons z : ntohs (htons z) = u16 z.
Proof. unfold ntohs, u16, wrap. rewrite !htons_div. change (2 ^ 16)%Z with 65536%Z. zlia. Qed.

Lemma htons_u16 z : (0 ≤ htons z < 65536)%Z.
Proof. rewrite htons_div. zlia. Qed.

#[export] Hint Resolve u8_byte le_bytes be_bytes bs_bytes : cs.
#[export] Hint Rewrite length_le length_be length_bs : cs.
