(* ===== verification/Io.v ===== *)
(** Programs that talk to the outside world.

    The programs of the repository are sequences of calls into code that is not
    in it: the kernel, nghttp2, libcurl, the OpenTelemetry SDK.  A program is
    modelled as a finite tree [prog E R A] whose nodes are such calls, an [e : E]
    with a response of type [R e], whose leaves return a value of [A], and which
    can stop early ([exit], a [return] of [main], undefined behaviour, or the
    end of the fuel of a loop).  The other side is an environment, an arbitrary
    function from the history of calls and a call to a response, so a theorem
    for every environment holds for every behaviour of the code not modelled.

    [run] executes a program against an environment; [wp ok p Q h] says that
    [p], started after the history [h], ends with [Q] for every sequence of
    responses allowed by [ok], which may look at the history; [wp_run] connects the two. *)

From stdpp Require Import base list gmap strings.
From S2P Require Import Prelude.

(** How a program that does not return stops. *)
Inductive stop :=
  | Exit (code : Z)            (* exit(code), or return code from main *)
  | Undefined (why : string)   (* undefined behaviour of the language *)
  | OutOfFuel.                 (* the model's bound on a loop, not the code's *)

Inductive outcome (A : Type) :=
  | Val (a : A)
  | Stopped (s : stop).
Arguments Val {A} a.
Arguments Stopped {A} s.

Section prog.
Context {E : Type} {R : E → Type}.

Inductive prog (A : Type) : Type :=
  | Ret (a : A)
  | Call (e : E) (k : R e → prog A)
  | Halt (s : stop).
Arguments Ret {A} a.
Arguments Call {A} e k.
Arguments Halt {A} s.

(** One call with its response. *)
Inductive event := Ev (e : E) (r : R e).
Definition trace := list event.

Fixpoint bind {A B : Type} (f : A → prog B) (p : prog A) : prog B :=
  match p with
  | Ret a => f a
  | Call e k => Call e (λ r, bind f (k r))
  | Halt s => Halt s
  end.

Definition call (e : E) : prog (R e) := Call e Ret.

Definition env := ∀ (h : trace) (e : E), R e.

Fixpoint run {A : Type} (w : env) (p : prog A) (h : trace) : trace * outcome A :=
  match p with
  | Ret a => (h, Val a)
  | Call e k => let r := w h e in run w (k r) (h ++ [Ev e r])
  | Halt s => (h, Stopped s)
  end.

Fixpoint wp {A : Type} (ok : trace → ∀ e, R e → Prop) (p : prog A)
    (Q : trace → outcome A → Prop) (h : trace) : Prop :=
  match p with
  | Ret a => Q h (Val a)
  | Call e k => ∀ r, ok h e r → wp ok (k r) Q (h ++ [Ev e r])
  | Halt s => Q h (Stopped s)
  end.

(** The environments whose every response is allowed. *)
Definition env_ok (ok : trace → ∀ e, R e → Prop) (w : env) : Prop :=
  ∀ h e, ok h e (w h e).

(** The post-condition of the first part of a sequence. *)
Definition seq_post {A B : Type} (ok : trace → ∀ e, R e → Prop) (f : A → prog B)
    (Q : trace → outcome B → Prop) (h : trace) (o : outcome A) : Prop :=
  match o with
  | Val a => wp ok (f a) Q h
  | Stopped s => Q h (Stopped s)
  end.

(** No assumption at all. *)
Definition anything (h : trace) (e : E) (r : R e) : Prop := True.

Lemma wp_run {A} ok (w : env) (p : prog A) Q h :
  env_ok ok w → wp ok p Q h → Q (run w p h).1 (run w p h).2.
Proof.
  intros Hw. revert h. induction p as [a|e k IH|s]; intros h Hp; simpl; auto.
Qed.

Lemma wp_bind {A B} ok (p : prog A) (f : A → prog B) Q h :
  wp ok p (seq_post ok f Q) h → wp ok (bind f p) Q h.
Proof.
  revert h. induction p as [a|e k IH|s]; intros h Hp; simpl in *; auto.
Qed.

Lemma wp_call {B} ok (e : E) (f : R e → prog B) Q h :
  (∀ r, ok h e r → wp ok (f r) Q (h ++ [Ev e r])) → wp ok (bind f (call e)) Q h.
Proof. done. Qed.

Lemma wp_mono {A} ok (p : prog A) (Q Q' : trace → outcome A → Prop) h :
  (∀ h o, Q h o → Q' h o) → wp ok p Q h → wp ok p Q' h.
Proof.
  intros HQ. revert h. induction p as [a|e k IH|s]; intros h Hp; simpl in *; auto.
Qed.

Lemma wp_and {A} ok (p : prog A) (Q Q' : trace → outcome A → Prop) h :
  wp ok p Q h → wp ok p Q' h → wp ok p (λ h' o, Q h' o ∧ Q' h' o) h.
Proof. revert h. induction p as [a|e k IH|s]; cbn; intros h H1 H2; auto. Qed.

Lemma wp_true {A} ok (p : prog A) h : wp ok p (λ _ _, True) h.
Proof. revert h. induction p; intros h; simpl; auto. Qed.

(** Every program only extends the history. *)
Lemma wp_prefix {A} ok (p : prog A) Q h :
  wp ok p Q h → wp ok p (λ h' o, Q h' o ∧ h `prefix_of` h') h.
Proof.
  revert h. induction p as [a|e k IH|s]; intros h Hp; simpl in *; auto.
  intros r Hr. eapply wp_mono; [|by apply IH, Hp].
  intros h' o [HQ Hpre]. split; [done|]. etrans; [|exact Hpre]. by apply prefix_app_r.
Qed.

(** What a program ensures at its end and every earlier history inherits holds
    now. *)
Lemma wp_now {A} ok (w : env) (p : prog A) (Q : trace → Prop) h :
  env_ok ok w → (∀ h1 h2, h1 `prefix_of` h2 → Q h2 → Q h1) → wp ok p (λ h' _, Q h') h → Q h.
Proof.
  intros Hw HQ Hp%wp_prefix. apply (wp_run _ w) in Hp as [Hh Hpre]; [|done]. by eapply HQ.
Qed.

(** A loop body run [n] times, threading a state. *)
Fixpoint iterate {S : Type} (n : nat) (body : S → prog S) (st : S) : prog S :=
  match n with
  | O => Ret st
  | S n' => bind (iterate n' body) (body st)
  end.

(** An invariant of the history and the state holds after any number of
    rounds, and at every early stop. *)
Lemma wp_iterate {S} ok n (body : S → prog S) (I : trace → S → Prop)
    (J : trace → stop → Prop) h st :
  (∀ h st, I h st →
     wp ok (body st) (λ h' o, match o with Val st' => I h' st' | Stopped s => J h' s end) h) →
  I h st →
  wp ok (iterate n body st)
     (λ h' o, match o with Val st' => I h' st' | Stopped s => J h' s end) h.
Proof.
  intros Hb. revert h st. induction n as [|n IH]; intros h st HI; simpl; [done|].
  apply wp_bind. eapply wp_mono; [|by apply Hb].
  intros h' [st'|s] Ho; simpl; auto.
Qed.

(** A view of a history picks some of its events. *)
Definition view {A : Type} (f : ∀ e, R e → option A) (h : trace) : list A :=
  omap (λ ev, match ev with Ev e r => f e r end) h.

Lemma view_app {A} (f : ∀ e, R e → option A) h h' : view f (h ++ h') = view f h ++ view f h'.
Proof. apply omap_app. Qed.

Lemma view_snoc {A} (f : ∀ e, R e → option A) h e r :
  view f (h ++ [Ev e r]) = view f h ++ option_list (f e r).
Proof. rewrite view_app. cbn. by destruct (f e r). Qed.

Lemma view_prefix {A} (f : ∀ e, R e → option A) h h' x :
  h `prefix_of` h' → x ∈ view f h → x ∈ view f h'.
Proof. intros [t ->]. rewrite view_app. set_solver. Qed.

End prog.

Arguments prog {E} R A.
Arguments Ret {E R A} a.
Arguments Call {E R A} e k.
Arguments Halt {E R A} s.
Arguments event {E} R.
Arguments trace {E} R.
Arguments env {E} R.
Arguments Ev {E R} e r.

#[export] Hint Rewrite @view_snoc : cs.

Notation "x ⇐ p ; q" := (bind (λ x, q) p)
  (at level 20, p at level 100, q at level 200, only parsing) : cs_scope.
Notation "p ;;; q" := (bind (λ _, q) p)
  (at level 100, q at level 200, only parsing, right associativity) : cs_scope.

(** Drive a [wp] goal through the calls and binds of a program. *)
Ltac wp_step :=
  match goal with
  | |- wp _ (bind _ _) _ _ => apply wp_bind
  | |- wp _ (Call _ _) _ _ => simpl wp; intros ? ?
  | |- wp _ (Ret _) _ _ => simpl wp
  | |- wp _ (Halt _) _ _ => simpl wp
  end.
