(* ===== verification/Posix.v ===== *)
(** The system calls the socket programs make, and what their documentation
    says of their results.

    The kernel is not part of the repository: a system call is a node of a
    program ([Io.prog]) and its result is the environment's.  [sys_ok] is the
    documented behaviour the theorems rely on, nothing more: a read returns at
    most as many bytes as asked, [epoll_wait] reports what was registered, and
    so on.  Console output ([std::cout], [printf]) is a call without a result,
    whose operands are recorded without the newline at their end. *)

From stdpp Require Import base list gmap strings.
From S2P Require Import Prelude Io.

Local Open Scope Z_scope.

(** * Constants of the Linux ABI (x86-64) *)

Definition AF_INET : Z := 2.
Definition AF_PACKET : Z := 17.
Definition SOCK_STREAM : Z := 1.
Definition SOCK_RAW : Z := 3.
Definition IPPROTO_IP : Z := 0.
Definition IPPROTO_TCP : Z := 6.
Definition IPPROTO_UDP : Z := 17.
Definition IPPROTO_RAW : Z := 255.
Definition IP_TOS : Z := 1.
Definition IP_HDRINCL : Z := 3.
Definition TCP_NODELAY : Z := 1.
Definition FIONBIO : Z := 0x5421.
Definition F_GETFD : Z := 1.
Definition F_SETFD : Z := 2.
Definition F_SETFL : Z := 4.
Definition O_NONBLOCK : Z := 0x800.
Definition EPOLL_CTL_ADD : Z := 1.
Definition EPOLL_CTL_DEL : Z := 2.
Definition EPOLLIN : Z := 0x1.
Definition EPOLLOUT : Z := 0x4.
Definition EPOLLHUP : Z := 0x10.
Definition EPOLLRDHUP : Z := 0x2000.
Definition EPOLLET : Z := 0x80000000.
Definition POLLIN : Z := 0x1.
Definition POLLOUT : Z := 0x4.
Definition POLLERR : Z := 0x8.
Definition POLLHUP : Z := 0x10.
Definition SHUT_WR : Z := 1.
Definition EINTR : Z := 4.
Definition EIO : Z := 5.
Definition EBADF : Z := 9.
Definition EAGAIN : Z := 11.
Definition EWOULDBLOCK : Z := 11.
Definition EFAULT : Z := 14.
Definition EINVAL : Z := 22.
Definition EINPROGRESS : Z := 115.
Definition MSG_NOSIGNAL : Z := 0x4000.
Definition INADDR_ANY : Z := 0.
Definition SIOCGIFADDR : Z := 0x8915.
Definition SIOCGIFHWADDR : Z := 0x8927.
Definition SIOCGIFINDEX : Z := 0x8933.
Definition IFNAMSIZ : nat := 16.

(** * Data *)

(** One operand of a [<<] chain or of a [printf]. *)
Inductive item :=
  | T (s : string)        (* literal text *)
  | N (z : Z)             (* an integer *)
  | B (b : list Z)        (* bytes: a char array or a std::string *)
  | Err (e : Z)           (* strerror, gai_strerror or nghttp2_strerror of a code *)
  | Ip (a : Z).           (* the dotted form of an IPv4 address *)

(** A [struct sockaddr_in]: [sin_port] and [sin_addr] in network byte order. *)
Record sockaddr_in := { sin_port : Z; sin_addr : Z }.

(** The fields of a [struct sockaddr_ll] the code sets. *)
Record sockaddr_ll := {
  sll_family : Z; sll_protocol : Z; sll_ifindex : Z; sll_hatype : Z;
  sll_pkttype : Z; sll_halen : Z; sll_addr : list Z }.

Inductive sockaddr :=
  | Inet (a : sockaddr_in)
  | Packet (a : sockaddr_ll).

(** A [struct epoll_event]; [ev_fd] is [data.fd]. *)
Record epoll_event := { ev_events : Z; ev_fd : Z }.

(** * Calls and responses *)

Inductive sys :=
  | Print (l : list item)
  | Socket (domain type protocol : Z)
  | Bind (fd : Z) (a : sockaddr)
  | Listen (fd backlog : Z)
  | Accept (fd : Z)
  | Connect (fd : Z) (a : sockaddr)
  | Fcntl (fd cmd arg : Z)
  | Ioctl (fd request : Z) (arg : list Z)
  | Setsockopt (fd level name : Z) (val : list Z)
  | Read (fd : Z) (count : nat)
  | Write (fd : Z) (buf : list Z)
  | Send (fd : Z) (buf : list Z) (flags : Z)
  | Sendto (fd : Z) (buf : list Z) (flags : Z) (a : sockaddr)
  | Recvfrom (fd : Z) (count : nat)
  | Close (fd : Z)
  | Shutdown (fd how : Z)
  | Pipe
  | EpollCreate (size : Z)
  | EpollCtl (epfd op fd : Z) (ev : option epoll_event)
  | EpollWait (epfd : Z) (maxevents : nat) (timeout : Z)
  | Poll (fd events timeout : Z)
  | Sleep (seconds : Z).

(** The return value and [errno]. *)
Record res := { ret : Z; errno : Z }.

(** A result with the bytes stored through a pointer argument. *)
Record resdata := { rret : Z; rerrno : Z; rdata : list Z }.

Definition sysR (e : sys) : Type :=
  match e with
  | Print _ | Sleep _ => unit
  | Read _ _ | Recvfrom _ _ | Ioctl _ _ _ => resdata
  | Accept _ => res * sockaddr_in
  | Pipe => res * (Z * Z)
  | EpollWait _ _ _ => res * list epoll_event
  | Poll _ _ _ => res * Z          (* the returned events *)
  | _ => res
  end.

Abbreviation systrace := (trace sysR).

(** ** What a history says *)

(** The event data registered with the epoll instance [epfd]. *)
Definition v_registered (epfd : Z) (e : sys) : sysR e → option Z :=
  match e return sysR e → option Z with
  | EpollCtl ep op _ (Some ev) => λ r,
      if (ep =? epfd) && (op =? EPOLL_CTL_ADD) && (ret r =? 0) then Some (ev_fd ev) else None
  | _ => λ _, None
  end.
Abbreviation registered epfd := (view (v_registered epfd)).

(** The data returned by reads, and the data handed to writes, with the
    descriptor. *)
Definition v_read (e : sys) : sysR e → option (Z * list Z) :=
  match e return sysR e → option (Z * list Z) with
  | Read fd _ => λ r, if 0 <? rret r then Some (fd, rdata r) else None
  | _ => λ _, None
  end.
Definition v_write (e : sys) : sysR e → option (Z * list Z) :=
  match e return sysR e → option (Z * list Z) with
  | Write fd b => λ _, Some (fd, b)
  | _ => λ _, None
  end.

(** The descriptors closed. *)
Definition v_close (e : sys) : sysR e → option Z :=
  match e return sysR e → option Z with
  | Close fd => λ _, Some fd
  | _ => λ _, None
  end.

(** The descriptors returned by [socket], [accept] and [epoll_create]. *)
Definition v_socket (e : sys) : sysR e → option Z :=
  match e return sysR e → option Z with
  | Socket _ _ _ => λ r, Some (ret r)
  | _ => λ _, None
  end.
Definition v_accept (e : sys) : sysR e → option Z :=
  match e return sysR e → option Z with
  | Accept _ => λ r, Some (ret r.1)
  | _ => λ _, None
  end.
Definition v_epoll (e : sys) : sysR e → option Z :=
  match e return sysR e → option Z with
  | EpollCreate _ => λ r, Some (ret r)
  | _ => λ _, None
  end.

(** Documented results. *)
Definition sys_ok (h : systrace) (e : sys) : sysR e → Prop :=
  match e return sysR e → Prop with
  | Read _ n | Recvfrom _ n => λ r,
      rret r = -1 ∨ (0 ≤ rret r ≤ Z.of_nat n ∧ Z.of_nat (length (rdata r)) = rret r
                     ∧ is_bytes (rdata r))
  | EpollWait epfd n _ => λ r,
      (ret r.1 = -1 ∧ r.2 = []) ∨
      (ret r.1 = Z.of_nat (length r.2) ∧ (length r.2 ≤ n)%nat ∧
       Forall (λ ev, ev_fd ev ∈ registered epfd h) r.2)
  | Accept _ => λ r, ret r.1 = -1 ∨ 0 ≤ ret r.1
  | Write _ b => λ r, ret r = -1 ∨ 0 ≤ ret r ≤ Z.of_nat (length b)
  | Socket _ _ _ => λ r, ret r = -1 ∨ 0 ≤ ret r
  | EpollCtl _ _ _ _ => λ r, ret r = -1 ∨ ret r = 0
  | EpollCreate _ => λ r, ret r = -1 ∨ 0 ≤ ret r
  | _ => λ _, True
  end.

Definition print (l : list item) : prog sysR unit := Call (Print l) Ret.

(** * A small world

    A concrete environment in which every call succeeds: descriptors are
    numbered by the length of the history, [epoll_wait] reports the most recent
    registration with the flags [flags], and reads return [data] once and then
    the end of the stream. *)

Definition done0 : res := {| ret := 0; errno := 0 |}.
Definition fresh_fd (h : systrace) : res := {| ret := Z.of_nat (length h) + 3; errno := 0 |}.

Definition small_world (flags : Z) (data : list Z) : env sysR := λ h e,
  match e return sysR e with
  | Print _ | Sleep _ => tt
  | Socket _ _ _ => fresh_fd h
  | EpollCreate _ => fresh_fd h
  | Accept _ => (fresh_fd h, {| sin_port := 0; sin_addr := 0 |})
  | Read _ n | Recvfrom _ n =>
      match view v_read h with
      | [] => {| rret := Z.of_nat (length (take n data)); rerrno := 0; rdata := take n data |}
      | _ => {| rret := 0; rerrno := 0; rdata := [] |}
      end
  | Ioctl _ _ _ => {| rret := 0; rerrno := 0; rdata := [] |}
  | Pipe => (done0, (10, 11))
  | EpollWait epfd n _ =>
      match n, last (registered epfd h) with
      | S _, Some d => ({| ret := 1; errno := 0 |}, [{| ev_events := flags; ev_fd := d |}])
      | _, _ => ({| ret := -1; errno := EINTR |}, [])
      end
  | Poll _ events _ => ({| ret := 1; errno := 0 |}, events)
  | _ => done0
  end.

Lemma small_world_ok flags data : is_bytes data → env_ok sys_ok (small_world flags data).
Proof.
  intros Hd h [] ; cbn; auto with lia.
  - destruct (view v_read h); cbn; [|auto with lia]. right.
    split_and!; [lia| |done|by apply Forall_take]. rewrite length_take. lia.
  - destruct (view v_read h); cbn; [|auto with lia]. right.
    split_and!; [lia| |done|by apply Forall_take]. rewrite length_take. lia.
  - destruct maxevents; cbn; [auto|]. destruct (last _) as [d|] eqn:E; cbn; [right|auto].
    split_and!; [done|lia|]. repeat constructor. cbn. by apply last_Some_elem_of.
Qed.
