(* ===== verification/CLib.v ===== *)
(** The parts of the C and C++ standard libraries the sources use on byte
    buffers, with their characteristic lemmas.

    A C string is represented by its characters, without the terminating NUL;
    [cstr] reads one out of a buffer and fails when the buffer has no NUL. *)

From stdpp Require Import base list gmap strings.
From S2P Require Import Prelude Io.

Local Open Scope Z_scope.

(** * Memory: buffers with bounds checks *)

Definition oob {A} (why : string) : outcome A := Stopped (Undefined why).

Definition obind {A B} (f : A → outcome B) (x : outcome A) : outcome B :=
  match x with
  | Val a => f a
  | Stopped s => Stopped s
  end.

Notation "x ⇐o p ; q" := (obind (λ x, q) p)
  (at level 20, p at level 100, q at level 200, only parsing) : cs_scope.

Definition load (m : list Z) (i : nat) : outcome Z :=
  match m !! i with
  | Some b => Val b
  | None => oob "read outside the object"
  end.

Definition store (m : list Z) (i : nat) (b : Z) : outcome (list Z) :=
  if decide (i < length m)%nat then Val (<[i := b]> m)
  else oob "write outside the object".

(** [memcpy(&dst[j], &src[i], n)]. *)
Fixpoint memcpy (dst : list Z) (j : nat) (src : list Z) (i n : nat) : outcome (list Z) :=
  match n with
  | O => Val dst
  | S n' => obind (λ b, obind (λ dst', memcpy dst' (S j) src (S i) n') (store dst j b))
                  (load src i)
  end.

(** The C string at the start of a buffer. *)
Fixpoint cstr (buf : list Z) : option (list Z) :=
  match buf with
  | [] => None
  | c :: buf' => if c =? 0 then Some [] else (c ::.) <$> cstr buf'
  end.

(** * Characters (the C locale) *)

Definition isdigit (c : Z) : bool := (48 <=? c) && (c <=? 57).
Definition isupper (c : Z) : bool := (65 <=? c) && (c <=? 90).
Definition isxdigit (c : Z) : bool :=
  isdigit c || ((65 <=? c) && (c <=? 70)) || ((97 <=? c) && (c <=? 102)).
Definition isspace (c : Z) : bool := (c =? 32) || ((9 <=? c) && (c <=? 13)).
Definition tolower (c : Z) : Z := if isupper c then c + 32 else c.

(** * Strings *)

Fixpoint prefixb (p s : list Z) : bool :=
  match p, s with
  | [], _ => true
  | x :: p', y :: s' => (x =? y) && prefixb p' s'
  | _, _ => false
  end.

Fixpoint strchr (s : list Z) (c : Z) : option nat :=
  match s with
  | [] => None
  | x :: s' => if x =? c then Some O else S <$> strchr s' c
  end.

Fixpoint strstr (s pat : list Z) : option nat :=
  if prefixb pat s then Some O else
  match s with
  | [] => None
  | _ :: s' => S <$> strstr s' pat
  end.

(** [memcmp] on two objects of the same length. *)
Fixpoint memcmp (a b : list Z) : Z :=
  match a, b with
  | x :: a', y :: b' => if x <? y then -1 else if y <? x then 1 else memcmp a' b'
  | _, _ => 0
  end.

(** [strncasecmp(a, b, n) == 0] for strings of at least [n] characters. *)
Definition strncaseeq (a b : list Z) (n : nat) : bool :=
  bool_decide (tolower <$> take n a = tolower <$> take n b).

(** Equality of names that do not tell the case of letters apart, such as those
    of HTTP headers. *)
Definition caseeq (a b : list Z) : bool := bool_decide (tolower <$> a = tolower <$> b).

Fixpoint digits_val (acc : Z) (s : list Z) : Z :=
  match s with
  | [] => acc
  | c :: s' => if isdigit c then digits_val (10 * acc + (c - 48)) s' else acc
  end.

Fixpoint skip_space (s : list Z) : list Z :=
  match s with
  | c :: s' => if isspace c then skip_space s' else s
  | [] => []
  end.

(** [atoi]; the behaviour on values outside [int] is undefined in C, and the
    result is what glibc gives: the low 32 bits of the value. *)
Definition atoi (s : list Z) : Z :=
  i32 match skip_space s with
      | 45 :: s' => - digits_val 0 s'
      | 43 :: s' => digits_val 0 s'
      | s' => digits_val 0 s'
      end.

(** * Lemmas *)

Lemma caseeq_refl a : caseeq a a = true.
Proof. by apply bool_decide_eq_true. Qed.

Lemma caseeq_sym a b : caseeq a b = caseeq b a.
Proof. by apply bool_decide_ext. Qed.

Lemma caseeq_trans a b c : caseeq a b = true → caseeq b c = true → caseeq a c = true.
Proof. unfold caseeq. rewrite !bool_decide_eq_true. congruence. Qed.

Lemma prefixb_spec p s : prefixb p s = true ↔ ∃ t, s = p ++ t.
Proof.
  revert s; induction p as [|x p IH]; intros [|y s]; simpl; split; try naive_solver.
  - intros [??]%andb_true_iff. b2p. subst. apply IH in H0 as [t ->]. eauto.
  - intros [t [= -> ->]]. rewrite Z.eqb_refl. apply IH. eauto.
Qed.

Lemma strchr_None s c : strchr s c = None ↔ c ∉ s.
Proof.
  induction s as [|x s IH]; simpl; [split; [set_solver|done]|].
  destruct (Z.eqb_spec x c) as [->|Hne]; [set_solver|].
  rewrite fmap_None, IH. set_solver.
Qed.

Lemma strstr_None s pat :
  strstr s pat = None ↔ ∀ a b, s ≠ a ++ pat ++ b.
Proof.
  induction s as [|x s IH]; simpl.
  - destruct (prefixb pat []) eqn:E.
    + apply prefixb_spec in E as [t E]. split; [done|]. intros H. by destruct (H [] t).
    + split; [|done]. intros _ a b Hab. symmetry in Hab.
      apply app_eq_nil in Hab as [-> Hab].
      assert (prefixb pat [] = true) by (apply prefixb_spec; eauto). congruence.
  - destruct (prefixb pat (x :: s)) eqn:E.
    + apply prefixb_spec in E as [t E]. split; [done|]. intros H. by destruct (H [] t).
    + rewrite fmap_None, IH. split.
      * intros H [|y a] b Hab; simplify_eq/=.
        -- assert (prefixb pat (x :: s) = true) by (apply prefixb_spec; eauto). congruence.
        -- by destruct (H a b).
      * intros H a b Hab. destruct (H (x :: a) b). by rewrite Hab.
Qed.

Lemma memcmp_eq a b : length a = length b → memcmp a b = 0 ↔ a = b.
Proof.
  revert b; induction a as [|x a IH]; intros [|y b] Hl; simplify_eq/=; [done|].
  destruct (Z.ltb_spec x y); [split; [done|intros [=]; lia]|].
  destruct (Z.ltb_spec y x); [split; [done|intros [=]; lia]|].
  rewrite IH by done. split; [intros ->; f_equal; lia|congruence].
Qed.

Lemma load_app_l m m' i : (i < length m)%nat → load (m ++ m') i = load m i.
Proof. intros. unfold load. by rewrite lookup_app_l. Qed.

Lemma load_Val m i b : m !! i = Some b → load m i = Val b.
Proof. unfold load. by intros ->. Qed.

Lemma store_Val m i b : (i < length m)%nat → store m i b = Val (<[i := b]> m).
Proof. intros. unfold store. by rewrite decide_True. Qed.

Lemma cstr_app s t : 0 ∉ s → cstr (s ++ 0 :: t) = Some s.
Proof.
  induction s as [|c s IH]; intros Hs; simpl; [done|].
  destruct (Z.eqb_spec c 0) as [->|]; [set_solver|]. rewrite IH by set_solver. done.
Qed.

Lemma cstr_None buf : cstr buf = None ↔ 0 ∉ buf.
Proof.
  induction buf as [|c buf IH]; simpl; [set_solver|].
  destruct (Z.eqb_spec c 0) as [->|]; [set_solver|]. rewrite fmap_None, IH. set_solver.
Qed.

Lemma memcpy_Val dst j src i n :
  (j + n ≤ length dst)%nat → (i + n ≤ length src)%nat →
  memcpy dst j src i n = Val (take j dst ++ take n (drop i src) ++ drop (j + n) dst).
Proof.
  revert dst j i. induction n as [|n IH]; intros dst j i Hd Hs; cbn [memcpy].
  - by rewrite Nat.add_0_r, take_0, app_nil_l, take_drop.
  - destruct (lookup_lt_is_Some_2 src i) as [b Hb]; [lia|].
    rewrite (load_Val _ _ _ Hb). cbn [obind]. rewrite store_Val by lia. cbn [obind].
    rewrite IH by (rewrite ?length_insert; lia). f_equal.
    rewrite (drop_S _ _ _ Hb). cbn [take]. rewrite drop_insert_lt by lia.
    rewrite (take_S_r _ j b) by (by rewrite list_lookup_insert_eq by lia).
    rewrite take_insert_ge, <- app_assoc by lia.
    by replace (S j + n)%nat with (j + S n)%nat by lia.
Qed.

(** A [memcpy] whose source ends inside the range read. *)
Lemma memcpy_oob dst j src i n :
  (j + n ≤ length dst)%nat → (length src < i + n)%nat → (0 < n)%nat →
  memcpy dst j src i n = oob "read outside the object".
Proof.
  revert dst j i. induction n as [|n IH]; intros dst j i Hd Hs Hn; [lia|]. cbn [memcpy].
  destruct (src !! i) as [b|] eqn:Hb; [|unfold load; by rewrite Hb].
  rewrite (load_Val _ _ _ Hb). cbn [obind]. rewrite store_Val by lia. cbn [obind].
  apply lookup_lt_Some in Hb. apply IH; rewrite ?length_insert; lia.
Qed.
