(* ===== verification/HttpPath.v ===== *)
(** Request paths of the HTTP/2 server (src/http2/nghttp2_server/nghttp2.h):
    [ends_with], [hex_to_uint], [percent_decode] and [check_path].

    The buffers of [percent_decode] are modelled with their bounds: a read or a
    write outside them is [Undefined].  The theorems relate the loop to a
    recursive reference decoder, and [check_path] to what it is for: no segment
    of an accepted path leads out of the directory that is served. *)

From stdpp Require Import base list gmap strings.
From S2P Require Import Prelude Io CLib.

Local Open Scope Z_scope.
Local Open Scope cs_scope.

Module HttpPath.

(** * The code *)

Definition ends_with (s sub : list Z) : Z :=
  let slen := length s in
  let sublen := length sub in
  if (slen <? sublen)%nat then 0
  else if memcmp (drop (slen - sublen) s) sub =? 0 then 1 else 0.

Definition hex_to_uint (c : Z) : Z :=
  if (48 <=? c) && (c <=? 57) then u8 (c - 48)
  else if (65 <=? c) && (c <=? 70) then u8 (c - 65 + 10)
  else if (97 <=? c) && (c <=? 102) then u8 (c - 97 + 10)
  else 0.

(** The loop of [percent_decode]: [value] is the memory at the pointer, [res]
    the allocated buffer, [i] and [j] the indices. *)
Fixpoint percent_decode_loop (fuel : nat) (value : list Z) (valuelen : nat)
    (res : list Z) (i j : nat) : outcome (list Z * nat * nat) :=
  if (i <? valuelen - 2)%nat then
    match fuel with
    | O => Stopped OutOfFuel
    | S fuel' =>
        v0 ⇐o load value i;
        plain ⇐o (if negb (v0 =? 37) then Val true else
                  v1 ⇐o load value (i + 1);
                  if negb (isxdigit v1) then Val true else
                  v2 ⇐o load value (i + 2);
                  Val (negb (isxdigit v2)));
        if (plain : bool) then
          res' ⇐o store res j v0;
          percent_decode_loop fuel' value valuelen res' (i + 1) (j + 1)
        else
          v1 ⇐o load value (i + 1);
          v2 ⇐o load value (i + 2);
          res' ⇐o store res j (u8 (Z.shiftl (hex_to_uint v1) 4 + hex_to_uint v2));
          percent_decode_loop fuel' value valuelen res' (i + 3) (j + 1)
    end
  else Val (res, i, j).

(** [block] is what [malloc] returns: a block of [valuelen + 1] bytes with any
    content, or a null pointer, which every path writes through. *)
Definition percent_decode (value : list Z) (valuelen : nat) (block : option (list Z))
    : outcome (list Z) :=
  match block with
  | None => Stopped (Undefined "write through a null pointer")
  | Some res =>
      if (3 <? valuelen)%nat then
        r ⇐o percent_decode_loop valuelen value valuelen res 0 0;
        let '(res, i, j) := r in
        res ⇐o memcpy res j value i 2;
        store res (j + 2) 0
      else
        res ⇐o memcpy res 0 value 0 valuelen;
        store res valuelen 0
  end.

Definition check_path (path : list Z) : bool :=
  negb (nth 0 path 0 =? 0) && (nth 0 path 0 =? 47) &&
  bool_decide (strchr path 92 = None) &&
  bool_decide (strstr path (bs "/../") = None) &&
  bool_decide (strstr path (bs "/./") = None) &&
  negb (negb (ends_with path (bs "/..") =? 0)) &&
  negb (negb (ends_with path (bs "/.") =? 0)).

(** * Reference definitions *)

(** Percent decoding by recursion on the characters. *)
Fixpoint pct_decode (s : list Z) : list Z :=
  match s with
  | [] => []
  | c :: s1 =>
      match s1 with
      | a :: b :: s2 =>
          if (c =? 37) && isxdigit a && isxdigit b
          then (16 * hex_to_uint a + hex_to_uint b) :: pct_decode s2
          else c :: pct_decode s1
      | _ => c :: pct_decode s1
      end
  end.

(** The value ends in an escape. *)
Definition ends_in_escape (s : list Z) : Prop :=
  ∃ p a b, s = p ++ [37; a; b] ∧ isxdigit a = true ∧ isxdigit b = true.

(** The encoder of RFC 3986: unreserved characters and the separator stand for
    themselves, every other byte is escaped in upper case. *)
Definition hex_digit (d : Z) : Z := if d <? 10 then 48 + d else 55 + d.
Definition unreserved (c : Z) : bool :=
  isdigit c || isupper c || ((97 <=? c) && (c <=? 122)) ||
  (c =? 45) || (c =? 46) || (c =? 95) || (c =? 126) || (c =? 47).
Definition pct_encode1 (c : Z) : list Z :=
  if unreserved c then [c] else [37; hex_digit (c `div` 16); hex_digit (c `mod` 16)].
Definition pct_encode (s : list Z) : list Z := s ≫= pct_encode1.

(** The segments of a path between its separators [c]. *)
Fixpoint split_on (c : Z) (s : list Z) : list (list Z) :=
  match s with
  | [] => [[]]
  | x :: s' =>
      if x =? c then [] :: split_on c s'
      else match split_on c s' with
           | seg :: segs => (x :: seg) :: segs
           | [] => [[x]]
           end
  end.

(** Walking a list of segments below a directory; [None] when the walk leaves
    the directory it started in. *)
Fixpoint walk (below : list (list Z)) (segs : list (list Z)) : option (list (list Z)) :=
  match segs with
  | [] => Some below
  | seg :: segs' =>
      if bool_decide (seg = [] ∨ seg = bs ".") then walk below segs'
      else if bool_decide (seg = bs "..") then
        match below with
        | [] => None
        | _ :: below' => walk below' segs'
        end
      else walk (seg :: below) segs'
  end.

(** * Lemmas *)

Lemma ends_with_01 s sub : ends_with s sub = 0 ∨ ends_with s sub = 1.
Proof. unfold ends_with. split_ifs; auto. Qed.

Lemma ends_with_spec s sub : ends_with s sub ≠ 0 ↔ ∃ p, s = p ++ sub.
Proof.
  unfold ends_with. destruct (Nat.ltb_spec (length s) (length sub)) as [Hl|Hl].
  - split; [done|]. intros [p ->]. rewrite length_app in Hl. lia.
  - assert (length (drop (length s - length sub) s) = length sub) as Hlen.
    { rewrite length_drop. lia. }
    destruct (Z.eqb_spec (memcmp (drop (length s - length sub) s) sub) 0) as [E|E].
    + split; [|done]. intros _. apply memcmp_eq in E; [|done].
      exists (take (length s - length sub) s). rewrite <- E at 2. by rewrite take_drop.
    + split; [done|]. intros [p ->]. destruct E. apply memcmp_eq; [done|].
      rewrite length_app. replace (length p + length sub - length sub)%nat with (length p) by lia.
      by rewrite drop_app_length.
Qed.

Lemma isxdigit_cases c :
  isxdigit c = true ↔ 48 ≤ c ≤ 57 ∨ 65 ≤ c ≤ 70 ∨ 97 ≤ c ≤ 102.
Proof. unfold isxdigit, isdigit. lia. Qed.

Lemma hex_to_uint_range c : 0 ≤ hex_to_uint c < 16.
Proof.
  unfold hex_to_uint, u8, wrap. change (2 ^ 8) with 256.
  split_ifs; b2p; rewrite ?Z.mod_small; lia.
Qed.

(** The byte computed with a shift and a narrowing is the two-digit number. *)
Lemma hex_pair a b :
  u8 (Z.shiftl (hex_to_uint a) 4 + hex_to_uint b) = 16 * hex_to_uint a + hex_to_uint b.
Proof.
  pose proof (hex_to_uint_range a). pose proof (hex_to_uint_range b).
  rewrite Z.shiftl_mul_pow2 by lia. unfold u8. rewrite wrap_small; lia.
Qed.

Lemma hex_not_percent c : isxdigit c = true → (c =? 37) = false.
Proof. rewrite isxdigit_cases. lia. Qed.

(** ** The decoding loop *)

Lemma drop_at (s : list Z) i c : s !! i = Some c → drop i s = c :: drop (i + 1) s.
Proof. intros H. rewrite (drop_S s c i H). by rewrite Nat.add_1_r. Qed.

(** One round of the reference decoder at index [i], as far as the loop goes. *)
Lemma pct_decode_drop s i c :
  s !! i = Some c → (i + 2 < length s)%nat →
  ∃ a b, s !! (i + 1)%nat = Some a ∧ s !! (i + 2)%nat = Some b ∧
    pct_decode (drop i s) =
      if (c =? 37) && isxdigit a && isxdigit b
      then (16 * hex_to_uint a + hex_to_uint b) :: pct_decode (drop (i + 3) s)
      else c :: pct_decode (drop (i + 1) s).
Proof.
  intros Hc Hi.
  destruct (lookup_lt_is_Some_2 s (i + 1)) as [a Ha]; [lia|].
  destruct (lookup_lt_is_Some_2 s (i + 2)) as [b Hb]; [lia|].
  exists a, b. split_and!; [done..|].
  rewrite (drop_at s i c Hc), (drop_at s (i + 1) a Ha).
  replace (i + 1 + 1)%nat with (i + 2)%nat by lia.
  rewrite (drop_at s (i + 2) b Hb). by replace (i + 2 + 1)%nat with (i + 3)%nat by lia.
Qed.

Lemma take_insert_snoc (l : list Z) j x :
  (j < length l)%nat → take (j + 1) (<[j := x]> l) = take j l ++ [x].
Proof.
  intros Hj. rewrite Nat.add_1_r.
  rewrite (take_S_r _ j x) by (by rewrite list_lookup_insert_eq).
  by rewrite take_insert_ge by lia.
Qed.

Lemma percent_decode_loop_spec fuel s rest res i j :
  (length s - i ≤ fuel)%nat → (i ≤ length s)%nat → (2 ≤ length s)%nat → (j ≤ i)%nat →
  length res = (length s + 1)%nat →
  (length s - 2 < i → j + 2 ≤ i)%nat →
  ∃ res' i' j',
    percent_decode_loop fuel (s ++ rest) (length s) res i j = Val (res', i', j') ∧
    (length s - 2 ≤ i' ≤ length s)%nat ∧ (j' ≤ i')%nat ∧
    (length s - 2 < i' → j' + 2 ≤ i')%nat ∧
    length res' = (length s + 1)%nat ∧
    take j' res' ++ pct_decode (drop i' s) = take j res ++ pct_decode (drop i s).
Proof.
  revert res i j. induction fuel as [|fuel IH]; intros res i j Hf Hi Hn Hj Hres Hend;
    cbn [percent_decode_loop]; destruct (Nat.ltb_spec i (length s - 2)).
  1: lia. 1, 3: exists res, i, j; split_and!; done || lia.
  destruct (lookup_lt_is_Some_2 s i) as [c Hc]; [lia|].
  destruct (pct_decode_drop s i c Hc) as (a & b & Ha & Hb & ->); [lia|].
  rewrite !load_app_l, (load_Val _ _ _ Hc), (load_Val _ _ _ Ha), (load_Val _ _ _ Hb) by lia.
  cbn [obind].
  destruct (c =? 37) eqn:E0; [destruct (isxdigit a) eqn:E1; [destruct (isxdigit b) eqn:E2|]|];
    cbn -[percent_decode_loop pct_decode u8]; rewrite store_Val by lia;
    cbn -[percent_decode_loop pct_decode u8].
  1: edestruct (IH (<[j := u8 (Z.shiftl (hex_to_uint a) 4 + hex_to_uint b)]> res)
                   (i + 3)%nat (j + 1)%nat) as (res' & i' & j' & Heq & ? & ? & ? & ? & Hout).
  8-10: edestruct (IH (<[j := c]> res)
                   (i + 1)%nat (j + 1)%nat) as (res' & i' & j' & Heq & ? & ? & ? & ? & Hout).
  all: try (rewrite ?length_insert; lia).
  all: exists res', i', j'; split_and!; [done || lia..|].
  all: rewrite Hout, take_insert_snoc, <- app_assoc, ?hex_pair by lia; done.
Qed.

Lemma pct_decode_short s : (length s ≤ 2)%nat → pct_decode s = s.
Proof. destruct s as [|a [|b [|c s]]]; cbn; done || lia. Qed.

(** The copy of the last two bytes and the terminator. *)
Lemma finish_decode res j src i a b :
  (j + 2 < length res)%nat → take 2 (drop i src) = [a; b] →
  ∃ t, obind (λ res, store res (j + 2) 0) (memcpy res j src i 2)
       = Val (take j res ++ a :: b :: 0 :: t).
Proof.
  intros Hj Hab. assert (i + 2 ≤ length src)%nat as Hi.
  { apply (f_equal length) in Hab. rewrite length_take, length_drop in Hab. cbn [length] in Hab. lia. }
  rewrite memcpy_Val, Hab by lia. cbn [obind].
  rewrite store_Val by (rewrite !length_app, length_take, length_drop; cbn [length]; lia).
  rewrite insert_take_drop by (rewrite !length_app, length_take, length_drop; cbn [length]; lia).
  rewrite app_assoc, take_app_length' by (rewrite length_app, length_take; cbn [length]; lia).
  rewrite <- app_assoc. eexists. reflexivity.
Qed.

Lemma percent_decode_loop_tail fuel s rest res i j a b res' i' j' :
  s !! (length s - 3)%nat = Some 37 → s !! (length s - 2)%nat = Some a →
  s !! (length s - 1)%nat = Some b → isxdigit a = true → isxdigit b = true →
  (i + 3 ≤ length s)%nat →
  percent_decode_loop fuel (s ++ rest) (length s) res i j = Val (res', i', j') →
  i' = length s.
Proof.
  intros H37 Ha Hb Xa Xb. revert res i j. induction fuel as [|fuel IH]; intros res i j Hi;
    cbn [percent_decode_loop]; destruct (Nat.ltb_spec i (length s - 2)); try lia; [done|].
  destruct (lookup_lt_is_Some_2 s i) as [c Hc]; [lia|].
  destruct (pct_decode_drop s i c Hc) as (a' & b' & Ha' & Hb' & _); [lia|].
  rewrite !load_app_l, (load_Val _ _ _ Hc), (load_Val _ _ _ Ha'), (load_Val _ _ _ Hb') by lia.
  cbn [obind]. pose proof (hex_not_percent a'). pose proof (hex_not_percent b').
  destruct (decide (i = length s - 3)%nat) as [->|Hne].
  - replace (length s - 3 + 1)%nat with (length s - 2)%nat in Ha' by lia.
    replace (length s - 3 + 2)%nat with (length s - 1)%nat in Hb' by lia. simplify_eq.
    rewrite Xa, Xb. cbn -[percent_decode_loop u8]. destruct (store _ _ _); [|done].
    cbn [obind]. replace (length s - 3 + 3)%nat with (length s) by lia.
    destruct fuel; cbn [percent_decode_loop]; destruct (Nat.ltb_spec (length s) (length s - 2));
      try lia; naive_solver.
  - destruct (c =? 37), (isxdigit a') eqn:Ea, (isxdigit b') eqn:Eb;
      cbn -[percent_decode_loop u8]; destruct (store _ _ _); cbn [obind]; try done;
      apply IH; try lia.
    assert (i + 1 ≠ length s - 3 ∧ i + 2 ≠ length s - 3)%nat; [|lia].
    split; intros E; [rewrite E in Ha'|rewrite E in Hb']; simplify_eq; done.
Qed.

(** ** Segments *)

Section segments.
Context (c : Z).

Lemma split_on_head s :
  ∃ seg segs t, split_on c s = seg :: segs ∧ c ∉ seg ∧ s ++ [c] = seg ++ c :: t.
Proof.
  induction s as [|x s (seg & segs & t & E & Hc & IH)]; cbn [split_on].
  - exists [], [], []. set_solver.
  - destruct (Z.eqb_spec x c) as [->|Hx].
    + exists [], (split_on c s), (s ++ [c]). set_solver.
    + rewrite E. exists (x :: seg), segs, t. cbn. rewrite IH. set_solver.
Qed.

(** The first separator splits a string in one way only. *)
Lemma first_sep (u v t t' : list Z) :
  c ∉ u → c ∉ v → u ++ c :: t = v ++ c :: t' → u = v.
Proof.
  revert v. induction u as [|x u IH]; intros [|y v] Hu Hv E; simplify_eq/=; try set_solver.
  f_equal. apply IH; set_solver.
Qed.

(** The segments after the first are the stretches between two separators. *)
Lemma split_on_tail s seg :
  c ∉ seg →
  seg ∈ tail (split_on c s) ↔ ∃ a b, s ++ [c] = a ++ c :: seg ++ c :: b.
Proof.
  intros Hseg. induction s as [|x s IH]; cbn [split_on].
  - split; [set_solver|]. intros (a & b & E).
    apply (f_equal length) in E. rewrite !length_app in E. cbn in E.
    rewrite length_app in E. cbn in E. lia.
  - destruct (split_on_head s) as (hd & segs & t & E & Hhd & Ht). rewrite E in *.
    destruct (Z.eqb_spec x c) as [->|Hx]; cbn [tail] in *; rewrite ?elem_of_cons, IH; split.
    + intros [->|(a & b & Hab)]; [exists [], t|exists (c :: a), b]; cbn; congruence.
    + intros ([|y a] & b & Hab); simplify_eq/=; [left|right; eauto].
      apply (first_sep seg hd b t); congruence.
    + intros (a & b & Hab). exists (x :: a), b. cbn. by rewrite Hab.
    + intros ([|y a] & b & Hab); simplify_eq/=. eauto.
Qed.

Lemma split_on_elem s seg :
  c ∉ seg → seg ∈ split_on c s ↔ ∃ a b, c :: s ++ [c] = a ++ c :: seg ++ c :: b.
Proof.
  intros Hseg. pose proof (split_on_tail (c :: s) seg Hseg) as H.
  cbn [split_on] in H. rewrite Z.eqb_refl in H. done.
Qed.

(** A stretch between separators is in the middle or at the end. *)
Lemma sep_middle_end s seg :
  (∃ a b, c :: s ++ [c] = a ++ c :: seg ++ c :: b) ↔
  (∃ a b, c :: s = a ++ (c :: seg ++ [c]) ++ b) ∨ (∃ a, c :: s = a ++ c :: seg).
Proof.
  split.
  - intros (a & b & E). destruct b as [|z b' _] using rev_ind.
    + right. exists a. change (c :: s ++ [c]) with ((c :: s) ++ [c]) in E.
      rewrite app_comm_cons, app_assoc in E. apply app_inj_tail in E as [E _]. done.
    + left. exists a, b'. change (c :: s ++ [c]) with ((c :: s) ++ [c]) in E.
      replace (a ++ c :: seg ++ c :: b' ++ [z]) with ((a ++ (c :: seg ++ [c]) ++ b') ++ [z]) in E
        by (by rewrite <- !app_assoc; cbn; rewrite <- !app_assoc).
      apply app_inj_tail in E as [E _]. done.
  - intros [(a & b & E)|(a & E)]; change (c :: s ++ [c]) with ((c :: s) ++ [c]); rewrite E.
    + exists a, (b ++ [c]). by rewrite <- !app_assoc; cbn; rewrite <- !app_assoc.
    + exists a, []. by rewrite <- app_assoc.
Qed.

Lemma seg_absent s seg :
  c ∉ seg →
  seg ∉ split_on c s ↔
  strstr (c :: s) (c :: seg ++ [c]) = None ∧ ends_with (c :: s) (c :: seg) = 0.
Proof.
  intros Hseg. rewrite split_on_elem, sep_middle_end, strstr_None by done.
  pose proof (ends_with_spec (c :: s) (c :: seg)) as He.
  split.
  - intros H. split; [intros a b E; eauto|].
    destruct (ends_with_01 (c :: s) (c :: seg)) as [|E]; [done|].
    destruct He as [He _]. destruct H. right. apply He. lia.
  - intros [Hm H0] [(a & b & E)|(a & E)]; [by eapply Hm|].
    destruct He as [_ He]. destruct He; eauto.
Qed.

End segments.

Lemma check_path_segments p :
  check_path p = true ↔
  ∃ s, p = 47 :: s ∧ 92 ∉ p ∧ bs "." ∉ split_on 47 s ∧ bs ".." ∉ split_on 47 s.
Proof.
  unfold check_path. rewrite !andb_true_iff, !bool_decide_eq_true, !negb_true_iff.
  rewrite !negb_false_iff, strchr_None, Z.eqb_neq, !Z.eqb_eq. split.
  - intros [[[[[[H0 H1] H2] H3] H4] H5] H6]. destruct p as [|x s]; [done|]. cbn in H1. subst x.
    exists s. split_and!; [done..| |]; apply seg_absent; set_solver.
  - intros (s & -> & H2 & H3 & H4). apply seg_absent in H3 as [??]; [|set_solver].
    apply seg_absent in H4 as [??]; [|set_solver]. split_and!; done.
Qed.

Lemma walk_plain below segs :
  bs "." ∉ segs → bs ".." ∉ segs →
  walk below segs = Some (reverse (filter (λ seg, seg ≠ []) segs) ++ below).
Proof.
  revert below. induction segs as [|seg segs IH]; intros below H1 H2; [done|]. cbn [walk].
  apply not_elem_of_cons in H1 as [H1 ?]. apply not_elem_of_cons in H2 as [H2 ?].
  rewrite filter_cons. destruct (decide (seg = [])) as [->|Hs].
  - rewrite bool_decide_true, decide_False by auto. by apply IH.
  - rewrite bool_decide_false by naive_solver. rewrite bool_decide_false by done.
    rewrite decide_True by done. rewrite IH, reverse_cons, <- app_assoc by done. done.
Qed.

Lemma hex_digit_ok d : 0 ≤ d < 16 → isxdigit (hex_digit d) = true ∧ hex_to_uint (hex_digit d) = d.
Proof.
  intros Hd. assert (d ∈ seqZ 0 16) as Hin by (by apply elem_of_seqZ).
  clear Hd. cbv -[isxdigit hex_to_uint hex_digit] in Hin.
  repeat (apply elem_of_cons in Hin as [->|Hin]; [done|]). by apply elem_of_nil in Hin.
Qed.

Lemma pct_decode_cons c s : (c =? 37) = false → pct_decode (c :: s) = c :: pct_decode s.
Proof. intros Hc. destruct s as [|a [|b s]]; cbn; rewrite ?Hc; done. Qed.

Lemma pct_decode_encode s : is_bytes s → pct_decode (pct_encode s) = s.
Proof.
  unfold pct_encode. induction 1 as [|c s Hc _ IH]; [done|]. unfold is_byte in Hc.
  rewrite bind_cons. unfold pct_encode1 at 1.
  destruct (unreserved c) eqn:Hu.
  - cbn [app]. rewrite pct_decode_cons, IH; [done|].
    unfold unreserved, isdigit, isupper in Hu. lia.
  - destruct (hex_digit_ok (c `div` 16)) as [X1 V1]; [zlia|].
    destruct (hex_digit_ok (c `mod` 16)) as [X2 V2]; [zlia|].
    cbn [app pct_decode]. rewrite X1, X2, V1, V2, IH. cbn. f_equal. zlia.
Qed.

(** The loop only stops behind the last byte after an escape at the end. *)
Lemma percent_decode_loop_end fuel s rest res i j res' i' j' :
  (i < length s)%nat →
  percent_decode_loop fuel (s ++ rest) (length s) res i j = Val (res', i', j') →
  i' = length s → ends_in_escape s.
Proof.
  revert res i j. induction fuel as [|fuel IH]; intros res i j Hi;
    cbn [percent_decode_loop]; destruct (Nat.ltb_spec i (length s - 2)); try done;
    try (intros [= <- <- <-]; lia).
  destruct (lookup_lt_is_Some_2 s i) as [c Hc]; [lia|].
  destruct (pct_decode_drop s i c Hc) as (a & b & Ha & Hb & _); [lia|].
  rewrite !load_app_l, (load_Val _ _ _ Hc), (load_Val _ _ _ Ha), (load_Val _ _ _ Hb) by lia.
  cbn [obind]. destruct (Z.eqb_spec c 37) as [->|], (isxdigit a) eqn:Xa, (isxdigit b) eqn:Xb;
    cbn -[percent_decode_loop u8]; destruct (store _ _ _); cbn [obind]; try done; try (apply IH; lia).
  destruct (decide (i + 3 = length s)%nat) as [E|E]; [|apply IH; lia].
  intros _ _. exists (take i s), a, b. split_and!; try done.
  rewrite <- (take_drop i s) at 1. f_equal. rewrite (drop_at s i 37 Hc), (drop_at s (i + 1) a Ha).
  replace (i + 1 + 1)%nat with (i + 2)%nat by lia.
  rewrite (drop_at s (i + 2) b Hb), drop_ge; [done|lia].
Qed.

(** [percent_decode] on a long value with readable bytes after it. *)
Lemma percent_decode_long s rest res :
  (3 < length s)%nat → length res = (length s + 1)%nat →
  (1 < length rest)%nat ∨ rest = [0] ∧ ¬ ends_in_escape s → head rest = Some 0 →
  ∃ t, percent_decode (s ++ rest) (length s) (Some res) = Val (pct_decode s ++ 0 :: t).
Proof.
  intros Hn Hres Hrest Hz. unfold percent_decode. apply Nat.ltb_lt in Hn as Hn'. rewrite Hn'.
  destruct (percent_decode_loop_spec (length s) s rest res 0 0)
    as (res' & i & j & E & Hi & Hj & Hend & Hres' & Hout); [lia..|].
  rewrite E. cbn [obind]. rewrite take_0, drop_0, app_nil_l in Hout.
  rewrite (pct_decode_short (drop i s)) in Hout by (rewrite length_drop; lia).
  assert (length (drop i s) ≤ 2)%nat as Hl by (rewrite length_drop; lia).
  destruct rest as [|z rest]; [done|]. injection Hz as ->.
  destruct (finish_decode res' j (s ++ 0 :: rest) i
              (nth 0 (drop i s ++ 0 :: rest) 0) (nth 1 (drop i s ++ 0 :: rest) 0)) as [t ->].
  - lia.
  - rewrite drop_app_le by lia. destruct (drop i s) as [|a [|b [|]]] eqn:Ed; cbn in *; try lia; try done.
    destruct rest as [|x rest]; [|done]. exfalso. destruct Hrest as [?|[_ Hrest]]; [cbn in *; lia|].
    apply Hrest. eapply percent_decode_loop_end; [|exact E|]; [lia|].
    apply (f_equal length) in Ed. rewrite length_drop in Ed. cbn in Ed. lia.
  - rewrite <- Hout. destruct (drop i s) as [|a [|b [|]]]; cbn in Hl |- *; try lia;
      eexists; rewrite <- app_assoc; reflexivity.
Qed.

(** On a value of at most three bytes. *)
Lemma percent_decode_copy s rest res :
  (length s ≤ 3)%nat → length res = (length s + 1)%nat →
  percent_decode (s ++ rest) (length s) (Some res) = Val (s ++ [0]).
Proof.
  intros Hs Hres. unfold percent_decode. rewrite (proj2 (Nat.ltb_ge _ _)) by lia.
  rewrite memcpy_Val by (rewrite ?length_app; lia). cbn [obind].
  rewrite drop_0, take_app_length, take_0, app_nil_l.
  rewrite store_Val by (rewrite length_app, length_drop; lia).
  rewrite insert_take_drop by (rewrite length_app, length_drop; lia).
  rewrite take_app_length, (drop_ge (s ++ _)); [done|].
  rewrite length_app, length_drop. lia.
Qed.

Lemma pct_decode_three s : (length s ≤ 3)%nat → ¬ ends_in_escape s → pct_decode s = s.
Proof.
  intros Hl Hs. destruct s as [|c [|a [|b [|]]]]; try (cbn in *; done || lia).
  cbn. destruct (Z.eqb_spec c 37) as [->|], (isxdigit a) eqn:?, (isxdigit b) eqn:?; cbn; try done.
  destruct Hs. by exists [], a, b.
Qed.

(** A terminated value that does not end in an escape is decoded. *)
Lemma percent_decode_total s res :
  ¬ ends_in_escape s → length res = (length s + 1)%nat →
  ∃ t, percent_decode (s ++ [0]) (length s) (Some res) = Val (pct_decode s ++ 0 :: t).
Proof.
  intros Hs Hres. destruct (decide (3 < length s)%nat).
  - apply percent_decode_long; auto.
  - exists []. rewrite pct_decode_three by (done || lia). apply percent_decode_copy; lia.
Qed.

(** ** Encodings *)

Lemma pct_encode_snoc s c : pct_encode (s ++ [c]) = pct_encode s ++ pct_encode1 c.
Proof. unfold pct_encode. by rewrite bind_app, bind_singleton. Qed.

Lemma hex_digit_percent d : 0 ≤ d < 16 → hex_digit d ≠ 37.
Proof. unfold hex_digit. destruct (Z.ltb_spec d 10); lia. Qed.

Lemma unreserved_byte c : unreserved c = true → is_byte c.
Proof. unfold unreserved, isdigit, isupper, is_byte. intros. lia. Qed.

Lemma bytes_snoc s c : is_bytes (s ++ [c]) → is_bytes s ∧ 0 ≤ c < 256.
Proof. intros [Hs Hc]%Forall_app. split; [done|]. by inversion Hc. Qed.

(** An encoding does not end inside an escape. *)
Lemma pct_encode_not_inside s p a :
  is_bytes s → pct_encode s ≠ p ++ [37] ∧ pct_encode s ≠ p ++ [37; a].
Proof.
  assert (∀ s p, is_bytes s → pct_encode s ≠ p ++ [37]) as H1.
  { clear. intros s p. induction s as [|c s _] using rev_ind; intros Hs E; [by destruct p|].
    apply bytes_snoc in Hs as [_ Hc].
    rewrite pct_encode_snoc in E. unfold pct_encode1 in E. destruct (unreserved c) eqn:Hu.
    - apply app_inj_tail in E as [_ ->]. done.
    - rewrite (app_assoc _ [37; _] [_] : _ ++ [37; _; _] = _) in E. apply app_inj_tail in E as [_ E].
      by apply hex_digit_percent in E; [|zlia]. }
  intros Hs. split; [by apply H1|]. intros E.
  destruct s as [|c s _] using rev_ind; [by destruct p|].
  apply bytes_snoc in Hs as [Hs Hc].
  rewrite pct_encode_snoc in E. unfold pct_encode1 in E.
  change (p ++ [37; a]) with (p ++ [37] ++ [a]) in E. rewrite app_assoc in E.
  destruct (unreserved c).
  - apply app_inj_tail in E as [E _]. by apply H1 in E.
  - change [37; ?x; ?y] with ([37; x] ++ [y]) in E. rewrite app_assoc in E.
    apply app_inj_tail in E as [E _]. change [37; ?x] with ([37] ++ [x]) in E. rewrite app_assoc in E.
    apply app_inj_tail in E as [_ E]. by apply hex_digit_percent in E; [|zlia].
Qed.

Lemma pct_encode_end s c :
  is_bytes s → unreserved c = true → ¬ ends_in_escape (pct_encode (s ++ [c])).
Proof.
  intros Hs Hc (p & a & b & E & _). rewrite pct_encode_snoc in E. unfold pct_encode1 in E.
  rewrite Hc in E. change (p ++ [37; a; b]) with (p ++ [37; a] ++ [b]) in E. rewrite app_assoc in E.
  apply app_inj_tail in E as [E _]. by apply (pct_encode_not_inside s p a) in E.
Qed.

(** * Properties *)

(** C1: [check_path] accepts a path exactly when it starts with a slash, has no
    backslash, and none of its slash-separated segments is a single or a double
    dot. *)
Theorem check_path_spec p :
  check_path p = true ↔
  ∃ s, p = 47 :: s ∧ 92 ∉ p ∧
       Forall (λ seg, seg ≠ bs "." ∧ seg ≠ bs "..") (split_on 47 s).
Proof.
  rewrite check_path_segments. setoid_rewrite Forall_and. setoid_rewrite Forall_forall.
  split; intros (s & -> & Hb & H1 & H2); exists s; split_and!; naive_solver.
Qed.

(** C10: an accepted path cannot leave the directory it is resolved in: walking
    its segments from any directory never goes above it, and ends in the
    directory extended by the non-empty segments. *)
Theorem check_path_no_traversal p :
  check_path p = true →
  ∃ s, p = 47 :: s ∧ ∀ below,
    walk below (split_on 47 s)
    = Some (reverse (filter (λ seg, seg ≠ []) (split_on 47 s)) ++ below).
Proof.
  intros (s & -> & _ & H1 & H2)%check_path_segments.
  exists s. split; [done|]. intros below. by apply walk_plain.
Qed.

Lemma check_path_no_traversal_witness :
  check_path (bs "/a//b..c/d") = true ∧
  ∃ s, bs "/a//b..c/d" = 47 :: s ∧ ∀ below,
    walk below (split_on 47 s)
    = Some (reverse (filter (λ seg, seg ≠ []) (split_on 47 s)) ++ below).
Proof. split; [vm_compute; reflexivity|]. apply check_path_no_traversal. vm_compute. reflexivity. Defined.

(** C2: for every value that is followed by its terminator and does not end in an
    escape, and for every block that [malloc] returned, [percent_decode]
    terminates, reads no byte after the terminator, stays inside the block, and
    leaves there the string the recursive decoder gives, with a terminator. *)
Theorem percent_decode_correct s res :
  ¬ ends_in_escape s → length res = (length s + 1)%nat →
  ∃ t, percent_decode (s ++ [0]) (length s) (Some res) = Val (pct_decode s ++ 0 :: t).
Proof. apply percent_decode_total. Qed.

Lemma percent_decode_correct_witness :
  pct_decode (bs "/a%2Fb") = bs "/a/b" ∧
  ∃ t, percent_decode (bs "/a%2Fb" ++ [0]) (length (bs "/a%2Fb")) (Some (replicate 7 255))
       = Val (pct_decode (bs "/a%2Fb") ++ 0 :: t).
Proof.
  split; [vm_compute; reflexivity|].
  apply (percent_decode_correct (bs "/a%2Fb") (replicate 7 255)); [|vm_compute; reflexivity].
  intros (p & a & b & E & Ha & Hb). apply (f_equal reverse) in E. rewrite reverse_app in E.
  by injection E as <- <- ?.
Defined.

(** Note: a value that ends in an escape makes [percent_decode] read two bytes
    past its end; when only the terminator follows the value, which is what
    nghttp2 guarantees, the second of them is outside the object. *)
Theorem percent_decode_overread p a b res :
  p ≠ [] → isxdigit a = true → isxdigit b = true →
  length res = (length p + 4)%nat →
  percent_decode ((p ++ [37; a; b]) ++ [0]) (length (p ++ [37; a; b])) (Some res)
  = Stopped (Undefined "read outside the object").
Proof.
  intros Hp Xa Xb Hres. set (s := p ++ [37; a; b]).
  assert (length s = (length p + 3)%nat) as Hl by (unfold s; by rewrite length_app).
  assert (0 < length p)%nat by (destruct p; cbn; done || lia).
  unfold percent_decode. rewrite (proj2 (Nat.ltb_lt 3 (length s))) by lia.
  destruct (percent_decode_loop_spec (length s) s [0] res 0 0)
    as (res' & i & j & E & Hi & Hj & Hend & Hres' & _); [lia..|].
  rewrite E. cbn [obind]. apply (percent_decode_loop_tail _ _ _ _ _ _ a b) in E; [|try done..].
  - rewrite memcpy_oob; [done|..]; rewrite ?length_app; cbn [length]; lia.
  - rewrite Hl. unfold s. rewrite lookup_app_r by lia.
    by replace (length p + 3 - 3 - length p)%nat with 0%nat by lia.
  - rewrite Hl. unfold s. rewrite lookup_app_r by lia.
    by replace (length p + 3 - 2 - length p)%nat with 1%nat by lia.
  - rewrite Hl. unfold s. rewrite lookup_app_r by lia.
    by replace (length p + 3 - 1 - length p)%nat with 2%nat by lia.
  - lia.
Qed.

Lemma percent_decode_overread_witness :
  percent_decode ((bs "/" ++ [37; 52; 49]) ++ [0]) (length (bs "/" ++ [37; 52; 49])) (Some (replicate 5 0))
  = Stopped (Undefined "read outside the object").
Proof. apply (percent_decode_overread (bs "/") 52 49 (replicate 5 0)); vm_compute; first [reflexivity | discriminate]. Defined.

(** C13: what an RFC 3986 encoder produces from bytes of which the last needs no
    escape is decoded to these bytes: followed by its terminator alone, whatever
    its length and whatever the block held. *)
Theorem percent_decode_encode s c res :
  is_bytes s → unreserved c = true →
  length res = (length (pct_encode (s ++ [c])) + 1)%nat →
  ∃ t, percent_decode (pct_encode (s ++ [c]) ++ [0]) (length (pct_encode (s ++ [c]))) (Some res)
       = Val (s ++ [c] ++ 0 :: t).
Proof.
  intros Hs Hc Hres.
  destruct (percent_decode_total (pct_encode (s ++ [c])) res) as [t ->];
    [by apply pct_encode_end|done|].
  exists t. rewrite pct_decode_encode, <- app_assoc; [done|].
  apply Forall_app. split; [done|]. by apply Forall_singleton, unreserved_byte.
Qed.

Lemma percent_decode_encode_witness :
  ∃ t, percent_decode (pct_encode (bs "/a b?" ++ [99]) ++ [0]) (length (pct_encode (bs "/a b?" ++ [99])))
         (Some (replicate 11 0)) = Val (bs "/a b?" ++ [99] ++ 0 :: t).
Proof.
  apply (percent_decode_encode (bs "/a b?") 99 (replicate 11 0));
    [apply bs_bytes | vm_compute; reflexivity..].
Defined.

End HttpPath.
