(* ===== verification/Epoll.v ===== *)
(** The epoll echo server (src/sockets/epoll/epoll_server.cc).

    The state of the loop is the one variable that survives a round, the
    [conn_sock] of the last accepted connection, indeterminate before the first
    [accept].  [main] is the set-up followed by any number of rounds of
    [epoll_wait]; the inner read loop has a fuel of its own. *)

From stdpp Require Import base list gmap strings.
From S2P Require Import Prelude Io Posix CLib.

Local Open Scope Z_scope.
Local Open Scope cs_scope.

Module Epoll.

Definition SERVER_PORT : Z := 3000.
Definition MAX_CONN : Z := 16.
Definition MAX_EVENTS : nat := 32.
Definition BUF_SIZE : nat := 256.

(** The [unordered_map] of [printReadError]: of two entries with one key the
    first is kept, and EAGAIN and EWOULDBLOCK are one number. *)
Definition read_errors : list (Z * string) :=
  [(EAGAIN, "EAGAIN"); (EWOULDBLOCK, "EWOULDBLOCK"); (EBADF, "EBADF"); (EFAULT, "EFAULT");
   (EINTR, "EINTR"); (EINVAL, "EINVAL"); (EIO, "EIO")]%string.

Fixpoint assoc (k : Z) (l : list (Z * string)) : option string :=
  match l with
  | [] => None
  | (k', v) :: l' => if k =? k' then Some v else assoc k l'
  end.

Definition printReadError (error : Z) : prog sysR unit :=
  let sError := match assoc error read_errors with
                | Some s => s
                | None => "UNKNOWN_ERROR"%string
                end in
  print [T "read error, "; T sError; T " "; Err error].

(** The buffer after [bzero] and a [read] of [data]. *)
Definition filled (data : list Z) : list Z :=
  data ++ replicate (BUF_SIZE - length data) 0.

(** The [do]/[while] loop that reads from [conn_sock] and echoes. *)
Fixpoint read_loop (fuel : nat) (conn : option Z) : prog sysR unit :=
  match fuel with
  | O => Halt OutOfFuel
  | S fuel' =>
      match conn with
      | None => Halt (Undefined "conn_sock is indeterminate")
      | Some fd =>
          r ⇐ call (Read fd BUF_SIZE);
          if rret r <? 0 then printReadError (rerrno r)
          else if 0 <? rret r then
            let buf := filled (rdata r) in
            match cstr buf with
            | None => Halt (Undefined "buf is printed without a terminator")
            | Some s =>
                print [T "data "; B s] ;;;
                w ⇐ call (Write fd (take (Z.to_nat (rret r)) buf));
                if ret w <? 0 then print [T "write error"]
                else read_loop fuel' conn
            end
          else print [T "No bytes read"]
      end
  end.

Section server.
Context (listen_sock epfd : Z) (fuel : nat).

(** One iteration of the [for] over the reported events. *)
Definition handle_event (conn : option Z) (ev : epoll_event) : prog sysR (option Z) :=
  conn' ⇐
    (if ev_fd ev =? listen_sock then
       a ⇐ call (Accept listen_sock);
       let conn_sock := ret a.1 in
       g ⇐ call (Fcntl conn_sock F_GETFD 0);
       s ⇐ call (Fcntl conn_sock F_SETFD (Z.lor (ret g) O_NONBLOCK));
       if ret s =? -1 then
         print [T "failed to set connected socket to be non blocking"] ;;; Halt (Exit (-1))
       else
         print [T "connected with "; Ip (sin_addr a.2); T " "; N (ntohs (sin_port a.2))] ;;;
         c ⇐ call (EpollCtl epfd EPOLL_CTL_ADD conn_sock
                    (Some {| ev_events := Z.lor (Z.lor (Z.lor EPOLLIN EPOLLET) EPOLLRDHUP) EPOLLHUP;
                             ev_fd := epfd |}));
         if ret c =? -1 then print [T "failed epoll_ctl"] ;;; Halt (Exit (-1))
         else Ret (Some conn_sock)
     else if negb (Z.land (ev_events ev) EPOLLIN =? 0) then
       read_loop fuel conn ;;; Ret conn
     else print [T "unexpected event"] ;;; Ret conn);
  if negb (Z.land (ev_events ev) (Z.lor EPOLLRDHUP EPOLLHUP) =? 0) then
    print [T "connection closed"] ;;;
    call (EpollCtl epfd EPOLL_CTL_DEL (ev_fd ev) None) ;;;
    call (Close (ev_fd ev)) ;;;
    Ret conn'
  else Ret conn'.

Fixpoint handle_events (conn : option Z) (evs : list epoll_event) : prog sysR (option Z) :=
  match evs with
  | [] => Ret conn
  | ev :: evs' => conn' ⇐ handle_event conn ev; handle_events conn' evs'
  end.

(** The body of [while(true)]. *)
Definition round (conn : option Z) : prog sysR (option Z) :=
  r ⇐ call (EpollWait epfd MAX_EVENTS (-1));
  handle_events conn (take (Z.to_nat (ret r.1)) r.2).

End server.

(** The set-up: a listening socket and an epoll instance that watches it. *)
Definition setup : prog sysR (Z * Z) :=
  s ⇐ call (Socket AF_INET SOCK_STREAM 0);
  let listen_sock := ret s in
  call (Bind listen_sock (Inet {| sin_port := htons SERVER_PORT; sin_addr := INADDR_ANY |})) ;;;
  g ⇐ call (Fcntl listen_sock F_GETFD 0);
  f ⇐ call (Fcntl listen_sock F_SETFD (Z.lor (ret g) O_NONBLOCK));
  if ret f =? -1 then
    print [T "failed to set listening socket to be non blocking"] ;;; Halt (Exit (-1))
  else
    l ⇐ call (Listen listen_sock MAX_CONN);
    if ret l <? 0 then print [T "Listed failed "; N (errno l)] ;;; Halt (Exit (-1))
    else
      e ⇐ call (EpollCreate 1);
      let epfd := ret e in
      c ⇐ call (EpollCtl epfd EPOLL_CTL_ADD listen_sock
                 (Some {| ev_events := Z.lor (Z.lor EPOLLIN EPOLLOUT) EPOLLET; ev_fd := listen_sock |}));
      if ret c =? -1 then print [T "failed initial epoll_ctl"] ;;; Halt (Exit (-1))
      else Ret (listen_sock, epfd).

(** [main] for [rounds] rounds of the endless loop. *)
Definition main (rounds fuel : nat) : prog sysR (option Z) :=
  fds ⇐ setup;
  iterate rounds (round fds.1 fds.2 fuel) None.

(** * Invariant of the loop *)

Section invariant.
(** [ok] is what is assumed of the kernel, at least the documentation; [U] the
    undefined behaviour that is possible under it. *)
Context (ok : systrace → ∀ e, sysR e → Prop) (U : string → Prop).
Context (Hok : ∀ h e r, ok h e r → sys_ok h e r).
Context (HU : ∀ h fd r, ok h (Read fd BUF_SIZE) r → 0 < rret r →
                        cstr (filled (rdata r)) = None →
                        U "buf is printed without a terminator").
Context (listen_sock epfd : Z) (fuel : nat).

Definition clean (h : systrace) : Prop :=
  Forall (λ fd, fd = listen_sock ∨ fd = epfd) (view v_close h).

Definition Inv (h : systrace) (conn : option Z) : Prop :=
  Forall (λ d, d = listen_sock ∨ d = epfd ∧ is_Some conn) (registered epfd h) ∧
  view v_read h = view v_write h ∧ clean h.

Definition post (h : systrace) (o : outcome (option Z)) : Prop :=
  match o with
  | Val conn => Inv h conn
  | Stopped s => clean h ∧ ∀ why, s = Undefined why → U why
  end.

(** Events that neither transfer, register nor close. *)
Lemma Inv_silent h conn e r :
  v_registered epfd e r = None → v_read e r = None → v_write e r = None → v_close e r = None →
  Inv h conn → Inv (h ++ [Ev e r]) conn.
Proof.
  intros E1 E2 E3 E4. unfold Inv, clean. rewrite !view_snoc, E1, E2, E3, E4.
  cbn. by rewrite !app_nil_r.
Qed.

Lemma Inv_some h conn fd : Inv h conn → Inv h (Some fd).
Proof.
  intros (H & ? & ?). split_and!; [|done..].
  eapply Forall_impl; [exact H|]. cbn. naive_solver.
Qed.

Lemma Inv_post_stop h conn s :
  Inv h conn → (∀ why, s = Undefined why → U why) → post h (Stopped s).
Proof. intros (_ & _ & ?) ?. by split. Qed.

Lemma read_data fd h r :
  ok h (Read fd BUF_SIZE) r → 0 < rret r →
  take (Z.to_nat (rret r)) (filled (rdata r)) = rdata r.
Proof.
  intros [?|(? & Hl & _)]%Hok ?; [lia|]. unfold filled.
  rewrite <- Hl, Nat2Z.id. apply take_app_length.
Qed.

Lemma Inv_echo h conn fd n r l w :
  0 < rret r → Inv h conn →
  Inv (((h ++ [Ev (Read fd n) r]) ++ [Ev (Print l) ()]) ++ [Ev (Write fd (rdata r)) w]) conn.
Proof.
  intros Hr%Z.ltb_lt (H1 & H2 & H3). unfold Inv, clean in *. autorewrite with cs.
  cbn. rewrite Hr. cbn. rewrite !app_nil_r, H2. done.
Qed.

Lemma Inv_noread h conn fd n r : ¬ 0 < rret r → Inv h conn → Inv (h ++ [Ev (Read fd n) r]) conn.
Proof. intros Hr%Z.ltb_nlt. apply Inv_silent; cbn; by rewrite ?Hr. Qed.

Lemma read_loop_wp n fd h :
  Inv h (Some fd) →
  wp ok (read_loop n (Some fd)) (λ h' o, match o with
    | Val _ => Inv h' (Some fd)
    | Stopped s => clean h' ∧ ∀ why, s = Undefined why → U why end) h.
Proof.
  revert h. induction n as [|n IH]; intros h HI; cbn [read_loop].
  { split; [apply HI|done]. }
  wp_step. cbn. intros r Hr. destruct (Z.ltb_spec (rret r) 0); [|destruct (Z.ltb_spec 0 (rret r))].
  - cbn. intros [] _. apply Inv_silent, Inv_noread; done || lia.
  - destruct (cstr _) eqn:Ec; cbn.
    + intros [] _ w _. rewrite (read_data fd h) by done.
      assert (HI' := Inv_echo h (Some fd) fd BUF_SIZE r [T "data "; B l] w ltac:(done) HI).
      destruct (ret w <? 0); [cbn; intros [] _; by apply Inv_silent|by apply IH].
    + split; [|intros ? [= <-]; by eapply HU].
      destruct HI as (_ & _ & Hc). unfold clean in *. by rewrite view_snoc, app_nil_r.
  - cbn. intros [] _. apply Inv_silent, Inv_noread; done || lia.
Qed.

Lemma Inv_register h conn fd ev r :
  ev_fd ev = epfd → is_Some conn → Inv h conn →
  Inv (h ++ [Ev (EpollCtl epfd EPOLL_CTL_ADD fd (Some ev)) r]) conn.
Proof.
  intros Hev Hc (H1 & H2 & H3). unfold Inv, clean in *. autorewrite with cs. cbn.
  rewrite !app_nil_r, Z.eqb_refl. cbn. split_and!; [|done..].
  apply Forall_app; split; [done|]. destruct (ret r =? 0); cbn; auto.
Qed.

Lemma Inv_close h conn fd r :
  fd = listen_sock ∨ fd = epfd → Inv h conn → Inv (h ++ [Ev (Close fd) r]) conn.
Proof.
  intros Hfd (H1 & H2 & H3). unfold Inv, clean in *. autorewrite with cs. cbn.
  rewrite !app_nil_r. split_and!; [done..|]. apply Forall_app; auto.
Qed.

Ltac silent := apply Inv_silent; [done..|].

Lemma handle_event_wp h conn ev :
  Inv h conn → ev_fd ev ∈ registered epfd h →
  wp ok (handle_event listen_sock epfd fuel conn ev) post h.
Proof.
  intros HI Hev. unfold handle_event.
  assert (ev_fd ev = listen_sock ∨ ev_fd ev = epfd ∧ is_Some conn) as Hfd.
  { destruct HI as [HI _]. by eapply Forall_forall in HI. }
  wp_step. eapply (wp_mono _ _ post).
  - intros h' [conn'|s] HI'; cbn in *; [|done].
    destruct (negb _); [|done]. cbn. intros [] _ r _ r' _.
    apply Inv_close; [naive_solver|]. silent. silent. done.
  - destruct (Z.eqb_spec (ev_fd ev) listen_sock).
    + cbn. intros a _ g _ s _. apply (Inv_some _ _ (ret a.1)) in HI.
      destruct (ret s =? -1); cbn; intros [] _.
      { eapply Inv_post_stop; [|done]. do 4 silent. done. }
      intros c _. destruct (ret c =? -1); cbn; [intros [] _|].
      * eapply Inv_post_stop; [|done]. silent. apply Inv_register; [done..|]. do 4 silent. done.
      * apply Inv_register; [done..|]. do 4 silent. done.
    + destruct Hfd as [?|[? [fd ->]]]; [done|]. destruct (negb _).
      * wp_step. eapply wp_mono; [|by apply read_loop_wp]. by intros h' [[]|s] HI'.
      * cbn. intros [] _. by silent.
Qed.

Lemma handle_events_wp h conn evs :
  Inv h conn → Forall (λ ev, ev_fd ev ∈ registered epfd h) evs →
  wp ok (handle_events listen_sock epfd fuel conn evs) post h.
Proof.
  intros HI Hevs. revert h conn HI Hevs.
  induction evs as [|ev evs IH]; intros h conn HI Hevs; [done|]. cbn [handle_events].
  apply Forall_cons in Hevs as [Hev Hevs]. wp_step.
  eapply wp_mono; [|by apply wp_prefix, handle_event_wp].
  intros h' [conn'|s] [HI' Hpre]; [|done]. apply IH; [done|].
  eapply Forall_impl; [exact Hevs|]. intros ev'. by apply view_prefix.
Qed.

Lemma round_wp h conn : Inv h conn → wp ok (round listen_sock epfd fuel conn) post h.
Proof.
  intros HI. unfold round. wp_step. cbn. intros r Hr. apply handle_events_wp; [by silent|].
  rewrite view_snoc. cbn. rewrite app_nil_r. apply Hok in Hr as [[_ ->]|(_ & _ & Hr)].
  - by rewrite take_nil.
  - by apply Forall_take.
Qed.

Lemma rounds_wp n h conn : Inv h conn → wp ok (iterate n (round listen_sock epfd fuel) conn) post h.
Proof.
  intros HI. eapply wp_mono; [|apply (wp_iterate ok n _ Inv (λ h s, post h (Stopped s)))].
  - by intros h' [].
  - intros h' conn' HI'. eapply wp_mono; [|by apply round_wp]. by intros h'' [].
  - done.
Qed.

End invariant.

(** The history left by the set-up. *)
Lemma setup_wp ok (Q : systrace → outcome (Z * Z) → Prop) :
  (∀ h l e, Inv l e h None → l ∈ view v_socket h → e ∈ view v_epoll h → Q h (Val (l, e))) →
  (∀ h, view v_close h = [] → Q h (Stopped (Exit (-1)))) →
  wp ok setup Q [].
Proof.
  intros HV HS. unfold setup. cbn. intros s _ b _ g _ f _. destruct (ret f =? -1); cbn.
  { intros [] _. by apply HS. }
  intros l _. destruct (ret l <? 0); cbn. { intros [] _. by apply HS. }
  intros e _ c _. destruct (ret c =? -1); cbn. { intros [] _. by apply HS. }
  apply HV; [|cbn; set_solver..]. unfold Inv, clean. cbn. rewrite Z.eqb_refl. cbn.
  split_and!; [|done..]. destruct (ret c =? 0); repeat constructor.
Qed.

Definition closes_own (h : systrace) : Prop :=
  Forall (λ fd, fd ∈ view v_socket h ∨ fd ∈ view v_epoll h) (view v_close h).

Lemma main_wp ok (U : string → Prop) rounds fuel :
  (∀ h e r, ok h e r → sys_ok h e r) →
  (∀ h fd r, ok h (Read fd BUF_SIZE) r → 0 < rret r → cstr (filled (rdata r)) = None →
             U "buf is printed without a terminator") →
  wp ok (main rounds fuel)
     (λ h o, closes_own h ∧
             match o with
             | Val _ => view v_read h = view v_write h
             | Stopped s => ∀ why, s = Undefined why → U why
             end) [].
Proof.
  intros Hok HU. unfold main. wp_step. eapply setup_wp.
  - intros h l e HI Hl He. cbn. eapply wp_mono; [|by eapply wp_prefix, rounds_wp].
    intros h' o [Hp Hpre]. assert (clean l e h' → closes_own h') as Hown.
    { intros Hc. eapply Forall_impl; [exact Hc|]. intros fd [->| ->]; [left|right];
        by eapply view_prefix. }
    destruct o; destruct Hp; naive_solver.
  - intros h Hc. split; [unfold closes_own; by rewrite Hc|done].
Qed.

(** * Which connection is served *)

(** The descriptor a call transfers data on. *)
Definition transfers (e : sys) : option Z :=
  match e with Read fd _ | Write fd _ => Some fd | _ => None end.

(** Every transfer of the history was on the descriptor [accept] had returned
    last. *)
Definition on_last (h : systrace) : Prop :=
  ∀ i e r fd, h !! i = Some (Ev e r) → transfers e = Some fd →
              last (view v_accept (take i h)) = Some fd.

Lemma on_last_snoc h e r :
  on_last h → (∀ fd, transfers e = Some fd → last (view v_accept h) = Some fd) →
  on_last (h ++ [Ev e r]).
Proof.
  intros Hh He i e' r' fd [Hi|[Hge Hi]]%lookup_app_Some Ht.
  - rewrite take_app_le by (apply lookup_lt_Some in Hi; lia). by eapply Hh.
  - apply list_lookup_singleton_Some in Hi as [Hz [= <- _]].
    rewrite take_app_length' by lia. by apply He.
Qed.

(** [conn_sock] is that descriptor. *)
Definition serves (h : systrace) (conn : option Z) : Prop :=
  last (view v_accept h) = conn ∧ on_last h.

Definition serves_post (h : systrace) (o : outcome (option Z)) : Prop :=
  match o with Val conn => serves h conn | Stopped _ => on_last h end.

Lemma serves_on_last h conn : serves h conn → on_last h.
Proof. by intros []. Qed.

Lemma serves_on h conn fd e r :
  v_accept e r = None → transfers e = Some fd ∧ conn = Some fd ∨ transfers e = None →
  serves h conn → serves (h ++ [Ev e r]) conn.
Proof.
  unfold serves. intros Hv He [Hl Hh]. rewrite view_snoc, Hv. cbn. rewrite app_nil_r.
  split; [done|]. apply on_last_snoc; [done|]. naive_solver.
Qed.

Lemma serves_accept h conn fd r :
  serves h conn → serves (h ++ [Ev (Accept fd) r]) (Some (ret r.1)).
Proof.
  intros [Hl Hh]. split; [rewrite view_snoc; apply last_snoc|]. by apply on_last_snoc.
Qed.

(** A call that transfers nothing, and one on [conn_sock]. *)
Ltac aside := apply (serves_on _ _ 0); [done|by right|].
Ltac here fd := apply (serves_on _ _ fd); [done|by left|].

Lemma read_loop_serves ok n conn h :
  serves h conn →
  wp ok (read_loop n conn) (λ h' o, match o with Val _ => serves h' conn | Stopped _ => on_last h' end) h.
Proof.
  revert h. induction n as [|n IH]; intros h Hh; cbn [read_loop]; [apply Hh|].
  destruct conn as [fd|]; [|apply Hh]. wp_step. cbn. intros r _.
  destruct (rret r <? 0); [cbn; intros [] _; aside; by here fd|].
  destruct (0 <? rret r); [|cbn; intros [] _; aside; by here fd].
  destruct (cstr _); cbn.
  - intros [] _ w _. destruct (ret w <? 0); cbn; [intros [] _; aside|apply IH]; here fd; aside; by here fd.
  - apply (serves_on _ (Some fd) fd); by auto.
Qed.

Lemma handle_event_serves ok listen_sock epfd fuel conn ev h :
  serves h conn → wp ok (handle_event listen_sock epfd fuel conn ev) serves_post h.
Proof.
  intros Hh. unfold handle_event. wp_step. eapply (wp_mono _ _ serves_post).
  - intros h' [conn'|s] Hh'; cbn in *; [|done]. destruct (negb _); [|done].
    cbn. intros [] _ r _ r' _. do 3 aside. done.
  - destruct (_ =? listen_sock).
    + cbn. intros a _. apply (serves_accept _ _ listen_sock a) in Hh. intros g _ s _.
      destruct (ret s =? -1); cbn; intros [] _; [eapply serves_on_last; by do 3 aside|].
      intros c _. destruct (ret c =? -1); cbn; [intros [] _; eapply serves_on_last|]; by repeat aside.
    + destruct (negb _); [|cbn; intros [] _; by aside]. wp_step.
      eapply wp_mono; [|by apply read_loop_serves]. by intros h' [[]|s].
Qed.

Lemma handle_events_serves ok listen_sock epfd fuel conn evs h :
  serves h conn → wp ok (handle_events listen_sock epfd fuel conn evs) serves_post h.
Proof.
  revert conn h. induction evs as [|ev evs IH]; intros conn h Hh; [done|]. cbn [handle_events].
  wp_step. eapply wp_mono; [|by apply handle_event_serves].
  intros h' [conn'|s] Hh'; [by apply IH|done].
Qed.

Lemma setup_serves ok h : serves h None → wp ok setup (λ h' _, serves h' None) h.
Proof.
  intros Hh. unfold setup. cbn. intros s _ b _ g _ f _.
  destruct (ret f =? -1); cbn; [intros [] _; by repeat aside|].
  intros l _. destruct (ret l <? 0); cbn; [intros [] _; by repeat aside|].
  intros e _ c _. destruct (ret c =? -1); cbn; [intros [] _|]; by repeat aside.
Qed.

Lemma main_serves ok rounds fuel : wp ok (main rounds fuel) (λ h _, on_last h) [].
Proof.
  assert (serves [] None) as H0 by (split; [done|]; by intros []).
  unfold main. wp_step. eapply (wp_mono _ _ (λ h o, serves h None)).
  - intros h [[ls ep]|s] Hh; [cbn|apply Hh].
    eapply wp_mono; [|apply (wp_iterate ok rounds _ serves (λ h _, on_last h)); [|exact Hh]].
    + by intros h' [conn|s] Hh'; [apply Hh'|].
    + intros h' conn Hh'. unfold round. cbn. intros r _.
      apply handle_events_serves. by aside.
  - by apply setup_serves.
Qed.

(** * Properties *)

(** A kernel whose reads never fill the whole buffer. *)
Definition short_reads (h : systrace) (e : sys) (r : sysR e) : Prop :=
  sys_ok h e r ∧
  match e return sysR e → Prop with
  | Read _ n => λ r, n = BUF_SIZE → rret r < Z.of_nat n
  | _ => λ _, True
  end r.

(** C3: when the server is stopped between two events, every chunk of bytes it
    read was handed unchanged to [write] on the same descriptor, in the same
    order and nothing else was written, for any number of rounds and any
    kernel that behaves as documented. *)
Theorem epoll_echo w rounds fuel conn :
  env_ok sys_ok w →
  (run w (main rounds fuel) []).2 = Val conn →
  view v_read (run w (main rounds fuel) []).1 = view v_write (run w (main rounds fuel) []).1.
Proof.
  intros Hw Hv. pose proof (wp_run sys_ok w (main rounds fuel) _ [] Hw
    (main_wp sys_ok (λ _, True) rounds fuel ltac:(done) ltac:(done))) as [_ H].
  by rewrite Hv in H.
Qed.

Lemma epoll_echo_witness :
  let w := small_world EPOLLIN (bs "ping") in
  (run w (main 2 3) []).2 = Val (Some 11) ∧
  view v_read (run w (main 2 3) []).1 = [(11, bs "ping")] ∧
  view v_read (run w (main 2 3) []).1 = view v_write (run w (main 2 3) []).1.
Proof.
  split_and!; [vm_compute; reflexivity..|].
  apply (epoll_echo _ 2 3 (Some 11)); [apply small_world_ok, bs_bytes|vm_compute; reflexivity].
Defined.

(** Note: whatever happens, the only descriptors the server ever closes are ones
    it got from [socket] or [epoll_create]; in particular a descriptor that only
    [accept] returned is never closed. *)
Theorem epoll_closes w rounds fuel :
  env_ok sys_ok w →
  Forall (λ fd, fd ∈ view v_socket (run w (main rounds fuel) []).1 ∨
                fd ∈ view v_epoll (run w (main rounds fuel) []).1)
         (view v_close (run w (main rounds fuel) []).1).
Proof.
  intros Hw. by pose proof (wp_run sys_ok w (main rounds fuel) _ [] Hw
    (main_wp sys_ok (λ _, True) rounds fuel ltac:(done) ltac:(done))) as [H _].
Qed.

Lemma epoll_closes_witness :
  let w := small_world (Z.lor EPOLLIN EPOLLRDHUP) (bs "ping") in
  view v_close (run w (main 2 3) []).1 = [3; 8] ∧
  Forall (λ fd, fd ∈ view v_socket (run w (main 2 3) []).1 ∨
                fd ∈ view v_epoll (run w (main 2 3) []).1)
         (view v_close (run w (main 2 3) []).1).
Proof.
  split; [vm_compute; reflexivity|]. apply (epoll_closes _ 2 3), small_world_ok, bs_bytes.
Defined.

(** C19: as long as no read fills the whole buffer, the server has no undefined
    behaviour: [conn_sock] is set before it is used, and the buffer it prints is
    terminated. *)
Theorem epoll_no_undefined w rounds fuel why :
  env_ok short_reads w →
  (run w (main rounds fuel) []).2 ≠ Stopped (Undefined why).
Proof.
  intros Hw He. unshelve epose proof (main_wp short_reads (λ _, False) rounds fuel _ _) as Hwp.
  - by intros ??? [].
  - intros h fd r [Hr Hs] Hpos Hc. apply cstr_None in Hc. apply Hc. unfold filled.
    destruct Hr as [?|(? & Hl & _)]; [lia|]. specialize (Hs eq_refl).
    apply elem_of_app. right. apply elem_of_replicate. unfold BUF_SIZE in *. split; [done|lia].
  - apply (wp_run _ w _ _ _ Hw) in Hwp as [_ H]. rewrite He in H. by eapply H.
Qed.

Lemma epoll_no_undefined_witness :
  (run (small_world EPOLLIN (bs "ping")) (main 2 3) []).2
  ≠ Stopped (Undefined "buf is printed without a terminator").
Proof.
  apply epoll_no_undefined. intros h e. split; [apply small_world_ok, bs_bytes|].
  destruct e; try exact I. cbn. intros ->. destruct (view v_read h); reflexivity.
Defined.

(** C20: the server transfers data only on the descriptor that [accept] returned
    last, whatever the kernel answers: once a client has been accepted no byte of
    an earlier connection is read and none is written to it. *)
Theorem epoll_serves_last w rounds fuel i e r fd :
  let h := (run w (main rounds fuel) []).1 in
  h !! i = Some (Ev e r) → transfers e = Some fd → last (view v_accept (take i h)) = Some fd.
Proof.
  apply (wp_run anything w _ (λ h _, on_last h)); [done|]. apply main_serves.
Qed.

Lemma epoll_serves_last_witness :
  last (view v_accept (take 16 (run (small_world EPOLLIN (bs "ping")) (main 2 3) []).1)) = Some 11.
Proof.
  refine (epoll_serves_last (small_world EPOLLIN (bs "ping")) 2 3 16 (Write 11 (bs "ping")) done0 11 _ _);
    vm_compute; reflexivity.
Defined.

(** Note: a client that sends a full buffer without a NUL makes the server print
    past the end of [buf]: undefined behaviour. *)
Theorem epoll_full_read_undefined :
  (run (small_world EPOLLIN (replicate BUF_SIZE 65)) (main 2 3) []).2
  = Stopped (Undefined "buf is printed without a terminator").
Proof. vm_compute. reflexivity. Qed.

(** Note: connections are registered with the epoll descriptor as their event
    data, so when a client hangs up the server closes the epoll instance
    itself: the last call of handling such an event is [close(epfd)]. *)
Theorem epoll_hangup_closes_epfd w listen_sock epfd fuel conn conn' ev h :
  epfd ≠ listen_sock → ev_fd ev = epfd →
  Z.land (ev_events ev) (Z.lor EPOLLRDHUP EPOLLHUP) ≠ 0 →
  (run w (handle_event listen_sock epfd fuel conn ev) h).2 = Val conn' →
  last (view v_close (run w (handle_event listen_sock epfd fuel conn ev) h).1) = Some epfd.
Proof.
  intros Hne Hfd Hev Hv.
  pose proof (wp_run anything w (handle_event listen_sock epfd fuel conn ev)
    (λ h o, match o with Val _ => last (view v_close h) = Some epfd | _ => True end) h) as H.
  rewrite Hv in H. apply H; [done|]. unfold handle_event. wp_step.
  eapply (wp_mono _ _ (λ _ _, True)); [|by apply wp_true].
  intros h' [c|s] _; [|done]. cbn. apply Z.eqb_neq in Hev. rewrite Hev. cbn.
  intros [] _ r _ r' _. rewrite view_snoc, Hfd. cbn. apply last_snoc.
Qed.

Lemma epoll_hangup_closes_epfd_witness :
  let w := small_world EPOLLIN (bs "ping") in
  let ev := {| ev_events := Z.lor EPOLLIN EPOLLRDHUP; ev_fd := 4 |} in
  last (view v_close (run w (handle_event 3 4 3 (Some 5) ev) []).1) = Some 4.
Proof.
  apply (epoll_hangup_closes_epfd _ 3 4 3 (Some 5) (Some 5)); vm_compute; congruence.
Defined.

End Epoll.
