(* ===== verification/Nghttp2.v ===== *)
(** The interface of nghttp2 the two HTTP/2 programs use, and the heap of the
    server's session objects.

    nghttp2 is a library, not part of the repository: each of its functions the
    code calls is a node of a program, with the environment's answer, next to
    the system calls and the allocator.  Pointers are integers, [0] is NULL.
    Objects allocated by the server live in an explicit [heap] whose fields can
    be indeterminate; reading such a field, reading through a pointer to no
    object and freeing one are undefined behaviour. *)

From stdpp Require Import base list gmap strings.
From S2P Require Import Prelude Io Posix.

Local Open Scope Z_scope.
Local Open Scope cs_scope.

(** * Constants of nghttp2.h *)

Definition NGHTTP2_DATA : Z := 0.
Definition NGHTTP2_HEADERS : Z := 1.
Definition NGHTTP2_PRIORITY : Z := 2.
Definition NGHTTP2_RST_STREAM : Z := 3.
Definition NGHTTP2_SETTINGS : Z := 4.
Definition NGHTTP2_PUSH_PROMISE : Z := 5.
Definition NGHTTP2_GOAWAY : Z := 7.
Definition NGHTTP2_WINDOW_UPDATE : Z := 8.
Definition NGHTTP2_HCAT_REQUEST : Z := 0.
Definition NGHTTP2_HCAT_RESPONSE : Z := 1.
Definition NGHTTP2_FLAG_NONE : Z := 0.
Definition NGHTTP2_FLAG_END_STREAM : Z := 1.
Definition NGHTTP2_NO_ERROR : Z := 0.
Definition NGHTTP2_INTERNAL_ERROR : Z := 2.
Definition NGHTTP2_DATA_FLAG_EOF : Z := 1.
Definition NGHTTP2_SETTINGS_MAX_CONCURRENT_STREAMS : Z := 3.
Definition NGHTTP2_SETTINGS_INITIAL_WINDOW_SIZE : Z := 4.
Definition NGHTTP2_ERR_WOULDBLOCK : Z := -504.
Definition NGHTTP2_ERR_EOF : Z := -507.
Definition NGHTTP2_ERR_TEMPORAL_CALLBACK_FAILURE : Z := -521.
Definition NGHTTP2_ERR_CALLBACK_FAILURE : Z := -902.

(** * Data *)

(** The parts of a [nghttp2_frame] the callbacks look at. *)
Record frame := {
  hd_type : Z; hd_flags : Z; hd_stream_id : Z;
  headers_cat : Z; headers_nva : list (list Z * list Z) }.

(** The callbacks a program registers. *)
Inductive callback :=
  | cb_send | cb_recv | cb_frame_send | cb_frame_recv | cb_stream_close
  | cb_header | cb_begin_headers | cb_data_chunk_recv.

(** * Calls *)

Inductive ng :=
  | Sys (s : sys)
  | Malloc (size : Z)
  | Free (p : Z)
  | CallbacksNew
  | CallbacksSet (cbs : Z) (c : callback)
  | CallbacksDel (cbs : Z)
  | ServerNew (cbs user_data : Z)
  | ClientNew (cbs user_data : Z)
  | SessionDel (session : Z)
  | SessionSend (session : Z)
  | SessionRecv (session : Z)
  | SessionMemRecv (session : Z) (buf : list Z) (len : Z)
  | WantRead (session : Z)
  | WantWrite (session : Z)
  | SubmitSettings (session flags : Z) (iv : list (Z * Z))
  | SubmitRequest (session : Z) (nva : list (list Z * list Z)) (user_data : Z)
  | SubmitResponse (session stream_id : Z) (nva : list (list Z * list Z)) (fd : Z)
  | SubmitRstStream (session flags stream_id error_code : Z)
  | TerminateSession (session error_code : Z)
  | GetStreamUserData (session stream_id : Z).

Definition ngR (e : ng) : Type :=
  match e with
  | Sys s => sysR s
  | Free _ | CallbacksSet _ _ | CallbacksDel _ | SessionDel _ => unit
  | CallbacksNew | ServerNew _ _ | ClientNew _ _ => Z * Z    (* result, new object *)
  | _ => Z
  end.

Abbreviation ngtrace := (trace ngR).

Definition out (l : list item) : prog ngR unit := Call (Sys (Print l)) Ret.

(** The system calls of a history. *)
Definition on_sys {A} (f : ∀ e, sysR e → option A) (e : ng) : ngR e → option A :=
  match e return ngR e → option A with
  | Sys s => f s
  | _ => λ _, None
  end.

(** System calls behave as documented; nothing is assumed of nghttp2. *)
Definition sys_history (h : ngtrace) : systrace :=
  omap (λ ev, match ev with
              | Ev e r => match e return ngR e → option (event sysR) with
                          | Sys s => λ r, Some (Ev s r)
                          | _ => λ _, None
                          end r
              end) h.

Definition ng_ok (h : ngtrace) (e : ng) : ngR e → Prop :=
  match e return ngR e → Prop with
  | Sys s => sys_ok (sys_history h) s
  | _ => λ _, True
  end.

(** * The heap of the server *)

(** An [http2_session_data] or an [http2_stream_data], field by field, or a
    block of characters.  [None] is an indeterminate field. *)
Inductive obj :=
  | OSession (session stream_data : option Z)
  | OStream (authority path stream_id : option Z)
  | OChars.

Abbreviation heap := (gmap Z obj).

Definition undef {A} (why : string) : prog ngR A := Halt (Undefined why).

(** Reading a field that must have been set. *)
Definition get {A} (o : option A) : prog ngR A :=
  match o with
  | Some a => Ret a
  | None => undef "read of an indeterminate field"
  end.

Definition get_session (hp : heap) (p : Z) : prog ngR (option Z * option Z) :=
  match hp !! p with
  | Some (OSession s d) => Ret (s, d)
  | _ => undef "no session object at this address"
  end.

Definition get_stream (hp : heap) (p : Z) : prog ngR (option Z * option Z * option Z) :=
  match hp !! p with
  | Some (OStream a q i) => Ret (a, q, i)
  | _ => undef "no stream object at this address"
  end.

(** [free]: nothing for NULL, undefined for an address that is not allocated. *)
Definition free (hp : heap) (p : Z) : prog ngR heap :=
  if p =? 0 then Ret hp
  else match hp !! p with
       | Some _ => call (Free p) ;;; Ret (delete p hp)
       | None => undef "free of an address that is not allocated"
       end.

(** [malloc] of an object with the initial contents [o]. *)
Definition malloc (hp : heap) (size : Z) (o : obj) : prog ngR (Z * heap) :=
  p ⇐ call (Malloc size);
  Ret (p, if p =? 0 then hp else <[p := o]> hp).
