(* ===== verification/NgServer.v ===== *)
(** The callbacks and session objects of the HTTP/2 server
    (src/http2/nghttp2_server/nghttp2.h).

    Each function is a program over [Nghttp2.ng]; those that touch a session or
    a stream object take the heap and return it.  What is commented out in the
    source is not modelled. *)

From stdpp Require Import base list gmap strings.
From S2P Require Import Prelude Io Posix CLib Nghttp2.

Local Open Scope Z_scope.
Local Open Scope cs_scope.

Module NgServer.

(** * Objects *)

Definition sizeof_stream_data : Z := 56.
Definition sizeof_session_data : Z := 16.

Definition create_http2_stream_data (hp : heap) : prog ngR (Z * heap) :=
  malloc hp sizeof_stream_data (OStream None None None).

Definition delete_http2_stream_data (hp : heap) (stream_data : Z) : prog ngR heap :=
  f ⇐ get_stream hp stream_data;
  path ⇐ get f.1.2;
  hp ⇐ free hp path;
  f ⇐ get_stream hp stream_data;
  authority ⇐ get f.1.1;
  hp ⇐ free hp authority;
  free hp stream_data.

(** [memset] through the result of [malloc], without a test for NULL. *)
Definition create_http2_session_data (hp : heap) : prog ngR (Z * heap) :=
  m ⇐ malloc hp sizeof_session_data (OSession (Some 0) (Some 0));
  if m.1 =? 0 then undef "memset of a null pointer" else Ret m.

Definition delete_http2_session_data (hp : heap) (session_data : Z) : prog ngR heap :=
  f ⇐ get_session hp session_data;
  session ⇐ get f.1;
  call (SessionDel session) ;;;
  let hp := <[session_data := OSession (Some 0) f.2]> hp in
  stream_data ⇐ get f.2;
  hp ⇐ (if negb (stream_data =? 0) then
          hp ⇐ delete_http2_stream_data hp stream_data;
          g ⇐ get_session hp session_data;
          Ret (<[session_data := OSession g.1 (Some 0)]> hp)
        else Ret hp);
  free hp session_data.

(** * Sending and receiving *)

Definition session_send (hp : heap) (session_data : Z) : prog ngR Z :=
  f ⇐ get_session hp session_data;
  session ⇐ get f.1;
  rv ⇐ call (SessionSend session);
  if negb (rv =? 0) then out [T "Fatal error: "; Err rv] ;;; Ret (-1)
  else Ret 0.

Definition session_recv (session_data : Z) : prog ngR Z := Ret 0.

Definition send_callback (data : list Z) : prog ngR Z :=
  out [T "*** Hit send_callback"] ;;; Ret 0.

(** The loop that repeats an interrupted [read]. *)
Fixpoint file_read_loop (fuel : nat) (fd : Z) (len : nat) : prog ngR resdata :=
  match fuel with
  | O => Halt OutOfFuel
  | S fuel' =>
      r ⇐ call (Sys (Read fd len));
      if (rret r =? -1) && (rerrno r =? EINTR) then file_read_loop fuel' fd len
      else Ret r
  end.

(** The result, the data flags and the bytes left in [buf]. *)
Definition file_read_callback (fuel : nat) (fd : Z) (len : nat) (data_flags : Z)
    : prog ngR (Z * Z * list Z) :=
  r ⇐ file_read_loop fuel fd len;
  if rret r =? -1 then
    Ret (NGHTTP2_ERR_TEMPORAL_CALLBACK_FAILURE, data_flags, [])
  else
    let data_flags := if rret r =? 0 then Z.lor data_flags NGHTTP2_DATA_FLAG_EOF
                      else data_flags in
    Ret (rret r, data_flags, rdata r).

Definition send_response (session stream_id : Z) (nva : list (list Z * list Z)) (fd : Z)
    : prog ngR Z :=
  out [T "send_response"] ;;;
  rv ⇐ call (SubmitResponse session stream_id nva fd);
  if negb (rv =? 0) then out [T "Fatal error: "; Err rv] ;;; Ret (-1)
  else Ret 0.

Definition ERROR_HTML : list Z :=
  bs "<html><head><title>404</title></head><body><h1>404 Not Found</h1></body></html>".

Definition status_404 : list (list Z * list Z) := [(bs ":status", bs "404")].

Definition error_reply (hp : heap) (session stream_data : Z) : prog ngR Z :=
  p ⇐ call (Sys Pipe);
  if negb (ret p.1 =? 0) then
    out [T "Could not create pipe"; Err (errno p.1)] ;;;
    f ⇐ get_stream hp stream_data;
    stream_id ⇐ get f.2;
    rv ⇐ call (SubmitRstStream session NGHTTP2_FLAG_NONE stream_id NGHTTP2_INTERNAL_ERROR);
    if negb (rv =? 0) then out [T "Fatal error: "; Err rv] ;;; Ret (-1)
    else Ret 0
  else
    w ⇐ call (Sys (Write p.2.2 ERROR_HTML));
    call (Sys (Close p.2.2)) ;;;
    if negb (ret w =? Z.of_nat (length ERROR_HTML)) then
      call (Sys (Close p.2.1)) ;;; Ret (-1)
    else
      f ⇐ get_stream hp stream_data;
      stream_id ⇐ get f.2;
      rv ⇐ send_response session stream_id status_404 p.2.1;
      if negb (rv =? 0) then call (Sys (Close p.2.1)) ;;; Ret (-1)
      else Ret 0.

(** * Callbacks *)

(** The test of the header name has an empty body in the source. *)
Definition on_header_callback (session : Z) (f : frame) (name value : list Z) : prog ngR Z :=
  out [T "on_header_callback"] ;;;
  if hd_type f =? NGHTTP2_HEADERS then
    if negb (headers_cat f =? NGHTTP2_HCAT_REQUEST) then Ret 0
    else
      stream_data ⇐ call (GetStreamUserData session (hd_stream_id f));
      if (Z.of_nat (length name) =? 5) && (memcmp (bs ":path") name =? 0) then Ret 0
      else Ret 0
  else Ret 0.

Definition on_begin_headers_callback (session : Z) (f : frame) : prog ngR Z :=
  out [T "on_begin_headers_callback"] ;;;
  if negb (hd_type f =? NGHTTP2_HEADERS) || negb (headers_cat f =? NGHTTP2_HCAT_REQUEST)
  then Ret 0 else Ret 0.

Definition on_request_recv (session session_data stream_data : Z) : prog ngR Z :=
  out [T "on_request_recv"] ;;; Ret 0.

Definition on_frame_recv_callback (session : Z) (f : frame) (user_data : Z) : prog ngR Z :=
  out [T "on_frame_recv_callback"] ;;;
  if (hd_type f =? NGHTTP2_DATA) || (hd_type f =? NGHTTP2_HEADERS) then
    if negb (Z.land (hd_flags f) NGHTTP2_FLAG_END_STREAM =? 0) then
      stream_data ⇐ call (GetStreamUserData session (hd_stream_id f));
      if stream_data =? 0 then Ret 0
      else on_request_recv session user_data stream_data
    else Ret 0
  else Ret 0.

Definition on_stream_close_callback (hp : heap) (session stream_id : Z) : prog ngR (Z * heap) :=
  out [T "on_frame_recv_callback"] ;;;
  stream_data ⇐ call (GetStreamUserData session stream_id);
  if stream_data =? 0 then Ret (0, hp)
  else
    hp ⇐ delete_http2_stream_data hp stream_data;
    Ret (0, hp).

(** * Sessions *)

Definition server_callbacks : list callback :=
  [cb_send; cb_frame_recv; cb_stream_close; cb_header; cb_begin_headers].

Fixpoint set_callbacks (cbs : Z) (l : list callback) : prog ngR unit :=
  match l with
  | [] => Ret tt
  | c :: l' => call (CallbacksSet cbs c) ;;; set_callbacks cbs l'
  end.

(** [nghttp2_session_server_new] stores the new session into the object. *)
Definition initialize_nghttp2_session (hp : heap) (session_data : Z) : prog ngR heap :=
  out [T "initialize_nghttp2_session"] ;;;
  c ⇐ call CallbacksNew;
  set_callbacks c.2 server_callbacks ;;;
  s ⇐ call (ServerNew c.2 session_data);
  f ⇐ get_session hp session_data;
  let hp := <[session_data := OSession (if s.1 =? 0 then Some s.2 else f.1) f.2]> hp in
  call (CallbacksDel c.2) ;;;
  Ret hp.

Definition send_server_connection_header (hp : heap) (session_data : Z) : prog ngR Z :=
  f ⇐ get_session hp session_data;
  session ⇐ get f.1;
  rv ⇐ call (SubmitSettings session NGHTTP2_FLAG_NONE
              [(NGHTTP2_SETTINGS_MAX_CONCURRENT_STREAMS, 100)]);
  if negb (rv =? 0) then out [T "Fatal error: "; Err rv] ;;; Ret (-1)
  else Ret 0.

(** * Views of a history *)

Definition v_pipe (e : ng) : ngR e → option (Z * Z) :=
  match e return ngR e → option (Z * Z) with
  | Sys Pipe => λ r, if ret r.1 =? 0 then Some r.2 else None
  | _ => λ _, None
  end.
Definition v_response (e : ng) : ngR e → option (Z * Z * list (list Z * list Z) * Z) :=
  match e return ngR e → option (Z * Z * list (list Z * list Z) * Z) with
  | SubmitResponse s i nva fd => λ rv, if rv =? 0 then Some (s, i, nva, fd) else None
  | _ => λ _, None
  end.
Definition v_rst (e : ng) : ngR e → option (Z * Z * Z) :=
  match e return ngR e → option (Z * Z * Z) with
  | SubmitRstStream s _ i c => λ _, Some (s, i, c)
  | _ => λ _, None
  end.
Definition v_malloc (e : ng) : ngR e → option Z :=
  match e return ngR e → option Z with
  | Malloc _ => λ p, Some p
  | _ => λ _, None
  end.
Definition v_free (e : ng) : ngR e → option Z :=
  match e return ngR e → option Z with
  | Free p => λ _, Some p
  | _ => λ _, None
  end.
Definition v_session_new (e : ng) : ngR e → option Z :=
  match e return ngR e → option Z with
  | ServerNew _ _ => λ r, Some r.2
  | _ => λ _, None
  end.
Definition v_session_del (e : ng) : ngR e → option Z :=
  match e return ngR e → option Z with
  | SessionDel s => λ _, Some s
  | _ => λ _, None
  end.

(** * The retry loop *)

(** An interrupted read of [n] bytes from [fd]. *)
Definition interrupted (fd : Z) (n : nat) (ev : event ngR) : Prop :=
  ∃ r, ev = Ev (Sys (Read fd n)) r ∧ rret r = -1 ∧ rerrno r = EINTR.

Lemma file_read_loop_wp fuel fd n h :
  wp anything (file_read_loop fuel fd n)
     (λ h' o, ∃ t, Forall (interrupted fd n) t ∧
        match o with
        | Val r => h' = h ++ t ++ [Ev (Sys (Read fd n)) r] ∧ (length t < fuel)%nat ∧
                   ¬ (rret r = -1 ∧ rerrno r = EINTR)
        | Stopped s => s = OutOfFuel ∧ h' = h ++ t ∧ length t = fuel
        end) h.
Proof.
  revert h. induction fuel as [|fuel IH]; intros h; cbn [file_read_loop].
  { exists []. by rewrite app_nil_r. }
  wp_step. cbn. intros r _. destruct (_ && _) eqn:E.
  - b2p. eapply wp_mono; [|apply IH]. intros h' o (t & Ht & Ho).
    exists (Ev (Sys (Read fd n)) r :: t). split; [constructor; [by exists r|done]|].
    destruct o; rewrite <- app_assoc in Ho; cbn in Ho |- *; intuition lia.
  - exists []. split; [done|]. cbn. split_and!; [done|lia|]. intros [E1 E2].
    rewrite E1, E2 in E. done.
Qed.

(** * Properties *)

(** C21: on every outcome of the system calls and of nghttp2, [error_reply]
    accounts for both ends of its pipe.  When the pipe cannot be made, the
    stream is reset with an internal error and nothing is closed.  Otherwise
    the 404 page is written to the write end, the write end is closed exactly
    once, and the read end is either closed by the function, which then
    returns -1, or handed to nghttp2 as the body of a 404 response, and the
    function returns 0. *)
Theorem error_reply_pipe w hp session sd a p id :
  hp !! sd = Some (OStream a p (Some id)) →
  let h := (run w (error_reply hp session sd) []).1 in
  let o := (run w (error_reply hp session sd) []).2 in
  match view v_pipe h with
  | [] => view (on_sys v_close) h = [] ∧ view v_response h = [] ∧
          view v_rst h = [(session, id, NGHTTP2_INTERNAL_ERROR)] ∧ (o = Val 0 ∨ o = Val (-1))
  | (rd, wr) :: _ =>
      view (on_sys v_write) h = [(wr, ERROR_HTML)] ∧
      (o = Val 0 ∧ view (on_sys v_close) h = [wr] ∧
         view v_response h = [(session, id, status_404, rd)] ∨
       o = Val (-1) ∧ view (on_sys v_close) h = [wr; rd] ∧ view v_response h = [])
  end.
Proof.
  intros Hsd. cbv zeta. set (P := error_reply hp session sd).
  pattern (run w P []).1, (run w P []).2. apply (wp_run anything); [done|]. subst P.
  unfold error_reply, get_stream, send_response, out. rewrite Hsd. cbn -[ERROR_HTML].
  intros [rp [rd wr]] _. cbn -[ERROR_HTML]. destruct (ret rp =? 0) eqn:E0; cbn -[ERROR_HTML].
  - intros wlen _ c _. destruct (ret wlen =? _); cbn -[ERROR_HTML].
    + intros [] _ rv _. destruct (rv =? 0) eqn:E1; cbn -[ERROR_HTML];
        [|intros [] _ c' _]; rewrite E0; cbn -[ERROR_HTML]; rewrite ?E1; cbn -[ERROR_HTML]; auto.
    + intros c' _. rewrite E0. cbn -[ERROR_HTML]. auto.
  - intros [] _ rv _. destruct (rv =? 0); cbn -[ERROR_HTML]; [|intros [] _]; rewrite E0; auto.
Qed.

(** The world in which everything works and [malloc] answers [p]. *)
Definition good_world (p : Z) : env ngR := λ h e,
  match e return ngR e with
  | Sys s => match s return sysR s with
             | Write _ b => {| ret := Z.of_nat (length b); errno := 0 |}
             | s => small_world EPOLLIN [] [] s
             end
  | Free _ | CallbacksSet _ _ | CallbacksDel _ | SessionDel _ => tt
  | CallbacksNew => (0, 500)
  | ServerNew _ _ | ClientNew _ _ => (0, 700)
  | Malloc _ => p
  | _ => 0
  end.

Lemma error_reply_pipe_witness :
  let w := good_world 0 in
  let hp : heap := {[ 64 := OStream None None (Some 1) ]} in
  let h := (run w (error_reply hp 700 64) []).1 in
  let o := (run w (error_reply hp 700 64) []).2 in
  hp !! 64 = Some (OStream None None (Some 1)) ∧
  match view v_pipe h with
  | [] => view (on_sys v_close) h = [] ∧ view v_response h = [] ∧
          view v_rst h = [(700, 1, NGHTTP2_INTERNAL_ERROR)] ∧ (o = Val 0 ∨ o = Val (-1))
  | (rd, wr) :: _ =>
      view (on_sys v_write) h = [(wr, ERROR_HTML)] ∧
      (o = Val 0 ∧ view (on_sys v_close) h = [wr] ∧
         view v_response h = [(700, 1, status_404, rd)] ∨
       o = Val (-1) ∧ view (on_sys v_close) h = [wr; rd] ∧ view v_response h = [])
  end.
Proof.
  cbv zeta. split; [reflexivity|].
  apply (error_reply_pipe (good_world 0) {[ 64 := OStream None None (Some 1) ]} 700 64 None None 1).
  reflexivity.
Defined.

(** Note: [file_read_callback] repeats the read exactly while it is interrupted:
    its calls are interrupted reads followed by one read that is not, whose
    outcome it reports, an error as a temporary failure, the end of the file
    by setting the EOF flag, and a byte count unchanged.  It only runs out of
    fuel when the first [fuel] reads are all interrupted. *)
Theorem file_read_callback_retry w fuel fd n flags :
  let h := (run w (file_read_callback fuel fd n flags) []).1 in
  match (run w (file_read_callback fuel fd n flags) []).2 with
  | Stopped s => s = OutOfFuel ∧ Forall (interrupted fd n) h ∧ length h = fuel
  | Val (result, flags', data) =>
      ∃ t r, h = t ++ [Ev (Sys (Read fd n)) r] ∧ Forall (interrupted fd n) t ∧
        ¬ (rret r = -1 ∧ rerrno r = EINTR) ∧
        (rret r = -1 ∧ result = NGHTTP2_ERR_TEMPORAL_CALLBACK_FAILURE ∧ flags' = flags ∨
         rret r = 0 ∧ result = 0 ∧ Z.testbit flags' 0 = true ∨
         rret r ≠ -1 ∧ rret r ≠ 0 ∧ result = rret r ∧ flags' = flags ∧ data = rdata r)
  end.
Proof.
  cbv zeta. set (P := file_read_callback fuel fd n flags).
  pattern (run w P []).1, (run w P []).2. apply (wp_run anything); [done|]. subst P.
  unfold file_read_callback. wp_step. eapply wp_mono; [|apply file_read_loop_wp].
  intros h [r|s] (t & Ht & Ho); cbn -[Z.testbit] in *; [|naive_solver].
  destruct Ho as (-> & _ & Hr).
  destruct (Z.eqb_spec (rret r) (-1)); [|destruct (Z.eqb_spec (rret r) 0)];
    cbn -[Z.testbit]; exists t, r; (split_and!; [done..|]); auto 10.
  right; left. split_and!; [done..|]. rewrite Z.lor_spec. apply orb_true_r.
Qed.

(** The blocks a session object owns besides its own, in the order in which they
    are freed: nothing without stream data, otherwise the non-null strings of the
    stream object and the object. *)
Definition owned (hp : heap) (d : Z) (bl : list Z) : Prop :=
  d = 0 ∧ bl = [] ∨
  d ≠ 0 ∧ ∃ a q i, hp !! d = Some (OStream (Some a) (Some q) i) ∧ bl = filter (.≠ 0) [q; a] ++ [d].

Definition freed (p : Z) : event ngR := Ev (Free p) ().

(** The heap without the blocks of a list. *)
Definition without (hp : heap) (bl : list Z) : heap := foldr delete hp bl.

Lemma lookup_without hp bl k : without hp bl !! k = if decide (k ∈ bl) then None else hp !! k.
Proof.
  induction bl as [|b bl IH]; [done|]. cbn. rewrite lookup_delete. fold (without hp bl). rewrite IH.
  repeat case_decide; set_solver.
Qed.

Lemma without_in hp bl k : k ∉ bl → without hp bl !! k = hp !! k.
Proof. intros Hk. rewrite lookup_without. by rewrite decide_False. Qed.

Lemma lookup_three hp a b d k :
  delete d (without (without hp a) b) !! k = without hp (a ++ b ++ [d]) !! k.
Proof.
  rewrite lookup_delete, !lookup_without.
  repeat case_decide; rewrite ?elem_of_app, ?list_elem_of_singleton in *; naive_solver.
Qed.

(** [free] of a pointer that is null or to an allocated block. *)
Lemma free_wp {A} ok (k : heap → prog ngR A) hp p Q h (bl := filter (.≠ 0) [p]) :
  Forall (λ b, is_Some (hp !! b)) bl →
  wp ok (k (without hp bl)) Q (h ++ (freed <$> bl)) → wp ok (bind k (free hp p)) Q h.
Proof.
  subst bl. unfold free. rewrite filter_cons. destruct (Z.eqb_spec p 0) as [->|Hp].
  - rewrite decide_False by auto. cbn. intros _. by rewrite app_nil_r.
  - rewrite decide_True by done. intros [[o ->] _]%Forall_cons Hk. cbn. by intros [] _.
Qed.

Lemma free_last ok hp p Q h :
  p ≠ 0 → is_Some (hp !! p) → Q (h ++ [freed p]) (Val (delete p hp)) → wp ok (free hp p) Q h.
Proof. intros Hp%Z.eqb_neq [o Ho] Hk. unfold free. rewrite Hp, Ho. cbn. by intros [] _. Qed.

Lemma delete_stream_frees ok hp d a q i Q h (bl := filter (.≠ 0) [q; a] ++ [d]) :
  d ≠ 0 → hp !! d = Some (OStream (Some a) (Some q) i) →
  NoDup bl → Forall (λ b, is_Some (hp !! b)) bl →
  (∀ hp', (∀ k, hp' !! k = without hp bl !! k) → Q (h ++ (freed <$> bl)) (Val hp')) →
  wp ok (delete_http2_stream_data hp d) Q h.
Proof.
  intros Hd Hstr Hnd Hbl HQ. subst bl. change [q; a] with ([q] ++ [a]) in *.
  rewrite filter_app in *. set (fq := filter (.≠ 0) [q]) in *. set (fa := filter (.≠ 0) [a]) in *.
  apply Forall_app in Hbl as [[Hbq Hba]%Forall_app _].
  assert (d ∉ fq ++ fa) as Hdf by (apply NoDup_app in Hnd as (_ & Hx & _); set_solver).
  apply NoDup_app in Hnd as ((_ & Hqa & _)%NoDup_app & _ & _).
  unfold delete_http2_stream_data, get_stream. rewrite Hstr. cbn [bind get fst snd].
  apply free_wp; [done|]. fold fq. rewrite without_in, Hstr by set_solver. cbn [bind get fst snd].
  apply free_wp.
  - apply Forall_forall. intros b Hb. rewrite without_in by (intros ?; by eapply Hqa).
    by eapply Forall_forall in Hba.
  - fold fa. apply free_last; [done| |].
    + rewrite !without_in by set_solver. eauto.
    + rewrite <- !app_assoc. rewrite !fmap_app, <- !app_assoc in HQ. apply HQ.
      intros k. apply lookup_three.
Qed.

Lemma view_freed bl : view v_free (freed <$> bl) = bl ∧ view v_session_del (freed <$> bl) = [].
Proof.
  induction bl as [|b bl [IH1 IH2]]; [done|]. unfold view in *. cbn. by split; [f_equal|].
Qed.

(** C22: [delete_http2_session_data] of a session object whose fields are set
    deletes its nghttp2 session and frees every block the object owns, the
    strings, the stream object and the object itself, once and in this order,
    and nothing else; it has no undefined behaviour. *)
Theorem delete_session_frees w hp p s d bl :
  p ≠ 0 → hp !! p = Some (OSession (Some s) (Some d)) → owned hp d bl →
  NoDup (bl ++ [p]) → Forall (λ b, is_Some (hp !! b)) bl →
  let h := (run w (delete_http2_session_data hp p) []).1 in
  (run w (delete_http2_session_data hp p) []).2 = Val (foldr delete hp (bl ++ [p])) ∧
  view v_free h = bl ++ [p] ∧ view v_session_del h = [s].
Proof.
  intros Hp Hs Ho Hnd Hbl. cbv zeta. set (P := delete_http2_session_data hp p).
  pattern (run w P []).1, (run w P []).2. apply (wp_run anything); [done|]. subst P.
  unfold delete_http2_session_data, get_session. rewrite Hs. cbn [bind get fst snd call wp].
  intros [] _. destruct Ho as [[-> ->]|(Hd & a & q & i & Hstr & ->)].
  - cbn. apply free_last; [done|rewrite lookup_insert_eq; eauto|].
    split_and!; [|done..]. f_equal. cbn. by rewrite delete_insert_eq.
  - apply Z.eqb_neq in Hd as Hd'. rewrite Hd'. cbn [negb]. set (bl := filter (.≠ 0) [q; a] ++ [d]) in *.
    apply NoDup_app in Hnd as (Hnd & Hdis & _). assert (p ∉ bl) as Hpb by set_solver.
    assert (d ≠ p) as Hdp by set_solver.
    apply wp_bind, wp_bind. eapply (delete_stream_frees _ _ d a q i); [done| |done| |].
    + by rewrite lookup_insert_ne.
    + apply Forall_forall. intros b Hb. rewrite lookup_insert_ne by set_solver.
      by eapply Forall_forall in Hbl.
    + fold bl. intros hp' Hhp'. clearbody bl. cbn [seq_post]. rewrite Hhp', without_in, lookup_insert_eq by done.
      cbn [bind get fst snd wp]. apply free_last; [done|rewrite lookup_insert_eq; eauto|].
      destruct (view_freed bl) as [V1 V2]. rewrite !view_app, V1, V2. cbn. split_and!; [|done..].
      f_equal. apply map_eq. intros k. change (foldr delete hp) with (without hp).
      rewrite lookup_without, lookup_delete, lookup_insert, Hhp', lookup_without, lookup_insert.
      clear -k. repeat case_decide; rewrite ?elem_of_app, ?list_elem_of_singleton in *; naive_solver.
Qed.

(** A session with a stream that has a path and no authority. *)
Definition session_heap : heap :=
  {[ 64 := OSession (Some 700) (Some 128); 128 := OStream (Some 0) (Some 200) (Some 1); 200 := OChars ]}.

Lemma delete_session_frees_witness :
  let h := (run (good_world 0) (delete_http2_session_data session_heap 64) []).1 in
  (run (good_world 0) (delete_http2_session_data session_heap 64) []).2
    = Val (foldr delete session_heap ([200; 128] ++ [64])) ∧
  view v_free h = [200; 128] ++ [64] ∧ view v_session_del h = [700].
Proof.
  apply (delete_session_frees (good_world 0) session_heap 64 700 128 [200; 128]).
  - done.
  - reflexivity.
  - right. split; [done|]. by exists 0, 200, (Some 1).
  - by apply (bool_decide_unpack _).
  - repeat constructor; by eexists.
Defined.

(** Allocations that succeed. *)
Definition malloc_ok (h : ngtrace) (e : ng) : ngR e → Prop :=
  match e return ngR e → Prop with Malloc _ => λ p, p ≠ 0 | _ => λ _, True end.

(** Note: a stream object made by [create_http2_stream_data] cannot be deleted:
    its [path] is never set, and [delete_http2_stream_data] frees it. *)
Theorem stream_data_delete_undefined w hp :
  env_ok malloc_ok w →
  (run w (m ⇐ create_http2_stream_data hp; delete_http2_stream_data m.2 m.1) []).2
  = Stopped (Undefined "read of an indeterminate field").
Proof.
  intros Hw. cbn. pose proof (Hw [] (Malloc sizeof_stream_data) : w [] (Malloc sizeof_stream_data) ≠ 0) as Hp.
  apply Z.eqb_neq in Hp. rewrite Hp. unfold delete_http2_stream_data, get_stream.
  rewrite lookup_insert_eq. done.
Qed.

Lemma stream_data_delete_undefined_witness :
  (run (good_world 64) (m ⇐ create_http2_stream_data ∅; delete_http2_stream_data m.2 m.1) []).2
  = Stopped (Undefined "read of an indeterminate field").
Proof. apply stream_data_delete_undefined. intros h []; cbn; auto. Defined.

(** * A session served by its callbacks *)

(** The calls nghttp2 makes, one constructor per callback of [server_callbacks]. *)
Inductive invocation :=
  | InvSend (data : list Z)
  | InvFrameRecv (f : frame) (user_data : Z)
  | InvStreamClose (stream_id : Z)
  | InvHeader (f : frame) (name value : list Z)
  | InvBeginHeaders (f : frame).

Definition registered_as (i : invocation) : callback :=
  match i with
  | InvSend _ => cb_send
  | InvFrameRecv _ _ => cb_frame_recv
  | InvStreamClose _ => cb_stream_close
  | InvHeader _ _ _ => cb_header
  | InvBeginHeaders _ => cb_begin_headers
  end.

(** Every callback the server registers is one of them, and the other way round. *)
Lemma registered_all c : c ∈ server_callbacks ↔ ∃ i, registered_as i = c.
Proof.
  split.
  - unfold server_callbacks. rewrite !elem_of_cons. set (f := Build_frame 0 0 0 0 []).
    intros [->|[->|[->|[->|[->|?%elem_of_nil]]]]]; [exists (InvSend [])|exists (InvFrameRecv f 0)|
      exists (InvStreamClose 0)|exists (InvHeader f [] [])|exists (InvBeginHeaders f)|]; done.
  - intros [[] <-]; cbn; unfold server_callbacks; set_solver.
Qed.

(** What the callback returns, and the heap after it. *)
Definition invoke (session : Z) (hp : heap) (i : invocation) : prog ngR (Z * heap) :=
  let keep (p : prog ngR Z) := r ⇐ p; Ret (r, hp) in
  match i with
  | InvSend data => keep (send_callback data)
  | InvFrameRecv f user_data => keep (on_frame_recv_callback session f user_data)
  | InvStreamClose stream_id => on_stream_close_callback hp session stream_id
  | InvHeader f name value => keep (on_header_callback session f name value)
  | InvBeginHeaders f => keep (on_begin_headers_callback session f)
  end.

Fixpoint invoke_all (session : Z) (hp : heap) (l : list invocation) : prog ngR (list Z * heap) :=
  match l with
  | [] => Ret ([], hp)
  | i :: l' =>
      r ⇐ invoke session hp i;
      rs ⇐ invoke_all session r.2 l';
      Ret (r.1 :: rs.1, rs.2)
  end.

(** A stream has the user data that was attached to it, NULL if none was. *)
Definition nothing_attached (h : ngtrace) (e : ng) : ngR e → Prop :=
  match e return ngR e → Prop with GetStreamUserData _ _ => λ p, p = 0 | _ => λ _, True end.

(** A call that only prints or looks up the data of a stream. *)
Definition harmless (ev : event ngR) : bool :=
  match ev with Ev (Sys (Print _)) _ | Ev (GetStreamUserData _ _) _ => true | _ => false end.

Lemma invoke_quiet session hp i h :
  Forall harmless h →
  wp nothing_attached (invoke session hp i) (λ h' o, o = Val (0, hp) ∧ Forall harmless h') h.
Proof.
  intros Hh. assert (∀ ev, harmless ev → Forall harmless (h ++ [ev])) as H1
    by (intros; by apply Forall_app; auto).
  assert (∀ ev ev', harmless ev → harmless ev' → Forall harmless ((h ++ [ev]) ++ [ev'])) as H2
    by (intros; by repeat (apply Forall_app; split); auto).
  destruct i as [d|f ud|sid|f n v|f]; unfold invoke, send_callback, on_frame_recv_callback,
    on_stream_close_callback, on_header_callback, on_begin_headers_callback; cbn; intros [] _; auto.
  - destruct (_ || _); cbn; [|auto]. destruct (negb _); cbn; [|auto]. intros r ->. cbn. auto.
  - intros r ->. cbn. auto.
  - destruct (_ =? _); cbn; [|auto]. destruct (negb _); cbn; [auto|]. intros r ->.
    destruct (_ && _); cbn; auto.
  - destruct (_ || _); cbn; auto.
Qed.

(** C23: as the server attaches no data to a stream, in every sequence of calls
    that nghttp2 makes to its callbacks each returns 0, no object is created,
    changed or freed, and nothing is submitted to nghttp2: no request is ever
    answered. *)
Theorem callbacks_answer_nothing session hp l w :
  env_ok nothing_attached w →
  let '(h, o) := run w (invoke_all session hp l) [] in
  o = Val (replicate (length l) 0, hp) ∧ Forall harmless h.
Proof.
  intros Hw. destruct (run _ _ _) as [h o] eqn:E. change h with (h, o).1. change o with (h, o).2 at 1.
  rewrite <- E. pattern (run w (invoke_all session hp l) []).1, (run w (invoke_all session hp l) []).2.
  apply (wp_run nothing_attached); [done|]. clear E. assert (Forall harmless []) as H0 by constructor.
  revert H0. generalize (@nil (event ngR)) as h0. induction l as [|i l IH]; intros h0 H0; [done|].
  cbn [invoke_all length replicate]. apply wp_bind. eapply wp_mono; [|by apply invoke_quiet].
  intros h' ? [-> Hh']. cbn [seq_post fst snd]. apply wp_bind. eapply wp_mono; [|by apply IH].
  intros h'' ? [-> Hh'']. done.
Qed.

Lemma callbacks_answer_nothing_witness :
  let f := {| hd_type := NGHTTP2_HEADERS; hd_flags := NGHTTP2_FLAG_END_STREAM; hd_stream_id := 1;
              headers_cat := NGHTTP2_HCAT_REQUEST; headers_nva := [] |} in
  let l := [InvBeginHeaders f; InvHeader f (bs ":path") (bs "/"); InvFrameRecv f 64; InvStreamClose 1] in
  let '(h, o) := run (good_world 0) (invoke_all 700 ∅ l) [] in
  o = Val (replicate (length l) 0, ∅) ∧ Forall harmless h.
Proof. apply callbacks_answer_nothing. intros h []; done. Defined.

End NgServer.
