(* ===== verification/NgServerMain.v ===== *)
(** The event loop of the HTTP/2 server (src/http2/nghttp2_server/main.cc).

    The variables that survive a round are [conn_sock], [session_data], the buffer
    [buf] and the heap; one round is an [epoll_wait] and the handling of what it
    reports.  [inet_aton], the address it leaves in [sin_addr], and [inet_ntop],
    the text it writes, are parameters. *)

From stdpp Require Import base list gmap strings.
From S2P Require Import Prelude Io Posix CLib Epoll Nghttp2 NgServer.

Local Open Scope Z_scope.
Local Open Scope cs_scope.

Module NgServerMain.
Import NgServer.

Definition MAX_CONN : Z := 16.
Definition MAX_EVENTS : nat := 32.
Definition BUF_SIZE : nat := 256.

(** [return retError(...)] from [main]. *)
Definition retError {A} (l : list item) : prog ngR A := out l ;;; Halt (Exit (-1)).

(** The map of error names is the same as in the echo server. *)
Definition printReadError (error : Z) : prog ngR unit :=
  let sError := match Epoll.assoc error Epoll.read_errors with
                | Some s => s
                | None => "UNKNOWN_ERROR"%string
                end in
  out [T "read error, "; T sError; T " "; Err error].

Record state := {
  conn_sock : option Z;      (* indeterminate before the first accept *)
  session_data : Z;
  buf : list Z;
  mem : heap }.

(** [bzero(buf, sizeof(buf))], and the bytes [d] stored at the start of [b]. *)
Definition bzero : list Z := replicate BUF_SIZE 0.
Definition overwrite (b d : list Z) : list Z := d ++ drop (length d) b.

(** The [do]/[while] loop; its value is the last [read_sz] and [buf]. *)
Fixpoint drain (fuel : nat) (conn : option Z) : prog ngR (Z * list Z) :=
  match fuel with
  | O => Halt OutOfFuel
  | S fuel' =>
      match conn with
      | None => undef "conn_sock is indeterminate"
      | Some fd =>
          let buf := bzero in
          r ⇐ call (Sys (Read fd BUF_SIZE));
          let buf := overwrite buf (take (Z.to_nat (rret r)) (rdata r)) in
          if rret r <? 0 then printReadError (rerrno r) ;;; Ret (rret r, buf)
          else if 0 <? rret r then drain fuel' conn
          else Ret (rret r, buf)
      end
  end.

(** [session_data->session]. *)
Definition session_of (st : state) : prog ngR Z :=
  f ⇐ get_session (mem st) (session_data st); get f.1.

Definition send_pending (st : state) : prog ngR state :=
  session ⇐ session_of st;
  rv ⇐ call (SessionSend session);
  if negb (rv =? 0) then retError [T "Fatal error: "; Err rv] else Ret st.

Section server.
Context (inet_ntop : Z → list Z) (listen_sock epfd : Z) (fuel : nat).

(** A new connection; its address is written into [buf]. *)
Definition on_accept (st : state) : prog ngR state :=
  a ⇐ call (Sys (Accept listen_sock));
  let conn := ret a.1 in
  g ⇐ call (Sys (Fcntl conn F_GETFD 0));
  s ⇐ call (Sys (Fcntl conn F_SETFD (Z.lor (ret g) O_NONBLOCK)));
  if ret s =? -1 then retError [T "failed to set client socket to be non blocking"]
  else
    out [T "connected with "; Ip (sin_addr a.2); T " "; N (ntohs (sin_port a.2))] ;;;
    c ⇐ call (Sys (EpollCtl epfd EPOLL_CTL_ADD conn
                (Some {| ev_events := Z.lor (Z.lor (Z.lor EPOLLIN EPOLLET) EPOLLRDHUP) EPOLLHUP;
                         ev_fd := epfd |})));
    if ret c =? -1 then retError [T "failed epoll_ctl"]
    else
      m ⇐ malloc (mem st) sizeof_session_data (OSession None None);
      hp ⇐ initialize_nghttp2_session m.2 m.1;
      Ret {| conn_sock := Some conn; session_data := m.1;
             buf := overwrite (buf st) (inet_ntop (sin_addr a.2) ++ [0]); mem := hp |}.

(** Input: drain the socket, then feed nghttp2. *)
Definition on_input (st : state) : prog ngR state :=
  d ⇐ drain fuel (conn_sock st);
  let read_sz := d.1 in
  let st := {| conn_sock := conn_sock st; session_data := session_data st; buf := d.2;
               mem := mem st |} in
  out [T "read "; N read_sz; T " bytes"] ;;;
  session ⇐ session_of st;
  readlen ⇐ call (SessionMemRecv session (buf st) (u64 read_sz));
  if i32 readlen <? 0 then retError [T "Fatal error: "; Err (i32 readlen)]
  else send_pending st.

Definition on_output (st : state) : prog ngR state :=
  session ⇐ session_of st;
  wr ⇐ call (WantRead session);
  idle ⇐ (if wr =? 0 then
            session ⇐ session_of st;
            ww ⇐ call (WantWrite session); Ret (ww =? 0)
          else Ret false);
  if (idle : bool) then
    hp ⇐ delete_http2_session_data (mem st) (session_data st);
    Ret {| conn_sock := conn_sock st; session_data := session_data st; buf := buf st; mem := hp |}
  else send_pending st.

Definition handle_event (st : state) (ev : epoll_event) : prog ngR state :=
  st ⇐ (if ev_fd ev =? listen_sock then on_accept st
        else if negb (Z.land (ev_events ev) EPOLLIN =? 0) then on_input st
        else if negb (Z.land (ev_events ev) EPOLLOUT =? 0) then on_output st
        else out [T "unexpected event"] ;;; Ret st);
  if negb (Z.land (ev_events ev) (Z.lor EPOLLRDHUP EPOLLHUP) =? 0) then
    out [T "connection closed"] ;;;
    call (Sys (EpollCtl epfd EPOLL_CTL_DEL (ev_fd ev) None)) ;;;
    call (Sys (Close (ev_fd ev))) ;;;
    hp ⇐ delete_http2_session_data (mem st) (session_data st);
    Ret {| conn_sock := conn_sock st; session_data := session_data st; buf := buf st; mem := hp |}
  else Ret st.

Fixpoint handle_events (st : state) (evs : list epoll_event) : prog ngR state :=
  match evs with
  | [] => Ret st
  | ev :: evs' => st' ⇐ handle_event st ev; handle_events st' evs'
  end.

Definition round (st : state) : prog ngR state :=
  let st := {| conn_sock := conn_sock st; session_data := session_data st; buf := bzero;
               mem := mem st |} in
  r ⇐ call (Sys (EpollWait epfd MAX_EVENTS (-1)));
  handle_events st (take (Z.to_nat (ret r.1)) r.2).

End server.

Section main.
(** [stk] is what the stack held where [buf] is. *)
Context (inet_aton : list Z → Z) (inet_ntop : Z → list Z) (stk : list Z).

Definition setup (argv : list (list Z)) : prog ngR (Z * Z) :=
  if (length argv <? 3)%nat then retError [T "required options [ip] [port]"]
  else
    let ip := nth 1 argv [] in
    let port := nth 2 argv [] in
    out [T "Starting server for "; B ip; T ":"; B port] ;;;
    s ⇐ call (Sys (Socket AF_INET SOCK_STREAM 0));
    let listen_sock := ret s in
    call (Sys (Bind listen_sock
      (Inet {| sin_port := htons (atoi port); sin_addr := inet_aton ip |}))) ;;;
    g ⇐ call (Sys (Fcntl listen_sock F_GETFD 0));
    f ⇐ call (Sys (Fcntl listen_sock F_SETFD (Z.lor (ret g) O_NONBLOCK)));
    if ret f =? -1 then retError [T "failed to set listening socket to be non blocking"]
    else
      l ⇐ call (Sys (Listen listen_sock MAX_CONN));
      if ret l <? 0 then retError [T "failed to listen"]
      else
        e ⇐ call (Sys (EpollCreate 1));
        let epfd := ret e in
        c ⇐ call (Sys (EpollCtl epfd EPOLL_CTL_ADD listen_sock
              (Some {| ev_events := Z.lor (Z.lor EPOLLIN EPOLLOUT) EPOLLET;
                       ev_fd := listen_sock |})));
        if ret c =? -1 then retError [T "failed initial epoll_ctl"]
        else Ret (listen_sock, epfd).

Definition initial : state := {| conn_sock := None; session_data := 0; buf := stk; mem := ∅ |}.

Definition main (argv : list (list Z)) (rounds fuel : nat) : prog ngR state :=
  fds ⇐ setup argv;
  iterate rounds (round inet_ntop fds.1 fds.2 fuel) initial.

End main.

(** * Invariant of the loop *)

(** The buffer and length handed to nghttp2. *)
Definition v_memrecv (e : ng) : ngR e → option (list Z * Z) :=
  match e return ngR e → option (list Z * Z) with
  | SessionMemRecv _ buf len => λ _, Some (buf, len)
  | _ => λ _, None
  end.

(** No received byte: an empty input, or [(size_t)-1] bytes of a zeroed buffer. *)
Definition no_input (x : list Z * Z) : Prop :=
  x.1 = bzero ∧ (x.2 = 0 ∨ x.2 = 2 ^ 64 - 1).

(** The session objects of the loop, whose [stream_data] is never set. *)
Definition heap_inv (hp : heap) : Prop :=
  ∀ p o, hp !! p = Some o → ∃ s, o = OSession s None.

Definition quiet (h : ngtrace) : Prop :=
  view v_free h = [] ∧ Forall no_input (view v_memrecv h).

Definition Inv (h : ngtrace) (st : state) : Prop :=
  quiet h ∧ view v_session_del h = [] ∧ heap_inv (mem st).

Definition post {A} (I : ngtrace → A → Prop) (h : ngtrace) (o : outcome A) : Prop :=
  match o with
  | Val a => I h a
  | Stopped s => quiet h ∧ (view v_session_del h ≠ [] →
                            s = Undefined "read of an indeterminate field")
  end.

(** Calls that do not matter to the invariant. *)
Definition neutral (e : ng) (r : ngR e) : Prop :=
  v_free e r = None ∧ v_memrecv e r = None ∧ v_session_del e r = None.

Lemma Inv_neutral h st e r : neutral e r → Inv h st → Inv (h ++ [Ev e r]) st.
Proof.
  intros (E1 & E2 & E3) HI. unfold Inv, quiet in *. autorewrite with cs.
  rewrite E1, E2, E3. cbn. by rewrite !app_nil_r.
Qed.

Lemma Inv_stop h st s :
  Inv h st →
  quiet h ∧ (view v_session_del h ≠ [] → s = Undefined "read of an indeterminate field").
Proof. intros (? & E & _). split; [done|]. by rewrite E. Qed.

Ltac neut := apply Inv_neutral; [done|].

Lemma Inv_mem h st st' : mem st = mem st' → Inv h st → Inv h st'.
Proof. unfold Inv. by intros ->. Qed.

Lemma drain_wp n conn st h :
  Inv h st →
  wp ng_ok (drain n conn) (post (λ h' d, Inv h' st ∧ (d.1 = 0 ∨ d.1 = -1) ∧ d.2 = bzero)) h.
Proof.
  revert h. induction n as [|n IH]; intros h HI; cbn [drain]; [by eapply Inv_stop|].
  destruct conn as [fd|]; [|by eapply Inv_stop]. wp_step. cbn. intros r Hr.
  assert (rret r = -1 ∨ 0 ≤ rret r) as Hret by (destruct Hr; lia).
  assert (rret r ≤ 0 → overwrite bzero (take (Z.to_nat (rret r)) (rdata r)) = bzero) as Hb.
  { intros. by replace (Z.to_nat (rret r)) with 0%nat by lia. }
  destruct (Z.ltb_spec (rret r) 0); [|destruct (Z.ltb_spec 0 (rret r))]; cbn -[bzero].
  - intros [] _. split_and!; [by neut; neut|lia|apply Hb; lia].
  - apply IH. by neut.
  - split_and!; [by neut|lia|apply Hb; lia].
Qed.

Lemma session_of_wp st h :
  Inv h st → wp ng_ok (session_of st) (post (λ h' _, Inv h' st)) h.
Proof.
  intros HI. unfold session_of, get_session.
  destruct (mem st !! session_data st) as [[[s|] d| |]|]; cbn; try done; by eapply Inv_stop.
Qed.

(** Deleting a session of this program reads its indeterminate [stream_data]. *)
Lemma delete_wp {A} (k : heap → prog ngR A) st h (I : ngtrace → A → Prop) :
  Inv h st →
  wp ng_ok (bind k (delete_http2_session_data (mem st) (session_data st))) (post I) h.
Proof.
  intros HI. unfold delete_http2_session_data, get_session.
  destruct (mem st !! session_data st) as [o|] eqn:E; [|by eapply Inv_stop].
  destruct HI as (HI1 & HI2 & Hheap). destruct (Hheap _ _ E) as [s ->].
  destruct s; cbn; [|split; [done|by rewrite HI2]].
  intros [] _. split; [|done]. unfold quiet in *. autorewrite with cs. cbn.
  by rewrite !app_nil_r.
Qed.

Lemma send_pending_wp st h : Inv h st → wp ng_ok (send_pending st) (post Inv) h.
Proof.
  intros HI. unfold send_pending. wp_step. eapply wp_mono; [|by apply session_of_wp].
  intros h' [s|s] HI'; [|done]. cbn. intros rv _. destruct (rv =? 0); cbn.
  - by neut.
  - intros [] _. eapply (Inv_stop _ st). by neut; neut.
Qed.

Lemma on_input_wp fuel st h : Inv h st → wp ng_ok (on_input fuel st) (post Inv) h.
Proof.
  intros HI. unfold on_input. wp_step. eapply wp_mono; [|by apply (drain_wp _ _ st)].
  intros h' [[sz b]|s] Hsz; [|done]. destruct Hsz as (HI' & Hsz & Hb). cbn in Hsz, Hb. subst b.
  cbn [seq_post fst snd]. cbv zeta.
  set (st' := {| conn_sock := conn_sock st; session_data := session_data st; buf := bzero; mem := mem st |}).
  cbn -[st' bzero]. intros [] _. wp_step.
  eapply wp_mono; [|apply (session_of_wp st'); by neut].
  intros h'' [s|s] HI''; [|done]. cbn -[bzero u64 i32 st']. intros readlen _.
  change (buf st') with bzero.
  assert (Inv (h'' ++ [Ev (SessionMemRecv s bzero (u64 sz)) readlen]) st') as HI3.
  { destruct HI'' as ((H1 & H2) & H3 & H4). unfold Inv, quiet. autorewrite with cs.
    cbn -[bzero u64]. rewrite !app_nil_r. split_and!; [done| |done..].
    apply Forall_app; split; [done|]. apply Forall_singleton. split; [done|].
    destruct Hsz as [->| ->]; [left|right]; done. }
  destruct (_ <? 0); cbn -[bzero u64 i32 st']; [intros [] _|by apply send_pending_wp].
  eapply (Inv_stop _ st'). by neut.
Qed.

Lemma on_output_wp st h : Inv h st → wp ng_ok (on_output st) (post Inv) h.
Proof.
  intros HI. unfold on_output. wp_step. eapply wp_mono; [|by apply session_of_wp].
  intros h' [s|s] HI'; [|done]. cbn. intros wr _. destruct (wr =? 0).
  - wp_step. wp_step. eapply wp_mono; [|apply session_of_wp; by neut].
    intros h'' [s'|s'] HI''; [|done]. cbn. intros ww _.
    destruct (ww =? 0); cbn; [apply (delete_wp _ st)|apply send_pending_wp]; by neut.
  - cbn. apply send_pending_wp. by neut.
Qed.

(** A session object whose [stream_data] stays indeterminate. *)
Lemma heap_inv_insert hp p s : heap_inv hp → heap_inv (<[p := OSession s None]> hp).
Proof. intros H q o. rewrite lookup_insert. case_decide; [intros [= <-]; eauto|apply H]. Qed.

Lemma initialize_wp hp p st h :
  Inv h st → heap_inv hp →
  wp ng_ok (initialize_nghttp2_session hp p) (post (λ h' hp', Inv h' st ∧ heap_inv hp')) h.
Proof.
  intros HI Hheap. unfold initialize_nghttp2_session, get_session. cbn.
  intros [] _ cb _ [] _ [] _ [] _ [] _ [] _ sn _.
  destruct (hp !! p) as [o|] eqn:E; [destruct (Hheap _ _ E) as [s ->]|]; cbn.
  - intros [] _. split; [by do 9 neut|]. by apply heap_inv_insert.
  - eapply (Inv_stop _ st). by do 8 neut.
Qed.

Lemma on_accept_wp ntop l e st h : Inv h st → wp ng_ok (on_accept ntop l e st) (post Inv) h.
Proof.
  intros HI. unfold on_accept. cbn -[initialize_nghttp2_session]. intros a _ g _ s _.
  destruct (ret s =? -1); cbn -[initialize_nghttp2_session]; intros [] _.
  { eapply (Inv_stop _ st). by do 4 neut. }
  intros c _. destruct (ret c =? -1); cbn -[initialize_nghttp2_session]; [intros [] _|].
  { eapply (Inv_stop _ st). by do 6 neut. }
  intros p _. apply wp_bind. eapply wp_mono; [|apply (initialize_wp _ _ st); [by do 6 neut|]].
  - intros h' [hp'|s'] Hp; [|done]. destruct Hp as [(? & ? & ?) ?]. done.
  - destruct HI as (_ & _ & HI). destruct (p =? 0); [done|]. by apply heap_inv_insert.
Qed.

Lemma server_event_wp ntop l e fuel st ev h :
  Inv h st → wp ng_ok (handle_event ntop l e fuel st ev) (post Inv) h.
Proof.
  intros HI. unfold handle_event. wp_step. eapply (wp_mono _ _ (post Inv)).
  - intros h' [st'|s] HI'; [|done]. cbn. destruct (negb _); [|done].
    cbn. intros [] _ r _ r' _. apply (delete_wp _ st'). by do 3 neut.
  - destruct (_ =? l); [by apply on_accept_wp|].
    destruct (negb _); [by apply on_input_wp|].
    destruct (negb _); [by apply on_output_wp|]. cbn. intros [] _. by neut.
Qed.

Lemma server_events_wp ntop l e fuel st evs h :
  Inv h st → wp ng_ok (handle_events ntop l e fuel st evs) (post Inv) h.
Proof.
  revert h st. induction evs as [|ev evs IH]; intros h st HI; [done|]. cbn [handle_events].
  wp_step. eapply wp_mono; [|by apply server_event_wp].
  intros h' [st'|s] HI'; [|done]. by apply IH.
Qed.

Lemma server_setup_wp aton stk argv h :
  Inv h (initial stk) → wp ng_ok (setup aton argv) (post (λ h' _, Inv h' (initial stk))) h.
Proof.
  intros HI. unfold setup. destruct (_ <? _)%nat; cbn.
  { intros [] _. eapply (Inv_stop _ (initial stk)). by neut. }
  intros [] _ s _ b _ g _ f _. destruct (ret f =? -1); cbn.
  { intros [] _. eapply (Inv_stop _ (initial stk)). by do 6 neut. }
  intros li _. destruct (ret li <? 0); cbn.
  { intros [] _. eapply (Inv_stop _ (initial stk)). by do 7 neut. }
  intros ep _ c _. destruct (ret c =? -1); cbn.
  { intros [] _. eapply (Inv_stop _ (initial stk)). by do 9 neut. }
  by do 8 neut.
Qed.

Lemma server_main_wp aton ntop stk argv rounds fuel :
  wp ng_ok (main aton ntop stk argv rounds fuel) (post Inv) [].
Proof.
  unfold main. wp_step. eapply wp_mono; [|apply (server_setup_wp _ stk); split_and!; done].
  intros h [fds|s] HI; [|done]. cbn.
  eapply wp_mono; [|apply (wp_iterate ng_ok rounds _ Inv (λ h s, post Inv h (Stopped s)))].
  - by intros h' [].
  - intros h' st HI'. unfold round. wp_step. cbn. intros r _.
    eapply wp_mono; [|apply server_events_wp; by neut]. by intros h'' [].
  - done.
Qed.

(** * Properties *)

(** C39: no byte a client sends ever reaches nghttp2: in every run of the server
    the buffer that is cleared, read into and handed to
    [nghttp2_session_mem_recv2] holds only zeros in every such call, with length
    0 after the end of the stream or with [(size_t)-1] after a failed read,
    which is far beyond the 256 bytes of the buffer. *)
Theorem server_input_lost w aton ntop stk argv rounds fuel :
  env_ok ng_ok w →
  Forall (λ x, x.1 = replicate BUF_SIZE 0 ∧ (x.2 = 0 ∨ x.2 = 2 ^ 64 - 1))
         (view v_memrecv (run w (main aton ntop stk argv rounds fuel) []).1).
Proof.
  intros Hw. pose proof (wp_run ng_ok w _ _ [] Hw (server_main_wp aton ntop stk argv rounds fuel)) as H.
  destruct (run _ _ _).2; destruct H as [[??] ?]; done.
Qed.

(** Note: the server never frees a session, and it cannot survive the end of a
    connection: a run in which a session is deleted ends in undefined
    behaviour, the read of the [stream_data] field the loop never sets. *)
Theorem server_delete_undefined w aton ntop stk argv rounds fuel :
  env_ok ng_ok w →
  let h := (run w (main aton ntop stk argv rounds fuel) []).1 in
  let o := (run w (main aton ntop stk argv rounds fuel) []).2 in
  view v_free h = [] ∧
  (view v_session_del h ≠ [] → o = Stopped (Undefined "read of an indeterminate field")).
Proof.
  intros Hw. pose proof (wp_run ng_ok w _ _ [] Hw (server_main_wp aton ntop stk argv rounds fuel)) as H.
  cbv zeta. destruct (run _ _ _).2 as [st|s].
  - destruct H as ([H _] & H' & _). by rewrite H'.
  - destruct H as [[H _] H']. split; [done|]. intros E. by rewrite (H' E).
Qed.

(** A world in which the kernel is [small_world] over the system calls. *)
Definition server_world (flags : Z) (data : list Z) : env ngR := λ h e,
  match e return ngR e with
  | Sys s => small_world flags data (sys_history h) s
  | e => good_world 64 h e
  end.

Lemma server_world_ok flags data : is_bytes data → env_ok ng_ok (server_world flags data).
Proof. intros Hd h e. destruct e; try exact I. by apply small_world_ok. Qed.

Definition args : list (list Z) := [bs "server"; bs "127.0.0.1"; bs "3000"].

Definition bs_addr (a : Z) : list Z := bs "10.0.0.1".

Lemma server_input_lost_witness :
  let h := (run (server_world EPOLLIN (bs "GET /")) (main (λ _, 0) bs_addr (replicate 256 7) args 2 5) []).1 in
  view (on_sys v_read) h = [(12, bs "GET /")] ∧
  view v_memrecv h = [(replicate BUF_SIZE 0, 0)] ∧
  Forall (λ x, x.1 = replicate BUF_SIZE 0 ∧ (x.2 = 0 ∨ x.2 = 2 ^ 64 - 1)) (view v_memrecv h).
Proof.
  split_and!; [vm_compute; reflexivity..|].
  apply (server_input_lost _ (λ _, 0) bs_addr (replicate 256 7) args 2 5), server_world_ok, bs_bytes.
Defined.

Lemma server_delete_undefined_witness :
  let w := server_world (Z.lor EPOLLIN EPOLLRDHUP) (bs "GET /") in
  let h := (run w (main (λ _, 0) bs_addr (replicate 256 7) args 2 5) []).1 in
  let o := (run w (main (λ _, 0) bs_addr (replicate 256 7) args 2 5) []).2 in
  view v_session_del h = [700] ∧ view v_free h = [] ∧
  (view v_session_del h ≠ [] → o = Stopped (Undefined "read of an indeterminate field")).
Proof.
  split; [vm_compute; reflexivity|].
  apply (server_delete_undefined _ (λ _, 0) bs_addr (replicate 256 7) args 2 5), server_world_ok, bs_bytes.
Defined.

End NgServerMain.
