(* ===== verification/NgClient.v ===== *)
(** The HTTP/2 client (src/http2/nghttp2_client/nghttp2.h and main.cc).

    The callbacks and [main] are programs over the system calls and nghttp2
    ([Nghttp2.ng]).  [main] is bounded by the number of rounds of its event
    loop; [inet_aton] and the version string of nghttp2 are parameters. *)

From stdpp Require Import base list gmap strings pretty.
From S2P Require Import Prelude Io Posix CLib Nghttp2.

Local Open Scope Z_scope.
Local Open Scope cs_scope.

Module NgClient.

(** * Data *)

Record Request := { host : list Z; hostport : list Z; stream_id : Z; port : Z }.

(** [std::to_string] of an integer. *)
Definition to_string (z : Z) : list Z := bs (pretty z).

(** The constructor.  The members are initialised in the order in which the
    class declares them, so [hostport] is built from what the storage of [port]
    held before, [indet], and not from the argument [p]. *)
Definition Request_new (indet : Z) (h : list Z) (p : Z) : Request :=
  let host := h in
  let hostport := host ++ bs ":" ++ to_string indet in
  {| host := host; hostport := hostport; stream_id := -1; port := p |}.

Definition EXIT_FAILURE : Z := 1.

Definition diec {A} (func : string) (error_code : Z) : prog ngR A :=
  out [T "FATAL: "; T func; T ": error_code="; N error_code; T ", msg="; Err error_code] ;;;
  Halt (Exit EXIT_FAILURE).

(** [nghttp2_session_want_read(s) || nghttp2_session_want_write(s)]. *)
Definition want (session : Z) : prog ngR bool :=
  r ⇐ call (WantRead session);
  if negb (r =? 0) then Ret true
  else w ⇐ call (WantWrite session); Ret (negb (w =? 0)).

(** * Callbacks *)

Definition send_callback (session fd : Z) (data : list Z) : prog ngR Z :=
  out [T "Hit send_callback, data length "; N (Z.of_nat (length data))] ;;;
  if i32 (Z.of_nat (length data)) <? 0 then undef "write of more bytes than the buffer has"
  else
    w ⇐ call (Sys (Write fd (take (Z.to_nat (i32 (Z.of_nat (length data)))) data)));
    let rv := i32 (ret w) in
    if rv <=? 0 then
      b ⇐ want session;
      if (b : bool) then out [T " EAGAIN, want read/write"] ;;; Ret NGHTTP2_ERR_WOULDBLOCK
      else out [T " ERR_CALLBACK_FAILURE"] ;;; Ret NGHTTP2_ERR_CALLBACK_FAILURE
    else out [T "written bytes "; N rv] ;;; Ret rv.

(** The result and the bytes stored in [buf]. *)
Definition recv_callback (session fd : Z) (len : nat) : prog ngR (Z * list Z) :=
  out [T "Hit recv_callback, fd "; N fd] ;;;
  r ⇐ call (Sys (Read fd len));
  let rv := i32 (rret r) in
  if rv <? 0 then
    if rerrno r =? EAGAIN then
      b ⇐ want session;
      if (b : bool) then out [T " EAGAIN, want read/write"] ;;; Ret (NGHTTP2_ERR_WOULDBLOCK, [])
      else out [T " ERR_CALLBACK_FAILURE"] ;;; Ret (NGHTTP2_ERR_CALLBACK_FAILURE, [])
    else
      out [T " recv_callback, failed to read, error "; N (rerrno r); T " ,"; Err (rerrno r)] ;;;
      Ret (-1, [])
  else if rv =? 0 then out [T " NGHTTP2_ERR_EOF"] ;;; Ret (NGHTTP2_ERR_EOF, [])
  else out [T " read bytes: "; N rv] ;;; Ret (rv, rdata r).

Fixpoint print_nva (nva : list (list Z * list Z)) : prog ngR unit :=
  match nva with
  | [] => Ret tt
  | (name, value) :: nva' => out [B name; T ": "; B value] ;;; print_nva nva'
  end.

(** The names of the frame types other than HEADERS that are logged. *)
Definition frame_names : list (Z * string) :=
  [(NGHTTP2_DATA, "DATA"); (NGHTTP2_RST_STREAM, "RST_STREAM"); (NGHTTP2_GOAWAY, "GOAWAY");
   (NGHTTP2_PRIORITY, "PRIORITY"); (NGHTTP2_SETTINGS, "SETTINGS");
   (NGHTTP2_PUSH_PROMISE, "PUSH PROMISE"); (NGHTTP2_WINDOW_UPDATE, "WINDOW UPDATE")]%string.

Fixpoint frame_name (t : Z) (l : list (Z * string)) : option string :=
  match l with
  | [] => None
  | (t', s) :: l' => if t =? t' then Some s else frame_name t l'
  end.

Definition log_frame (arrow : string) (t : Z) : prog ngR unit :=
  match frame_name t frame_names with
  | Some s => out [T arrow; T " ("; T s; T ")"]
  | None => Ret tt
  end.

Definition to_server : string := "[INFO] C ----------------------------> S".
Definition to_client : string := "[INFO] C <---------------------------- S".

Definition on_frame_send_callback (session : Z) (f : frame) : prog ngR Z :=
  out [T "Hit on_frame_send_callback"] ;;;
  (if hd_type f =? NGHTTP2_HEADERS then
     u ⇐ call (GetStreamUserData session (hd_stream_id f));
     if negb (u =? 0) then
       out [T to_server; T " (HEADERS)"] ;;; print_nva (headers_nva f)
     else Ret tt
   else log_frame to_server (hd_type f)) ;;;
  Ret 0.

Definition on_frame_recv_callback (session : Z) (f : frame) : prog ngR Z :=
  out [T "Hit on_frame_recv_callback"] ;;;
  (if hd_type f =? NGHTTP2_HEADERS then
     if headers_cat f =? NGHTTP2_HCAT_RESPONSE then
       req ⇐ call (GetStreamUserData session (hd_stream_id f));
       if negb (req =? 0) then
         out [T to_client; T " (HEADERS)"] ;;; print_nva (headers_nva f)
       else Ret tt
     else Ret tt
   else log_frame to_client (hd_type f)) ;;;
  Ret 0.

Definition on_stream_close_callback (session stream_id : Z) : prog ngR Z :=
  out [T "Hit on_stream_close_callback"] ;;;
  req ⇐ call (GetStreamUserData session stream_id);
  if negb (req =? 0) then
    rv ⇐ call (TerminateSession session NGHTTP2_NO_ERROR);
    if negb (rv =? 0) then diec "nghttp2_session_terminate_session" rv else Ret 0
  else Ret 0.

Definition on_data_chunk_recv_callback (session stream_id : Z) (data : list Z) : prog ngR Z :=
  out [T "Hit on_data_chunk_recv_callback"] ;;;
  req ⇐ call (GetStreamUserData session stream_id);
  if negb (req =? 0) then
    out [T to_client; T " (DATA chunk) "; N (Z.of_nat (length data)); T " bytes"; B data] ;;; Ret 0
  else Ret 0.

Definition setup_nghttp2_callbacks (cbs : Z) : prog ngR unit :=
  call (CallbacksSet cbs cb_send) ;;;
  call (CallbacksSet cbs cb_recv) ;;;
  call (CallbacksSet cbs cb_frame_send) ;;;
  call (CallbacksSet cbs cb_frame_recv) ;;;
  call (CallbacksSet cbs cb_stream_close) ;;;
  call (CallbacksSet cbs cb_data_chunk_recv).

(** * The event loop *)

(** The new [pollfd->events]. *)
Definition ctl_poll (session : Z) : prog ngR Z :=
  let events := 0 in
  r ⇐ call (WantRead session);
  let events := if negb (r =? 0) then Z.lor events POLLIN else events in
  w ⇐ call (WantWrite session);
  Ret (if negb (w =? 0) then Z.lor events POLLOUT else events).

Section client.
Context (NGHTTP2_VERSION : list Z) (inet_aton : list Z → Z).
(** The address of [req], and what the storage of its [port] held. *)
Context (req_addr indet : Z).

Definition request_nva (req : Request) : list (list Z * list Z) :=
  [(bs ":method", bs "GET"); (bs ":path", bs "/test"); (bs ":scheme", bs "https");
   (bs ":authority", hostport req); (bs "accept", bs "*/*");
   (bs "user-agent", bs "nghttp2/" ++ NGHTTP2_VERSION)].

Definition submit_request (session : Z) (req : Request) : prog ngR Request :=
  out [T "submit_request"] ;;;
  id ⇐ call (SubmitRequest session (request_nva req) req_addr);
  if id <? 0 then diec "nghttp2_submit_request" id
  else
    out [T "[INFO] Stream ID = "; N id] ;;;
    Ret {| host := host req; hostport := hostport req; stream_id := id; port := port req |}.

Definition exec_io (session : Z) : prog ngR unit :=
  rv ⇐ call (SessionRecv session);
  if negb (rv =? 0) then diec "nghttp2_session_recv" rv
  else
    rv ⇐ call (SessionSend session);
    if negb (rv =? 0) then diec "nghttp2_session_send" rv else Ret tt.

Definition retError {A} (l : list item) : prog ngR A := out l ;;; Halt (Exit (-1)).

(** The [while] loop: [events] is [pollfds[0].events]. *)
Fixpoint event_loop (rounds : nat) (sock session events : Z) (req : Request) : prog ngR Request :=
  b ⇐ want session;
  if (b : bool) then
    match rounds with
    | O => Halt OutOfFuel
    | S rounds' =>
        p ⇐ call (Sys (Poll sock events (-1)));
        if ret p.1 =? -1 then retError [T "poll"; Err (errno p.1)]
        else
          let revents := p.2 in
          (if negb (Z.land revents (Z.lor POLLIN POLLOUT) =? 0) then exec_io session else Ret tt) ;;;
          if negb (Z.land revents POLLHUP =? 0) || negb (Z.land revents POLLERR =? 0) then
            retError [T "Connection error"]
          else
            events ⇐ ctl_poll session;
            req ⇐ submit_request session req;
            event_loop rounds' sock session events req
    end
  else Ret req.

(** The connected socket. *)
Definition open_socket (ip : list Z) (iPort : Z) : prog ngR Z :=
  s ⇐ call (Sys (Socket AF_INET SOCK_STREAM 0));
  let sock := ret s in
  if sock <? 0 then retError [T "failed to create socket"]
  else
    let client := Inet {| sin_port := htons iPort; sin_addr := inet_aton ip |} in
    let dscp := u8 (Z.shiftl 46 2) in
    r ⇐ call (Sys (Setsockopt sock IPPROTO_IP IP_TOS [dscp]));
    if ret r <? 0 then retError [T "failed to setsockopt dscp"; Err (errno r)]
    else
      out [T "set dscp : "; B [dscp]] ;;;
      i ⇐ call (Sys (Ioctl sock FIONBIO (le 8 1)));
      if negb (rret i =? 0) then retError [T "ioctl FIONBIO call failed"]
      else
        out [T "socket made non-blocking"] ;;;
        n ⇐ call (Sys (Setsockopt sock IPPROTO_TCP TCP_NODELAY (le 4 1)));
        if ret n <? 0 then retError [T "failed to setsockopt tcp nodelay"; Err (errno n)]
        else
          c ⇐ call (Sys (Connect sock client));
          if (ret c <? 0) && negb (errno c =? EINPROGRESS) then
            retError [T "failed to connect socket error "; N (errno c); T ", "; Err (errno c)]
          else
            out [T "connected to "; B ip; T ":"; N iPort; T " on fd "; N sock] ;;;
            Ret sock.

(** The nghttp2 session with its settings. *)
Definition open_session (con : Z) : prog ngR Z :=
  c ⇐ call CallbacksNew;
  if negb (c.1 =? 0) then retError [T "nghttp2_session_callbacks_new failed"]
  else
    setup_nghttp2_callbacks c.2 ;;;
    s ⇐ call (ClientNew c.2 con);
    if negb (s.1 =? 0) then retError [T "nghttp2_session_client_new failed"]
    else
      call (CallbacksDel c.2) ;;;
      rv ⇐ call (SubmitSettings s.2 NGHTTP2_FLAG_NONE
                  [(NGHTTP2_SETTINGS_MAX_CONCURRENT_STREAMS, 1);
                   (NGHTTP2_SETTINGS_INITIAL_WINDOW_SIZE, 10000)]);
      if negb (rv =? 0) then retError [T "nghttp2_submit_settings failed"]
      else Ret s.2.

(** [con] is the address of the [Connection] on the stack. *)
Definition main (con : Z) (argv : list (list Z)) (rounds : nat) : prog ngR Z :=
  if (length argv <? 3)%nat then retError [T "required options [ip] [port]"]
  else
    let sIP := nth 1 argv [] in
    let iPort := u16 (atoi (nth 2 argv [])) in
    out [T "Starting client for "; B sIP; T ":"; B (nth 2 argv [])] ;;;
    sock ⇐ open_socket sIP iPort;
    session ⇐ open_session con;
    req ⇐ submit_request session (Request_new indet sIP iPort);
    events ⇐ ctl_poll session;
    event_loop rounds sock session events req ;;;
    out [T "Exiting..."] ;;;
    call (SessionDel session) ;;;
    call (Sys (Shutdown sock SHUT_WR)) ;;;
    call (Sys (Close sock)) ;;;
    Ret 0.

End client.

(** * Views of a history *)

Definition v_poll (e : ng) : ngR e → option Z :=
  match e return ngR e → option Z with
  | Sys (Poll fd _ _) => λ _, Some fd
  | _ => λ _, None
  end.

(** The session a call of nghttp2 is made on. *)
Definition v_used (e : ng) : ngR e → option Z :=
  match e return ngR e → option Z with
  | SessionSend s | SessionRecv s | WantRead s | WantWrite s | SubmitSettings s _ _
  | SubmitRequest s _ _ | TerminateSession s _ | GetStreamUserData s _ => λ _, Some s
  | _ => λ _, None
  end.

(** What is acquired ([true]) and released. *)
Inductive resource := Sock (fd : Z) | Callbacks (c : Z) | Session (s : Z).

Definition v_resource (e : ng) : ngR e → option (bool * resource) :=
  match e return ngR e → option (bool * resource) with
  | Sys (Socket _ _ _) => λ r, if ret r <? 0 then None else Some (true, Sock (ret r))
  | Sys (Close fd) => λ _, Some (false, Sock fd)
  | CallbacksNew => λ r, if r.1 =? 0 then Some (true, Callbacks r.2) else None
  | CallbacksDel c => λ _, Some (false, Callbacks c)
  | ClientNew _ _ => λ r, if r.1 =? 0 then Some (true, Session r.2) else None
  | SessionDel s => λ _, Some (false, Session s)
  | _ => λ _, None
  end.

(** The write of a callback with its result, and whether nghttp2 said that it
    wants to read or write. *)
Definition v_written (e : ng) : ngR e → option (Z * list Z * Z) :=
  match e return ngR e → option (Z * list Z * Z) with
  | Sys (Write fd b) => λ r, Some (fd, b, ret r)
  | _ => λ _, None
  end.
Definition v_want (e : ng) : ngR e → option bool :=
  match e return ngR e → option bool with
  | WantRead _ | WantWrite _ => λ x, Some (negb (x =? 0))
  | _ => λ _, None
  end.
Definition wanted (h : ngtrace) : bool := existsb id (view v_want h).

(** * Lemmas *)

Lemma to_string_inj z z' : to_string z = to_string z' → z = z'.
Proof. intros E%bs_inj. by apply (inj pretty). Qed.

(** The resources [rs] have been acquired and released, only sessions with [P] were
    used and only descriptors with [Q] were polled. *)
Definition Inv (rs : list (bool * resource)) (P Q : Z → Prop) (h : ngtrace) : Prop :=
  view v_resource h = rs ∧ Forall P (view v_used h) ∧ Forall Q (view v_poll h).

Lemma Inv_skip rs P Q h e r :
  v_resource e r = None → (∀ s, v_used e r = Some s → P s) → (∀ fd, v_poll e r = Some fd → Q fd) →
  Inv rs P Q h → Inv rs P Q (h ++ [Ev e r]).
Proof.
  intros E1 E2 E3 (H1 & H2 & H3). unfold Inv. autorewrite with cs. rewrite E1.
  cbn. rewrite app_nil_r. split_and!; [done|..]; apply Forall_app; split; try done.
  - destruct (v_used e r) as [s|]; constructor; auto.
  - destruct (v_poll e r) as [s|]; constructor; auto.
Qed.

Lemma Inv_resource rs x P Q h e r :
  v_resource e r = Some x → v_used e r = None → v_poll e r = None →
  Inv rs P Q h → Inv (rs ++ [x]) P Q (h ++ [Ev e r]).
Proof.
  intros E1 E2 E3 (H1 & H2 & H3). unfold Inv. autorewrite with cs. rewrite E1, E2, E3.
  cbn. by rewrite !app_nil_r, H1.
Qed.

Lemma Inv_mono rs (P P' Q Q' : Z → Prop) h :
  (∀ s, P s → P' s) → (∀ s, Q s → Q' s) → Inv rs P Q h → Inv rs P' Q' h.
Proof. intros HP HQ (H1 & H2 & H3). split_and!; [done|..]; by eapply Forall_impl. Qed.

Definition post {A} (I : ngtrace → A → Prop) (h : ngtrace) (o : outcome A) : Prop :=
  match o with Val a => I h a | Stopped _ => True end.

(** A call that is on the right session and acquires nothing. *)
Ltac skip := apply Inv_skip; [done|by intros ? [= <-]|by intros ? [= <-]|].

Section loop.
Context (V : list Z) (addr : Z) (rs : list (bool * resource)) (sock session : Z).
Let I (h : ngtrace) : Prop := Inv rs (.= session) (.= sock) h.

Lemma want_wp h : I h → wp anything (want session) (post (λ h' _, I h')) h.
Proof.
  unfold I. intros HI. cbn. intros r _.
  destruct (r =? 0); cbn; [intros w _; by do 2 skip|by skip].
Qed.

Lemma exec_io_wp h : I h → wp anything (exec_io session) (post (λ h' _, I h')) h.
Proof.
  unfold I. intros HI. cbn. intros r _. destruct (r =? 0); cbn; [|done].
  intros r' _. destruct (r' =? 0); cbn; [by do 2 skip|done].
Qed.

Lemma submit_request_wp req h :
  I h → wp anything (submit_request V addr session req) (post (λ h' _, I h')) h.
Proof.
  unfold I. intros HI. cbn -[request_nva]. intros [] _ id _.
  destruct (id <? 0); cbn -[request_nva]; [done|]. intros [] _. by do 3 skip.
Qed.

Lemma event_loop_wp rounds events req h :
  I h → wp anything (event_loop V addr rounds sock session events req) (post (λ h' _, I h')) h.
Proof.
  revert events req h. induction rounds as [|rounds IH]; intros events req h HI;
    cbn [event_loop]; apply wp_bind; (eapply wp_mono; [|by apply want_wp]);
    intros h' [[|]|s] HI'; cbn -[exec_io submit_request ctl_poll]; try done.
  intros p _. destruct (ret p.1 =? -1); [done|].
  assert (I (h' ++ [Ev (Sys (Poll sock events (-1))) p])) as HI2 by (unfold I in *; by skip).
  apply wp_bind. eapply (wp_mono _ _ (post (λ h' _, I h'))); cycle 1.
  { destruct (negb _); [by apply exec_io_wp|done]. }
  intros h3 [[]|s] HI3; cbn -[submit_request ctl_poll]; [|done]. destruct (_ || _); [done|].
  cbn -[submit_request]. intros r _ w _. apply wp_bind.
  eapply wp_mono; [|apply submit_request_wp; unfold I in *; by do 2 skip].
  intros h4 [req'|s] Hp; [|done]. by apply IH.
Qed.

End loop.

(** Nothing has been used yet. *)
Abbreviation Start rs := (Inv rs (λ _, False) (λ _, False)).

Lemma open_socket_wp aton ip port h :
  Start [] h →
  wp anything (open_socket aton ip port) (post (λ h' sock, Start [(true, Sock sock)] h')) h.
Proof.
  intros HI. unfold open_socket, retError. cbn -[le Inv]. intros s _.
  destruct (ret s <? 0) eqn:Es; cbn -[le Inv]; [done|]. intros r _.
  destruct (ret r <? 0); cbn -[le Inv]; [done|]. intros [] _ i _.
  destruct (rret i =? 0); cbn -[le Inv]; [|done]. intros [] _ n _.
  destruct (ret n <? 0); cbn -[le Inv]; [done|]. intros c _.
  destruct (_ && _); cbn -[le Inv]; [done|]. intros [] _. do 7 skip.
  apply (Inv_resource []); [cbn; by rewrite Es|done..].
Qed.

Lemma open_session_wp con sock h :
  Start [(true, Sock sock)] h →
  wp anything (open_session con) (post (λ h' session, ∃ cbs,
    Inv [(true, Sock sock); (true, Callbacks cbs); (true, Session session); (false, Callbacks cbs)]
      (.= session) (.= sock) h')) h.
Proof.
  intros HI. unfold open_session, retError. cbn -[Inv]. intros c _.
  destruct (c.1 =? 0) eqn:Ec; cbn -[Inv]; [|done]. intros [] _ [] _ [] _ [] _ [] _ [] _ s _.
  destruct (s.1 =? 0) eqn:Es; cbn -[Inv]; [|done]. intros [] _ rv _.
  destruct (rv =? 0); cbn -[Inv]; [|done]. exists c.2. skip.
  apply (Inv_mono _ (λ _, False) _ (λ _, False)); [done..|].
  apply (Inv_resource [_; _; _]); [done..|].
  apply (Inv_resource [_; _]); [cbn; by rewrite Es|done..|]. do 6 skip.
  apply (Inv_resource [_]); [cbn; by rewrite Ec|done..].
Qed.

(** * Properties *)


(** Note: [recv_callback] reports every result of [read]: a byte count with the
    bytes, the end of the stream as EOF, EAGAIN as WOULDBLOCK while the session
    still wants to read or write and as CALLBACK_FAILURE otherwise.  Any other
    error gives -1, which is none of the codes nghttp2 defines for it. *)
Theorem client_recv_results w session fd len :
  env_ok ng_ok w → Z.of_nat len < 2 ^ 31 →
  ∃ r : resdata, Ev (Sys (Read fd len)) r ∈ (run w (recv_callback session fd len) []).1 ∧
  (run w (recv_callback session fd len) []).2 =
    Val (if 0 <? rret r then (rret r, rdata r)
         else if rret r =? 0 then (NGHTTP2_ERR_EOF, [])
         else if rerrno r =? EAGAIN then
           (if wanted (run w (recv_callback session fd len) []).1 then (NGHTTP2_ERR_WOULDBLOCK, []) else (NGHTTP2_ERR_CALLBACK_FAILURE, []))
         else (-1, [])).
Proof.
  intros Hw Hl. set (P := recv_callback session fd len).
  pattern (run w P []).1, (run w P []).2. apply (wp_run ng_ok); [done|]. subst P.
  cbn. intros [] _ r Hr. rewrite i32_small by lia. destruct (Z.ltb_spec (rret r) 0).
  - destruct (Z.eqb_spec (rerrno r) EAGAIN) as [E|E]; cbn.
    + intros a _. destruct (a =? 0) eqn:Ea; cbn; [intros b _; destruct (b =? 0) eqn:Eb; cbn|];
        intros [] _; exists r; (split; [set_solver|]);
        rewrite (proj2 (Z.ltb_ge 0 _)), (proj2 (Z.eqb_neq _ 0)), E by lia; unfold wanted; cbn;
        by rewrite Ea, ?Eb.
    + intros [] _. exists r. split; [set_solver|].
      rewrite (proj2 (Z.ltb_ge 0 _)), (proj2 (Z.eqb_neq _ 0)) by lia.
      apply Z.eqb_neq in E. by rewrite E.
  - destruct (Z.eqb_spec (rret r) 0) as [E|E]; cbn; intros [] _; exists r; (split; [set_solver|]).
    + by rewrite E.
    + by rewrite (proj2 (Z.ltb_lt 0 _)) by lia.
Qed.

Definition client_world : env ngR := λ h e,
  match e return ngR e with
  | Sys s => small_world 0 (bs "data") (sys_history h) s
  | Free _ | CallbacksSet _ _ | CallbacksDel _ | SessionDel _ => tt
  | CallbacksNew | ServerNew _ _ | ClientNew _ _ => (0, 1)
  | WantRead _ => if decide (length (view v_poll h) < 2)%nat then 1 else 0
  | _ => 0
  end.

Lemma client_world_ok : env_ok ng_ok client_world.
Proof. intros h e. destruct e; try exact I. apply small_world_ok, bs_bytes. Qed.


Lemma client_recv_results_witness :
  ∃ r : resdata, Ev (Sys (Read 3 16)) r ∈ (run client_world (recv_callback 1 3 16) []).1 ∧
  (run client_world (recv_callback 1 3 16) []).2 =
    Val (if 0 <? rret r then (rret r, rdata r)
         else if rret r =? 0 then (NGHTTP2_ERR_EOF, [])
         else if rerrno r =? EAGAIN then
           (if wanted (run client_world (recv_callback 1 3 16) []).1 then (NGHTTP2_ERR_WOULDBLOCK, []) else (NGHTTP2_ERR_CALLBACK_FAILURE, []))
         else (-1, [])).
Proof. apply client_recv_results; [apply client_world_ok|cbn; lia]. Defined.


Definition client_args : list (list Z) := [bs "client"; bs "10.0.0.1"; bs "80"].


(** Note: the [:authority] header of a request is the host and port of the
    command line only when the storage of [port] happened to hold that port
    before the constructor ran: [hostport] is declared, and so initialised,
    before [port]. *)
Theorem request_authority_indeterminate indet h p :
  hostport (Request_new indet h p) = h ++ bs ":" ++ to_string p ↔ indet = p.
Proof.
  cbn [Request_new hostport]. split; [|by intros ->].
  intros E%(inj (app h)). by apply (inj (app (bs ":"))), to_string_inj in E.
Qed.

End NgClient.
