(* ===== verification/RawSocket.v ===== *)
(** The raw-socket client (src/sockets/raw_socket_client.cc): the Internet
    checksum and the IPv4/UDP packet it sends.

    [checksum] is kept at the widths of the source, a 64-bit accumulator and a
    16-bit result.  The packet is the byte image of the two headers in the
    memory of a little-endian host. *)

From stdpp Require Import base list gmap strings.
From S2P Require Import Prelude Io Posix.

Local Open Scope Z_scope.
Local Open Scope cs_scope.

Module RawSocket.

(** * The checksum *)

(** The loop: [sum += *buf++], [nwords] times. *)
Fixpoint sum_words (sum : Z) (buf : list Z) : Z :=
  match buf with
  | [] => sum
  | w :: buf' => sum_words (u64 (sum + w)) buf'
  end.

Definition checksum (buf : list Z) : Z :=
  let sum := sum_words 0 buf in
  let sum := u64 (Z.shiftr sum 16 + Z.land sum 0xffff) in
  let sum := u64 (sum + Z.shiftr sum 16) in
  u16 (Z.lnot sum).

(** The words of a byte image, as the [unsigned short] reads of the loop. *)
Fixpoint words (b : list Z) : list Z :=
  match b with
  | lo :: hi :: b' => (lo + 256 * hi) :: words b'
  | _ => []
  end.

(** * The packet *)

Record iphdr := {
  ihl : Z; version : Z; tos : Z; tot_len : Z; id : Z; frag_off : Z;
  ttl : Z; protocol : Z; check : Z; saddr : Z; daddr : Z }.

Record udphdr := { source : Z; dest : Z; len : Z; ucheck : Z }.

Definition sizeof_iphdr : Z := 20.
Definition sizeof_udphdr : Z := 8.

(** The layout of [struct iphdr]: [ihl] is the low half of the first byte, the
    16- and 32-bit fields are stored in host order. *)
Definition iphdr_bytes (p : iphdr) : list Z :=
  [ihl p + 16 * version p; tos p] ++ le 2 (tot_len p) ++ le 2 (id p) ++ le 2 (frag_off p) ++
  [ttl p; protocol p] ++ le 2 (check p) ++ le 4 (saddr p) ++ le 4 (daddr p).

Definition udphdr_bytes (u : udphdr) : list Z :=
  le 2 (source u) ++ le 2 (dest u) ++ le 2 (len u) ++ le 2 (ucheck u).

Section client.
(** [inet_addr] of the C library: the address in network order. *)
Context (inet_addr : list Z → Z).

(** The IP header as [main] fills it, before the checksum: [memset] left the
    rest zero. *)
Definition ip0 : iphdr :=
  {| ihl := 5; version := 4; tos := 0xB8;
     tot_len := htons (sizeof_iphdr + sizeof_udphdr); id := htons 12345; frag_off := 0;
     ttl := 64; protocol := IPPROTO_UDP; check := 0;
     saddr := inet_addr (bs "192.168.1.10"); daddr := inet_addr (bs "192.168.1.20") |}.

Definition set_check (p : iphdr) (c : Z) : iphdr :=
  {| ihl := ihl p; version := version p; tos := tos p; tot_len := tot_len p; id := id p;
     frag_off := frag_off p; ttl := ttl p; protocol := protocol p; check := c;
     saddr := saddr p; daddr := daddr p |}.

(** [ip->check = checksum((unsigned short * )ip, ip->ihl << 1)]. *)
Definition ip : iphdr :=
  set_check ip0 (checksum (take (Z.to_nat (Z.shiftl (ihl ip0) 1)) (words (iphdr_bytes ip0)))).

Definition udp : udphdr :=
  {| source := htons 1234; dest := htons 5678; len := htons sizeof_udphdr; ucheck := 0 |}.

Definition packet : list Z :=
  iphdr_bytes ip ++ udphdr_bytes udp ++ replicate (4096 - 28) 0.

(** [dest.sin_port] is not set: [sin_port] is what the stack held. *)
Definition main (sin_port : Z) : prog sysR Z :=
  s ⇐ call (Socket AF_INET SOCK_RAW IPPROTO_RAW);
  let sockfd := ret s in
  if sockfd <? 0 then print [T "socket"; Err (errno s)] ;;; Ret 1
  else
    o ⇐ call (Setsockopt sockfd IPPROTO_IP IP_HDRINCL (le 4 1));
    if ret o <? 0 then print [T "setsockopt(IP_HDRINCL)"; Err (errno o)] ;;; Ret 1
    else
      t ⇐ call (Sendto sockfd (take (Z.to_nat (ntohs (tot_len ip))) packet) 0
                 (Inet {| sin_port := sin_port; sin_addr := daddr ip |}));
      if ret t <? 0 then print [T "sendto"; Err (errno t)] ;;; Ret 1
      else
        print [T "Raw packet sent successfully!"] ;;;
        call (Close sockfd) ;;;
        Ret 0.

End client.

(** * Reference: RFC 1071 *)

(** Addition of 16-bit words with end-around carry. *)
Definition ones_add (a b : Z) : Z := if a + b <? 65536 then a + b else a + b - 65535.

Definition rfc1071 (buf : list Z) : Z := 65535 - foldl ones_add 0 buf.

(** The closed form: the residue modulo 65535, with 65535 for a non-zero
    multiple. *)
Definition fold16 (s : Z) : Z :=
  if s =? 0 then 0 else if s `mod` 65535 =? 0 then 65535 else s `mod` 65535.

Definition is_word (w : Z) : Prop := 0 ≤ w < 65536.

(** * Lemmas *)

Lemma sum_words_ok sum buf :
  Forall is_word buf → 0 ≤ sum → sum + 65535 * Z.of_nat (length buf) < 2 ^ 64 →
  sum_words sum buf = sum + foldr Z.add 0 buf ∧
  0 ≤ foldr Z.add 0 buf ≤ 65535 * Z.of_nat (length buf).
Proof.
  intros Hb. revert sum. induction Hb as [|w buf Hw _ IH]; intros sum Hs Hl; cbn in *; [lia|].
  unfold is_word in Hw. unfold u64. rewrite wrap_small by lia.
  destruct (IH (sum + w)) as [-> ?]; lia.
Qed.

(** Two foldings reduce a 32-bit sum. *)
Lemma fold_twice s :
  0 ≤ s < 2 ^ 32 →
  let s1 := s `div` 65536 + s `mod` 65536 in
  (s1 + s1 `div` 65536) `mod` 65536 = fold16 s.
Proof.
  intros Hs. cbv zeta. change (2 ^ 32) with 4294967296 in Hs. unfold fold16.
  set (q := s `div` 65536). set (r := s `mod` 65536).
  assert (s = 65536 * q + r ∧ 0 ≤ q < 65536 ∧ 0 ≤ r < 65536) as (E & Hq & Hr) by (unfold q, r; zlia).
  clearbody q r. subst s.
  assert ((65536 * q + r) `mod` 65535 = (q + r) `mod` 65535) as ->.
  { replace (65536 * q + r) with (q + r + q * 65535) by lia. apply Z.mod_add. lia. }
  destruct (Z.eqb_spec (65536 * q + r) 0); [zlia|].
  destruct (Z.eqb_spec ((q + r) `mod` 65535) 0); zlia.
Qed.

Lemma fold16_add s w : 0 ≤ s → is_word w → ones_add (fold16 s) w = fold16 (s + w).
Proof.
  unfold ones_add, fold16, is_word. intros Hs Hw.
  pose proof (Z.div_mod s 65535 ltac:(lia)). pose proof (Z.mod_pos_bound s 65535 ltac:(lia)).
  pose proof (Z.div_mod (s + w) 65535 ltac:(lia)).
  pose proof (Z.mod_pos_bound (s + w) 65535 ltac:(lia)).
  repeat case_match; b2p; lia.
Qed.

Lemma foldl_ones_add s buf :
  0 ≤ s → Forall is_word buf → foldl ones_add (fold16 s) buf = fold16 (s + foldr Z.add 0 buf).
Proof.
  intros Hs Hb. revert s Hs. induction Hb as [|w buf Hw _ IH]; intros s Hs; cbn; [by rewrite Z.add_0_r|].
  rewrite fold16_add, IH by (unfold is_word in *; done || lia). f_equal. lia.
Qed.

Lemma rfc1071_fold16 buf : Forall is_word buf → rfc1071 buf = 65535 - fold16 (foldr Z.add 0 buf).
Proof.
  intros Hb. unfold rfc1071. change 0 with (fold16 0) at 1. by rewrite foldl_ones_add.
Qed.

Lemma fold16_range s : 0 ≤ s → 0 ≤ fold16 s < 65536.
Proof.
  intros Hs. unfold fold16. pose proof (Z.mod_pos_bound s 65535 ltac:(lia)).
  repeat case_match; lia.
Qed.

Lemma checksum_fold16 buf :
  Forall is_word buf → Z.of_nat (length buf) ≤ 65537 →
  checksum buf = 65535 - fold16 (foldr Z.add 0 buf).
Proof.
  intros Hb Hl. unfold checksum. destruct (sum_words_ok 0 buf) as [-> Hs]; [done|lia|lia|].
  rewrite Z.add_0_l. set (s := foldr Z.add 0 buf) in *.
  rewrite <- fold_twice by lia. change 0xffff with (Z.ones 16).
  rewrite Z.land_ones, !Z.shiftr_div_pow2 by lia. change (2 ^ 16) with 65536.
  assert (0 ≤ s `div` 65536 < 65536 ∧ 0 ≤ s `mod` 65536 < 65536) as [Hq Hr] by zlia.
  set (s1 := s `div` 65536 + s `mod` 65536). assert (0 ≤ s1 < 131072) as H1 by (unfold s1; lia).
  clearbody s1. assert (0 ≤ s1 `div` 65536 < 2) as H2 by zlia.
  unfold u64, u16, Z.lnot. rewrite (wrap_small 64 s1), (wrap_small 64 (s1 + _)) by lia.
  unfold wrap. change (2 ^ 16) with 65536. change (Z.ones 16) with 65535. rewrite <- Z.sub_1_r.
  generalize (s1 + s1 `div` 65536). intros t. zlia.
Qed.

Lemma checksum_reference buf :
  Forall is_word buf → Z.of_nat (length buf) ≤ 65537 → checksum buf = rfc1071 buf.
Proof. intros Hb Hl. by rewrite rfc1071_fold16, checksum_fold16. Qed.

(** Inserting the complement of the sum makes the sum all ones. *)
Lemma fold16_complement s :
  0 ≤ s → fold16 (s + (65535 - fold16 s)) = 65535.
Proof.
  unfold fold16. intros Hs.
  pose proof (Z.div_mod s 65535 ltac:(lia)). pose proof (Z.mod_pos_bound s 65535 ltac:(lia)).
  destruct (Z.eqb_spec s 0) as [->|]; [done|].
  destruct (Z.eqb_spec (s `mod` 65535) 0) as [Em|].
  - replace (s + (65535 - 65535)) with s by lia. rewrite Em.
    by destruct (Z.eqb_spec s 0).
  - replace (s + (65535 - s `mod` 65535)) with ((s `div` 65535 + 1) * 65535) by lia.
    rewrite Z.mod_mul by lia. destruct (Z.eqb_spec ((s `div` 65535 + 1) * 65535) 0); [|done].
    assert (0 ≤ s `div` 65535) by (apply Z.div_pos; lia). lia.
Qed.

Lemma words_le2 z b : words (le 2 z ++ b) = u16 z :: words b.
Proof. cbn. f_equal. unfold u16, wrap. change (2 ^ 16) with 65536. zlia. Qed.

Lemma words_le4 z b : words (le 4 z ++ b) = u16 z :: u16 (z `div` 65536) :: words b.
Proof.
  cbn. unfold u16, wrap. change (2 ^ 16) with 65536. f_equal; [zlia|]. f_equal. zlia.
Qed.

(** The ten words of a header. *)
Lemma words_iphdr p :
  words (iphdr_bytes p) =
    [ihl p + 16 * version p + 256 * tos p; u16 (tot_len p); u16 (id p); u16 (frag_off p);
     ttl p + 256 * protocol p; u16 (check p); u16 (saddr p); u16 (saddr p `div` 65536);
     u16 (daddr p); u16 (daddr p `div` 65536)].
Proof.
  unfold iphdr_bytes. cbn [app words]. f_equal. rewrite !words_le2. do 3 f_equal.
  cbn [app words]. f_equal. rewrite words_le2. f_equal.
  rewrite words_le4, <- (app_nil_r (le 4 (daddr p))), words_le4. done.
Qed.

Lemma u16_word z : is_word (u16 z).
Proof. unfold is_word. pose proof (wrap_range 16 z ltac:(lia)). unfold u16. lia. Qed.

(** The bit fields and the byte fields of a header at their widths. *)
Definition iphdr_ok (p : iphdr) : Prop :=
  0 ≤ ihl p < 16 ∧ 0 ≤ version p < 16 ∧ is_byte (tos p) ∧ is_byte (ttl p) ∧ is_byte (protocol p).

Lemma words_iphdr_ok p : iphdr_ok p → Forall is_word (words (iphdr_bytes p)).
Proof.
  intros (? & ? & ? & ? & ?). rewrite words_iphdr.
  repeat constructor; try apply u16_word; unfold is_word, is_byte in *; lia.
Qed.

#[local] Hint Resolve u16_word words_iphdr_ok : cs.

Lemma header_verifies p :
  iphdr_ok p → check p = 0 →
  checksum (words (iphdr_bytes (set_check p (checksum (words (iphdr_bytes p)))))) = 0.
Proof.
  intros Hp H0. set (c := checksum (words (iphdr_bytes p))).
  assert (c = 65535 - fold16 (foldr Z.add 0 (words (iphdr_bytes p)))) as Hc.
  { apply checksum_fold16; [auto with cs|]. rewrite words_iphdr. cbn. lia. }
  rewrite checksum_fold16;
    [|apply words_iphdr_ok; exact Hp | rewrite words_iphdr; cbn; lia].
  assert (0 ≤ foldr Z.add 0 (words (iphdr_bytes p))) as Hs.
  { destruct (sum_words_ok 0 (words (iphdr_bytes p))); auto with cs lia.
    rewrite words_iphdr. cbn. lia. }
  pose proof (fold16_range _ Hs) as Hf.
  enough (foldr Z.add 0 (words (iphdr_bytes (set_check p c)))
          = foldr Z.add 0 (words (iphdr_bytes p)) + c) as ->
    by (rewrite Hc, fold16_complement; lia).
  rewrite !words_iphdr, H0. cbn -[u16 Z.add Z.mul Z.div]. change (u16 0) with 0.
  unfold u16 at 4. rewrite wrap_small by lia. lia.
Qed.

(** * Theorems *)

(** C15: the checksum of up to 65537 words is the one of RFC 1071, the
    complement of the sum with end-around carry: the two foldings of the source
    are enough for that many words, and the 64-bit accumulator does not wrap. *)
Theorem checksum_rfc1071 buf :
  Forall is_word buf → Z.of_nat (length buf) ≤ 65537 → checksum buf = rfc1071 buf.
Proof. apply checksum_reference. Qed.

Lemma checksum_rfc1071_witness :
  checksum [0x0045; 0x1c00; 0x3930; 0xffff] = rfc1071 [0x0045; 0x1c00; 0x3930; 0xffff].
Proof.
  apply (checksum_rfc1071 [0x0045; 0x1c00; 0x3930; 0xffff]);
    [repeat constructor; unfold is_word; lia | cbn; lia].
Defined.

(** Note: storing the checksum of a header whose check field is zero makes the
    header verify: the receiver, which runs the same sum over the ten words with
    the check field in place, gets zero. *)
Theorem checksum_verifies p :
  iphdr_ok p → check p = 0 →
  checksum (words (iphdr_bytes (set_check p (checksum (words (iphdr_bytes p)))))) = 0.
Proof. apply header_verifies. Qed.

Lemma checksum_verifies_witness :
  checksum (words (iphdr_bytes (set_check (ip0 (λ _, 0x0a01a8c0))
    (checksum (words (iphdr_bytes (ip0 (λ _, 0x0a01a8c0)))))))) = 0.
Proof.
  apply (checksum_verifies (ip0 (λ _, 0x0a01a8c0)));
    [repeat split; discriminate || reflexivity | reflexivity].
Defined.

(** The calls of [main] with their results. *)
Definition v_option (e : sys) : sysR e → option (Z * Z * Z * list Z * Z) :=
  match e return sysR e → option (Z * Z * Z * list Z * Z) with
  | Setsockopt fd level name val => λ r, Some (fd, level, name, val, ret r)
  | _ => λ _, None
  end.
Definition v_sendto (e : sys) : sysR e → option (Z * list Z * sockaddr * Z) :=
  match e return sysR e → option (Z * list Z * sockaddr * Z) with
  | Sendto fd b _ a => λ r, Some (fd, b, a, ret r)
  | _ => λ _, None
  end.

(** The words of a header in network order. *)
Fixpoint be_words (b : list Z) : list Z :=
  match b with
  | hi :: lo :: b' => (256 * hi + lo) :: be_words b'
  | _ => []
  end.

(** A UDP datagram without data in an IPv4 packet, as RFC 791, RFC 768 and
    RFC 2474 lay it out: DSCP 46, no fragment, a time to live of 64, and a header
    whose checksum verifies by RFC 1071. *)
Definition ipv4_udp (ident sport dport : Z) (src dst b : list Z) : Prop :=
  ∃ check,
    let header := [0x45; 46 * 4] ++ be 2 28 ++ be 2 ident ++ be 2 0 ++ [64; 17] ++ check ++ src ++ dst in
    b = header ++ be 2 sport ++ be 2 dport ++ be 2 8 ++ be 2 0 ∧
    length check = 2%nat ∧ rfc1071 (be_words header) = 0.

(** The check does not depend on the byte order (RFC 1071, section 2). *)
Lemma words_swap b :
  is_bytes b →
  ∃ k, 256 * foldr Z.add 0 (words b) = foldr Z.add 0 (be_words b) + 65535 * k ∧
       0 ≤ foldr Z.add 0 (words b) ≤ 256 * foldr Z.add 0 (be_words b) ∧
       Forall is_word (words b) ∧ Forall is_word (be_words b).
Proof.
  induction b as [b IH] using (induction_ltof1 _ length). unfold ltof in IH. intros Hb.
  destruct b as [|x [|y b]]; [by exists 0|by exists 0|].
  apply Forall_cons in Hb as [Hx [Hy Hb]%Forall_cons].
  destruct (IH b) as (k & E & H & H1 & H2); [cbn; lia|done|]. unfold is_byte in *.
  exists (k + y). cbn [words be_words foldr].
  split_and!; try lia; constructor; try done; unfold is_word; lia.
Qed.

Lemma rfc1071_zero buf :
  Forall is_word buf → 0 ≤ foldr Z.add 0 buf →
  rfc1071 buf = 0 ↔ 0 < foldr Z.add 0 buf ∧ foldr Z.add 0 buf `mod` 65535 = 0.
Proof.
  intros Hb Hs. rewrite rfc1071_fold16 by done. unfold fold16.
  pose proof (Z.mod_pos_bound (foldr Z.add 0 buf) 65535 ltac:(lia)).
  destruct (Z.eqb_spec (foldr Z.add 0 buf) 0), (Z.eqb_spec (foldr Z.add 0 buf `mod` 65535) 0); lia.
Qed.

Lemma rfc1071_swap b : is_bytes b → rfc1071 (words b) = 0 → rfc1071 (be_words b) = 0.
Proof.
  intros Hb. destruct (words_swap b Hb) as (k & E & H & H1 & H2).
  rewrite !rfc1071_zero by (done || lia). intros [Hp Hm]. split; [lia|].
  replace (foldr Z.add 0 (be_words b)) with (256 * foldr Z.add 0 (words b) + (- k) * 65535) by lia.
  rewrite Z.mod_add, Z.mul_mod, Hm by lia. done.
Qed.

Lemma packet_valid inet_addr :
  ipv4_udp 12345 1234 5678 (le 4 (inet_addr (bs "192.168.1.10"))) (le 4 (inet_addr (bs "192.168.1.20")))
    (take 28 (packet inet_addr)).
Proof.
  exists (le 2 (check (ip inet_addr))). cbv zeta. set (hd := iphdr_bytes (ip inet_addr)).
  match goal with |- _ ∧ _ ∧ rfc1071 (be_words ?l) = 0 => change l with hd end.
  split_and!; [done..|]. apply rfc1071_swap.
  { unfold hd, iphdr_bytes. rewrite !Forall_app. split_and!; auto with cs;
      repeat (apply Forall_nil_2 || apply Forall_cons_2); unfold is_byte; cbn; unfold IPPROTO_UDP; lia. }
  assert (iphdr_ok (ip0 inet_addr)) as Hok by (repeat split; discriminate || reflexivity).
  rewrite <- checksum_reference;
    [|by apply words_iphdr_ok|unfold hd; rewrite words_iphdr; cbn; lia].
  unfold hd, ip. change (Z.to_nat (Z.shiftl (ihl (ip0 inet_addr)) 1)) with 10%nat.
  rewrite take_ge by (rewrite words_iphdr; cbn; lia). by apply header_verifies.
Qed.

(** C36: what [main] does for every answer of the kernel.  It opens one raw
    socket, sets IP_HDRINCL on it and sends one packet to 192.168.1.20, and each
    step is taken exactly if the one before did not fail.  It returns 0, with the
    socket closed, exactly if all three succeeded, and otherwise 1, with the
    socket left open.  The packet is a UDP datagram from port 1234 to port 5678
    without data in an IPv4 packet of 28 bytes with DSCP 46 and a header checksum
    that verifies by RFC 1071. *)
Theorem raw_client_sends inet_addr sin_port w :
  let src := inet_addr (bs "192.168.1.10") in
  let dst := inet_addr (bs "192.168.1.20") in
  let '(h, o) := run w (main inet_addr sin_port) [] in
  ∃ fd, view v_socket h = [fd] ∧
  if fd <? 0 then o = Val 1 ∧ view v_option h = [] ∧ view v_sendto h = [] ∧ view v_close h = []
  else ∃ r, view v_option h = [(fd, IPPROTO_IP, IP_HDRINCL, le 4 1, r)] ∧
  if r <? 0 then o = Val 1 ∧ view v_sendto h = [] ∧ view v_close h = []
  else ∃ b n,
    view v_sendto h = [(fd, b, Inet {| sin_port := sin_port; sin_addr := dst |}, n)] ∧
    ipv4_udp 12345 1234 5678 (le 4 src) (le 4 dst) b ∧
    if n <? 0 then o = Val 1 ∧ view v_close h = [] else o = Val 0 ∧ view v_close h = [fd].
Proof.
  pose proof (packet_valid inet_addr) as Hok.
  unfold main. change (Z.to_nat (ntohs (tot_len (ip inet_addr)))) with 28%nat.
  change (daddr (ip inet_addr)) with (inet_addr (bs "192.168.1.20")). cbv zeta.
  generalize dependent (take 28 (packet inet_addr)).
  generalize (inet_addr (bs "192.168.1.10")) (inet_addr (bs "192.168.1.20")).
  intros src dst pk Hok. cbn -[ipv4_udp le].
  repeat match goal with |- context [if ?b then _ else _] => destruct b eqn:?; cbn -[ipv4_udp le] end;
    (eexists; split; [done|]; rewrite Heqb); try done;
    (eexists; split; [done|]; rewrite Heqb0); try done;
    eexists _, _; (split; [done|]); by rewrite Heqb1.
Qed.

End RawSocket.
