(* ===== verification/Arp.v ===== *)
(** The ARP client (src/sockets/dns_lookup/arp.cc): who-has frames over a packet
    socket.

    The two headers are records with their byte layout on a little-endian host.
    [struct ifreq] is its 24-byte union, which the [ioctl] answers with; the
    name is the argument of the call.  [read_arp] reads into an uninitialised
    array, so what the stack held is an argument. *)

From stdpp Require Import base list gmap strings.
From S2P Require Import Prelude Io Posix CLib.

Local Open Scope Z_scope.
Local Open Scope cs_scope.

Module Arp.

Definition PROTO_ARP : Z := 0x0806.
Definition ETH_P_ARP : Z := 0x0806.
Definition ETH_P_IP : Z := 0x0800.
Definition ARPHRD_ETHER : Z := 1.
Definition PACKET_BROADCAST : Z := 1.
Definition ETH2_HEADER_LEN : nat := 14.
Definition HW_TYPE : Z := 1.
Definition MAC_LENGTH : nat := 6.
Definition IPV4_LENGTH : Z := 4.
Definition ARP_REQUEST : Z := 1.
Definition ARP_REPLY : Z := 2.
Definition BUF_SIZE : nat := 60.

(** * The headers *)

Record ethhdr := { h_dest : list Z; h_source : list Z; h_proto : Z }.

Record arp_header := {
  hardware_type : Z; protocol_type : Z; hardware_len : Z; protocol_len : Z; opcode : Z;
  sender_mac : list Z; sender_ip : list Z; target_mac : list Z; target_ip : list Z }.

Definition ethhdr_bytes (e : ethhdr) : list Z :=
  h_dest e ++ h_source e ++ le 2 (h_proto e).

Definition arp_header_bytes (a : arp_header) : list Z :=
  le 2 (hardware_type a) ++ le 2 (protocol_type a) ++ [hardware_len a; protocol_len a] ++
  le 2 (opcode a) ++ sender_mac a ++ sender_ip a ++ target_mac a ++ target_ip a.

(** The casts of a buffer: the fields at their offsets. *)
Definition field (off n : nat) (b : list Z) : list Z := take n (drop off b).

Definition as_ethhdr (b : list Z) : ethhdr :=
  {| h_dest := field 0 6 b; h_source := field 6 6 b; h_proto := le_val (field 12 2 b) |}.

Definition as_arp_header (b : list Z) : arp_header :=
  {| hardware_type := le_val (field 0 2 b); protocol_type := le_val (field 2 2 b);
     hardware_len := le_val (field 4 1 b); protocol_len := le_val (field 5 1 b);
     opcode := le_val (field 6 2 b);
     sender_mac := field 8 6 b; sender_ip := field 14 4 b;
     target_mac := field 18 6 b; target_ip := field 24 4 b |}.

(** * Helpers *)

Definition retError (str : string) : prog sysR Z := print [T str] ;;; Ret (-1).

(** A [struct sockaddr] as its bytes: the family, and for an IPv4 address the
    port and then the address. *)
Definition sa_family (addr : list Z) : Z := le_val (field 0 2 addr).
Definition s_addr (addr : list Z) : Z := le_val (field 4 4 addr).

(** The return value, and the address stored when it is zero. *)
Definition int_ip4 (addr : list Z) : prog sysR (Z * option Z) :=
  if sa_family addr =? AF_INET then Ret (0, Some (s_addr addr))
  else r ⇐ retError "Not AF_INET"; Ret (r, None).

(** [inet_ntoa] may return a null pointer; [out] is the characters copied. *)
Definition format_ip4 (inet_ntoa : Z → option (list Z)) (addr : list Z)
    : prog sysR (Z * option (list Z)) :=
  if sa_family addr =? AF_INET then
    match inet_ntoa (s_addr addr) with
    | None => r ⇐ retError "invalid ip address"; Ret (r, None)
    | Some ip => Ret (0, Some ip)
    end
  else r ⇐ retError "don't support ipv6"; Ret (r, None).

(** [strcpy(ifr.ifr_name, ifname)], an array of [IFNAMSIZ] characters. *)
Definition strcpy_name (ifname : list Z) : prog sysR (list Z) :=
  if decide (length ifname < IFNAMSIZ)%nat then Ret (ifname ++ [0])
  else Halt (Undefined "strcpy writes past ifr_name").

Definition get_if_ip4 (fd : Z) (ifname : list Z) : prog sysR (Z * option Z) :=
  if Z.of_nat IFNAMSIZ - 1 <? Z.of_nat (length ifname) then
    r ⇐ retError "Too long interface name"; Ret (r, None)
  else
    ifr_name ⇐ strcpy_name ifname;
    i ⇐ call (Ioctl fd SIOCGIFADDR ifr_name);
    if rret i =? -1 then r ⇐ retError "SIOCGIFADDR"; Ret (r, None)
    else
      a ⇐ int_ip4 (rdata i);
      if negb (a.1 =? 0) then r ⇐ retError "invalid address"; Ret (r, None)
      else Ret (0, a.2).

(** * Sending *)

Definition send_req (src_mac : list Z) : ethhdr :=
  {| h_dest := replicate MAC_LENGTH 0xff; h_source := take MAC_LENGTH src_mac;
     h_proto := htons ETH_P_ARP |}.

Definition arp_req (src_mac : list Z) (src_ip dst_ip : Z) : arp_header :=
  {| hardware_type := htons HW_TYPE; protocol_type := htons ETH_P_IP;
     hardware_len := Z.of_nat MAC_LENGTH; protocol_len := IPV4_LENGTH;
     opcode := htons ARP_REQUEST;
     sender_mac := take MAC_LENGTH src_mac; sender_ip := le 4 src_ip;
     target_mac := replicate MAC_LENGTH 0; target_ip := le 4 dst_ip |}.

(** The 60-byte buffer. *)
Definition send_buffer (src_mac : list Z) (src_ip dst_ip : Z) : list Z :=
  ethhdr_bytes (send_req src_mac) ++ arp_header_bytes (arp_req src_mac src_ip dst_ip) ++
  replicate 18 0.

Definition send_arp (fd ifindex : Z) (src_mac : list Z) (src_ip dst_ip : Z) : prog sysR Z :=
  print [T "Copy IP address to arp_req"] ;;;
  s ⇐ call (Sendto fd (take 42 (send_buffer src_mac src_ip dst_ip)) 0
       (Packet {| sll_family := AF_PACKET; sll_protocol := htons ETH_P_ARP;
                  sll_ifindex := ifindex; sll_hatype := htons ARPHRD_ETHER;
                  sll_pkttype := PACKET_BROADCAST; sll_halen := Z.of_nat MAC_LENGTH;
                  sll_addr := take MAC_LENGTH src_mac ++ [0; 0] |}));
  if ret s =? -1 then retError "sendto():" else Ret 0.

(** * Set-up *)

(** The address, the MAC and the index of the interface, or the non-zero
    return value. *)
Definition get_if_info (ifname : list Z) : prog sysR (Z + Z * list Z * Z) :=
  print [T "get_if_info for "; B ifname] ;;;
  s ⇐ call (Socket AF_PACKET SOCK_RAW (htons ETH_P_ARP));
  let sd := ret s in
  if sd <=? 0 then r ⇐ retError "socket create failed"; Ret (inl r)
  else if Z.of_nat IFNAMSIZ - 1 <? Z.of_nat (length ifname) then
    r ⇐ retError "Too long interface name, MAX=15"; Ret (inl r)
  else
    ifr_name ⇐ strcpy_name ifname;
    i ⇐ call (Ioctl sd SIOCGIFINDEX ifr_name);
    if rret i =? -1 then r ⇐ retError "SIOCGIFINDEX"; Ret (inl r)
    else
      let ifindex := i32 (le_val (field 0 4 (rdata i))) in
      print [T "interface index is "; N ifindex] ;;;
      m ⇐ call (Ioctl sd SIOCGIFHWADDR ifr_name);
      if rret m =? -1 then r ⇐ retError "SIOCGIFINDEX"; Ret (inl r)
      else
        let mac := field 2 MAC_LENGTH (rdata m) in
        a ⇐ get_if_ip4 sd ifname;
        match a with
        | (0, Some ip) =>
            print [T "get_if_info OK"] ;;;
            (if 0 <? sd then
               print [T "Clean up temporary socket"] ;;; call (Close sd) ;;; Ret tt
             else Ret tt) ;;;
            Ret (inr (ip, mac, ifindex))
        | _ => Ret (inl (-1))
        end.

(** The return value and [*fd]. *)
Definition bind_arp (ifindex : Z) : prog sysR (Z * Z) :=
  print [T "bind_arp: ifindex="; N ifindex] ;;;
  let ret_ := -1 in
  s ⇐ call (Socket AF_PACKET SOCK_RAW (htons ETH_P_ARP));
  let fd := ret s in
  if fd <? 1 then r ⇐ retError "socket()"; Ret (r, fd)
  else
    print [T "Binding to ifindex "; N ifindex] ;;;
    b ⇐ call (Bind fd (Packet {| sll_family := AF_PACKET; sll_protocol := 0;
                 sll_ifindex := ifindex; sll_hatype := 0; sll_pkttype := 0;
                 sll_halen := 0; sll_addr := replicate 8 0 |}));
    if ret b <? 0 then r ⇐ retError "bind"; Ret (r, fd)
    else
      (if negb (ret_ =? 0) && (0 <? fd) then
         print [T "Cleanup socket"] ;;; call (Close fd) ;;; Ret tt
       else Ret tt) ;;;
      Ret (0, fd).

(** * Receiving *)

(** The buffer after [recvfrom] stored [data] over what the stack held. *)
Definition received (stk data : list Z) : list Z := data ++ drop (length data) stk.

(** [%02X:%02X:...] *)
Definition hex_digit (d : Z) : Z := if d <? 10 then 48 + d else 55 + d.
Definition hex2 (b : Z) : list Z := [hex_digit (b `div` 16); hex_digit (b `mod` 16)].
Fixpoint mac_text (m : list Z) : list Z :=
  match m with
  | [] => []
  | [b] => hex2 b
  | b :: m' => hex2 b ++ 58 :: mac_text m'
  end.

Definition read_arp (stk : list Z) (fd : Z) : prog sysR Z :=
  print [T "read_arp"] ;;;
  r ⇐ call (Recvfrom fd BUF_SIZE);
  let length := rret r in
  if length =? -1 then retError "recvfrom()"
  else
    let buffer := received stk (rdata r) in
    let rcv_resp := as_ethhdr buffer in
    let arp_resp := as_arp_header (drop ETH2_HEADER_LEN buffer) in
    if negb (ntohs (h_proto rcv_resp) =? PROTO_ARP) then retError "Not an ARP packet"
    else if negb (ntohs (opcode arp_resp) =? ARP_REPLY) then retError "Not an ARP reply"
    else
      print [T "received ARP len="; N length] ;;;
      print [T "Sender IP: "; Ip (le_val (sender_ip arp_resp))] ;;;
      print [T "Sender MAC: "; B (mac_text (sender_mac arp_resp))] ;;;
      Ret 0.

(** [while(1)]; the stack of the [k]-th call from the end is [stk k]. *)
Fixpoint read_loop (fuel : nat) (stk : nat → list Z) (arp_fd : Z) : prog sysR unit :=
  match fuel with
  | O => Halt OutOfFuel
  | S fuel' =>
      r ⇐ read_arp (stk fuel') arp_fd;
      if r =? 0 then print [T "Got reply, break out"] ;;; Ret tt
      else read_loop fuel' stk arp_fd
  end.

Section arping.
(** [inet_addr] of the C library. *)
Context (inet_addr : list Z → Z) (fuel : nat) (stk : nat → list Z).

Definition test_arping (ifname ip : list Z) : prog sysR Z :=
  let dst := inet_addr ip in
  if (dst =? 0) || (dst =? 0xffffffff) then print [T "Invalid source IP"] ;;; Ret 1
  else
    i ⇐ get_if_info ifname;
    match i with
    | inl _ =>
        print [T "get_if_info failed, interface "; B ifname; T " not found or no IP set?"] ;;;
        Ret (-1)
    | inr (src, mac, ifindex) =>
        b ⇐ bind_arp ifindex;
        if negb (b.1 =? 0) then print [T "Failed to bind_arp()"] ;;; Ret (-1)
        else
          let arp_fd := b.2 in
          s ⇐ send_arp arp_fd ifindex mac src dst;
          if negb (s =? 0) then print [T "Failed to send_arp"] ;;; Ret (-1)
          else
            read_loop fuel stk arp_fd ;;;
            (if negb (arp_fd =? 0) then call (Close arp_fd) ;;; Ret tt else Ret tt) ;;;
            Ret 0
    end.

(** [argv] without a null pointer at its end. *)
Definition main (argv : list (list Z)) : prog sysR Z :=
  match argv with
  | [_; ifname; ip] => test_arping ifname ip
  | _ => print [T "Usage: "; B (default [] (head argv)); T " <INTERFACE> <DEST_IP>"] ;;; Ret 1
  end.

End arping.

(** * The frame of RFC 826 *)

(** A who-has request in an Ethernet broadcast frame, in network order. *)
Definition rfc826_request (mac sip tip : list Z) : list Z :=
  replicate 6 0xff ++ mac ++ be 2 0x0806 ++
  be 2 1 ++ be 2 0x0800 ++ [6; 4] ++ be 2 1 ++ mac ++ sip ++ replicate 6 0 ++ tip.

(** A reply of the machine with the addresses [mac] and [sip], sent to one with
    [tmac] and [tip]; [pad] is the padding of the frame. *)
Definition rfc826_reply (mac sip tmac tip pad : list Z) : list Z :=
  tmac ++ mac ++ be 2 0x0806 ++
  be 2 1 ++ be 2 0x0800 ++ [6; 4] ++ be 2 2 ++ mac ++ sip ++ tmac ++ tip ++ pad.

Lemma send_buffer_rfc826 mac sip tip :
  length mac = 6%nat →
  take 42 (send_buffer mac sip tip) = rfc826_request mac (le 4 sip) (le 4 tip).
Proof.
  intros Hm. unfold send_buffer, ethhdr_bytes, arp_header_bytes, rfc826_request.
  cbn [send_req arp_req h_dest h_source h_proto hardware_type protocol_type hardware_len
       protocol_len opcode sender_mac sender_ip target_mac target_ip].
  rewrite !le_htons, !(take_ge mac) by (unfold MAC_LENGTH; lia).
  do 6 (destruct mac as [|? mac]; [done|]). by destruct mac.
Qed.

(** * What a received buffer decides *)

(** The fields [read_arp] looks at, in network order. *)
Definition is_reply (b : list Z) : bool :=
  (be_val (field 12 2 b) =? 0x0806) && (be_val (field 20 2 b) =? 2).

Lemma ntohs_field off b :
  is_bytes b → (off + 2 ≤ length b)%nat → ntohs (le_val (field off 2 b)) = be_val (field off 2 b).
Proof.
  intros Hb Hl. unfold field.
  assert (is_bytes (take 2 (drop off b))) as Hf by (by apply Forall_take, Forall_drop).
  assert (length (take 2 (drop off b)) = 2%nat) as Hl2 by (rewrite length_take, length_drop; lia).
  destruct (take 2 (drop off b)) as [|x [|y [|]]]; try done.
  apply Forall_cons in Hf as [Hx [Hy _]%Forall_cons]. unfold is_byte in *.
  unfold ntohs. rewrite htons_div. unfold be_val. cbn. zlia.
Qed.

(** The decisions of [read_arp] only depend on the received frame when it is at
    least as long as the two headers. *)
Lemma field_received off n stk data :
  (off + n ≤ length data)%nat → field off n (received stk data) = field off n data.
Proof.
  intros Hl. unfold field, received. rewrite drop_app_le, take_app_le by (try rewrite length_drop; lia).
  done.
Qed.

(** What [read_arp] prints for a reply. *)
Definition reply_text (len : Z) (b : list Z) : list (list item) :=
  [[T "received ARP len="; N len];
   [T "Sender IP: "; Ip (le_val (field 28 4 b))];
   [T "Sender MAC: "; B (mac_text (field 22 6 b))]].

(** The lines printed. *)
Definition v_print (e : sys) : sysR e → option (list item) :=
  match e return sysR e → option (list item) with
  | Print l => λ _, Some l
  | _ => λ _, None
  end.

(** The answer of [w] to the [recvfrom] of [read_arp]. *)
Definition answer (w : env sysR) (h : systrace) (fd : Z) : resdata :=
  w (h ++ [Ev (Print [T "read_arp"]) (w h (Print [T "read_arp"]))]) (Recvfrom fd BUF_SIZE).

Lemma field_drop off off' n b : field off n (drop off' b) = field (off' + off) n b.
Proof. unfold field. by rewrite drop_drop. Qed.

(** [read_arp] on a frame that covers both headers. *)
Lemma read_arp_frame w stk fd h :
  let r := answer w h fd in
  rret r ≠ -1 → (42 ≤ length (rdata r))%nat → is_bytes (rdata r) →
  (run w (read_arp stk fd) h).2 = Val (if is_reply (rdata r) then 0 else -1) ∧
  (is_reply (rdata r) = true →
   view v_print (run w (read_arp stk fd) h).1 =
   view v_print h ++ [T "read_arp"] :: reply_text (rret r) (rdata r)).
Proof.
  intros r Hr Hl Hb. unfold read_arp, is_reply. cbn -[received field le_val ntohs be_val mac_text].
  fold (answer w h fd). fold r. destruct (Z.eqb_spec (rret r) (-1)); [done|].
  rewrite !field_drop, !field_received by (cbn; lia).
  rewrite !ntohs_field by (done || cbn; lia).
  unfold PROTO_ARP, ARP_REPLY.
  change (ETH2_HEADER_LEN + 6)%nat with 20%nat. change (ETH2_HEADER_LEN + 14)%nat with 28%nat.
  change (ETH2_HEADER_LEN + 8)%nat with 22%nat.
  destruct (be_val (field 12 2 (rdata r)) =? 2054); cbn -[field le_val mac_text be_val]; [|done].
  destruct (be_val (field 20 2 (rdata r)) =? 2); cbn -[field le_val mac_text be_val]; [|done].
  split; [done|]. intros _. unfold view. rewrite !omap_app. cbn -[field le_val mac_text].
  by rewrite <- !app_assoc.
Qed.

(** * Descriptors *)

(** What an event says of the descriptor [fd]: opened or closed. *)
Definition v_status (fd : Z) (e : sys) : sysR e → option bool :=
  match e return sysR e → option bool with
  | Socket _ _ _ => λ r, if ret r =? fd then Some true else None
  | Accept _ => λ r, if ret r.1 =? fd then Some true else None
  | EpollCreate _ => λ r, if ret r =? fd then Some true else None
  | Pipe => λ r, if (r.2.1 =? fd) || (r.2.2 =? fd) then Some true else None
  | Close fd' => λ _, if fd' =? fd then Some false else None
  | _ => λ _, None
  end.

(** The program closed [fd] and did not open it again. *)
Definition closed (fd : Z) (h : systrace) : Prop := last (view (v_status fd) h) = Some false.

(** The documented EBADF of [sendto]. *)
Definition sendto_ok (h : systrace) (e : sys) : sysR e → Prop :=
  match e return sysR e → Prop with
  | Sendto fd _ _ _ => λ r, closed fd h → ret r = -1
  | _ => λ _, True
  end.

Lemma closed_snoc_close fd h r : closed fd (h ++ [Ev (Close fd) r]).
Proof. unfold closed. rewrite view_snoc. cbn. rewrite Z.eqb_refl. cbn. apply last_snoc. Qed.

Lemma closed_snoc_print fd h l r : closed fd h → closed fd (h ++ [Ev (Print l) r]).
Proof. unfold closed. rewrite view_snoc. cbn. by rewrite app_nil_r. Qed.

(** [bind_arp] returns zero only with a closed descriptor. *)
Lemma bind_arp_closes ifindex h ok :
  wp ok (bind_arp ifindex)
     (λ h' o, ∃ r fd, o = Val (r, fd) ∧ (r = 0 → closed fd h')) h.
Proof.
  unfold bind_arp. cbn. intros ? ? s ?. destruct (Z.ltb_spec (ret s) 1); cbn.
  { intros ? ?. by exists (-1), (ret s). }
  intros ? ? b ?. destruct (ret b <? 0); cbn.
  { intros ? ?. by exists (-1), (ret s). }
  destruct (Z.ltb_spec 0 (ret s)); [|lia]. cbn. intros ? ? c ?.
  exists 0, (ret s). split; [done|]. intros _. apply closed_snoc_close.
Qed.

(** The successful [ioctl] calls with the union they answered. *)
Definition v_ioctl (e : sys) : sysR e → option (Z * list Z) :=
  match e return sysR e → option (Z * list Z) with
  | Ioctl _ request _ => λ r, if rret r =? -1 then None else Some (request, rdata r)
  | _ => λ _, None
  end.

(** The frames handed to [sendto], with the interface. *)
Definition v_frame (e : sys) : sysR e → option (list Z * Z) :=
  match e return sysR e → option (list Z * Z) with
  | Sendto _ b _ (Packet a) => λ _, Some (b, sll_ifindex a)
  | _ => λ _, None
  end.

(** What [get_if_info] leaves, started on an empty history. *)
Definition if_info_post (ifname : list Z) (h : systrace)
    (o : outcome (Z + Z * list Z * Z)) : Prop :=
  match o with
  | Val (inr (ip, mac, ifindex)) =>
      (length ifname ≤ 15)%nat ∧ view v_close h = view v_socket h ∧
      ∃ i m a, view v_ioctl h = [(SIOCGIFINDEX, i); (SIOCGIFHWADDR, m); (SIOCGIFADDR, a)] ∧
        sa_family a = AF_INET ∧ ip = s_addr a ∧ mac = field 2 6 m ∧
        ifindex = i32 (le_val (field 0 4 i))
  | Val (inl r) =>
      r = -1 ∧ view v_close h = [] ∧ ((15 < length ifname)%nat → view v_ioctl h = [])
  | Stopped _ => False
  end.

Lemma get_if_info_wp ok ifname : wp ok (get_if_info ifname) (if_info_post ifname) [].
Proof.
  unfold get_if_info, get_if_ip4, strcpy_name, int_ip4, IFNAMSIZ. cbn. intros ? ? s ?.
  destruct (Z.leb_spec (ret s) 0); cbn; [done|].
  destruct (Z.ltb_spec (Z.of_nat 16 - 1) (Z.of_nat (length ifname))); cbn; [done|].
  rewrite decide_True by lia. cbn.
  intros i ?. case_if; [intros; split_and!; done || lia|].
  intros ? ? m ?. case_if; [intros; split_and!; done || lia|].
  intros a ?. destruct (rret a =? -1) eqn:Heqb1; cbn; [intros; split_and!; done || lia|].
  destruct (Z.eqb_spec (sa_family (rdata a)) AF_INET) as [Ha|Ha]; cbn;
    [|intros; split_and!; done || lia].
  intros ? ?. destruct (Z.ltb_spec 0 (ret s)); [|lia]. cbn. intros.
  split_and!; [lia|done|]. exists (rdata i), (rdata m), (rdata a).
  by rewrite Heqb, Heqb0, Heqb1.
Qed.

(** The fields of the two frames. *)
Lemma reply_fields mac sip tmac tip pad :
  length mac = 6%nat → length tmac = 6%nat → length tip = 4%nat →
  is_bytes mac → is_bytes tmac → is_bytes tip → is_bytes pad →
  let b := rfc826_reply mac (le 4 sip) tmac tip pad in
  is_reply b = true ∧ (42 ≤ length b)%nat ∧ is_bytes b ∧
  field 28 4 b = le 4 sip ∧ field 22 6 b = mac.
Proof.
  intros Hm Htm Hti Bm Btm Bti Bp b.
  assert (is_bytes b) as Hb.
  { unfold b, rfc826_reply. rewrite !Forall_app. split_and!; auto with cs.
    repeat constructor; lia. }
  assert (42 ≤ length b)%nat as Hl.
  { unfold b, rfc826_reply. rewrite !length_app. cbn. lia. }
  do 6 (destruct mac as [|? mac]; [done|]). destruct mac; [|done].
  do 6 (destruct tmac as [|? tmac]; [done|]). destruct tmac; [|done].
  repeat split; auto.
Qed.

Lemma request_fields mac sip tip :
  length mac = 6%nat → length tip = 4%nat → is_bytes mac → is_bytes tip →
  let b := rfc826_request mac (le 4 sip) tip in
  is_reply b = false ∧ (42 ≤ length b)%nat ∧ is_bytes b.
Proof.
  intros Hm Hti Bm Bti b. split_and!.
  - do 6 (destruct mac as [|? mac]; [done|]). destruct mac; [|done]. reflexivity.
  - unfold b, rfc826_request. rewrite !length_app. cbn. lia.
  - unfold b, rfc826_request. rewrite !Forall_app. split_and!; auto with cs;
      repeat constructor; unfold is_byte; lia.
Qed.

(** * The program *)

(** [ioctl] fills the 24 bytes of the union. *)
Definition ifreq_ok (h : systrace) (e : sys) : sysR e → Prop :=
  match e return sysR e → Prop with
  | Ioctl _ _ _ => λ r, length (rdata r) = 24%nat
  | _ => λ _, True
  end.

(** The frames handed to [sendto], with the interface and whether it accepted. *)
Definition v_sent (e : sys) : sysR e → option (list Z * Z * bool) :=
  match e return sysR e → option (list Z * Z * bool) with
  | Sendto _ b _ (Packet a) => λ r, Some (b, sll_ifindex a, negb (ret r =? -1))
  | _ => λ _, None
  end.

(** What [recvfrom] answered. *)
Definition v_recv (e : sys) : sysR e → option resdata :=
  match e return sysR e → option resdata with Recvfrom _ _ => λ r, Some r | _ => λ _, None end.

(** The answer [r] came last, and its frame is a reply. *)
Definition got_reply (h : systrace) (r : resdata) : Prop :=
  last (view v_recv h) = Some r ∧ rret r ≠ -1 ∧
  ((42 ≤ length (rdata r))%nat → is_bytes (rdata r) → is_reply (rdata r) = true).

(** [h'] has the frames and the answers of [ioctl] that [h] has. *)
Definition same_calls (h h' : systrace) : Prop :=
  view v_sent h' = view v_sent h ∧ view v_ioctl h' = view v_ioctl h.

Ltac same := unfold same_calls; autorewrite with cs; cbn; by rewrite ?app_nil_r.

Lemma reply_accepted stk data :
  (42 ≤ length data)%nat → is_bytes data →
  ntohs (h_proto (as_ethhdr (received stk data))) = PROTO_ARP →
  ntohs (opcode (as_arp_header (drop ETH2_HEADER_LEN (received stk data)))) = ARP_REPLY →
  is_reply data = true.
Proof.
  intros Hl Hb. cbn [as_ethhdr as_arp_header h_proto opcode].
  rewrite field_drop, !field_received by (cbn; lia).
  rewrite !ntohs_field by (done || cbn; lia). unfold is_reply, PROTO_ARP, ARP_REPLY.
  change (ETH2_HEADER_LEN + 6)%nat with 20%nat. by intros -> ->.
Qed.

Lemma read_arp_wp ok stk fd h :
  wp ok (read_arp stk fd)
     (λ h' o, same_calls h h' ∧ (o = Val (-1) ∨ o = Val 0 ∧ ∃ r, got_reply h' r)) h.
Proof.
  unfold read_arp. cbn -[received as_ethhdr as_arp_header ntohs mac_text le_val].
  intros ? ? r ?. destruct (Z.eqb_spec (rret r) (-1)) as [|Hr].
  { cbn. intros. split; [same|by left]. }
  destruct (Z.eqb_spec (ntohs (h_proto (as_ethhdr (received stk (rdata r))))) PROTO_ARP) as [E1|];
    cbn [negb]; [|cbn; intros; split; [same|by left]].
  destruct (Z.eqb_spec (ntohs (opcode (as_arp_header (drop 14
    (received stk (rdata r)))))) ARP_REPLY) as [E2|]; cbn [negb]; [|cbn; intros; split; [same|by left]].
  cbn -[received as_arp_header mac_text le_val]. intros. split; [same|]. right. split; [done|].
  exists r. split_and!; [|done|by intros; eapply reply_accepted].
  autorewrite with cs. cbn. by rewrite !app_nil_r, last_snoc.
Qed.

Lemma reply_loop_wp ok fuel stk fd h :
  wp ok (read_loop fuel stk fd)
     (λ h' o, same_calls h h' ∧ (o = Stopped OutOfFuel ∨ o = Val tt ∧ ∃ r, got_reply h' r)) h.
Proof.
  revert h. induction fuel as [|fuel IH]; intros h; cbn [read_loop].
  { split; [done|by left]. }
  apply wp_bind. eapply wp_mono; [|apply read_arp_wp].
  intros h' o ([E1 E2] & [->|[-> (r & Hl & Hr)]]); cbn [seq_post].
  - eapply wp_mono; [|apply IH]. intros h'' o ([E3 E4] & Ho). split; [|done].
    split; congruence.
  - cbn. intros [] _. split; [split; by autorewrite with cs; cbn; rewrite app_nil_r|].
    right. split; [done|]. exists r. split; [|done]. autorewrite with cs. cbn. by rewrite app_nil_r.
Qed.

Lemma bind_arp_wp ok ifindex h :
  wp ok (bind_arp ifindex) (λ h' o, same_calls h h' ∧ ∃ r fd, o = Val (r, fd)) h.
Proof.
  unfold bind_arp. cbn. intros ? ? s ?. destruct (ret s <? 1); cbn.
  { intros. split; [same|eauto]. }
  intros ? ? b ?. destruct (ret b <? 0); cbn; [intros; split; [same|eauto]|].
  destruct (0 <? ret s); cbn; intros; (split; [same|eauto]).
Qed.

(** [get_if_info] sends no frame, and its answers are whole unions. *)
Lemma get_if_info_quiet ifname :
  wp ifreq_ok (get_if_info ifname)
     (λ h _, view v_sent h = [] ∧ Forall (λ x, length x.2 = 24%nat) (view v_ioctl h)) [].
Proof.
  unfold get_if_info, get_if_ip4, strcpy_name, int_ip4, retError. cbn. intros.
  repeat (case_match; cbn; intros); (split; [done|]); cbn;
    repeat case_match; simplify_eq; repeat (apply Forall_nil_2 || apply Forall_cons_2); done.
Qed.

(** The frame of [send_arp] behind those that were sent before. *)
Lemma send_arp_wp ok fd ifindex mac sip tip h :
  length mac = 6%nat →
  wp ok (send_arp fd ifindex mac sip tip)
     (λ h' o, ∃ acc, view v_ioctl h' = view v_ioctl h ∧
        view v_sent h' = view v_sent h ++ [(rfc826_request mac (le 4 sip) (le 4 tip), ifindex, acc)] ∧
        o = Val (if acc : bool then 0 else -1)) h.
Proof.
  intros Hm. rewrite <- send_buffer_rfc826 by done. unfold send_arp.
  generalize (take 42 (send_buffer mac sip tip)). intros b. cbn. intros [] _ s _.
  destruct (ret s =? -1) eqn:E; cbn; intros; exists (negb (ret s =? -1));
    autorewrite with cs; cbn; rewrite ?app_nil_r, ?E; by split_and!.
Qed.

(** What [test_arping] leaves for a destination [dst] that is an address. *)
Definition arping_post (dst : Z) (h : systrace) (o : outcome Z) : Prop :=
  (o = Val (-1) ∨ o = Val 0 ∨ o = Stopped OutOfFuel) ∧
  (o = Val (-1) → view v_sent h = [] ∨ ∃ f, view v_sent h = [(f, false)]) ∧
  (view v_sent h ≠ [] → ∃ i m a acc,
     view v_ioctl h = [(SIOCGIFINDEX, i); (SIOCGIFHWADDR, m); (SIOCGIFADDR, a)] ∧
     sa_family a = AF_INET ∧
     view v_sent h = [((rfc826_request (field 2 6 m) (le 4 (s_addr a)) (le 4 dst),
                        i32 (le_val (field 0 4 i))), acc)]) ∧
  (o = Val 0 → (∃ f, view v_sent h = [(f, true)]) ∧ ∃ r, got_reply h r).

(** Before a frame was sent only an error can be returned. *)
Lemma arping_post_early dst h : view v_sent h = [] → arping_post dst h (Val (-1)).
Proof. intros E. unfold arping_post. rewrite E. split_and!; auto; done. Qed.

(** The rest of the program once the frame was handed to [sendto]. *)
Lemma arping_tail ok fuel stk fd dst i m a acc h :
  view v_ioctl h = [(SIOCGIFINDEX, i); (SIOCGIFHWADDR, m); (SIOCGIFADDR, a)] →
  sa_family a = AF_INET →
  view v_sent h = [((rfc826_request (field 2 6 m) (le 4 (s_addr a)) (le 4 dst),
                     i32 (le_val (field 0 4 i))), acc)] →
  wp ok (if negb ((if acc : bool then 0 else -1) =? 0)
         then print [T "Failed to send_arp"] ;;; Ret (-1)
         else
           read_loop fuel stk fd ;;;
           (if negb (fd =? 0) then call (Close fd) ;;; Ret tt else Ret tt) ;;;
           Ret 0) (arping_post dst) h.
Proof.
  intros Ei Ha Es.
  assert (∀ h' o, view v_ioctl h' = view v_ioctl h → view v_sent h' = view v_sent h →
    (acc = false ∧ o = Val (-1) ∨ acc = true ∧ (o = Stopped OutOfFuel ∨ o = Val 0 ∧ ∃ r, got_reply h' r)) →
    arping_post dst h' o) as Hpost.
  { intros h' o E1 E2 Ho. unfold arping_post. rewrite E1, E2, Ei, Es.
    destruct Ho as [[-> ->]|[-> [->|[-> Hr]]]]; split_and!; eauto 10; done. }
  destruct acc; cbn [negb Z.eqb].
  - apply wp_bind. eapply wp_mono; [|apply reply_loop_wp].
    intros h' o ([E1 E2] & [->|[-> (r & Hl & Hr)]]); cbn [seq_post]; [by apply Hpost; auto|].
    destruct (fd =? 0); cbn; intros; (apply Hpost; [by autorewrite with cs; cbn; rewrite ?app_nil_r..|]);
      right; (split; [done|]); right; (split; [done|]); exists r; (split; [|done]);
      autorewrite with cs; cbn; by rewrite ?app_nil_r.
  - cbn. intros [] _. apply Hpost; [by autorewrite with cs; cbn; rewrite ?app_nil_r..|auto].
Qed.

Lemma test_arping_wp inet_addr fuel stk ifname ip :
  wp ifreq_ok (test_arping inet_addr fuel stk ifname ip)
     (λ h o, if (inet_addr ip =? 0) || (inet_addr ip =? 0xffffffff)
             then o = Val 1 ∧ length h = 1%nat else arping_post (inet_addr ip) h o) [].
Proof.
  unfold test_arping. cbv zeta. destruct (_ || _); [done|]. apply wp_bind.
  eapply wp_mono; [|apply wp_and; [apply get_if_info_wp|apply get_if_info_quiet]].
  intros h [[r|[[src mac] ifindex]]|] [Hp [Hs Hi]]; [|..|done].
  { cbn. intros [] _. apply arping_post_early. autorewrite with cs. by rewrite Hs. }
  destruct Hp as (_ & _ & i & m & a & Ei & Ha & -> & -> & ->). cbn [seq_post]. apply wp_bind.
  assert (length (field 2 6 m) = 6%nat) as Hm.
  { rewrite Ei in Hi. apply Forall_cons in Hi as [_ Hi]. apply Forall_cons in Hi as [Hm _].
    cbn in Hm. unfold field. rewrite length_take, length_drop, Hm. done. }
  eapply wp_mono; [|apply bind_arp_wp]. intros h1 o ([E1 E2] & r & fd & ->). cbn [seq_post fst snd].
  destruct (Z.eqb_spec r 0) as [->|]; cbn [negb].
  2: { cbn. intros [] _. apply arping_post_early. autorewrite with cs. by rewrite E1, Hs. }
  apply wp_bind. eapply wp_mono; [|by apply send_arp_wp].
  intros h2 o (acc & E3 & E4 & ->). cbn [seq_post]. rewrite E1, Hs in E4. rewrite E2, Ei in E3.
  apply (arping_tail ifreq_ok fuel stk fd (inet_addr ip) i m a acc h2); done.
Qed.

(** * Theorems *)

(** C16: [send_arp] sends one frame, on the given interface, and it is byte for
    byte the who-has request of RFC 826 for the addresses it was given; it
    returns 0 when [sendto] accepts the frame and -1 when it does not. *)
Theorem send_arp_frame fd ifindex mac sip tip w :
  length mac = 6%nat →
  let '(h, o) := run w (send_arp fd ifindex mac sip tip) [] in
  view v_frame h = [(rfc826_request mac (le 4 sip) (le 4 tip), ifindex)] ∧
  (o = Val 0 ∨ o = Val (-1)).
Proof.
  intros Hm. rewrite <- send_buffer_rfc826 by done. unfold send_arp.
  generalize (take 42 (send_buffer mac sip tip)). intros b. cbn. case_if; auto.
Qed.

Lemma send_arp_frame_witness :
  view v_frame (run (small_world 0 []) (send_arp 5 2 [1; 2; 3; 4; 5; 6] 0x0a01a8c0 0x1401a8c0) []).1
  = [(replicate 6 255 ++ [1; 2; 3; 4; 5; 6; 8; 6; 0; 1; 8; 0; 6; 4; 0; 1; 1; 2; 3; 4; 5; 6;
      192; 168; 1; 10; 0; 0; 0; 0; 0; 0; 192; 168; 1; 20], 2)].
Proof.
  exact (proj1 (send_arp_frame 5 2 [1; 2; 3; 4; 5; 6] 0x0a01a8c0 0x1401a8c0
                  (small_world 0 []) eq_refl)).
Defined.

(** Note: on a frame that covers both headers, [read_arp] returns 0 exactly if its
    type is ARP and its operation is a reply, whatever the uninitialised buffer
    held before, and then it prints the addresses of the sender. *)
Theorem read_arp_spec w stk fd h :
  let r := answer w h fd in
  rret r ≠ -1 → (42 ≤ length (rdata r))%nat → is_bytes (rdata r) →
  (run w (read_arp stk fd) h).2 = Val (if is_reply (rdata r) then 0 else -1) ∧
  (is_reply (rdata r) = true →
   view v_print (run w (read_arp stk fd) h).1 =
   view v_print h ++ [T "read_arp"] :: reply_text (rret r) (rdata r)).
Proof. apply read_arp_frame. Qed.

(** A world whose reads return [data]. *)
Definition recv_world (data : list Z) : env sysR := small_world 0 data.

Lemma read_arp_spec_witness :
  (run (recv_world (rfc826_request [1; 2; 3; 4; 5; 6] (le 4 1) (le 4 2)))
     (read_arp (replicate 60 7) 3) []).2 = Val (-1).
Proof.
  refine (proj1 (read_arp_spec (recv_world (rfc826_request [1; 2; 3; 4; 5; 6] (le 4 1) (le 4 2)))
                   (replicate 60 7) 3 [] _ _ _)).
  - discriminate.
  - cbn; lia.
  - vm_compute. repeat (constructor; [split; [discriminate | reflexivity]|]). constructor.
Defined.

(** C14: a reply built as RFC 826 says is accepted by [read_arp], which reports
    the addresses the replying machine put into it; a request, such as the one
    [send_arp] broadcasts, is refused. *)
Theorem arp_reply_roundtrip w stk fd h mac sip tmac tip pad :
  length mac = 6%nat → length tmac = 6%nat → length tip = 4%nat →
  is_bytes mac → is_bytes tmac → is_bytes tip → is_bytes pad →
  rret (answer w h fd) ≠ -1 →
  (rdata (answer w h fd) = rfc826_reply mac (le 4 sip) tmac tip pad →
   (run w (read_arp stk fd) h).2 = Val 0 ∧
   view v_print (run w (read_arp stk fd) h).1 =
     view v_print h ++
     [[T "read_arp"]; [T "received ARP len="; N (rret (answer w h fd))];
      [T "Sender IP: "; Ip (u32 sip)]; [T "Sender MAC: "; B (mac_text mac)]]) ∧
  (rdata (answer w h fd) = rfc826_request mac (le 4 sip) tip →
   (run w (read_arp stk fd) h).2 = Val (-1)).
Proof.
  intros Hm Htm Hti Bm Btm Bti Bp Hr.
  pose proof (read_arp_frame w stk fd h) as H. cbv zeta in H.
  split; intros E; rewrite E in H.
  - destruct (reply_fields mac sip tmac tip pad) as (Hy & Hl & Hb & E1 & E2); [done..|].
    destruct H as [H1 H2]; [done..|]. rewrite Hy in H1, H2. split; [done|].
    rewrite H2 by done. unfold reply_text. by rewrite E1, E2, le_val_le.
  - destruct (request_fields mac sip tip) as (Hy & Hl & Hb); [done..|].
    destruct H as [H1 _]; [done..|]. by rewrite Hy in H1.
Qed.

Lemma arp_reply_roundtrip_witness :
  (run (recv_world (rfc826_reply [1; 2; 3; 4; 5; 6] (le 4 7) [9; 9; 9; 9; 9; 9] [1; 1; 1; 1] []))
     (read_arp [] 3) []).2 = Val 0.
Proof.
  refine (proj1 (proj1 (arp_reply_roundtrip
    (recv_world (rfc826_reply [1; 2; 3; 4; 5; 6] (le 4 7) [9; 9; 9; 9; 9; 9] [1; 1; 1; 1] []))
    [] 3 [] [1; 2; 3; 4; 5; 6] 7 [9; 9; 9; 9; 9; 9] [1; 1; 1; 1] [] _ _ _ _ _ _ _ _) _));
    try reflexivity; try discriminate;
    repeat (constructor; [split; [discriminate | reflexivity]|]); constructor.
Defined.

(** C31: [get_if_info] returns for every answer of the kernel and never writes
    past [ifr_name].  A name of more than 15 characters is refused before any
    [ioctl]; on success the temporary socket is closed and the outputs are the
    fields of the three answers; on an error it returns -1 and the socket is left
    open. *)
Theorem get_if_info_spec ifname w :
  let '(h, o) := run w (get_if_info ifname) [] in
  match o with
  | Val (inr (ip, mac, ifindex)) =>
      (length ifname ≤ 15)%nat ∧ view v_close h = view v_socket h ∧
      ∃ i m a, view v_ioctl h = [(SIOCGIFINDEX, i); (SIOCGIFHWADDR, m); (SIOCGIFADDR, a)] ∧
        sa_family a = AF_INET ∧ ip = s_addr a ∧ mac = field 2 6 m ∧
        ifindex = i32 (le_val (field 0 4 i))
  | Val (inl r) =>
      r = -1 ∧ view v_close h = [] ∧ ((15 < length ifname)%nat → view v_ioctl h = [])
  | Stopped _ => False
  end.
Proof.
  pose proof (wp_run anything w _ _ _ (λ _ _, I) (get_if_info_wp _ ifname)) as H.
  by destruct (run w (get_if_info ifname) []).
Qed.

(** Note: with the documented [sendto], which fails on a closed descriptor,
    [test_arping] never returns 0 and never reads: [bind_arp] closes the socket
    it returns, so no request is sent, and the run ends with -1, or with 1 for
    an invalid address. *)
Theorem test_arping_fails inet_addr fuel stk ifname ip w :
  env_ok sendto_ok w →
  (run w (test_arping inet_addr fuel stk ifname ip) []).2 = Val (-1) ∨
  (run w (test_arping inet_addr fuel stk ifname ip) []).2 = Val 1.
Proof.
  intros Hw. apply (wp_run sendto_ok w _ (λ _ o, o = Val (-1) ∨ o = Val 1)); [done|].
  unfold test_arping. cbv zeta. destruct (_ || _); [cbn; auto|]. apply wp_bind.
  eapply wp_mono; [|apply get_if_info_wp]. intros h [[r|[[src mac] ifindex]]|] Hp; [cbn; auto| |done].
  cbv [seq_post]. apply wp_bind.
  eapply wp_mono; [|apply bind_arp_closes]. cbn. intros h' o (r & fd & -> & Hc). cbn.
  destruct (Z.eqb_spec r 0) as [Hr|Hr]; cbn; [|auto].
  intros t _ s Hs. rewrite Hs by (by apply closed_snoc_print, Hc). cbn. auto.
Qed.

(** A world with an interface that has an IPv4 address, and whose [sendto] fails
    on a closed descriptor. *)
Definition arp_world : env sysR := λ h e,
  match e return sysR e with
  | Ioctl _ _ _ => {| rret := 0; rerrno := 0; rdata := [2; 0; 0; 0; 192; 168; 1; 10] ++ replicate 16 0 |}
  | Sendto fd _ _ _ =>
      match last (view (v_status fd) h) with
      | Some false => {| ret := -1; errno := EBADF |}
      | _ => done0
      end
  | e => small_world 0 [] h e
  end.

Lemma arp_world_ok : env_ok sendto_ok arp_world.
Proof. intros h []; cbn; try done. unfold closed. by intros ->. Qed.

Lemma test_arping_fails_witness :
  (run arp_world (test_arping (λ _, 1) 5 (λ _, []) (bs "eth0") (bs "1.0.0.0")) []).2 = Val (-1) ∨
  (run arp_world (test_arping (λ _, 1) 5 (λ _, []) (bs "eth0") (bs "1.0.0.0")) []).2 = Val 1.
Proof.
  exact (test_arping_fails (λ _, 1) 5 (λ _, []) (bs "eth0") (bs "1.0.0.0") arp_world arp_world_ok).
Defined.



(** In that world one frame is handed to [sendto]; where [sendto] accepts it and
    a reply arrives, the program returns 0. *)
Example arping_runs :
  let reply := rfc826_reply [1; 2; 3; 4; 5; 6] (le 4 1) [9; 9; 9; 9; 9; 9] [1; 1; 1; 1] [] in
  let lenient : env sysR := λ h e,
    match e return sysR e with
    | Sendto _ _ _ _ => done0
    | Recvfrom fd n => recv_world reply h (Recvfrom fd n)
    | e => arp_world h e
    end in
  let p := test_arping (λ _, 1) 5 (λ _, []) (bs "eth0") (bs "1.0.0.0") in
  length (view v_sent (run arp_world p []).1) = 1%nat ∧ (run lenient p []).2 = Val 0.
Proof. split; reflexivity. Qed.

(** [read_arp] does not look at the length of what it received: an empty
    datagram is a reply or not by what the stack held before. *)
Theorem read_arp_ignores_length :
  (run (recv_world []) (read_arp (replicate 60 0) 3) []).2 = Val (-1) ∧
  (run (recv_world [])
     (read_arp (rfc826_reply [1; 2; 3; 4; 5; 6] (le 4 7) [9; 9; 9; 9; 9; 9] [1; 1; 1; 1]
                  (replicate 18 0)) 3) []).2 = Val 0.
Proof. split; reflexivity. Qed.

End Arp.
