(* ===== verification/RedisArgs.v ===== *)
(** The Redis module (src/database/redis/module): the argument parser of utils.h
    and the command of example.c.

    A [RedisModuleString] is its bytes.  The two conversions of the Redis module
    API are parameters; the arguments stored through the variable argument list
    are returned in the order they are written. *)

From stdpp Require Import base list gmap strings.
From S2P Require Import Prelude Io CLib.

Local Open Scope Z_scope.
Local Open Scope cs_scope.

Module RedisArgs.

Definition REDISMODULE_OK : Z := 0.
Definition REDISMODULE_ERR : Z := 1.

Section module.
Context {double : Type}.
(** [RedisModule_StringToLongLong] and [RedisModule_StringToDouble]: [None] when
    they do not return [REDISMODULE_OK]. *)
Context (StringToLongLong : list Z → option Z) (StringToDouble : list Z → option double).

(** One store through a pointer of the variable argument list. *)
Inductive out :=
  | OutC (p : list Z)             (* a char pointer *)
  | OutB (p : list Z) (len : Z)   (* a char pointer and a length *)
  | OutS (s : list Z)             (* a redis string *)
  | OutL (l : Z)                  (* a long long *)
  | OutD (d : double).            (* a double *)

(** What one format character does with the argument [arg]: the stores, or the
    early return of an error. *)
Definition parse1 (c : Z) (arg : list Z) : option (list out) :=
  if c =? 99 (* c *) then Some [OutC arg]
  else if c =? 98 (* b *) then Some [OutB arg (Z.of_nat (length arg))]
  else if c =? 115 (* s *) then Some [OutS arg]
  else if c =? 108 (* l *) then (λ l, [OutL l]) <$> StringToLongLong arg
  else if c =? 100 (* d *) then (λ d, [OutD d]) <$> StringToDouble arg
  else if c =? 42 (* * *) then Some []
  else None.

(** The loop, from the argument [i]; [acc] is what was stored before. *)
Fixpoint vparse (argv : list (list Z)) (argc i : Z) (fmt : list Z) (acc : list out)
    : outcome (Z * list out) :=
  match fmt with
  | [] => Val (REDISMODULE_OK, acc)
  | c :: fmt' =>
      if i <? argc then
        match argv !! Z.to_nat i with
        | None => oob "argv[i]"
        | Some arg =>
            match parse1 c arg with
            | None => Val (REDISMODULE_ERR, acc)
            | Some o => vparse argv argc (i + 1) fmt' (acc ++ o)
            end
        end
      else Val (REDISMODULE_ERR, acc)
  end.

Definition vparseArgs (argv : list (list Z)) (argc offset : Z) (fmt : list Z)
    : outcome (Z * list out) := vparse argv argc offset fmt [].

(** The loop of [argIndex] with [n] arguments left. *)
Fixpoint arg_loop (arg : list Z) (argv : list (list Z)) (offset : Z) (n : nat) : outcome Z :=
  match n with
  | O => Val (-1)
  | S n' =>
      match argv !! Z.to_nat offset with
      | None => oob "argv[offset]"
      | Some carg =>
          if negb (length carg =? length arg)%nat then arg_loop arg argv (offset + 1) n'
          else if strncaseeq carg arg (length arg) then Val offset
          else arg_loop arg argv (offset + 1) n'
      end
  end.

Definition argIndex (arg : list Z) (argv : list (list Z)) (argc : Z) : outcome Z :=
  arg_loop arg argv 0 (Z.to_nat argc).

Definition parseArgsAfter (token : list Z) (argv : list (list Z)) (argc : Z) (fmt : list Z)
    : outcome (Z * list out) :=
  pos ⇐o argIndex token argv argc;
  if pos <? 0 then Val (REDISMODULE_ERR, [])
  else vparseArgs argv argc (pos + 1) fmt.

(** * The command *)

(** The reply calls. *)
Inductive reply :=
  | WrongArity
  | ReplyWithLongLong (l : Z)
  | ReplyWithError (msg : string).

(** Signed arithmetic of [long long]. *)
Definition ll_op (z : Z) : outcome Z := if in_i64 z then Val z else oob "signed overflow".

(** The two variables, when both were stored. *)
Definition two (os : list out) : outcome (Z * Z) :=
  match os with
  | [OutL x; OutL y] => Val (x, y)
  | _ => oob "x or y is indeterminate"
  end.

(** [RedisModule_WrongArity] returns [REDISMODULE_OK]. *)
Definition ParseCommand (argv : list (list Z)) (argc : Z) : outcome (Z * list reply) :=
  if argc <? 4 then Val (REDISMODULE_OK, [WrongArity])
  else
    s ⇐o parseArgsAfter (bs "SUM") argv argc (bs "ll");
    if s.1 =? REDISMODULE_OK then
      xy ⇐o two s.2; z ⇐o ll_op (xy.1 + xy.2); Val (REDISMODULE_OK, [ReplyWithLongLong z])
    else
      p ⇐o parseArgsAfter (bs "PROD") argv argc (bs "ll");
      if p.1 =? REDISMODULE_OK then
        xy ⇐o two p.2; z ⇐o ll_op (xy.1 * xy.2); Val (REDISMODULE_OK, [ReplyWithLongLong z])
      else Val (REDISMODULE_ERR, [ReplyWithError "Invalid arguments"]).

(** [init] and [create] are the results of the two registration calls. *)
Definition RedisModule_OnLoad (init create : Z) : Z :=
  if init =? REDISMODULE_ERR then REDISMODULE_ERR
  else if create =? REDISMODULE_ERR then REDISMODULE_ERR
  else REDISMODULE_OK.

(** * Specifications *)

(** The arguments from [off] on match [fmt], which stores [os]. *)
Definition parses (argv : list (list Z)) (off : nat) (fmt : list Z) (os : list out) : Prop :=
  ∃ oss, Forall2 (λ ca o, parse1 ca.1 ca.2 = Some o) (zip fmt (drop off argv)) oss ∧
         (length fmt ≤ length (drop off argv))%nat ∧ os = concat oss.

(** Equality up to the case of letters. *)
Definition caseeq (a b : list Z) : Prop := tolower <$> a = tolower <$> b.

#[export] Instance caseeq_dec a b : Decision (caseeq a b).
Proof. unfold caseeq. apply _. Defined.

(** The two integers after the first argument that is [token]. *)
Definition ints_after (token : list Z) (argv : list (list Z)) : option (Z * Z) :=
  p ← list_find (λ a, caseeq a token) argv;
  a ← argv !! S p.1; b ← argv !! S (S p.1);
  x ← StringToLongLong a; y ← StringToLongLong b; Some (x, y).

(** * Lemmas *)

Lemma parses_cons argv i arg c fmt os :
  argv !! i = Some arg →
  parses argv i (c :: fmt) os ↔
  ∃ o os', parse1 c arg = Some o ∧ parses argv (S i) fmt os' ∧ os = o ++ os'.
Proof.
  intros Ha. unfold parses. rewrite (drop_S _ _ _ Ha). cbn. split.
  - intros (oss & Hf & Hl & ->). inversion Hf as [|? o ? oss' H1 H2]; subst.
    exists o, (concat oss'). split_and!; [done| |done]. exists oss'. split_and!; [done|lia|done].
  - intros (o & os' & H1 & (oss & Hf & Hl & ->) & ->).
    exists (o :: oss). split_and!; [by constructor|lia|done].
Qed.

Lemma vparse_ok argv i fmt acc :
  ∃ rc os, vparse argv (Z.of_nat (length argv)) (Z.of_nat i) fmt acc = Val (rc, os) ∧
    (rc = REDISMODULE_OK ∨ rc = REDISMODULE_ERR) ∧
    (rc = REDISMODULE_OK → ∃ os', os = acc ++ os' ∧ parses argv i fmt os') ∧
    (∀ os', parses argv i fmt os' → rc = REDISMODULE_OK ∧ os = acc ++ os').
Proof.
  revert i acc. induction fmt as [|c fmt IH]; intros i acc; cbn [vparse].
  { exists REDISMODULE_OK, acc. split_and!; auto.
    - intros _. exists []. rewrite app_nil_r. split; [done|]. exists []. cbn. split_and!; auto with lia.
    - intros os' (oss & Hf & _ & ->). inversion Hf. cbn. by rewrite app_nil_r. }
  destruct (Z.ltb_spec (Z.of_nat i) (Z.of_nat (length argv))) as [Hi|Hi].
  - rewrite Nat2Z.id. destruct (lookup_lt_is_Some_2 argv i ltac:(lia)) as [arg Ha]. rewrite Ha.
    destruct (parse1 c arg) as [o|] eqn:Ep.
    + replace (Z.of_nat i + 1) with (Z.of_nat (S i)) by lia.
      destruct (IH (S i) (acc ++ o)) as (rc & os & -> & Hrc & H1 & H2).
      exists rc, os. split_and!; auto.
      * intros E. destruct (H1 E) as (os' & -> & Hp). exists (o ++ os').
        rewrite app_assoc. split; [done|]. apply (parses_cons _ _ _ _ _ _ Ha). eauto.
      * intros os' Hp. apply (parses_cons _ _ _ _ _ _ Ha) in Hp as (o' & os1 & E1 & Hp & ->).
        simplify_eq. destruct (H2 _ Hp) as [-> ->]. by rewrite app_assoc.
    + exists REDISMODULE_ERR, acc. split_and!; auto; [done|].
      intros os' Hp. apply (parses_cons _ _ _ _ _ _ Ha) in Hp as (? & ? & ? & _). congruence.
  - exists REDISMODULE_ERR, acc. split_and!; auto; [done|].
    intros os' (? & _ & Hl & _). rewrite length_drop in Hl. cbn in Hl. lia.
Qed.

(** The two tests of [argIndex] together. *)
Lemma caseeq_tests a b :
  caseeq a b ↔ length a = length b ∧ strncaseeq a b (length b) = true.
Proof.
  unfold caseeq, strncaseeq. rewrite bool_decide_eq_true. split.
  - intros E. assert (length a = length b) as El.
    { rewrite <- (length_fmap tolower a), <- (length_fmap tolower b). by rewrite E. }
    split; [done|]. by rewrite !take_ge by lia.
  - intros [El E]. by rewrite !take_ge in E by lia.
Qed.

Lemma arg_loop_find arg argv off :
  (off ≤ length argv)%nat →
  arg_loop arg argv (Z.of_nat off) (length argv - off) =
  Val (match list_find (λ a, caseeq a arg) (drop off argv) with
       | Some (p, _) => Z.of_nat (off + p)
       | None => -1
       end).
Proof.
  intros Hl. remember (length argv - off)%nat as n eqn:En. revert off Hl En.
  induction n as [|n IH]; intros off Hl En; cbn [arg_loop].
  { by rewrite drop_ge by lia. }
  rewrite Nat2Z.id. destruct (lookup_lt_is_Some_2 argv off ltac:(lia)) as [a Ha].
  rewrite Ha, (drop_S _ _ _ Ha). cbn [list_find].
  replace (Z.of_nat off + 1) with (Z.of_nat (S off)) by lia.
  assert (∀ q : option (nat * list Z),
    match prod_map S id <$> q with Some (p, _) => Z.of_nat (off + p) | None => -1 end =
    match q with Some (p, _) => Z.of_nat (S off + p) | None => -1 end) as Hq
    by (intros [[p v]|]; cbn; f_equal; lia).
  destruct (decide (caseeq a arg)) as [Hc|Hc]; pose proof (caseeq_tests a arg) as Ht.
  - destruct Ht as [Ht _]. destruct (Ht Hc) as [El ->]. rewrite (proj2 (Nat.eqb_eq _ _) El). cbn.
    do 2 f_equal. lia.
  - rewrite Hq, IH by lia. destruct (Nat.eqb_spec (length a) (length arg)) as [El|]; cbn; [|done].
    destruct (strncaseeq a arg (length arg)) eqn:Es; [|done]. by destruct Hc; apply Ht.
Qed.

Lemma argIndex_find arg argv :
  argIndex arg argv (Z.of_nat (length argv)) =
  Val (match list_find (λ a, caseeq a arg) argv with Some (p, _) => Z.of_nat p | None => -1 end).
Proof.
  unfold argIndex. rewrite Nat2Z.id. pose proof (arg_loop_find arg argv 0 ltac:(lia)) as H.
  by rewrite Nat.sub_0_r in H.
Qed.

Lemma parses_ll argv off os :
  parses argv off (bs "ll") os ↔
  ∃ a b x y, argv !! off = Some a ∧ argv !! S off = Some b ∧
    StringToLongLong a = Some x ∧ StringToLongLong b = Some y ∧ os = [OutL x; OutL y].
Proof.
  destruct (argv !! off) as [a|] eqn:Ea; [destruct (argv !! S off) as [b|] eqn:Eb|].
  - change (bs "ll") with [108; 108]. rewrite (parses_cons _ _ _ _ _ _ Ea).
    setoid_rewrite (parses_cons _ _ _ _ _ _ Eb). cbn. split.
    + intros (o & os' & H1 & (o' & os'' & H2 & (oss & Hf & _ & ->) & ->) & ->).
      apply fmap_Some in H1 as (x & Hx & ->). apply fmap_Some in H2 as (y & Hy & ->).
      inversion Hf; subst. exists a, b, x, y. auto.
    + intros (a' & b' & x & y & [= <-] & [= <-] & Hx & Hy & ->). rewrite Hx, Hy. cbn.
      exists [OutL x], [OutL y]. split_and!; [done| |done]. exists [OutL y], []. split_and!; [done| |done].
      exists []. cbn. split_and!; [constructor|lia|done].
  - split; [|naive_solver]. intros (? & _ & Hl & _). apply lookup_ge_None in Eb.
    rewrite length_drop in Hl. cbn in Hl. apply lookup_lt_Some in Ea. lia.
  - split; [|naive_solver]. intros (? & _ & Hl & _). apply lookup_ge_None in Ea.
    rewrite length_drop in Hl. cbn in Hl. lia.
Qed.

(** [parseArgsAfter] with the format of the command. *)
Lemma parse_after_ll token argv :
  ∃ rc os, parseArgsAfter token argv (Z.of_nat (length argv)) (bs "ll") = Val (rc, os) ∧
    match ints_after token argv with
    | Some (x, y) => rc = REDISMODULE_OK ∧ os = [OutL x; OutL y]
    | None => rc = REDISMODULE_ERR
    end.
Proof.
  unfold parseArgsAfter, ints_after. rewrite argIndex_find. cbn [obind].
  destruct (list_find (λ a, caseeq a token) argv) as [[p v]|] eqn:Ef; cbn; [|by eauto].
  destruct (Z.ltb_spec (Z.of_nat p) 0); [lia|].
  replace (Z.of_nat p + 1) with (Z.of_nat (S p)) by lia. unfold vparseArgs.
  destruct (vparse_ok argv (S p) (bs "ll") []) as (rc & os & E & Hrc & H1 & H2).
  exists rc, os. split; [exact E|]. setoid_rewrite parses_ll in H1. setoid_rewrite parses_ll in H2.
  destruct (argv !! S p) as [a|] eqn:Ea; cbn; [|naive_solver].
  destruct (argv !! S (S p)) as [b|] eqn:Eb; cbn; [|naive_solver].
  destruct (StringToLongLong a) as [x|] eqn:Ex; cbn; [|naive_solver].
  destruct (StringToLongLong b) as [y|] eqn:Ey; cbn; [|naive_solver].
  apply (H2 [OutL x; OutL y]). naive_solver.
Qed.

(** * Theorems *)

(** Note: on a complete argument vector [vparseArgs] never reads past it, and it
    returns OK exactly if the format is no longer than the arguments left and
    each character converts its argument; then the stores are those of the
    characters in order. *)
Theorem vparseArgs_spec argv off fmt :
  ∃ rc os, vparseArgs argv (Z.of_nat (length argv)) (Z.of_nat off) fmt = Val (rc, os) ∧
    (rc = REDISMODULE_OK ∨ rc = REDISMODULE_ERR) ∧
    (∀ os', rc = REDISMODULE_OK ∧ os = os' ↔ parses argv off fmt os').
Proof.
  destruct (vparse_ok argv off fmt []) as (rc & os & E & Hrc & H1 & H2).
  exists rc, os. split_and!; [exact E|done|]. intros os'. split; [|by apply H2].
  intros [-> <-]. by destruct (H1 eq_refl) as (os' & -> & Hp).
Qed.

(** Note: [argIndex] returns the first offset whose argument equals the name up to
    the case of letters, and -1 if there is none. *)
Theorem argIndex_spec arg argv :
  ∃ pos, argIndex arg argv (Z.of_nat (length argv)) = Val pos ∧
    ((pos = -1 ∧ Forall (λ a, ¬ caseeq a arg) argv) ∨
     (∃ p a, pos = Z.of_nat p ∧ argv !! p = Some a ∧ caseeq a arg ∧
             ∀ j b, argv !! j = Some b → (j < p)%nat → ¬ caseeq b arg)).
Proof.
  rewrite argIndex_find. eexists. split; [done|].
  destruct (list_find _ argv) as [[p v]|] eqn:Ef.
  - right. apply list_find_Some in Ef as (H1 & H2 & H3). exists p, v. eauto.
  - left. split; [done|]. by apply list_find_None in Ef.
Qed.

(** C17: the command replies exactly once: with the arity error for fewer than
    four arguments, with the sum of the two integers after the first SUM, else
    with the product of those after the first PROD, else with an error.  The only
    undefined behaviour is the signed overflow of that sum or product. *)
Theorem ParseCommand_spec argv :
  ParseCommand argv (Z.of_nat (length argv)) =
  if (length argv <? 4)%nat then Val (REDISMODULE_OK, [WrongArity])
  else match ints_after (bs "SUM") argv, ints_after (bs "PROD") argv with
       | Some (x, y), _ =>
           if in_i64 (x + y) then Val (REDISMODULE_OK, [ReplyWithLongLong (x + y)])
           else Stopped (Undefined "signed overflow")
       | None, Some (x, y) =>
           if in_i64 (x * y) then Val (REDISMODULE_OK, [ReplyWithLongLong (x * y)])
           else Stopped (Undefined "signed overflow")
       | None, None => Val (REDISMODULE_ERR, [ReplyWithError "Invalid arguments"])
       end.
Proof.
  unfold ParseCommand, ll_op.
  destruct (Nat.ltb_spec (length argv) 4), (Z.ltb_spec (Z.of_nat (length argv)) 4); try lia; [done|].
  destruct (parse_after_ll (bs "SUM") argv) as (rc & os & -> & Hs).
  destruct (parse_after_ll (bs "PROD") argv) as (rc' & os' & -> & Hp).
  destruct (ints_after (bs "SUM") argv) as [[x y]|]; [destruct Hs as [-> ->] | rewrite Hs].
  { cbn. by destruct (in_i64 (x + y)). }
  destruct (ints_after (bs "PROD") argv) as [[x y]|]; [destruct Hp as [-> ->] | by rewrite Hp].
  cbn. by destruct (in_i64 (x * y)).
Qed.

End module.

(** The conversion on decimal integers, and the command on a concrete line. *)
Definition dec (s : list Z) : option Z :=
  if forallb isdigit s && negb (bool_decide (s = [])) then Some (digits_val 0 s) else None.

Example parse_sum :
  ParseCommand dec (λ _, None : option unit) [bs "example.parse"; bs "Sum"; bs "40"; bs "2"] 4 =
  Val (REDISMODULE_OK, [ReplyWithLongLong 42]).
Proof. reflexivity. Qed.

Example parse_overflow :
  ParseCommand dec (λ _, None : option unit)
    [bs "example.parse"; bs "PROD"; bs "9223372036854775807"; bs "2"] 4 =
  Stopped (Undefined "signed overflow").
Proof. reflexivity. Qed.

End RedisArgs.
