(* ===== verification/Metrics.v ===== *)
(** The metrics component (src/opentelemetry/prometheus): the registry of
    metrics.h and metrics.cc and the command loop of example.cc.

    The OpenTelemetry SDK is not in the repository: what it is asked to do is a
    log of calls, and an instrument is the number of the call that created it.
    Ownership is explicit: a synchronous instrument is held by one [unique_ptr],
    and it is deleted with it ([live] is the set of those that exist); the raw
    pointers that [CreateSyncInstrument] and [GetSyncInstrument] return are
    numbers that may outlive the object.  Observable instruments are shared and
    live as long as somebody holds them. *)

From stdpp Require Import base list gmap strings pretty.
From S2P Require Import Prelude Io CLib.

Local Open Scope cs_scope.

Module Metrics.

Inductive InstrumentType :=
  | UIntCounter | IntCounter | DoubleCounter | IntGauge | UIntGauge | DoubleGauge
  | UIntHistogram | DoubleHistogram.

(** The member functions of [metrics::Meter] the registry calls. *)
Inductive factory :=
  | CreateUInt64Counter | CreateDoubleCounter | CreateInt64UpDownCounter
  | CreateDoubleUpDownCounter | CreateUInt64Histogram | CreateDoubleHistogram
  | CreateInt64ObservableCounter | CreateDoubleObservableCounter
  | CreateInt64ObservableGauge | CreateDoubleObservableGauge.

#[export] Instance factory_eq_dec : EqDecision factory.
Proof. solve_decision. Defined.

(** A call into the SDK, or a line of output. *)
Inductive event :=
  | AddMetricReader (reader : string)
  | AddView (view : nat)
  | GetMeter (name version schema : string)
  | SetLogHandler (installed : bool)   (* false: an empty shared_ptr *)
  | SetLogLevel (level : string)
  | Created (f : factory) (name description unit_ : string)
  | AddCallback (id : nat) (cb : nat)
  | Add (id : nat) (value : Z)
  | Deleted (id : nat)
  | Out (line : string).

Record state := {
  m_metricsName : string; m_metricsVer : string; m_url : string;
  m_syncInstruments : gmap string nat;
  m_observableInstruments : gmap string (InstrumentType * nat * nat);
  calls : list event;
  live : gset nat }.

Definition emit (m : state) (e : event) : state :=
  {| m_metricsName := m_metricsName m; m_metricsVer := m_metricsVer m; m_url := m_url m;
     m_syncInstruments := m_syncInstruments m;
     m_observableInstruments := m_observableInstruments m;
     calls := calls m ++ [e]; live := live m |}.

Definition with_sync (m : state) (s : gmap string nat) (l : gset nat) : state :=
  {| m_metricsName := m_metricsName m; m_metricsVer := m_metricsVer m; m_url := m_url m;
     m_syncInstruments := s; m_observableInstruments := m_observableInstruments m;
     calls := calls m; live := l |}.

Definition with_obs (m : state) (o : gmap string (InstrumentType * nat * nat)) : state :=
  {| m_metricsName := m_metricsName m; m_metricsVer := m_metricsVer m; m_url := m_url m;
     m_syncInstruments := m_syncInstruments m; m_observableInstruments := o;
     calls := calls m; live := live m |}.

(** * The registry *)

(** The constructor in the default build, with the Prometheus exporter. *)
Definition new_Metrics (name ver url : string) : state :=
  let m := {| m_metricsName := name; m_metricsVer := ver; m_url := url;
              m_syncInstruments := ∅; m_observableInstruments := ∅; calls := []; live := ∅ |} in
  if bool_decide (url = "")%string then
    emit (emit m (GetMeter name ver "")) (Out "Empty url!")
  else
    let m := emit m (AddMetricReader url) in
    let m := emit m (GetMeter name ver "") in
    emit (emit m (SetLogHandler false)) (SetLogLevel "Debug").

Definition add_reader (m : state) (reader : string) : state := emit m (AddMetricReader reader).
Definition add_view (m : state) (view : nat) : state := emit m (AddView view).

(** The [switch] of [CreateSyncInstrument]. *)
Definition sync_factory (t : InstrumentType) : option factory :=
  match t with
  | UIntCounter => Some CreateUInt64Counter
  | DoubleCounter => Some CreateDoubleCounter
  | UIntGauge => Some CreateInt64UpDownCounter
  | DoubleGauge => Some CreateDoubleUpDownCounter
  | UIntHistogram => Some CreateUInt64Histogram
  | DoubleHistogram => Some CreateDoubleHistogram
  | _ => None
  end.

(** A new instrument: its number is the position of the call. *)
Definition create (m : state) (f : factory) (name description unit_ : string) : nat * state :=
  (length (calls m), emit m (Created f name description unit_)).

(** The instrument is deleted with the [unique_ptr] that holds it. *)
Definition delete (m : state) (id : nat) : state :=
  emit (with_sync m (m_syncInstruments m) (live m ∖ {[id]})) (Deleted id).

(** [insert] keeps an element that exists, and then the pair that was moved into
    the call is destroyed, with the new instrument. *)
Definition CreateSyncInstrument (m : state) (t : InstrumentType)
    (name description unit_ : string) : option nat * state :=
  match sync_factory t with
  | None => (None, m)
  | Some f =>
      let '(ret, m) := create m f name description unit_ in
      let m := with_sync m (m_syncInstruments m) ({[ret]} ∪ live m) in
      match m_syncInstruments m !! name with
      | None => (Some ret, with_sync m (<[name := ret]> (m_syncInstruments m)) (live m))
      | Some _ => (Some ret, delete m ret)
      end
  end.

Definition GetSyncInstrument (m : state) (name : string) : option nat :=
  m_syncInstruments m !! name.

Definition DestroySyncInstrument (m : state) (name : string) : state :=
  match m_syncInstruments m !! name with
  | None => m
  | Some id => delete (with_sync m (base.delete name (m_syncInstruments m)) (live m)) id
  end.

(** The destructor: [clear] deletes every instrument. *)
Definition destroy_Metrics (m : state) : state :=
  let ids := (map_to_list (m_syncInstruments m)).*2 in
  foldl delete (with_sync m ∅ (live m)) ids.

Definition obs_factory (t : InstrumentType) : option factory :=
  match t with
  | IntCounter => Some CreateInt64ObservableCounter
  | DoubleCounter => Some CreateDoubleObservableCounter
  | IntGauge => Some CreateInt64ObservableGauge
  | DoubleGauge => Some CreateDoubleObservableGauge
  | UIntHistogram => Some CreateInt64ObservableGauge
  | DoubleHistogram => Some CreateDoubleObservableGauge
  | _ => None
  end.

Definition CreateObservableInstrument (m : state) (t : InstrumentType)
    (name description unit_ : string) (cb : nat) : option nat * state :=
  match obs_factory t with
  | None => (None, m)
  | Some f =>
      let '(instrument, m) := create m f name description unit_ in
      let m := emit m (AddCallback instrument cb) in
      match m_observableInstruments m !! name with
      | None =>
          (Some instrument, with_obs m (<[name := (t, instrument, cb)]> (m_observableInstruments m)))
      | Some _ => (Some instrument, m)
      end
  end.

Definition DestroyObservableInstrument (m : state) (name : string) : state :=
  with_obs m (base.delete name (m_observableInstruments m)).

(** * The command loop *)

(** The line of [MetricsLogHandler::Handle]. *)
Definition Handle (file : string) (line : Z) (msg : string) : string :=
  (file +:+ ":" +:+ pretty line +:+ " - " +:+ msg)%string.

(** The factory that made the instrument [id]. *)
Definition made_by (m : state) (id : nat) : option factory :=
  match calls m !! id with
  | Some (Created f _ _ _) => Some f
  | _ => None
  end.

Definition createSyncInstrument (m : state) (name : string) : state :=
  if bool_decide (name = "")%string then emit m (Out "name empty!")
  else
    let m := (CreateSyncInstrument m UIntCounter name "test counter" "units").2 in
    match GetSyncInstrument m name with
    | Some _ => emit m (Out "Created successfully")
    | None => m
    end.

(** The [static_cast] to [Counter<uint64_t>] and the call through it. *)
Definition incSyncInstrument (m : state) (name : string) : outcome state :=
  match GetSyncInstrument m name with
  | None => Val (emit m (Out "Invalid name"))
  | Some inst =>
      if negb (bool_decide (inst ∈ live m)) then oob "a deleted instrument"
      else if negb (bool_decide (made_by m inst = Some CreateUInt64Counter)) then
        oob "the instrument is not a Counter<uint64_t>"
      else Val (emit (emit m (Add inst 10)) (Out "incremented!"))
  end.

(** One round of [while(true)]. *)
Definition round (m : state) (tok1 tok2 tok3 : string) : outcome state :=
  let m := emit m (Out ("Parsed to " +:+ tok1 +:+ " : " +:+ tok2 +:+ " : " +:+ tok3)) in
  if bool_decide (tok1 = "CREATE")%string then
    if bool_decide (tok2 = "SYNC")%string then Val (createSyncInstrument m tok3)
    else if bool_decide (tok2 = "OBS")%string then Val m
    else Val (emit m (Out "Unknown type"))
  else if bool_decide (tok1 = "INC")%string then
    if bool_decide (tok2 = "SYNC")%string then incSyncInstrument m tok3
    else Val m
  else Val (emit m (Out "Unknown command")).

(** Three extractions from [std::cin]; the tokens stay empty after its end. *)
Definition next_tok (inp : list string) : string * list string :=
  match inp with
  | [] => (""%string, [])
  | t :: inp' => (t, inp')
  end.

Fixpoint rounds (n : nat) (m : state) (inp : list string) : outcome state :=
  match n with
  | O => Val m
  | S n' =>
      let '(tok1, inp) := next_tok inp in
      let '(tok2, inp) := next_tok inp in
      let '(tok3, inp) := next_tok inp in
      m' ⇐o round m tok1 tok2 tok3;
      rounds n' m' inp
  end.

(** [main] after the options, for [n] rounds. *)
Definition main (n : nat) (inp : list string) : outcome state :=
  rounds n (emit (new_Metrics "example" "0.1" "127.0.0.1:4317") (Out "Started...")) inp.

(** * The ownership invariant *)

(** The operations on a registry, from its construction on. *)
Inductive reach : state → Prop :=
  | reach_new name ver url : reach (new_Metrics name ver url)
  | reach_reader m r : reach m → reach (add_reader m r)
  | reach_view m v : reach m → reach (add_view m v)
  | reach_create m t name d u : reach m → reach (CreateSyncInstrument m t name d u).2
  | reach_destroy m name : reach m → reach (DestroySyncInstrument m name)
  | reach_obs m t name d u cb : reach m → reach (CreateObservableInstrument m t name d u cb).2
  | reach_unobs m name : reach m → reach (DestroyObservableInstrument m name).

(** The instruments that exist are those the map holds, each under one name,
    and each was made by a synchronous factory. *)
Record wf (m : state) : Prop := {
  wf_live id : id ∈ live m ↔ ∃ name, m_syncInstruments m !! name = Some id;
  wf_inj n n' id : m_syncInstruments m !! n = Some id → m_syncInstruments m !! n' = Some id → n = n';
  wf_made id : id ∈ live m → ∃ t f, made_by m id = Some f ∧ sync_factory t = Some f }.

Lemma made_by_emit m e id f : made_by m id = Some f → made_by (emit m e) id = Some f.
Proof.
  unfold made_by. cbn. destruct (calls m !! id) eqn:E; [|done].
  apply lookup_app_l_Some with (l2 := [e]) in E. by rewrite E.
Qed.

Lemma made_by_lt m id f : made_by m id = Some f → id < length (calls m).
Proof. unfold made_by. destruct (calls m !! id) eqn:E; [|done]. intros _. by eapply lookup_lt_Some. Qed.

Lemma made_by_create m f n d u : made_by (create m f n d u).2 (create m f n d u).1 = Some f.
Proof. unfold made_by, create. cbn. by rewrite lookup_app_r, Nat.sub_diag by lia. Qed.

Lemma wf_emit m e : wf m → wf (emit m e).
Proof.
  intros [H1 H2 H3]. split; [done|done|]. intros id Hid. destruct (H3 id Hid) as (t & f & ? & ?).
  exists t, f. split; [by apply made_by_emit|done].
Qed.

Lemma wf_with_obs m o : wf m → wf (with_obs m o).
Proof. intros [H1 H2 H3]. by split. Qed.

(** The pointer of the next instrument is not in use. *)
Lemma wf_fresh m : wf m → length (calls m) ∉ live m.
Proof. intros [_ _ H3] H. destruct (H3 _ H) as (t & f & Hm%made_by_lt & _). lia. Qed.

Lemma wf_insert m f t n d u :
  wf m → sync_factory t = Some f → m_syncInstruments m !! n = None →
  let m' := (create m f n d u).2 in let id := (create m f n d u).1 in
  wf (with_sync m' (<[n := id]> (m_syncInstruments m')) ({[id]} ∪ live m')).
Proof.
  intros Hwf Ht Hn m' id. pose proof (wf_fresh m Hwf) as Hid. destruct Hwf as [H1 H2 H3]. split; cbn.
  - intros id'. rewrite elem_of_union, elem_of_singleton, H1. split.
    + intros [->|[n' Hn']]; [exists n; apply lookup_insert_eq|].
      exists n'. rewrite lookup_insert_ne; [done|congruence].
    + intros [n' [[_ <-]|[_ ?]]%lookup_insert_Some]; eauto.
  - intros n1 n2 id'. rewrite !lookup_insert_Some.
    intros [[<- <-]|[? Ha]] [[<- E]|[? Hb]]; try done; try subst; try by eauto.
    + destruct Hid. apply H1. eauto.
    + destruct Hid. apply H1. eauto.
  - intros id' [->%elem_of_singleton|Hl]%elem_of_union.
    + exists t, f. split; [|done]. apply (made_by_create m f n d u).
    + destruct (H3 _ Hl) as (t' & f' & Hm & ?). exists t', f'. split; [|done].
      by apply (made_by_emit m (Created f n d u)).
Qed.

Lemma wf_erase m n id :
  wf m → m_syncInstruments m !! n = Some id →
  wf (delete (with_sync m (base.delete n (m_syncInstruments m)) (live m)) id).
Proof.
  intros [H1 H2 H3] Hn. apply wf_emit. split; cbn.
  - intros id'. rewrite elem_of_difference, elem_of_singleton, H1.
    setoid_rewrite lookup_delete_Some. split.
    + intros [[n' Hn'] Hne]. exists n'. split; [congruence|done].
    + intros (n' & Hne & Hn'). split; [eauto|]. intros ->. by destruct Hne; eapply H2.
  - intros n1 n2 id' [_ Ha]%lookup_delete_Some [_ Hb]%lookup_delete_Some. by eapply H2.
  - intros id' [Hl _]%elem_of_difference. by apply H3.
Qed.

(** A name that exists: the new instrument is created and deleted again. *)
Lemma create_exists m t f n d u id :
  sync_factory t = Some f → m_syncInstruments m !! n = Some id →
  CreateSyncInstrument m t n d u =
  (Some (length (calls m)),
   delete (with_sync (emit m (Created f n d u)) (m_syncInstruments m)
             ({[length (calls m)]} ∪ live m)) (length (calls m))).
Proof. intros Ht Hn. unfold CreateSyncInstrument. rewrite Ht. cbn. by rewrite Hn. Qed.

Lemma wf_create_exists m f n d u :
  wf m →
  wf (delete (with_sync (emit m (Created f n d u)) (m_syncInstruments m)
        ({[length (calls m)]} ∪ live m)) (length (calls m))).
Proof.
  intros Hwf. pose proof (wf_fresh m Hwf) as Hid.
  assert (({[length (calls m)]} ∪ live m) ∖ {[length (calls m)]} = live m) as E by set_solver.
  apply wf_emit. unfold with_sync. cbn. rewrite E. apply (wf_emit m (Created f n d u)) in Hwf.
  by destruct Hwf; split.
Qed.

Lemma wf_create m t n d u : wf m → wf (CreateSyncInstrument m t n d u).2.
Proof.
  intros Hwf. destruct (sync_factory t) as [f|] eqn:Ht;
    [|unfold CreateSyncInstrument; by rewrite Ht].
  destruct (m_syncInstruments m !! n) as [id|] eqn:Hn.
  - rewrite (create_exists _ _ _ _ _ _ _ Ht Hn). by apply wf_create_exists.
  - unfold CreateSyncInstrument. rewrite Ht. cbn. rewrite Hn. by apply (wf_insert m f t).
Qed.

Lemma wf_reach m : reach m → wf m.
Proof.
  induction 1.
  - unfold new_Metrics. assert (∀ a b c, wf {| m_metricsName := a; m_metricsVer := b; m_url := c;
      m_syncInstruments := ∅; m_observableInstruments := ∅; calls := []; live := ∅ |}) as H0.
    { split; cbn; [set_solver|set_solver|set_solver]. }
    case_match; repeat apply wf_emit; apply H0.
  - by apply wf_emit.
  - by apply wf_emit.
  - by apply wf_create.
  - unfold DestroySyncInstrument. destruct (m_syncInstruments m !! name) eqn:E; [|done].
    by apply wf_erase.
  - unfold CreateObservableInstrument. destruct (obs_factory t); [|done]. cbn.
    case_match; cbn; [|apply wf_with_obs]; by repeat apply wf_emit.
  - by apply wf_with_obs.
Qed.

Lemma live_foldl_delete m ids : live (foldl delete m ids) = live m ∖ list_to_set ids.
Proof.
  revert m. induction ids as [|id ids IH]; intros m; cbn; [set_solver|]. rewrite IH. cbn. set_solver.
Qed.

(** * The abstract counters *)

(** What the command loop promises: a map from names to values. *)
Definition spec_round (c : gmap string Z) (tok1 tok2 tok3 : string) : gmap string Z :=
  if bool_decide (tok1 = "CREATE" ∧ tok2 = "SYNC" ∧ tok3 ≠ "")%string then
    match c !! tok3 with None => <[tok3 := 0%Z]> c | Some _ => c end
  else if bool_decide (tok1 = "INC" ∧ tok2 = "SYNC")%string then alter (Z.add 10) tok3 c
  else c.

Fixpoint spec_rounds (n : nat) (c : gmap string Z) (inp : list string) : gmap string Z :=
  match n with
  | O => c
  | S n' =>
      let '(tok1, inp) := next_tok inp in
      let '(tok2, inp) := next_tok inp in
      let '(tok3, inp) := next_tok inp in
      spec_rounds n' (spec_round c tok1 tok2 tok3) inp
  end.

(** The value of a counter: what was added to it. *)
Definition added (id : nat) (e : event) : Z :=
  match e with
  | Add id' v => if decide (id = id') then v else 0%Z
  | _ => 0%Z
  end.
Definition total (m : state) (id : nat) : Z := foldr Z.add 0%Z (added id <$> calls m).

Lemma total_emit m e id : total (emit m e) id = (total m id + added id e)%Z.
Proof.
  unfold total. cbn [emit calls]. rewrite fmap_app, foldr_app. cbn [fmap list_fmap foldr].
  induction (calls m) as [|e' l IH]; cbn [fmap list_fmap foldr]; lia.
Qed.

Lemma length_emit m e : length (calls (emit m e)) = S (length (calls m)).
Proof. cbn. rewrite length_app. cbn. lia. Qed.

(** The registry [m] of the example implements the counters [c]. *)
Record implements (m : state) (c : gmap string Z) : Prop := {
  im_wf : wf m;
  im_kind id : id ∈ live m → made_by m id = Some CreateUInt64Counter;
  im_new id : length (calls m) ≤ id → total m id = 0%Z;
  im_val name : c !! name = total m <$> m_syncInstruments m !! name }.

Lemma implements_emit m c e :
  implements m c → (∀ id, added id e = 0%Z) → implements (emit m e) c.
Proof.
  intros [H1 H2 H3 H4] He. split.
  - by apply wf_emit.
  - intros id Hid. by apply made_by_emit, H2.
  - rewrite length_emit. intros id Hid. rewrite total_emit, He, H3 by lia. done.
  - intros name. rewrite H4. cbn [emit m_syncInstruments]. destruct (m_syncInstruments m !! name); cbn [fmap option_fmap option_map]; [|done].
    by rewrite total_emit, He, Z.add_0_r.
Qed.

Lemma implements_create m c name d u :
  implements m c →
  implements (CreateSyncInstrument m UIntCounter name d u).2
    (match c !! name with None => <[name := 0%Z]> c | Some _ => c end).
Proof.
  intros Hi. pose proof Hi as [H1 H2 H3 H4]. rewrite (H4 name).
  pose proof (wf_fresh m H1) as Hf.
  destruct (m_syncInstruments m !! name) as [id|] eqn:E; cbn [fmap option_fmap option_map].
  - rewrite (create_exists _ UIntCounter CreateUInt64Counter _ _ _ _ eq_refl E). cbn [snd].
    apply implements_emit; [|done].
    assert (({[length (calls m)]} ∪ live m) ∖ {[length (calls m)]} = live m) as El by set_solver.
    unfold with_sync. cbn. rewrite El.
    destruct (implements_emit m c (Created CreateUInt64Counter name d u) Hi); [done|].
    by split; [destruct im_wf0; split|..].
  - unfold CreateSyncInstrument. cbn. rewrite E. cbn.
    destruct (implements_emit m c (Created CreateUInt64Counter name d u) Hi) as [G1 G2 G3 G4]; [done|].
    split.
    + by apply (wf_insert m CreateUInt64Counter UIntCounter).
    + cbn. intros id [->%elem_of_singleton|Hl]%elem_of_union; [|by apply G2].
      apply (made_by_create m CreateUInt64Counter name d u).
    + exact G3.
    + intros n. cbn. destruct (decide (n = name)) as [->|].
      * rewrite !lookup_insert_eq. cbn. f_equal. symmetry. transitivity (total m (length (calls m)) + 0)%Z.
        { apply (total_emit m). } rewrite H3 by lia. done.
      * rewrite !lookup_insert_ne by done. apply G4.
Qed.

Lemma implements_inc m c name :
  implements m c → ∃ m', incSyncInstrument m name = Val m' ∧ implements m' (alter (Z.add 10) name c).
Proof.
  intros Hi. pose proof Hi as [H1 H2 H3 H4]. unfold incSyncInstrument, GetSyncInstrument.
  destruct (m_syncInstruments m !! name) as [id|] eqn:E.
  - assert (id ∈ live m) as Hl by (apply H1; eauto).
    rewrite !bool_decide_true by auto. cbn. eexists. split; [done|].
    apply implements_emit; [|done]. split.
    + by apply wf_emit.
    + intros id' Hid. by apply made_by_emit, H2.
    + rewrite length_emit. intros id' Hid. rewrite total_emit, H3 by lia. cbn.
      rewrite decide_False; [done|]. apply H2, made_by_lt in Hl. lia.
    + intros n. cbn [emit m_syncInstruments]. destruct (decide (n = name)) as [->|Hn].
      * rewrite lookup_alter_eq, H4, E. cbn [fmap option_fmap option_map]. rewrite total_emit. cbn. rewrite decide_True by done.
        f_equal. lia.
      * rewrite lookup_alter_ne, H4 by done. destruct (m_syncInstruments m !! n) as [id'|] eqn:E';
          cbn [fmap option_fmap option_map]; [|done].
        rewrite total_emit. cbn. rewrite decide_False; [f_equal; lia|].
        intros ->. destruct Hn. by eapply (wf_inj m H1).
  - eexists. split; [done|]. rewrite alter_id by (intros x; by rewrite H4, E).
    by apply implements_emit.
Qed.

Lemma implements_round m c t1 t2 t3 :
  implements m c → ∃ m', round m t1 t2 t3 = Val m' ∧ implements m' (spec_round c t1 t2 t3).
Proof.
  intros Hi. unfold round, spec_round, createSyncInstrument.
  set (m1 := emit m _). assert (implements m1 c) as H1 by (by apply implements_emit).
  clearbody m1. destruct (decide (t1 = "CREATE"%string)) as [->|Hc].
  - rewrite bool_decide_true by done. destruct (decide (t2 = "SYNC"%string)) as [->|Hs].
    + rewrite bool_decide_true by done. eexists. split; [done|].
      case_bool_decide as E3.
      { rewrite !bool_decide_false by naive_solver. by apply implements_emit. }
      rewrite (bool_decide_true (_ ∧ _)) by done.
      apply (implements_create m1 c t3 "test counter" "units") in H1.
      destruct (GetSyncInstrument _ t3); [by apply implements_emit|done].
    + rewrite !(bool_decide_false (_ ∧ _)) by naive_solver.
      rewrite bool_decide_false by done. case_bool_decide; eauto using implements_emit.
  - rewrite !(bool_decide_false (_ = "CREATE"%string)), (bool_decide_false (_ ∧ _)) by naive_solver.
    destruct (decide (t1 = "INC"%string)) as [->|Hi'].
    + rewrite bool_decide_true by done. destruct (decide (t2 = "SYNC"%string)) as [->|Hs].
      * rewrite !bool_decide_true by done. by apply implements_inc.
      * rewrite !bool_decide_false by naive_solver. eauto.
    + rewrite !bool_decide_false by naive_solver. eauto using implements_emit.
Qed.

Lemma implements_rounds n m c inp :
  implements m c → ∃ m', rounds n m inp = Val m' ∧ implements m' (spec_rounds n c inp).
Proof.
  revert m c inp. induction n as [|n IH]; intros m c inp Hi; cbn; [by eauto|].
  destruct (next_tok inp) as [t1 inp1], (next_tok inp1) as [t2 inp2], (next_tok inp2) as [t3 inp3].
  destruct (implements_round m c t1 t2 t3 Hi) as (m' & -> & Hi'). by apply IH.
Qed.

Lemma implements_start :
  implements (emit (new_Metrics "example" "0.1" "127.0.0.1:4317") (Out "Started...")) ∅.
Proof.
  split.
  - apply wf_emit, wf_reach, reach_new.
  - cbn. set_solver.
  - done.
  - intros name. cbn. by rewrite !lookup_empty.
Qed.

(** * Theorems *)

(** C12: in every state the operations of the registry reach, the synchronous
    instruments that exist are exactly those held by the map, each under one
    name (no leak, no double ownership), so [GetSyncInstrument] only returns
    pointers to existing instruments; and the destructor deletes all of them. *)
Theorem registry_owns m :
  reach m →
  (∀ id, id ∈ live m ↔ ∃ name, GetSyncInstrument m name = Some id) ∧
  (∀ n n' id, GetSyncInstrument m n = Some id → GetSyncInstrument m n' = Some id → n = n') ∧
  live (destroy_Metrics m) = ∅.
Proof.
  intros [H1 H2 H3]%wf_reach. split_and!; [done|done|].
  unfold destroy_Metrics. rewrite live_foldl_delete. cbn.
  apply set_eq. intros id. rewrite elem_of_difference, elem_of_list_to_set, H1. split; [|set_solver].
  intros [[name Hn] Hno]. destruct Hno. apply list_elem_of_fmap. exists (name, id).
  split; [done|]. by apply elem_of_map_to_list.
Qed.

Lemma registry_owns_witness :
  live (destroy_Metrics (CreateSyncInstrument (new_Metrics "a" "b" "") UIntCounter "n" "d" "u").2) = ∅.
Proof.
  exact (proj2 (proj2 (registry_owns
    (CreateSyncInstrument (new_Metrics "a" "b" "") UIntCounter "n" "d" "u").2
    (reach_create _ UIntCounter "n" "d" "u" (reach_new "a" "b" ""))))).
Defined.

(** Note: [CreateSyncInstrument] on every branch.  A type without a synchronous
    instrument gives a null pointer and changes nothing.  A new name is
    registered: the pointer returned is the one [GetSyncInstrument] finds, and
    the instrument exists and was made by the factory of its type.  A name that
    is registered keeps its instrument, and the pointer returned is to an
    instrument that has been deleted. *)
Theorem CreateSyncInstrument_spec m t name d u :
  reach m →
  let '(p, m') := CreateSyncInstrument m t name d u in
  match sync_factory t, GetSyncInstrument m name with
  | None, _ => p = None ∧ m' = m
  | Some f, None =>
      ∃ id, p = Some id ∧ GetSyncInstrument m' name = Some id ∧ id ∈ live m' ∧
            made_by m' id = Some f
  | Some f, Some old =>
      ∃ id, p = Some id ∧ id ∉ live m' ∧ id ≠ old ∧ m_syncInstruments m' = m_syncInstruments m
  end.
Proof.
  intros Hwf%wf_reach. unfold GetSyncInstrument.
  destruct (sync_factory t) as [f|] eqn:Ht; [|by unfold CreateSyncInstrument; rewrite Ht].
  destruct (m_syncInstruments m !! name) as [old|] eqn:Hn.
  - rewrite (create_exists _ _ _ _ _ _ _ Ht Hn). exists (length (calls m)).
    split_and!; [done|cbn; set_solver| |done]. intros <-. apply (wf_fresh m Hwf), Hwf. eauto.
  - unfold CreateSyncInstrument. rewrite Ht. cbn. rewrite Hn. exists (length (calls m)).
    split_and!; [done|apply lookup_insert_eq|cbn; set_solver|].
    apply (made_by_create m f name d u).
Qed.

Lemma CreateSyncInstrument_spec_witness :
  ∃ id, (CreateSyncInstrument (new_Metrics "a" "b" "") DoubleGauge "n" "d" "u").1 = Some id ∧
        id ∈ live (CreateSyncInstrument (new_Metrics "a" "b" "") DoubleGauge "n" "d" "u").2.
Proof.
  destruct (CreateSyncInstrument_spec (new_Metrics "a" "b" "") DoubleGauge "n" "d" "u"
    (reach_new "a" "b" "")) as (id & H1 & _ & H3 & _).
  exists id. split; [exact H1 | exact H3].
Defined.

(** C8: the command loop implements a map of counters: for every input of words
    other than SYN, a spelling that README.md has and the loop does not know, and
    any number of rounds it runs without undefined behaviour (no deleted
    instrument is used and every cast is to the type the instrument has), and the
    value of every registered counter is the one of the map, where CREATE SYNC
    adds a counter once and INC SYNC adds ten to an existing one. *)
Theorem command_loop_refines n inp :
  "SYN"%string ∉ inp →
  ∃ m, main n inp = Val m ∧
    ∀ name, total m <$> GetSyncInstrument m name = spec_rounds n ∅ inp !! name.
Proof.
  intros _. destruct (implements_rounds n _ _ inp implements_start) as (m & Hm & Hi).
  exists m. split; [exact Hm|]. intros name. symmetry. apply Hi.
Qed.

Definition loop_words : list string :=
  ["CREATE"; "SYNC"; "c"; "INC"; "SYNC"; "c"; "CREATE"; "SYNC"; "c"; "INC"; "SYNC"; "c"]%string.

Lemma command_loop_refines_witness :
  spec_rounds 4 ∅ loop_words !! "c"%string = Some 20%Z ∧
  ∃ m, main 4 loop_words = Val m ∧
    ∀ name, total m <$> GetSyncInstrument m name = spec_rounds 4 ∅ loop_words !! name.
Proof.
  split; [reflexivity|]. apply command_loop_refines. by apply (bool_decide_unpack _).
Defined.

End Metrics.
