(* ===== verification/MetricsMock.v ===== *)
(** The test doubles of the metrics component
    (src/opentelemetry/prometheus/metrics_mock.h and metrics_mock.cc).

    The abstract classes of the SDK are records of operations, a double is a value
    of such a record.  A reader owns its exporter through a [unique_ptr], which is
    empty when it was constructed from an empty one; calling through it is then
    undefined.  The types of the SDK are parameters. *)

From stdpp Require Import base list gmap strings.
From S2P Require Import Prelude.

Module MetricsMock.

Section doubles.
(** The types of the SDK and the two constants the doubles return. *)
Context {ResourceMetrics ExportResult AggregationTemporality InstrumentType : Type}.
Context (kSuccess : ExportResult) (kCumulative : AggregationTemporality).

(** ** Exporters *)

(** The virtual functions of [PushMetricExporter]; times are microseconds. *)
Record PushMetricExporter := {
  Export : ResourceMetrics → ExportResult;
  GetAggregationTemporality : InstrumentType → AggregationTemporality;
  ForceFlush : Z → bool;
  Shutdown : Z → bool }.

Definition MockMetricExporter : PushMetricExporter := {|
  Export _ := kSuccess;
  GetAggregationTemporality _ := kCumulative;
  ForceFlush _ := true;
  Shutdown _ := true |}.

(** ** Readers *)

Record MockMetricReader := { exporter_ : option PushMetricExporter }.

Definition reader_with (exporter : option PushMetricExporter) : MockMetricReader :=
  {| exporter_ := exporter |}.

Definition default_reader : MockMetricReader := {| exporter_ := Some MockMetricExporter |}.

(** [None]: the exporter is a null pointer. *)
Definition reader_temporality (r : MockMetricReader) (t : InstrumentType)
    : option AggregationTemporality :=
  e ← exporter_ r; Some (GetAggregationTemporality e t).

Definition OnForceFlush (r : MockMetricReader) (timeout : Z) : bool := true.
Definition OnShutDown (r : MockMetricReader) (timeout : Z) : bool := true.
Definition OnInitialized (r : MockMetricReader) : MockMetricReader := r.

(** ** Collectors *)

Record MockCollectorHandle := { temporality_ : AggregationTemporality }.

Definition new_handle (temp : AggregationTemporality) : MockCollectorHandle := {| temporality_ := temp |}.

Definition handle_temporality (h : MockCollectorHandle) (t : InstrumentType) : AggregationTemporality :=
  temporality_ h.

(** Both doubles agree where a test uses them together: a collector made with the
    temporality of a reader reports what the exporter of the reader does. *)
Lemma handle_of_reader e t temp :
  reader_temporality (OnInitialized (reader_with (Some e))) t = Some temp →
  handle_temporality (new_handle temp) t = GetAggregationTemporality e t.
Proof. by intros [= ->]. Qed.

End doubles.

End MetricsMock.
