(* ===== verification/Sampler.v ===== *)
(** The trace sampler (src/opentelemetry/jaeger/sampler.h).

    A finite [double] is an integer [M] that stands for [M * 2^-1074], the least
    positive double; [rn] rounds a non-negative number of that scale to 53
    significant bits, to nearest with ties to even, which is what an operation of
    the source does with its exact result (none of them can overflow here, and
    none underflows because the scale is that of the subnormal numbers). *)

From stdpp Require Import base list gmap strings pretty.
From S2P Require Import Prelude Io CLib.

Local Open Scope Z_scope.
Local Open Scope cs_scope.

Module Sampler.

(** * Doubles *)

Inductive double :=
  | Fin (M : Z)            (* M * 2^-1074 *)
  | Inf (negative : bool)
  | NaN.

(** The number 1.0. *)
Definition one : Z := 2 ^ 1074.

(** The quotient to nearest, ties to even. *)
Definition rne (m d : Z) : Z :=
  let q := m `div` d in
  let r := m `mod` d in
  if 2 * r <? d then q
  else if d <? 2 * r then q + 1
  else if Z.even q then q else q + 1.

Definition rn (m : Z) : Z :=
  if m <? 2 ^ 53 then m
  else let s := 2 ^ (Z.log2 m - 52) in rne m s * s.

(** * The sampler *)

Definition UINT32_MAX : Z := 2 ^ 32 - 1.
Definition UINT64_MAX : Z := 2 ^ 64 - 1.

(** [static_cast<uint64_t>] of a non-negative double. *)
Definition to_u64 (M : Z) : outcome Z :=
  let z := M `div` one in
  if z <=? UINT64_MAX then Val z else oob "the value does not fit into uint64_t".

Definition CalculateThreshold (ratio : double) : outcome Z :=
  match ratio with
  | NaN => oob "NaN converted to uint64_t"
  | Inf true => Val 0
  | Inf false => Val UINT64_MAX
  | Fin M =>
      if M <=? 0 then Val 0
      else if one <=? M then Val UINT64_MAX
      else
        let product := rn (UINT32_MAX * M) in
        let hi_bits := product `div` one * one in
        let lo_bits := rn (product `mod` one * 2 ^ 32 + product) in
        hi ⇐o to_u64 hi_bits;
        lo ⇐o to_u64 lo_bits;
        Val (u64 (u64 (Z.shiftl hi 32) + lo))
  end.

(** [(double)res / (double)UINT64_MAX]: the divisor rounds to 2^64, so the
    division is exact. *)
Definition id_ratio (res : Z) : double := Fin (rn (res * one) `div` 2 ^ 64).

(** [trace_id] is its 16 bytes. *)
Definition CalculateThresholdFromBuffer (trace_id : list Z) : outcome Z :=
  let res := le_val (take 8 trace_id) in
  CalculateThreshold (id_ratio res).

Inductive Decision := DROP | RECORD_AND_SAMPLE.

Section sampler.
(** [KeyValueIterable::ForEachKeyValue] of the SDK on the keys. *)
Context (ForEachKeyValue : (string → bool) → list string → bool).

(** The callback returns true for every key. *)
Definition CheckIfForceSampling (attributes : list string) : bool :=
  negb (ForEachKeyValue (λ key, true) attributes).

(** [threshold_] is the member set by the constructor. *)
Definition ShouldSample (threshold_ : Z) (trace_id : list Z) (attributes : list string)
    : outcome Decision :=
  if threshold_ =? 0 then Val DROP
  else if CheckIfForceSampling attributes then Val RECORD_AND_SAMPLE
  else
    t ⇐o CalculateThresholdFromBuffer trace_id;
    Val (if t <=? threshold_ then RECORD_AND_SAMPLE else DROP).

End sampler.

(** [n] decimal digits of [k], the most significant first. *)
Fixpoint fixed (n : nat) (k : Z) : list Z :=
  match n with
  | O => []
  | S n' => fixed n' (k `div` 10) ++ [48 + k `mod` 10]
  end.

(** [std::to_string] of a double in [0, 1]: six decimals of the exact value,
    rounded to nearest with ties to even. *)
Definition to_string (M : Z) : list Z :=
  let k := rne (M * 10 ^ 6) one in
  fixed 1 (k `div` 10 ^ 6) ++ bs "." ++ fixed 6 (k `mod` 10 ^ 6).

Record CustomSampler := { threshold_ : Z; description_ : list Z }.

(** The two tests of the constructor. *)
Definition clamp (ratio : double) : double :=
  let ratio := match ratio with
               | Fin M => if one <? M then Fin one else ratio
               | Inf false => Fin one
               | _ => ratio
               end in
  match ratio with
  | Fin M => if M <? 0 then Fin 0 else ratio
  | Inf true => Fin 0
  | _ => ratio
  end.

(** The constructor; the threshold is computed from the ratio before it is
    clamped. *)
Definition new_CustomSampler (ratio : double) : outcome CustomSampler :=
  t ⇐o CalculateThreshold ratio;
  match clamp ratio with
  | Fin M => Val {| threshold_ := t; description_ := bs "CustomSampler{" ++ to_string M ++ bs "}" |}
  | _ => oob "the ratio is not a number"
  end.

Definition GetDescription (s : CustomSampler) : list Z := description_ s.

(** * Lemmas: rounding *)

Lemma one_pos : 0 < one.
Proof. unfold one. apply Z.pow_pos_nonneg; lia. Qed.

Lemma rne_bounds m d : 0 < d → m `div` d ≤ rne m d ≤ m `div` d + 1.
Proof. intros. unfold rne. repeat case_match; lia. Qed.

Lemma rne_err m d : 0 < d → 2 * Z.abs (rne m d * d - m) ≤ d.
Proof.
  intros Hd. pose proof (Z.div_mod m d ltac:(lia)). pose proof (Z.mod_pos_bound m d Hd).
  unfold rne. set (q := m `div` d) in *. set (r := m `mod` d) in *. clearbody q r.
  repeat case_match; b2p; nia.
Qed.

Lemma rne_mono m m' d : 0 < d → m ≤ m' → rne m d ≤ rne m' d.
Proof.
  intros Hd Hm. assert (m `div` d ≤ m' `div` d) as Hq by (apply Z.div_le_mono; lia).
  destruct (Z.eq_dec (m `div` d) (m' `div` d)) as [E|].
  - pose proof (Z.div_mod m d ltac:(lia)). pose proof (Z.div_mod m' d ltac:(lia)).
    assert (m `mod` d ≤ m' `mod` d) by (rewrite E in *; lia).
    unfold rne. rewrite E. repeat case_match; b2p; lia.
  - pose proof (rne_bounds m d Hd). pose proof (rne_bounds m' d Hd). lia.
Qed.

Lemma rne_exact q d : 0 < d → rne (q * d) d = q.
Proof.
  intros Hd. unfold rne. rewrite Z.div_mul, Z.mod_mul by lia.
  destruct (Z.ltb_spec (2 * 0) d); lia.
Qed.

(** The result stays within the binade. *)
Lemma rn_binade m : 1 ≤ m → 2 ^ Z.log2 m ≤ rn m ≤ 2 ^ (Z.log2 m + 1).
Proof.
  intros Hm. pose proof (Z.log2_spec m ltac:(lia)) as Hl. rewrite <- Z.add_1_r in Hl.
  unfold rn. destruct (Z.ltb_spec m (2 ^ 53)) as [|Hb]; [lia|].
  assert (53 ≤ Z.log2 m) as Hk.
  { change 53 with (Z.log2 (2 ^ 53)). by apply Z.log2_le_mono. }
  set (k := Z.log2 m) in *. clearbody k. cbv zeta.
  pose proof (Z.pow_pos_nonneg 2 (k - 52) ltac:(lia) ltac:(lia)) as Hs.
  assert (2 ^ k = 2 ^ 52 * 2 ^ (k - 52)) as E1 by (rewrite <- Z.pow_add_r by lia; f_equal; lia).
  assert (2 ^ (k + 1) = 2 ^ 53 * 2 ^ (k - 52)) as E2 by (rewrite <- Z.pow_add_r by lia; f_equal; lia).
  set (s := 2 ^ (k - 52)) in *. clearbody s. rewrite E1, E2 in *.
  pose proof (rne_bounds m s Hs).
  assert (2 ^ 52 ≤ m `div` s) by (apply Z.div_le_lower_bound; lia).
  assert (m `div` s < 2 ^ 53) by (apply Z.div_lt_upper_bound; lia). nia.
Qed.

Lemma rn_mono m m' : 0 ≤ m ≤ m' → rn m ≤ rn m'.
Proof.
  intros [H0 Hm]. destruct (Z.eq_dec m 0) as [->|].
  { change (rn 0) with 0. destruct (Z.eq_dec m' 0) as [->|]; [done|].
    pose proof (rn_binade m' ltac:(lia)). pose proof (Z.pow_nonneg 2 (Z.log2 m') ltac:(lia)). lia. }
  pose proof (Z.log2_le_mono m m' Hm) as Hl.
  destruct (Z.eq_dec (Z.log2 m) (Z.log2 m')) as [E|].
  - assert (m <? 2 ^ 53 = (m' <? 2 ^ 53)) as Eb.
    { pose proof (Z.log2_lt_pow2 m 53 ltac:(lia)). pose proof (Z.log2_lt_pow2 m' 53 ltac:(lia)).
      destruct (Z.ltb_spec m (2 ^ 53)), (Z.ltb_spec m' (2 ^ 53)); lia. }
    unfold rn. rewrite Eb. destruct (Z.ltb_spec m' (2 ^ 53)); [lia|]. cbv zeta. rewrite E.
    assert (53 ≤ Z.log2 m') by (change 53 with (Z.log2 (2 ^ 53)); by apply Z.log2_le_mono).
    pose proof (Z.pow_pos_nonneg 2 (Z.log2 m' - 52) ltac:(lia) ltac:(lia)).
    apply Z.mul_le_mono_nonneg_r; [lia|]. by apply rne_mono.
  - pose proof (rn_binade m ltac:(lia)). pose proof (rn_binade m' ltac:(lia)).
    assert (2 ^ (Z.log2 m + 1) ≤ 2 ^ Z.log2 m') by (apply Z.pow_le_mono_r; lia). lia.
Qed.

(** A number of 53 bits is not changed. *)
Lemma rn_exact h k : 0 ≤ h < 2 ^ 53 → 0 ≤ k → rn (h * 2 ^ k) = h * 2 ^ k.
Proof.
  intros Hh Hk. unfold rn. destruct (Z.ltb_spec (h * 2 ^ k) (2 ^ 53)) as [|Hb]; [done|]. cbv zeta.
  assert (0 < h) as Hp by lia. assert (Z.log2 h ≤ 52) as Hl.
  { apply Z.lt_succ_r, Z.log2_lt_pow2; lia. }
  assert (53 ≤ Z.log2 (h * 2 ^ k)) as Hk'.
  { change 53 with (Z.log2 (2 ^ 53)). by apply Z.log2_le_mono. }
  rewrite Z.log2_mul_pow2 in * by lia. set (j := Z.log2 h) in *.
  replace (h * 2 ^ k) with (h * 2 ^ (52 - j) * 2 ^ (k + j - 52)).
  - rewrite rne_exact; [done|]. apply Z.pow_pos_nonneg; lia.
  - rewrite <- Z.mul_assoc, <- Z.pow_add_r by lia. do 2 f_equal. lia.
Qed.

(** The relative error. *)
Lemma rn_err m : 0 ≤ m → 2 ^ 53 * Z.abs (rn m - m) ≤ m.
Proof.
  intros Hm. unfold rn. destruct (Z.ltb_spec m (2 ^ 53)); [rewrite Z.sub_diag; lia|]. cbv zeta.
  assert (53 ≤ Z.log2 m) by (change 53 with (Z.log2 (2 ^ 53)); by apply Z.log2_le_mono).
  pose proof (Z.log2_spec m ltac:(lia)) as [Hl _].
  pose proof (Z.pow_pos_nonneg 2 (Z.log2 m - 52) ltac:(lia) ltac:(lia)) as Hs.
  pose proof (rne_err m _ Hs) as He.
  replace (2 ^ Z.log2 m) with (2 ^ 52 * 2 ^ (Z.log2 m - 52)) in Hl
    by (rewrite <- Z.pow_add_r by lia; f_equal; lia).
  set (s := 2 ^ (Z.log2 m - 52)) in *. clearbody s. lia.
Qed.

(** * Lemmas: the threshold *)

Lemma rn_int h : 0 ≤ h < 2 ^ 53 → rn (h * one) = h * one.
Proof. intros. by apply rn_exact. Qed.

(** The high and the low part of the threshold of [M]. *)
Definition product_of (M : Z) : Z := rn (UINT32_MAX * M).
Definition hi_part (M : Z) : Z := product_of M `div` one.
Definition lo_part (M : Z) : Z := rn (product_of M `mod` one * 2 ^ 32 + product_of M) `div` one.

Lemma product_range M : 0 ≤ M ≤ one → 0 ≤ product_of M ≤ UINT32_MAX * one.
Proof.
  intros HM. unfold product_of. split.
  - change 0 with (rn 0). apply rn_mono. unfold UINT32_MAX. lia.
  - rewrite <- (rn_int UINT32_MAX) by (unfold UINT32_MAX; lia). apply rn_mono.
    unfold UINT32_MAX. lia.
Qed.

Lemma parts_range M :
  0 ≤ M ≤ one →
  0 ≤ hi_part M ≤ UINT32_MAX ∧ hi_part M ≤ lo_part M ≤ 2 ^ 32 + hi_part M + 1 ∧
  hi_part M * 2 ^ 32 + lo_part M ≤ UINT64_MAX.
Proof.
  intros HM. pose proof (product_range M HM) as Hp. pose proof one_pos as H1.
  pose proof (Z.div_mod (product_of M) one ltac:(lia)) as Hd.
  pose proof (Z.mod_pos_bound (product_of M) one H1) as Hr. fold (hi_part M) in Hd.
  assert (0 ≤ hi_part M ≤ UINT32_MAX) as Hh.
  { unfold hi_part. split; [apply Z.div_pos; lia|].
    apply Z.div_le_upper_bound; lia. }
  assert (hi_part M ≤ lo_part M) as Hlo.
  { unfold lo_part. apply Z.div_le_lower_bound; [done|]. rewrite (Z.mul_comm one).
    rewrite <- (rn_int (hi_part M)) by (unfold UINT32_MAX in *; lia). apply rn_mono. nia. }
  assert (lo_part M ≤ 2 ^ 32 + hi_part M + 1) as Hup.
  { unfold lo_part. apply Z.div_le_upper_bound; [done|]. rewrite (Z.mul_comm one).
    rewrite <- (rn_int (2 ^ 32 + hi_part M + 1)) by (unfold UINT32_MAX in *; lia).
    apply rn_mono. nia. }
  split_and!; [lia|lia|lia|lia|].
  destruct (Z.eq_dec (hi_part M) UINT32_MAX) as [E|]; [|unfold UINT32_MAX, UINT64_MAX in *; lia].
  assert (lo_part M = UINT32_MAX) as ->; [|rewrite E; done].
  unfold lo_part. rewrite E in Hd. assert (product_of M `mod` one = 0) as -> by lia.
  assert (product_of M = UINT32_MAX * one) as -> by lia.
  rewrite Z.mul_0_l, Z.add_0_l, rn_int by (unfold UINT32_MAX; lia). apply Z.div_mul. lia.
Qed.

Lemma threshold_parts M :
  0 < M < one → CalculateThreshold (Fin M) = Val (hi_part M * 2 ^ 32 + lo_part M).
Proof.
  intros HM. pose proof (parts_range M ltac:(lia)) as (Hh & Hl & Ht). pose proof one_pos.
  unfold CalculateThreshold. destruct (Z.leb_spec M 0), (Z.leb_spec one M); try lia. cbv zeta.
  fold (product_of M). fold (hi_part M). unfold to_u64. rewrite Z.div_mul by lia. fold (lo_part M).
  unfold UINT32_MAX, UINT64_MAX in *.
  destruct (Z.leb_spec (hi_part M) (2 ^ 64 - 1)); [|lia]. cbn [obind].
  destruct (Z.leb_spec (lo_part M) (2 ^ 64 - 1)); [|lia]. cbn [obind].
  rewrite Z.shiftl_mul_pow2 by lia. unfold u64. rewrite !wrap_small; [done|..].
  all: rewrite ?wrap_small; lia.
Qed.

Lemma parts_mono M M' :
  0 ≤ M ≤ M' → M' ≤ one → hi_part M * 2 ^ 32 + lo_part M ≤ hi_part M' * 2 ^ 32 + lo_part M'.
Proof.
  intros HM HM'. pose proof one_pos as H1.
  pose proof (parts_range M ltac:(lia)) as (Hh & Hl & _).
  pose proof (parts_range M' ltac:(lia)) as (Hh' & Hl' & _).
  assert (product_of M ≤ product_of M') as Hp by (apply rn_mono; unfold UINT32_MAX; lia).
  assert (hi_part M ≤ hi_part M') as Hhi by (apply Z.div_le_mono; lia).
  destruct (Z.eq_dec (hi_part M) (hi_part M')) as [E|]; [|lia].
  rewrite E. apply Z.add_le_mono_l. unfold lo_part. apply Z.div_le_mono; [done|].
  apply rn_mono. pose proof (Z.div_mod (product_of M) one ltac:(lia)) as Hd.
  pose proof (Z.div_mod (product_of M') one ltac:(lia)) as Hd'. unfold hi_part in E. rewrite E in Hd.
  pose proof (Z.mod_pos_bound (product_of M) one H1). pose proof (product_range M ltac:(lia)). lia.
Qed.

(** The order of doubles, without NaN. *)
Definition dle (a b : double) : bool :=
  match a, b with
  | NaN, _ | _, NaN => false
  | Inf true, _ | _, Inf false => true
  | Fin m, Fin n => m <=? n
  | Inf false, _ | _, Inf true => false
  end.

(** The threshold of every ratio but NaN, as a number. *)
Definition thr (ratio : double) : Z :=
  match ratio with
  | Fin M => if M <=? 0 then 0 else if one <=? M then UINT64_MAX
             else hi_part M * 2 ^ 32 + lo_part M
  | Inf true | NaN => 0
  | Inf false => UINT64_MAX
  end.

Lemma threshold_thr ratio : ratio ≠ NaN → CalculateThreshold ratio = Val (thr ratio).
Proof.
  destruct ratio as [M|[]|]; intros Hn; [|done..]. cbn [thr].
  destruct (Z.leb_spec M 0) as [|H0], (Z.leb_spec one M) as [|H1];
    try (apply threshold_parts; lia); unfold CalculateThreshold;
    destruct (Z.leb_spec M 0), (Z.leb_spec one M); lia || done.
Qed.

Lemma thr_range ratio : 0 ≤ thr ratio ≤ UINT64_MAX.
Proof.
  unfold thr, UINT64_MAX. destruct ratio as [M|[]|]; try lia.
  destruct (Z.leb_spec M 0), (Z.leb_spec one M); try lia.
  pose proof (parts_range M ltac:(lia)). unfold UINT64_MAX in *. lia.
Qed.

Lemma thr_mono r r' : dle r r' = true → thr r ≤ thr r'.
Proof.
  pose proof (thr_range r). pose proof (thr_range r'). pose proof one_pos.
  destruct r as [M|[]|], r' as [M'|[]|]; cbn in *; try done; try lia.
  intros Hm%Z.leb_le.
  destruct (Z.leb_spec M 0), (Z.leb_spec one M), (Z.leb_spec M' 0), (Z.leb_spec one M'); try lia.
  apply parts_mono; lia.
Qed.

(** The ratio computed from a trace id is a number in [0, 1]. *)
Lemma id_threshold trace_id :
  CalculateThresholdFromBuffer trace_id = Val (thr (id_ratio (le_val (take 8 trace_id)))).
Proof. by apply threshold_thr. Qed.

(** * Theorems *)

(** C11: the threshold of a ratio strictly between 0 and 1 is computed without a
    conversion out of range and without wrapping around, lies in the range of
    [uint64_t] and differs from the ratio times [UINT64_MAX] by at most 2050. *)
Theorem threshold_accurate M :
  0 < M < one →
  ∃ t, CalculateThreshold (Fin M) = Val t ∧ 0 ≤ t ≤ UINT64_MAX ∧
       Z.abs (t * one - M * UINT64_MAX) ≤ 2050 * one.
Proof.
  intros HM. rewrite threshold_parts by done. eexists. split; [done|].
  pose proof one_pos as H1. pose proof (parts_range M ltac:(lia)) as (Hh & Hl & Ht).
  split; [lia|]. pose proof (product_range M ltac:(lia)) as Hp.
  pose proof (rn_err (UINT32_MAX * M) ltac:(unfold UINT32_MAX; lia)) as He. fold (product_of M) in He.
  pose proof (Z.div_mod (product_of M) one ltac:(lia)) as Hd. fold (hi_part M) in Hd.
  pose proof (Z.mod_pos_bound (product_of M) one H1) as Hr.
  set (x := product_of M `mod` one * 2 ^ 32 + product_of M).
  assert (0 ≤ x) as Hx by (unfold x; lia). pose proof (rn_err x Hx) as Hex.
  pose proof (Z.div_mod (rn x) one ltac:(lia)) as Hdl. fold x in Hdl.
  pose proof (Z.mod_pos_bound (rn x) one H1) as Hrl.
  change (rn x `div` one) with (lo_part M) in Hdl.
  unfold UINT32_MAX, UINT64_MAX in *. unfold x in *. lia.
Qed.

Lemma threshold_accurate_witness :
  ∃ t, CalculateThreshold (Fin (2 ^ 1073)) = Val t ∧ 0 ≤ t ≤ UINT64_MAX ∧
       Z.abs (t * one - 2 ^ 1073 * UINT64_MAX) ≤ 2050 * one.
Proof. apply (threshold_accurate (2 ^ 1073)). split; vm_compute; reflexivity. Defined.

(** One half: the threshold of 0.5. *)
Example threshold_half : CalculateThreshold (Fin (2 ^ 1073)) = Val (2 ^ 63 - 1).
Proof. vm_compute. reflexivity. Qed.

(** The largest ratio below one, for which the plain product would wrap. *)
Example threshold_near_one : CalculateThreshold (Fin (2 ^ 1074 - 2 ^ 1021)) = Val (2 ^ 64 - 2049).
Proof. vm_compute. reflexivity. Qed.

(** Note: the threshold grows with the ratio: rounding the high and the low part
    separately never reverses the order of two ratios. *)
Theorem threshold_monotone r r' :
  dle r r' = true →
  ∃ t t', CalculateThreshold r = Val t ∧ CalculateThreshold r' = Val t' ∧
          0 ≤ t ≤ t' ∧ t' ≤ UINT64_MAX.
Proof.
  intros Hr. exists (thr r), (thr r').
  pose proof (thr_range r). pose proof (thr_range r'). pose proof (thr_mono r r' Hr).
  split_and!; try lia; apply threshold_thr; intros ->; [done|]. by destruct r as [|[]|].
Qed.

Lemma threshold_monotone_witness :
  ∃ t t', CalculateThreshold (Fin 1) = Val t ∧ CalculateThreshold (Inf false) = Val t' ∧
          0 ≤ t ≤ t' ∧ t' ≤ UINT64_MAX.
Proof. apply (threshold_monotone (Fin 1) (Inf false)). reflexivity. Defined.

(** C27: for spans without the attribute "ForceSampling", with an iteration that
    calls its callback on every attribute and reports the first [false], the
    decision depends on the ratio and the trace id only: two spans of a trace
    with different attributes are decided consistently.  A trace that is sampled
    at a ratio is sampled at every larger one, also at the same ratio for the
    other span; every trace is sampled at a ratio of one or more, and none at
    zero or less. *)
Theorem sampling_consistent ForEachKeyValue trace_id attributes attributes' r r' t t' :
  (∀ f l, (∀ k, k ∈ l → f k = true) → ForEachKeyValue f l = true) →
  "ForceSampling"%string ∉ attributes → "ForceSampling"%string ∉ attributes' →
  CalculateThreshold r = Val t → CalculateThreshold r' = Val t' → dle r r' = true →
  ∃ d d', ShouldSample ForEachKeyValue t trace_id attributes = Val d ∧
          ShouldSample ForEachKeyValue t' trace_id attributes' = Val d' ∧
          (d = RECORD_AND_SAMPLE → d' = RECORD_AND_SAMPLE) ∧
          (r = r' → d = d') ∧
          (dle (Fin one) r' = true → d' = RECORD_AND_SAMPLE) ∧
          (dle r (Fin 0) = true → d = DROP).
Proof.
  intros Hf _ _ Ht Ht' Hr. pose proof (thr_mono r r' Hr) as Hm.
  rewrite threshold_thr in Ht by (by intros ->). rewrite threshold_thr in Ht'
    by (intros ->; by destruct r as [|[]|]). simplify_eq.
  unfold ShouldSample, CheckIfForceSampling. rewrite !Hf by done. cbn [negb].
  rewrite id_threshold. cbn [obind].
  set (i := thr (id_ratio _)). assert (0 ≤ i ≤ UINT64_MAX) as Hi by apply thr_range.
  pose proof (thr_range r). pose proof one_pos.
  assert (dle (Fin one) r' = true → thr r' = UINT64_MAX) as Ho.
  { destruct r' as [M|[]|]; cbn; try done. intros. b2p.
    destruct (Z.leb_spec M 0), (Z.leb_spec one M); lia. }
  assert (dle r (Fin 0) = true → thr r = 0) as Hz.
  { destruct r as [M|[]|]; cbn; try done. intros ->. done. }
  clearbody i. unfold UINT64_MAX in *.
  destruct (Z.eqb_spec (thr r) 0), (Z.eqb_spec (thr r') 0); eexists _, _;
    (split_and!; [done|done|..]); intros Hd; try specialize (Ho Hd); try specialize (Hz Hd);
    try (match type of Hd with r = r' => subst r' end);
    repeat case_match; b2p; done || lia.
Qed.

Lemma sampling_consistent_witness :
  ∃ d d', ShouldSample (λ f l, forallb f l) 0 (replicate 16 7) ["http.method"%string] = Val d ∧
          ShouldSample (λ f l, forallb f l) UINT64_MAX (replicate 16 7) [] = Val d' ∧
          (d = RECORD_AND_SAMPLE → d' = RECORD_AND_SAMPLE) ∧
          (Fin 0 = Inf false → d = d') ∧
          (dle (Fin one) (Inf false) = true → d' = RECORD_AND_SAMPLE) ∧
          (dle (Fin 0) (Fin 0) = true → d = DROP).
Proof.
  apply (sampling_consistent (λ f l, forallb f l) (replicate 16 7) ["http.method"%string] []
           (Fin 0) (Inf false) 0 UINT64_MAX); [| | |reflexivity..].
  - intros f l Hl. apply forallb_forall. intros k Hk. apply Hl. by apply list_elem_of_In.
  - by intros Hk%list_elem_of_In; destruct Hk as [[=]|[]].
  - by apply not_elem_of_nil.
Defined.

(** * The description *)

Lemma fixed_val n k acc s :
  0 ≤ k < 10 ^ Z.of_nat n → (∀ c, head s = Some c → isdigit c = false) →
  digits_val acc (fixed n k ++ s) = acc * 10 ^ Z.of_nat n + k.
Proof.
  revert k acc. enough (∀ k acc s, 0 ≤ k < 10 ^ Z.of_nat n →
    digits_val acc (fixed n k ++ s) = digits_val (acc * 10 ^ Z.of_nat n + k) s) as H.
  { intros k acc Hk Hs. rewrite H by done. destruct s as [|c s]; cbn; [done|]. by rewrite Hs. }
  clear s. induction n as [|n IH]; intros k acc s Hk.
  - cbn. f_equal. change (10 ^ Z.of_nat 0) with 1 in *. lia.
  - rewrite Nat2Z.inj_succ, Z.pow_succ_r in * by lia. cbn [fixed]. rewrite <- app_assoc, IH by zlia.
    cbn [app digits_val]. unfold isdigit.
    rewrite (proj2 (Z.leb_le 48 _)), (proj2 (Z.leb_le _ 57)) by zlia. cbn [andb]. f_equal. zlia.
Qed.

Lemma clamp_range ratio : ratio ≠ NaN → ∃ M, clamp ratio = Fin M ∧ 0 ≤ M ≤ one.
Proof.
  intros Hr. pose proof one_pos as Ho. unfold clamp. destruct ratio as [M|[]|]; [..|done].
  - destruct (Z.ltb_spec one M); [|destruct (Z.ltb_spec M 0)]; eauto with lia.
  - eauto with lia.
  - eauto with lia.
Qed.

(** What the description says of the ratio: the digits before and after the
    point, read as a number of millionths, are within half a millionth of the
    clamped ratio. *)
Lemma description_accurate ratio s :
  new_CustomSampler ratio = Val s →
  ∃ M k, clamp ratio = Fin M ∧ 0 ≤ M ≤ one ∧ 0 ≤ k ≤ 10 ^ 6 ∧
         2 * Z.abs (k * one - M * 10 ^ 6) ≤ one ∧
         digits_val 0 (drop 14 (GetDescription s)) = k `div` 10 ^ 6 ∧
         digits_val 0 (drop 16 (GetDescription s)) = k `mod` 10 ^ 6.
Proof.
  intros H. unfold new_CustomSampler in H. pose proof one_pos as Ho.
  destruct (clamp_range ratio) as (M & E & HM); [by intros ->|].
  rewrite E in H. destruct (CalculateThreshold ratio); cbn [obind] in H; [|done]. injection H as <-.
  exists M, (rne (M * 10 ^ 6) one). pose proof (rne_err (M * 10 ^ 6) one Ho).
  assert (0 ≤ rne (M * 10 ^ 6) one ≤ 10 ^ 6) as Hk.
  { pose proof (rne_mono (0 * one) (M * 10 ^ 6) one Ho ltac:(lia)) as H1.
    pose proof (rne_mono (M * 10 ^ 6) (10 ^ 6 * one) one Ho ltac:(lia)) as H2.
    rewrite rne_exact in H1, H2 by done. lia. }
  unfold GetDescription, to_string. cbn [description_].
  set (k := rne (M * 10 ^ 6) one) in *. clearbody k.
  split_and!; try done; try lia.
  - change (drop 14 _) with ((fixed 1 (k `div` 10 ^ 6) ++ bs "." ++ fixed 6 (k `mod` 10 ^ 6)) ++ bs "}").
    rewrite <- app_assoc, fixed_val; [lia|cbn; zlia|by intros c [= <-]].
  - change (drop 16 _) with (fixed 6 (k `mod` 10 ^ 6) ++ bs "}").
    rewrite fixed_val; [lia|cbn; zlia|by intros c [= <-]].
Qed.

End Sampler.
