(* ===== verification/Curl.v ===== *)
(** The libcurl helpers (src/http2/libcurl_client/util.h): the hex dump of the
    debug callback, the callback itself and the write callback.

    A stream is the bytes written to it.  [size_t] counters are naturals: the
    offset of the dump stays below the size of an object plus sixteen. *)

From stdpp Require Import base list gmap strings.
From S2P Require Import Prelude Io CLib.

Local Open Scope Z_scope.
Local Open Scope cs_scope.

Module Curl.

(** * printf conversions *)

Definition digit (d : Z) : Z := if d <? 10 then 48 + d else 87 + d.

(** The digits of [n] in a base; 64 are enough for a [long]. *)
Fixpoint digits (fuel : nat) (base n : Z) : list Z :=
  match fuel with
  | O => []
  | S fuel' => (if n <? base then [] else digits fuel' base (n `div` base)) ++ [digit (n `mod` base)]
  end.

(** A conversion with the precision [w]. *)
Definition number (w : nat) (base n : Z) : list Z :=
  let d := digits 64 base n in replicate (w - length d) 48 ++ d.

(** [%02x] of a byte. *)
Definition hex2 (b : Z) : list Z := [digit (b `div` 16); digit (b `mod` 16)].

(** * dump *)

Definition width : nat := 16.

(** The loops over [c] with [n] columns left. *)
Fixpoint hex_cols (ptr : list Z) (size i c n : nat) : outcome (list Z) :=
  match n with
  | O => Val []
  | S n' =>
      col ⇐o (if (i + c <? size)%nat then b ⇐o load ptr (i + c); Val (hex2 b ++ [32])
              else Val [32; 32; 32]);
      rest ⇐o hex_cols ptr size i (S c) n';
      Val (col ++ rest)
  end.

Fixpoint data_cols (ptr : list Z) (size i c n : nat) : outcome (list Z) :=
  match n with
  | O => Val []
  | S n' =>
      if (i + c <? size)%nat then
        b ⇐o load ptr (i + c);
        let x := if (0x20 <=? b) && (b <? 0x80) then b else 46 in
        rest ⇐o data_cols ptr size i (S c) n';
        Val (x :: rest)
      else Val []
  end.

(** The loop over [i]; a fuel of [size] rounds is enough. *)
Fixpoint dump_lines (fuel : nat) (ptr : list Z) (size i : nat) : outcome (list Z) :=
  if (i <? size)%nat then
    match fuel with
    | O => Stopped OutOfFuel
    | S fuel' =>
        h ⇐o hex_cols ptr size i 0 width;
        d ⇐o data_cols ptr size i 0 width;
        rest ⇐o dump_lines fuel' ptr size (i + width);
        Val (number 4 16 (Z.of_nat i) ++ bs ": " ++ h ++ d ++ [10] ++ rest)
    end
  else Val [].

Definition dump (text : list Z) (ptr : list Z) (size : nat) : outcome (list Z) :=
  rest ⇐o dump_lines size ptr size 0;
  Val (text ++ bs ", " ++ number 10 10 (Z.of_nat size) ++ bs " bytes (0x" ++
       number 8 16 (Z.of_nat size) ++ bs ")" ++ [10] ++ rest).

(** * The callbacks *)

Inductive curl_infotype :=
  | CURLINFO_TEXT | CURLINFO_HEADER_IN | CURLINFO_HEADER_OUT | CURLINFO_DATA_IN
  | CURLINFO_DATA_OUT | CURLINFO_SSL_DATA_IN | CURLINFO_SSL_DATA_OUT | CURLINFO_OTHER.

Definition trace_text (type : curl_infotype) : option string :=
  match type with
  | CURLINFO_TEXT | CURLINFO_OTHER => None
  | CURLINFO_HEADER_OUT => Some "=> Send header"
  | CURLINFO_DATA_OUT => Some "=> Send data"
  | CURLINFO_SSL_DATA_OUT => Some "=> Send SSL data"
  | CURLINFO_HEADER_IN => Some "<= Recv header"
  | CURLINFO_DATA_IN => Some "<= Recv data"
  | CURLINFO_SSL_DATA_IN => Some "<= Recv SSL data"
  end%string.

(** What the callback writes to [stderr] and to [stdout], and its result.  The
    text of an information is printed up to a NUL. *)
Definition my_trace (type : curl_infotype) (data : list Z) (size : nat)
    : outcome (list Z * list Z * Z) :=
  match type, trace_text type with
  | CURLINFO_TEXT, _ =>
      match cstr data with
      | None => oob "data is printed without a terminator"
      | Some s => Val (bs "== Info: " ++ s, [], 0)
      end
  | _, None => Val ([], [], 0)
  | _, Some text => out ⇐o dump (bs text) data size; Val ([], out, 0)
  end.

(** The line printed and the result. *)
Definition write_callback (ptr : list Z) (size nmemb : Z) : outcome (list Z * Z) :=
  c ⇐o load ptr 0;
  Val (bs "write_callback : " ++ [c], size).

(** * Reading a dump back *)

Definition undigit (c : Z) : option Z :=
  if isdigit c then Some (c - 48)
  else if (97 <=? c) && (c <=? 102) then Some (c - 87)
  else None.

(** The bytes of the hex columns: groups of two digits and a space. *)
Fixpoint unhex (cols : list Z) : list Z :=
  match cols with
  | a :: b :: _ :: cols' =>
      match undigit a, undigit b with
      | Some x, Some y => (16 * x + y) :: unhex cols'
      | _, _ => []
      end
  | _ => []
  end.

(** The lines of a text, each without its newline. *)
Fixpoint lines (cur : list Z) (s : list Z) : list (list Z) :=
  match s with
  | [] => []
  | c :: s' => if c =? 10 then reverse cur :: lines [] s' else lines (c :: cur) s'
  end.

(** A line of a dump: the 48 columns after the first colon and space. *)
Definition unline (l : list Z) : list Z :=
  match strchr l 58 with
  | Some k => unhex (take 48 (drop (k + 2) l))
  | None => []
  end.

(** The data of a dump: the lines after the first. *)
Definition undump (out : list Z) : list Z := concat (unline <$> tail (lines [] out)).

(** * Lemmas *)

Lemma load_lookup ptr i b : ptr !! i = Some b → load ptr i = Val b.
Proof. unfold load. by intros ->. Qed.

Definition hexcol (b : Z) : list Z := hex2 b ++ [32].

(** The hex columns: those of the bytes, then blanks. *)
Lemma hex_cols_ok ptr i c n :
  hex_cols ptr (length ptr) i c n =
  Val (concat (hexcol <$> take n (drop (i + c) ptr)) ++
       replicate (3 * (n - length (drop (i + c) ptr))) 32).
Proof.
  revert c. induction n as [|n IH]; intros c; cbn [hex_cols]; [done|].
  rewrite IH. replace (i + S c)%nat with (S (i + c)) by lia.
  destruct (Nat.ltb_spec (i + c) (length ptr)) as [Hl|Hl].
  - destruct (lookup_lt_is_Some_2 ptr (i + c) Hl) as [b Hb]. rewrite (load_lookup _ _ _ Hb).
    rewrite (drop_S _ _ _ Hb). cbn -[Nat.mul]. do 2 f_equal.
  - rewrite !drop_ge by lia. rewrite !take_nil. cbn [obind fmap list_fmap concat app].
    replace (3 * (S n - length (@nil Z)))%nat with (3 + 3 * (n - length (@nil Z)))%nat by (cbn; lia). done.
Qed.

Definition printable (b : Z) : Z := if (0x20 <=? b) && (b <? 0x80) then b else 46.

Lemma data_cols_ok ptr i c n :
  data_cols ptr (length ptr) i c n = Val (printable <$> take n (drop (i + c) ptr)).
Proof.
  revert c. induction n as [|n IH]; intros c; cbn [data_cols]; [done|].
  rewrite IH. replace (i + S c)%nat with (S (i + c)) by lia.
  destruct (Nat.ltb_spec (i + c) (length ptr)) as [Hl|Hl].
  - destruct (lookup_lt_is_Some_2 ptr (i + c) Hl) as [b Hb]. rewrite (load_lookup _ _ _ Hb).
    by rewrite (drop_S _ _ _ Hb).
  - by rewrite !drop_ge, take_nil by lia.
Qed.

(** Characters of a number. *)
Definition is_digit (c : Z) : Prop := 48 ≤ c ≤ 57 ∨ 97 ≤ c ≤ 102.

Lemma digit_ok d : 0 ≤ d < 16 → is_digit (digit d) ∧ undigit (digit d) = Some d.
Proof.
  intros Hd. unfold is_digit, digit, undigit, isdigit.
  destruct (Z.ltb_spec d 10); repeat case_match; b2p; split; try lia; try (f_equal; lia).
Qed.

Lemma digits_ok fuel base n : 0 < base ≤ 16 → Forall is_digit (digits fuel base n).
Proof.
  intros Hb. revert n. induction fuel as [|fuel IH]; intros n; cbn; [constructor|].
  apply Forall_app. split; [case_match; [constructor|auto]|]. constructor; [|constructor].
  apply digit_ok. pose proof (Z.mod_pos_bound n base). lia.
Qed.

Lemma number_ok w base n : 0 < base ≤ 16 → Forall is_digit (number w base n).
Proof.
  intros Hb. unfold number. apply Forall_app. split; [|by apply digits_ok].
  apply Forall_replicate. unfold is_digit. lia.
Qed.

Lemma unhex_cols bytes k :
  is_bytes bytes → unhex (concat (hexcol <$> bytes) ++ replicate k 32) = bytes.
Proof.
  induction 1 as [|b bytes Hb _ IH].
  - by destruct k as [|[|[|k]]].
  - unfold is_byte in Hb. cbn. destruct (digit_ok (b `div` 16)) as [_ ->]; [zlia|].
    destruct (digit_ok (b `mod` 16)) as [_ ->]; [zlia|]. f_equal; [zlia|exact IH].
Qed.

Lemma length_hexcols bytes : length (concat (hexcol <$> bytes)) = (3 * length bytes)%nat.
Proof. induction bytes as [|b bytes IH]; cbn in *; lia. Qed.

Lemma strchr_app_no l c l' : c ∉ l → strchr (l ++ c :: l') c = Some (length l).
Proof.
  induction l as [|x l IH]; cbn; intros Hn; [by rewrite Z.eqb_refl|].
  destruct (Z.eqb_spec x c) as [->|]; [set_solver|]. rewrite IH by set_solver. done.
Qed.

Lemma lines_line cur l rest : 10 ∉ l → lines cur (l ++ 10 :: rest) = (reverse cur ++ l) :: lines [] rest.
Proof.
  revert cur. induction l as [|x l IH]; intros cur Hn; cbn; [by rewrite app_nil_r|].
  destruct (Z.eqb_spec x 10); [set_solver|]. rewrite IH by set_solver.
  by rewrite reverse_cons, <- app_assoc.
Qed.

Lemma digit_not l c : Forall is_digit l → ¬ is_digit c → c ∉ l.
Proof. rewrite Forall_forall. intros H Hn Hc. by apply Hn, H. Qed.

Lemma unline_line off h d bytes :
  Forall is_digit off → length h = 48%nat → unhex h = bytes →
  unline (off ++ bs ": " ++ h ++ d) = bytes.
Proof.
  intros Ho Hh Hu. unfold unline. change (bs ": " ++ h ++ d) with (58 :: (32 :: h ++ d)).
  rewrite strchr_app_no by (apply digit_not; [done|unfold is_digit; lia]).
  rewrite <- drop_drop, drop_app_length.
  change (drop 2 (58 :: 32 :: h ++ d)) with (h ++ d). by rewrite take_app_length'.
Qed.

(** No newline inside a line. *)
Lemma hexcols_no_newline bytes k :
  is_bytes bytes → 10 ∉ concat (hexcol <$> bytes) ++ replicate k 32.
Proof.
  intros Hb. rewrite elem_of_app. intros [Hc|Hc%elem_of_replicate]; [|lia].
  induction Hb as [|b bytes Hb _ IH]; cbn in Hc; [by apply elem_of_nil in Hc|].
  unfold is_byte in Hb. destruct (digit_ok (b `div` 16)) as [D1 _]; [zlia|].
  destruct (digit_ok (b `mod` 16)) as [D2 _]; [zlia|]. unfold is_digit in *.
  rewrite !elem_of_cons in Hc. destruct Hc as [Hc|[Hc|[Hc|Hc]]]; [lia|lia|lia|auto].
Qed.

Lemma printable_no_newline (bytes : list Z) : 10 ∉ printable <$> bytes.
Proof.
  intros (b & Hb & _)%list_elem_of_fmap. unfold printable in Hb. case_match; b2p; lia.
Qed.

(** From the offset [i] on: the lines give the data back. *)
Lemma dump_lines_ok fuel ptr i :
  is_bytes ptr → (length ptr ≤ i + fuel)%nat →
  ∃ out, dump_lines fuel ptr (length ptr) i = Val out ∧
         concat (unline <$> lines [] out) = drop i ptr.
Proof.
  intros Hb. revert i. induction fuel as [|fuel IH]; intros i Hf; cbn [dump_lines];
    destruct (Nat.ltb_spec i (length ptr)) as [Hi|Hi]; try lia;
    try (exists []; split; [done|]; cbn; by rewrite drop_ge by lia).
  rewrite hex_cols_ok, data_cols_ok. cbn [obind]. rewrite Nat.add_0_r.
  destruct (IH (i + width)%nat) as (rest & -> & Hr); [unfold width; lia|]. cbn [obind].
  eexists. split; [done|]. set (h := _ ++ replicate _ 32). set (d := printable <$> _).
  assert (is_bytes (take width (drop i ptr))) as Hbt by (by apply Forall_take, Forall_drop).
  set (off := number _ _ _). assert (Forall is_digit off) as Ho by (by apply number_ok).
  replace (off ++ bs ": " ++ h ++ d ++ [10] ++ rest)
    with ((off ++ bs ": " ++ h ++ d) ++ 10 :: rest) by (by rewrite <- !app_assoc).
  rewrite lines_line.
  - cbn [fmap list_fmap concat]. rewrite reverse_nil, app_nil_l.
    rewrite (unline_line _ _ _ (take width (drop i ptr))).
    + rewrite Hr. rewrite <- drop_drop. apply take_drop.
    + done.
    + unfold h. rewrite length_app, length_hexcols, length_replicate, length_take. unfold width. lia.
    + by apply unhex_cols.
  - rewrite !elem_of_app. intros [Hc|[Hc|[Hc|Hc]]].
    + revert Hc. apply digit_not; [done|unfold is_digit; lia].
    + cbn in Hc. rewrite !elem_of_cons, elem_of_nil in Hc. lia.
    + by apply hexcols_no_newline in Hc.
    + by apply printable_no_newline in Hc.
Qed.

(** The newline is not in a list, by evaluation. *)
Lemma no_newline (l : list Z) : existsb (Z.eqb 10) l = false → 10 ∉ l.
Proof.
  intros H Hc. assert (existsb (Z.eqb 10) l = true); [|congruence].
  apply existsb_exists. exists 10. by rewrite <- list_elem_of_In.
Qed.

(** * Theorems *)

(** C18: the dump of a buffer never reads outside it and ends within as many
    rounds as the buffer has bytes, and it loses nothing: reading the hex columns
    of its lines gives the data back, whatever the data is. *)
Theorem dump_roundtrip text data :
  10 ∉ text → is_bytes data →
  ∃ out, dump text data (length data) = Val out ∧ undump out = data.
Proof.
  intros Ht Hb. unfold dump.
  destruct (dump_lines_ok (length data) data 0) as (rest & -> & Hr); [done|lia|]. cbn [obind].
  eexists. split; [done|]. set (a := number 10 _ _). set (b := number 8 _ _).
  replace (text ++ bs ", " ++ a ++ bs " bytes (0x" ++ b ++ bs ")" ++ [10] ++ rest)
    with ((text ++ bs ", " ++ a ++ bs " bytes (0x" ++ b ++ bs ")") ++ 10 :: rest)
    by (by rewrite <- !app_assoc).
  unfold undump. rewrite lines_line; [exact Hr|].
  assert (10 ∉ a) by (apply digit_not; [by apply number_ok|unfold is_digit; lia]).
  assert (10 ∉ b) by (apply digit_not; [by apply number_ok|unfold is_digit; lia]).
  rewrite !not_elem_of_app. split_and!; try done; by apply no_newline.
Qed.

Lemma dump_roundtrip_witness :
  ∃ out, dump (bs "=> Send data") (bs "POST /test1 HTTP/2") 18 = Val out ∧
         undump out = bs "POST /test1 HTTP/2".
Proof.
  apply (dump_roundtrip (bs "=> Send data") (bs "POST /test1 HTTP/2")).
  - by apply no_newline.
  - apply bs_bytes.
Defined.

Example dump_text :
  dump (bs "<= Recv data") [0; 65; 255] 3 =
  Val (bs "<= Recv data, 0000000003 bytes (0x00000003)" ++ [10] ++
       bs "0000: 00 41 ff                                        .A." ++ [10]).
Proof. reflexivity. Qed.

(** libcurl delivers [size * nmemb] bytes and treats any other result as an
    error: [write_callback] returns that number only for a single element. *)
Lemma write_callback_result ptr size nmemb r :
  0 < size → write_callback ptr size nmemb = Val r → (r.2 = size * nmemb ↔ nmemb = 1).
Proof. unfold write_callback, load. intros Hs. case_match; cbn; [|done]. intros [= <-]. cbn. nia. Qed.

End Curl.
