(* ===== verification/Jaeger.v ===== *)
(** Tracing (src/opentelemetry/jaeger): the header carrier and the tracer of
    tracer.h and tracer.cc, the traced HTTP client of http.cc and the program of
    example.cc.

    The OpenTelemetry SDK, libcurl and the input are on the other side of
    [Io.prog].  The carrier is generic in its container, of which the model
    keeps the entries in the order of their insertion and the equivalence of
    keys; the propagator is a parameter, of which nothing is assumed. *)

From stdpp Require Import base list gmap strings.
From S2P Require Import Prelude Io CLib.

Local Open Scope Z_scope.
Local Open Scope cs_scope.

Module Jaeger.

(** * The carrier *)

Definition kTraceParent : list Z := bs "traceparent".
Definition kTraceState : list Z := bs "tracestate".

Section carrier.
(** The equivalence of the keys of the container. *)
Context (keq : list Z → list Z → bool).

Definition headers : Type := list (list Z * list Z).

Definition key_to_compare (key : list Z) : list Z :=
  if bool_decide (key = kTraceParent) then bs "Traceparent"
  else if bool_decide (key = kTraceState) then bs "Tracestate"
  else key.

(** [find]: the first entry with an equivalent key. *)
Fixpoint find (key : list Z) (h : headers) : option (list Z) :=
  match h with
  | [] => None
  | (k, v) :: h' => if keq k key then Some v else find key h'
  end.

Definition Get (h : headers) (key : list Z) : list Z :=
  match find (key_to_compare key) h with
  | Some v => v
  | None => []
  end.

Definition Set_ (h : headers) (key value : list Z) : headers := h ++ [(key, value)].

(** The global propagator on the current context: [inject] lists its calls of
    [Set], [extract] computes a context from the calls of [Get]. *)
Context {ctx span : Type} (inject : ctx → list (list Z * list Z))
  (extract : (list Z → list Z) → ctx → ctx) (GetSpan : ctx → span).

Definition InjectSpan (current_ctx : ctx) : headers :=
  foldl (λ h kv, Set_ h kv.1 kv.2) [] (inject current_ctx).

Definition ExtractSpan (carrier : headers) (current_ctx : ctx) : span :=
  GetSpan (extract (Get carrier) current_ctx).

(** ** Lemmas *)

Lemma foldl_Set l h : foldl (λ h kv, Set_ h kv.1 kv.2) h l = h ++ l.
Proof.
  revert h. induction l as [|[k v] l IH]; intros h; cbn; [by rewrite app_nil_r|].
  rewrite IH. unfold Set_. by rewrite <- app_assoc.
Qed.

End carrier.

(** ** The headers of the HTTP client *)

(** [http::client::Headers] compares its keys without case. *)

Lemma key_equiv k key : caseeq k (key_to_compare key) = caseeq k key.
Proof.
  assert (caseeq key (key_to_compare key) = true) as E
    by (unfold key_to_compare; repeat case_bool_decide; subst; reflexivity || apply caseeq_refl).
  apply eq_bool_prop_intro. split; intros H%Is_true_true; apply Is_true_true.
  - eapply caseeq_trans; [exact H|]. by rewrite caseeq_sym.
  - by eapply caseeq_trans.
Qed.

(** A header as a server passes it on: the case of its name may change. *)
Definition recased (a b : list Z * list Z) : Prop := caseeq a.1 b.1 = true ∧ a.2 = b.2.

(** No two names are equal up to case. *)
Fixpoint distinct (l : headers) : Prop :=
  match l with
  | [] => True
  | kv :: l' => Forall (λ kv', caseeq kv.1 kv'.1 = false) l' ∧ distinct l'
  end.

Lemma caseeq_recased a b k : caseeq a b = true → caseeq b k = caseeq a k.
Proof.
  intros E. apply eq_bool_prop_intro. split; intros H%Is_true_true; apply Is_true_true.
  - by eapply caseeq_trans.
  - eapply caseeq_trans; [|exact H]. by rewrite caseeq_sym.
Qed.

Lemma get_absent l l' k :
  Forall2 recased l l' → Forall (λ kv, caseeq kv.1 k = false) l → Get caseeq l' k = [].
Proof.
  unfold Get. induction 1 as [|[a v] [b v'] l l' [E _] _ IH]; [done|]. cbn in E.
  intros [Ha Hl]%Forall_cons. cbn [fst find] in *. rewrite key_equiv, (caseeq_recased a b k E), Ha. by apply IH.
Qed.

Lemma get_present l l' k v :
  Forall2 recased l l' → distinct l → (k, v) ∈ l → Get caseeq l' k = v.
Proof.
  unfold Get. induction 1 as [|[a u] [b u'] l l' [E Eu] Hl IH]; [by intros _ ?%not_elem_of_nil|].
  cbn in E, Eu. subst u'. intros [Hd Hds] [[= -> ->]|Hk]%elem_of_cons; cbn [find].
  - by rewrite key_equiv, (caseeq_recased a b a E), caseeq_refl.
  - rewrite key_equiv, (caseeq_recased a b k E). rewrite Forall_forall in Hd.
    pose proof (Hd _ Hk) as Hak. cbn in Hak. rewrite Hak. by apply IH.
Qed.



(** With a container that tells the case of letters apart, the header that
    [Set] stores is not the one [Get] looks for. *)
Example carrier_exact_keys :
  Get (λ a b, bool_decide (a = b)) (Set_ [] kTraceParent (bs "00-1-2-01")) kTraceParent = [].
Proof. reflexivity. Qed.

(** * Trimming *)

Definition ltrim (s : list Z) : list Z := skip_space s.
Definition rtrim (s : list Z) : list Z := reverse (skip_space (reverse s)).
Definition trim (s : list Z) : list Z := rtrim (ltrim s).

Lemma skip_space_spec s :
  ∃ a, s = a ++ skip_space s ∧ Forall (λ c, isspace c = true) a ∧
       ∀ c, head (skip_space s) = Some c → isspace c = false.
Proof.
  induction s as [|c s (a & E & Ha & Hh)]; cbn [skip_space]; [by exists []|].
  destruct (isspace c) eqn:Ec.
  - exists (c :: a). split_and!; [cbn; by rewrite <- E|by constructor|done].
  - exists []. split_and!; [done|constructor|]. cbn. congruence.
Qed.

(** [trim] removes white space at both ends and nothing else. *)
Lemma trim_spec s :
  ∃ a b, s = a ++ trim s ++ b ∧ Forall (λ c, isspace c = true) (a ++ b) ∧
         (∀ c, head (trim s) = Some c → isspace c = false) ∧
         (∀ c, last (trim s) = Some c → isspace c = false).
Proof.
  unfold trim, rtrim, ltrim.
  destruct (skip_space_spec s) as (a & E & Ha & Hh). set (l := skip_space s) in *. clearbody l.
  destruct (skip_space_spec (reverse l)) as (b & Eb & Hb & Hl).
  set (m := skip_space (reverse l)) in *. clearbody m.
  assert (l = reverse m ++ reverse b) as El.
  { rewrite <- reverse_app, <- Eb. by rewrite reverse_involutive. }
  exists a, (reverse b). split_and!.
  - by rewrite E, El at 1.
  - rewrite Forall_app. split; [done|]. by apply Forall_reverse.
  - intros c Hc. apply Hh. rewrite El. by destruct (reverse m).
  - intros c. rewrite last_reverse. apply Hl.
Qed.

(** * The tracer and the traced client *)

(** The parameter of the tracer is an unscoped enumeration: any other number can
    be passed. *)
Inductive TraceType := Otel_GRPC | Memory | OtherType (n : Z).

Inductive exporter := OtlpGrpcExporter (endpoint : string) (ssl : bool) | InMemorySpanExporter.

(** Calls into the SDK, libcurl and the standard streams. *)
Inductive ext :=
  | ResourceCreate (attributes : list (string * string))
  | NewProvider (e : exporter) (sampler : string)  (* processor, context, provider *)
  | GetTracer (app ver : list Z)
  | StartSpan (name : list Z)
  | AddEvent (text : list Z)
  | EndSpan
  | CurlGlobalInit
  | CurlGlobalCleanup
  | CurlEasyInit
  | CurlSetopt (option : string) (value : list Z)
  | CurlEasyPerform
  | CurlEasyCleanup
  | Getline
  | PrintSent (ret : bool).

Definition extR (e : ext) : Type :=
  match e with
  | CurlEasyInit => bool                (* false: a null handle *)
  | CurlEasyPerform => Z
  | Getline => option (list Z)
  | _ => unit
  end.

Definition CURLE_OK : Z := 0.

Definition createResources : prog extR unit :=
  call (ResourceCreate [("service.name", "Test"); ("service.instance.id", "Test-12")]%string).

Definition InitInMemoryTracer (app ver : list Z) : prog extR unit :=
  createResources ;;;
  call (NewProvider InMemorySpanExporter "AlwaysOnSampler") ;;;
  call (GetTracer app ver).

Definition initTracer (app ver : list Z) (t : TraceType) : prog extR unit :=
  createResources ;;;
  match t with
  | Otel_GRPC =>
      call (NewProvider (OtlpGrpcExporter "127.0.0.1:4317" false) "AlwaysOnSampler") ;;;
      call (GetTracer app ver)
  | Memory => InitInMemoryTracer app ver
  | OtherType _ => Halt (Exit (-1))
  end.

(** [at] of a missing key throws. *)
Definition GetTraceTypeStr (t : TraceType) : prog extR (list Z) :=
  match t with
  | Otel_GRPC => Ret (bs "otel grpc")
  | Memory => Ret (bs "memory")
  | OtherType _ => Halt (Undefined "std::out_of_range")
  end.

(** An object of the class; a span is a number, the null pointer [None].  Nothing
    in the class sets the current span or adds to the collections. *)
Record Tracer := {
  m_tracer : bool;                       (* not null *)
  m_currentSpan : option Z;
  m_parentSpans : list Z;
  m_spanMap : gmap Z Z;
  m_activeScopes : nat }.

(** [Tracer() = default]. *)
Definition default_Tracer : Tracer :=
  {| m_tracer := false; m_currentSpan := None; m_parentSpans := []; m_spanMap := ∅;
     m_activeScopes := 0 |}.

Definition new_Tracer (app ver : list Z) (t : TraceType) : prog extR Tracer :=
  initTracer app ver t ;;;
  Ret {| m_tracer := true; m_currentSpan := None; m_parentSpans := []; m_spanMap := ∅;
         m_activeScopes := 0 |}.

Definition Tracer_StartSpan (tr : Tracer) (spanName : list Z) : prog extR unit :=
  if m_tracer tr then call (StartSpan spanName)
  else Halt (Undefined "the null tracer is dereferenced").

Definition GetCurrentSpan (tr : Tracer) : option Z := m_currentSpan tr.

(** [span_id] is the identifier in the context of a span. *)
Definition GetSpanId (span_id : Z → Z) (tr : Tracer) : prog extR Z :=
  match GetCurrentSpan tr with
  | Some span => Ret (span_id span)
  | None => Halt (Undefined "the null span is dereferenced")
  end.

Definition GetSpanMap (tr : Tracer) : gmap Z Z := m_spanMap tr.

(** [~Tracer] clears the collections. *)
Definition destroy_Tracer (tr : Tracer) : Tracer :=
  {| m_tracer := m_tracer tr; m_currentSpan := m_currentSpan tr; m_parentSpans := [];
     m_spanMap := ∅; m_activeScopes := 0 |}.

Definition post (ip api json : list Z) (t : TraceType) : prog extR bool :=
  tracer ⇐ new_Tracer (bs "httpClient") (bs "1.0.0") t;
  name ⇐ GetTraceTypeStr t;
  Tracer_StartSpan tracer (bs "http post " ++ name) ;;;
  hnd ⇐ call CurlEasyInit;
  if negb hnd then Ret false
  else
    call (AddEvent (bs "sending to localhost:8344")) ;;;
    call (CurlSetopt "URL" (bs "http://localhost:8344")) ;;;
    call (CurlSetopt "HTTP_VERSION" (bs "2_PRIOR_KNOWLEDGE")) ;;;
    call (CurlSetopt "SSL_VERIFYPEER" (bs "0")) ;;;
    call (CurlSetopt "SSL_VERIFYHOST" (bs "0")) ;;;
    call (CurlSetopt "URL" (ip ++ api)) ;;;
    call (CurlSetopt "POSTFIELDS" json) ;;;
    r ⇐ call CurlEasyPerform;
    let ret := r =? CURLE_OK in
    call CurlEasyCleanup ;;;
    call (AddEvent (bs "completed, ret: " ++ [if ret then 49 else 48])) ;;;
    call EndSpan ;;;
    Ret ret.

(** The body the program sends; the source escapes the n of the first name. *)
Definition body : list Z := 123 :: 10 :: bs "ame" ++ [34] ++ bs " : " ++ [34] ++ bs "test1" ++ [34; 125].

(** One line of input; [None] at its end. *)
Definition serve_line (str : list Z) : prog extR unit :=
  let t := if bool_decide (trim str = bs "mem") then Memory else Otel_GRPC in
  ret ⇐ post (bs "http://localhost:3000/") (bs "test1") body t;
  call (PrintSent ret) ;;; Ret tt.

Fixpoint main_loop (fuel : nat) : prog extR unit :=
  match fuel with
  | O => Halt OutOfFuel
  | S fuel' =>
      l ⇐ call Getline;
      match l with
      | None => Ret tt
      | Some str => serve_line str ;;; main_loop fuel'
      end
  end.

Definition main (fuel : nat) : prog extR Z :=
  call CurlGlobalInit ;;;
  main_loop fuel ;;;
  call CurlGlobalCleanup ;;;
  Ret 0.

(** ** What a history says *)

Definition v_line (e : ext) : extR e → option (list Z) :=
  match e return extR e → option (list Z) with Getline => λ r, r | _ => λ _, None end.
Definition v_sent (e : ext) : extR e → option bool :=
  match e return extR e → option bool with PrintSent b => λ _, Some b | _ => λ _, None end.
Definition v_perform (e : ext) : extR e → option Z :=
  match e return extR e → option Z with CurlEasyPerform => λ r, Some r | _ => λ _, None end.
(** The answers of [curl_easy_init], and the handles cleaned up. *)
Definition v_init (e : ext) : extR e → option bool :=
  match e return extR e → option bool with CurlEasyInit => λ r, Some r | _ => λ _, None end.
Definition v_cleanup (e : ext) : extR e → option unit :=
  match e return extR e → option unit with CurlEasyCleanup => λ _, Some tt | _ => λ _, None end.
Definition v_url (e : ext) : extR e → option (list Z) :=
  match e return extR e → option (list Z) with
  | CurlSetopt o v => λ _, if bool_decide (o = "URL"%string) then Some v else None
  | _ => λ _, None
  end.
(** Spans: their start and their end. *)
Definition v_span (e : ext) : extR e → option bool :=
  match e return extR e → option bool with
  | StartSpan _ => λ _, Some true | EndSpan => λ _, Some false | _ => λ _, None end.

(** The part [t] of a history that a [post] with the result [r] leaves: without
    a handle nothing is sent; with one the last URL set is that of the request,
    the handle is closed again, and the result is that of the transfer. *)
Definition posted (url : list Z) (t : trace extR) (r : bool) : Prop :=
  view v_line t = [] ∧ view v_sent t = [] ∧
  ((view v_init t = [false] ∧ view v_cleanup t = [] ∧ view v_perform t = [] ∧ r = false) ∨
   (view v_init t = [true] ∧ view v_cleanup t = [tt] ∧ last (view v_url t) = Some url ∧
    ∃ z, view v_perform t = [z] ∧ r = (z =? CURLE_OK))).

Lemma post_wp ok ip api json t h :
  (∀ n, t ≠ OtherType n) →
  wp ok (post ip api json t)
     (λ h' o, ∃ tr r, h' = h ++ tr ∧ o = Val r ∧ posted (ip ++ api) tr r) h.
Proof.
  intros Ht. unfold post, new_Tracer, initTracer, InitInMemoryTracer, createResources, posted.
  destruct t as [| |n]; [| |by destruct (Ht n)]; cbn; intros;
    match goal with |- context [if negb ?b then _ else _] => destruct b end; cbn; intros;
    rewrite <- ?app_assoc; cbn [app]; eexists _, _; (split; [done|]; split; [done|]);
    cbn; (split; [done|]; split; [done|]); [right|left|right|left]; try done;
    (split; [done|]; split; [done|]; split; [done|]; eexists; split; done).
Qed.

(** ** A whole run *)

(** What is shown for the answers of [curl_easy_init] and the results of the
    transfers. *)
Fixpoint answers (inits : list bool) (performs : list Z) : list bool :=
  match inits, performs with
  | [], _ => []
  | false :: i, p => false :: answers i p
  | true :: i, z :: p => (z =? CURLE_OK) :: answers i p
  | true :: i, [] => []
  end.

Definition opened (inits : list bool) : nat := length (omap (λ b : bool, if b then Some tt else None) inits).

Lemma answers_app i1 p1 i2 p2 :
  length p1 = opened i1 → answers (i1 ++ i2) (p1 ++ p2) = answers i1 p1 ++ answers i2 p2.
Proof.
  unfold opened. revert p1.
  induction i1 as [|[] i1 IH]; intros p1 Hl.
  - by destruct p1.
  - destruct p1 as [|z p1]; [done|]. cbn in *. rewrite IH by lia. done.
  - cbn in *. by rewrite IH.
Qed.

(** Every line read has led to one request and one answer on the screen. *)
Definition served (h : trace extR) : Prop :=
  view v_sent h = answers (view v_init h) (view v_perform h) ∧
  length (view v_init h) = length (view v_line h) ∧
  length (view v_perform h) = opened (view v_init h) ∧
  length (view v_cleanup h) = opened (view v_init h).

(** An input of at most [n] lines. *)
Definition input_ok (n : nat) (h : trace extR) (e : ext) : extR e → Prop :=
  match e return extR e → Prop with
  | Getline => λ r, is_Some r → (length (view v_line h) < n)%nat
  | _ => λ _, True
  end.

Lemma serve_line_wp ok str h0 :
  served h0 →
  wp ok (serve_line str) (λ h o, o = Val tt ∧ served h ∧ view v_line h = view v_line h0 ++ [str])
     (h0 ++ [Ev Getline (Some str)]).
Proof.
  intros (E1 & E2 & E3 & E4). unfold serve_line. apply wp_bind.
  eapply wp_mono; [|apply post_wp]; [|intros n; by case_bool_decide].
  intros h o (tr & r & -> & -> & P1 & P2 & HP). cbn. intros [] _. split; [done|].
  unfold served. rewrite !view_app. cbn. rewrite P1, P2, E1, !app_nil_r.
  unfold opened in *. rewrite !length_app, omap_app, !length_app.
  destruct HP as [(-> & -> & -> & ->)|(-> & -> & _ & z & -> & ->)]; cbn;
    (rewrite answers_app by done; cbn; split_and!; (done || lia)).
Qed.

Lemma served_frame h e (r : extR e) :
  v_line e r = None → v_sent e r = None → v_init e r = None → v_perform e r = None →
  v_cleanup e r = None → served h → served (h ++ [Ev e r]).
Proof. unfold served. rewrite !view_snoc. intros -> -> -> -> ->. cbn. by rewrite !app_nil_r. Qed.

Lemma main_loop_wp n fuel h :
  served h → (length (view v_line h) + fuel = S n)%nat → (0 < fuel)%nat →
  wp (input_ok n) (main_loop fuel) (λ h' o, o = Val tt ∧ served h') h.
Proof.
  revert h. induction fuel as [|fuel IH]; intros h Hs Hn Hf; [lia|]. cbn [main_loop].
  apply wp_bind. cbn [wp call]. intros [str|] Hr; cbn in Hr; cbn [seq_post].
  - specialize (Hr (mk_is_Some _ _ eq_refl)). apply wp_bind.
    eapply wp_mono; [|by apply serve_line_wp]. intros h' o (-> & Hs' & E). cbn [seq_post].
    apply IH; [done| |lia]. rewrite E, length_app. cbn. lia.
  - cbn. split; [done|]. by apply served_frame.
Qed.

(** C33: the traced client ends when its input ends, after one request for every
    line: with an input of at most [n] lines [n + 1] rounds of the loop are
    enough, the program returns 0, every line is answered on the screen by the
    result of its own transfer (false without a handle), and every handle that
    was opened has been used for one transfer and cleaned up. *)
Theorem traced_client_serves n w :
  env_ok (input_ok n) w →
  let '(h, o) := run w (main (S n)) [] in o = Val 0 ∧ served h.
Proof.
  intros Hw.
  assert (wp (input_ok n) (main (S n)) (λ h o, o = Val 0 ∧ served h) []) as H.
  { unfold main. apply wp_bind. cbn [wp call]. intros [] _. cbn [seq_post]. apply wp_bind.
    eapply wp_mono; [|apply (main_loop_wp n)]; [|by apply served_frame|done|lia].
    intros h o [-> Hs]. cbn. intros [] _. split; [done|]. by apply served_frame. }
  apply (wp_run _ w) in H; [|done]. by destruct (run w (main (S n)) []).
Qed.

(** Two lines; the second transfer fails. *)
Definition two_lines : env extR := λ h e,
  match e return extR e with
  | Getline => match view v_line h with [] => Some (bs " mem ") | [_] => Some [] | _ => None end
  | CurlEasyInit => true
  | CurlEasyPerform => match view v_line h with [_] => 0 | _ => 7 end
  | _ => tt
  end.

Lemma traced_client_serves_witness :
  let '(h, o) := run two_lines (main 3) [] in o = Val 0 ∧ served h.
Proof.
  apply (traced_client_serves 2). intros h e. destruct e; cbn; try done.
  destruct (view v_line h) as [|? [|??]]; cbn; [lia|lia|]. by intros [? ?].
Defined.

(** The two lines are answered by true and false. *)
Example two_lines_answers : view v_sent (run two_lines (main 3) []).1 = [true; false].
Proof. vm_compute. reflexivity. Qed.

(** No operation sets the current span, so asking for its identifier is
    undefined on a new tracer. *)
Lemma span_id_undefined ok app ver t span_id h :
  wp ok (tr ⇐ new_Tracer app ver t; GetSpanId span_id tr) (λ _ o, ∃ s, o = Stopped s) h.
Proof.
  unfold new_Tracer, initTracer, InitInMemoryTracer, createResources.
  destruct t; cbn; intros; by eexists.
Qed.

End Jaeger.
