(* ===== verification/Sockets.v ===== *)
(** The plain TCP programs (src/sockets/socket_server.cc, socket_client.cc and
    utils.h).

    [argv] is the list of the arguments; [argv[argc]] is a null pointer.
    [inet_aton] of the client is a parameter.  Both endless loops run for a number
    of rounds, the read loop of the server has a fuel of its own. *)

From stdpp Require Import base list gmap strings.
From S2P Require Import Prelude Io Posix CLib.

Local Open Scope Z_scope.
Local Open Scope cs_scope.

Module Sockets.

Record host := { ip : list Z; port : Z }.

Definition retError (sError : string) : prog sysR Z := print [T sError] ;;; Ret (-1).

(** The port is stored in an [unsigned short]. *)
Definition getHostFromArg (argv : list (list Z)) (ipIndex portIndex : nat) : prog sysR (option host) :=
  let argc := length argv in
  if (argc <? ipIndex)%nat || (argc <? portIndex)%nat then Ret None
  else
    match argv !! ipIndex, argv !! portIndex with
    | Some a, Some p =>
        print [T "Connecting to "; B a; T ":"; B p] ;;;
        Ret (Some {| ip := a; port := u16 (atoi p) |})
    | _, _ => Halt (Undefined "argv[argc] is printed and made a string")
    end.

(** * The server *)

Definition BUF : nat := 256.
Definition reply : list Z := bs "received".

(** The read loop: [buf] is the buffer, zeroed after every message. *)
Fixpoint serve_client (fuel : nat) (client_sock : Z) (buf : list Z) : prog sysR (list Z) :=
  match fuel with
  | O => Halt OutOfFuel
  | S fuel' =>
      r ⇐ call (Read client_sock BUF);
      if 0 <? rret r then
        let buf := rdata r ++ drop (length (rdata r)) buf in
        call (Write client_sock reply) ;;;
        match cstr buf with
        | None => Halt (Undefined "buf is printed without a terminator")
        | Some s => print [T "got message :"; B s] ;;; serve_client fuel' client_sock (replicate BUF 0)
        end
      else Ret buf
  end.

(** The body of the outer loop. *)
Definition accept_round (fuel : nat) (sock : Z) (buf : list Z) : prog sysR (list Z) :=
  a ⇐ call (Accept sock);
  let client_sock := ret a.1 in
  (if client_sock <? 0 then retError "failed to create client socket" else Ret 0) ;;;
  print [T "accepted socket : "; N client_sock] ;;;
  serve_client fuel client_sock buf.

(** An error is printed and ignored: only [retError] is called, its result is
    not returned. *)
Definition report (b : bool) (msg : string) : prog sysR unit :=
  if b then retError msg ;;; Ret tt else Ret tt.

Definition deref {A} (p : option A) : prog sysR A :=
  match p with
  | Some a => Ret a
  | None => Halt (Undefined "a null pointer is dereferenced")
  end.

(** [stk] is what the stack held where [buf] is. *)
Definition server_main (argv : list (list Z)) (rounds fuel : nat) (stk : list Z) : prog sysR unit :=
  host ⇐ getHostFromArg argv 1 2;
  report (bool_decide (host = None)) "need to specify ip and port" ;;;
  s ⇐ call (Socket AF_INET SOCK_STREAM 0);
  let sock := ret s in
  report (sock <? 0) "failed to create socket" ;;;
  print [T "created socket : "; N sock] ;;;
  h ⇐ deref host;
  b ⇐ call (Bind sock (Inet {| sin_port := htons (port h); sin_addr := INADDR_ANY |}));
  report (ret b <? 0) "failed to bind socket" ;;;
  print [T "bound socket"] ;;;
  l ⇐ call (Listen sock 3);
  report (ret l =? -1) "failed to listen" ;;;
  print [T "listening..."] ;;;
  iterate rounds (accept_round fuel sock) stk ;;;
  Ret tt.

(** * The client *)

Section client.
(** [inet_aton]: the address it stores, if it does. *)
Context (inet_aton : list Z → option Z).

Definition send_round (sock : Z) (_ : unit) : prog sysR unit :=
  s ⇐ call (Send sock (bs "test") MSG_NOSIGNAL);
  (if ret s =? -1 then
     print [T "Failed to send, errno: "; N (errno s); T " "; Err (errno s)]
   else print [T "sent bytes :"; N (ret s)]) ;;;
  print [T "sent message"] ;;;
  call (Sleep 5) ;;;
  Ret tt.

(** [garbage] is the address when [inet_aton] fails; [dscp] is printed as a
    character. *)
Definition client_main (argv : list (list Z)) (rounds : nat) (garbage : Z) : prog sysR unit :=
  host ⇐ getHostFromArg argv 1 2;
  report (bool_decide (host = None)) "need to specify ip and port" ;;;
  s ⇐ call (Socket AF_INET SOCK_STREAM 0);
  let sock := ret s in
  report (sock <? 0) "failed to create socket" ;;;
  print [T "created socket : "; N sock] ;;;
  h ⇐ deref host;
  let addr := default garbage (inet_aton (ip h)) in
  let dscp := u8 (Z.shiftl 46 2) in
  o ⇐ call (Setsockopt sock IPPROTO_IP IP_TOS [dscp]);
  report (ret o <? 0) "failed to setsockopt" ;;;
  print [T "set dscp : "; B [dscp]] ;;;
  c ⇐ call (Connect sock (Inet {| sin_port := htons (port h); sin_addr := addr |}));
  report (ret c <? 0) "failed to connect socket" ;;;
  iterate rounds (send_round sock) tt.

End client.

(** * The history of the server *)

(** Every message read has been answered, on its socket and in order, and
    nothing has been closed. *)
Definition answered (h : systrace) : Prop :=
  view v_write h = (λ p, (p.1, reply)) <$> view v_read h ∧ view v_close h = [].

(** The other calls do not change it. *)
Definition quiet (e : sys) : bool :=
  match e with Read _ _ | Write _ _ | Close _ => false | _ => true end.

Lemma answered_quiet h e r : quiet e = true → answered h → answered (h ++ [Ev e r]).
Proof. unfold answered. rewrite !view_snoc. by destruct e; cbn; rewrite ?app_nil_r. Qed.

Lemma answered_no_data h fd n r : rret r ≤ 0 → answered h → answered (h ++ [Ev (Read fd n) r]).
Proof.
  unfold answered. rewrite !view_snoc. cbn. intros Hr.
  destruct (Z.ltb_spec 0 (rret r)); [lia|]. by rewrite !app_nil_r.
Qed.

Lemma answered_reply h fd n r w :
  0 < rret r → answered h → answered ((h ++ [Ev (Read fd n) r]) ++ [Ev (Write fd reply) w]).
Proof.
  unfold answered. rewrite !view_snoc. cbn. intros Hr [-> ->].
  destruct (Z.ltb_spec 0 (rret r)); [|lia]. by rewrite !app_nil_r, fmap_app.
Qed.

#[local] Hint Resolve answered_quiet answered_no_data answered_reply : cs.

Lemma report_answered ok b msg h :
  answered h → wp ok (report b msg) (λ h' o, answered h' ∧ o = Val tt) h.
Proof. unfold report, retError. destruct b; cbn; auto with cs. Qed.

Lemma serve_client_answered ok fuel fd buf h :
  answered h → wp ok (serve_client fuel fd buf) (λ h' _, answered h') h.
Proof.
  revert buf h. induction fuel as [|fuel IH]; intros buf h Hh; cbn; [done|].
  intros r _. destruct (Z.ltb_spec 0 (rret r)) as [Hr|Hr]; cbn; [|by apply answered_no_data].
  intros w _. destruct (cstr _); cbn; [|by apply answered_reply].
  intros u _. apply IH. apply answered_quiet; [done|]. by apply answered_reply.
Qed.

Lemma accept_answered ok fuel sock buf h :
  answered h → wp ok (accept_round fuel sock buf) (λ h' _, answered h') h.
Proof.
  intros Hh. unfold accept_round, retError. cbn. intros a _.
  destruct (ret a.1 <? 0); cbn; intros; apply serve_client_answered; auto 6 with cs.
Qed.

(** The calls up to the loop. *)
Ltac skip_report :=
  apply wp_bind; eapply wp_mono; [|apply report_answered; auto 10 with cs];
  intros ?h ?o [?Hh ->]; cbn [seq_post].
Ltac skip_call := apply wp_call; intros ?r _.

Lemma server_answered ok argv rounds fuel stk :
  wp ok (server_main argv rounds fuel stk) (λ h _, answered h) [].
Proof.
  assert (answered []) as H0 by done. unfold server_main, getHostFromArg. cbv zeta.
  destruct (_ || _).
  - cbn [bind]. skip_report. skip_call. skip_report. skip_call. cbn. auto 10 with cs.
  - destruct (argv !! 1%nat) as [a|]; [|done]. destruct (argv !! 2%nat) as [p|]; [|done].
    apply wp_bind. apply wp_call. intros u _. cbn [wp seq_post].
    skip_report. skip_call. skip_report. skip_call. apply wp_bind. cbn [deref wp seq_post].
    skip_call. skip_report. skip_call. skip_call. skip_report. skip_call.
    apply wp_bind. eapply wp_mono;
      [|apply (wp_iterate ok rounds (accept_round fuel (ret r)) (λ h _, answered h) (λ h _, answered h))].
    + by intros h' [?|?] Hh'.
    + intros h' st Hh'. eapply wp_mono; [|by apply accept_answered]. by intros h'' [?|?].
    + auto 10 with cs.
Qed.

(** * Theorems *)

(** Note: whatever the kernel returns, for any arguments and any number of
    connections the server has at every end of a run answered every message it
    read with one write of its reply, on the same socket and in the order of the
    messages; and it never closes a descriptor. *)
Theorem server_replies argv rounds fuel stk w :
  let h := (run w (server_main argv rounds fuel stk) []).1 in
  view v_write h = (λ p, (p.1, bs "received")) <$> view v_read h ∧ view v_close h = [].
Proof.
  apply (wp_run anything w _ (λ h _, answered h)); [done|]. apply server_answered.
Qed.

(** Without arguments both programs end in a null pointer: the error that is
    reported is not returned. *)
Example no_arguments :
  (run (small_world 0 []) (server_main [bs "server"] 1 1 []) []).2 =
    Stopped (Undefined "a null pointer is dereferenced") ∧
  (run (small_world 0 []) (client_main (λ _, None) [bs "client"] 1 0) []).2 =
    Stopped (Undefined "a null pointer is dereferenced") ∧
  (run (small_world 0 []) (server_main [bs "server"; bs "1.2.3.4"] 1 1 []) []).2 =
    Stopped (Undefined "argv[argc] is printed and made a string").
Proof. split_and!; reflexivity. Qed.

Example one_message :
  view v_write (run (small_world 0 (bs "hello"))
    (server_main [bs "server"; bs "0.0.0.0"; bs "3000"] 1 5 (replicate 256 0)) []).1
  = [(10, bs "received")].
Proof. reflexivity. Qed.

End Sockets.
