(* ===== verification/Timer.v ===== *)
(** The timers of the libcurl multi client (src/http2/libcurl_client/timer.h) as
    a machine of interleaved steps.

    [CreateTimer] builds a [Timer] in a local variable, [setTimeout] starts a
    detached thread that keeps the address of that variable ([this] of the
    capture), a copy of the timer goes into the map, and the variable is
    destroyed when [CreateTimer] returns.  The model has the objects at their
    addresses, the map with its copies, and the threads with a program counter;
    a step of the caller or of any thread is one step of the machine, and an
    access to an object that is gone ends it ([Crashed]), as does an overflow of
    the [int] that numbers the timers or of the [int] that is the delay.
    [setInterval] has a machine of its own, with one timer that stays alive. *)

From stdpp Require Import base list gmap strings.
From S2P Require Import Prelude.

Local Open Scope Z_scope.

Module Timer.

Definition CURL_TIMER_MS : Z := 2000.

Record Timer := { m_id : Z; m_clear : bool }.

(** The constructor, and [stop]. *)
Definition new_Timer (id : Z) : Timer := {| m_id := id; m_clear := false |}.
Definition stop (t : Timer) : Timer := {| m_id := m_id t; m_clear := true |}.

(** Where a thread of [setTimeout] is: before the first test,
    asleep, before the callback, finished. *)
Inductive pc := Start | Asleep | Fire | Finished.

Record thread := { this : nat; delay : Z; at_pc : pc }.

Definition at_ (t : thread) (p : pc) : thread :=
  {| this := this t; delay := delay t; at_pc := p |}.

(** The caller: outside [CreateTimer], or in it with the timer at an address. *)
Inductive caller := Idle | Creating (addr : nat).

Record machine := {
  heap : gmap nat Timer;        (* the local variables that exist *)
  m_Timers : gmap Z Timer;
  threads : list thread;
  main : caller;
  fired : list Z }.             (* the timers whose callback ran *)

Inductive result := Next (m : machine) | Crashed.

(** [m_Timers.rbegin()->first], zero for an empty map. *)
Definition last_id (m : gmap Z Timer) : Z := map_fold (λ k _ acc, Z.max k acc) 0 m.

Definition next_addr (m : machine) : nat := length (threads m).

(** The range of [int]. *)
Definition in_int (z : Z) : bool := (- 2 ^ 31 <=? z) && (z <? 2 ^ 31).

(** The thread that [setTimeout] of the timer at [addr] starts. *)
Definition setTimeout (m : machine) (addr : nat) (ms : Z) : list thread :=
  threads m ++ [{| this := addr; delay := ms; at_pc := Start |}].

(** [CreateTimer] up to the insertion: the local timer and its thread.  The number
    and the delay are computed in [int]. *)
Definition CreateTimer_begin (m : machine) : result :=
  let id := last_id (m_Timers m) in
  let addr := next_addr m in
  if in_int (id + 1) && in_int (id * 1000) && in_int (CURL_TIMER_MS + id * 1000) then
    Next {| heap := <[addr := new_Timer (id + 1)]> (heap m); m_Timers := m_Timers m;
            threads := setTimeout m addr (CURL_TIMER_MS + id * 1000);
            main := Creating addr; fired := fired m |}
  else Crashed.

(** The insertion of the copy and the return: [insert] keeps an element that
    exists. *)
Definition CreateTimer_end (m : machine) (addr : nat) : result :=
  match heap m !! addr with
  | None => Crashed
  | Some t =>
      Next {| heap := delete addr (heap m);
              m_Timers := match m_Timers m !! m_id t with
                          | None => <[m_id t := t]> (m_Timers m)
                          | Some _ => m_Timers m
                          end;
              threads := threads m; main := Idle; fired := fired m |}
  end.

(** One action of the thread [t]: a test of [m_clear], the end of its sleep with
    the second test, or the callback. *)
Definition thread_action (m : machine) (t : thread) : option (pc * list Z) :=
  match at_pc t with
  | Finished => Some (Finished, fired m)
  | p =>
      match heap m !! this t with
      | None => None
      | Some obj =>
          match p with
          | Start => Some (if m_clear obj then Finished else Asleep, fired m)
          | Asleep => Some (if m_clear obj then Finished else Fire, fired m)
          | _ => Some (Finished, fired m ++ [m_id obj])
          end
      end
  end.

Definition thread_step (m : machine) (k : nat) : option result :=
  t ← threads m !! k;
  Some match thread_action m t with
       | None => Crashed
       | Some (p, f) =>
           Next {| heap := heap m; m_Timers := m_Timers m;
                   threads := <[k := at_ t p]> (threads m); main := main m; fired := f |}
       end.

(** [stop] of a timer of the map. *)
Definition stop_timer (m : machine) (id : Z) : machine :=
  {| heap := heap m; m_Timers := alter stop id (m_Timers m); threads := threads m;
     main := main m; fired := fired m |}.

Definition init : machine :=
  {| heap := ∅; m_Timers := ∅; threads := []; main := Idle; fired := [] |}.

(** * Steps *)

Inductive step : machine → result → Prop :=
  | step_begin m : main m = Idle → step m (CreateTimer_begin m)
  | step_end m addr : main m = Creating addr → step m (CreateTimer_end m addr)
  | step_thread m k r : thread_step m k = Some r → step m r
  | step_stop m id : step m (Next (stop_timer m id)).

Inductive reach : machine → Prop :=
  | reach_init : reach init
  | reach_step m m' : reach m → step m (Next m') → reach m'.

(** * The invariant *)

Lemma last_id_spec m :
  0 ≤ last_id m ∧ (∀ k, is_Some (m !! k) → k ≤ last_id m) ∧
  (last_id m = 0 ∨ is_Some (m !! last_id m)).
Proof.
  unfold last_id.
  apply (map_fold_weak_ind (λ acc m, 0 ≤ acc ∧ (∀ k, is_Some (m !! k) → k ≤ acc) ∧
    (acc = 0 ∨ is_Some (m !! acc)))).
  - split_and!; [lia| |by left]. intros k [x Hx]. by rewrite lookup_empty in Hx.
  - intros k x m' acc Hk (H0 & H1 & H2). split_and!; [lia| |].
    + intros k' [y [[<- _]|[_ Hy]]%lookup_insert_Some]; [lia|].
      etrans; [apply H1; eauto|lia].
    + destruct (Z.max_spec k acc) as [[Hlt ->]|[Hle ->]].
      * destruct H2 as [->|H2]; [by left|right]. by rewrite lookup_insert_ne by lia.
      * right. rewrite lookup_insert_eq. eauto.
Qed.

(** How many calls of [CreateTimer] have returned. *)
Definition created (m : machine) : Z :=
  Z.of_nat (length (threads m)) - match main m with Idle => 0 | Creating _ => 1 end.

Record inv (m : machine) : Prop := {
  i_heap : match main m with
           | Idle => heap m = ∅
           | Creating a => S a = length (threads m) ∧ heap m = {[a := new_Timer (created m + 1)]}
           end;
  i_keys k : is_Some (m_Timers m !! k) ↔ 1 ≤ k ≤ created m;
  i_ids k t : m_Timers m !! k = Some t → m_id t = k;
  i_threads k t : threads m !! k = Some t → this t = k ∧ delay t = 2000 + 1000 * Z.of_nat k ∧ delay t < 2 ^ 31;
  i_nonneg : 0 ≤ created m }.

Lemma inv_last m : inv m → last_id (m_Timers m) = created m.
Proof.
  intros [_ Hk _ _ Hn]. destruct (last_id_spec (m_Timers m)) as (H0 & H1 & H2).
  assert (last_id (m_Timers m) ≤ created m) by (destruct H2 as [->|H2]; [lia|apply Hk in H2; lia]).
  destruct (Z.eq_dec (created m) 0); [lia|].
  assert (created m ≤ last_id (m_Timers m)) by (apply H1, Hk; lia). lia.
Qed.

Lemma inv_begin m m' : inv m → main m = Idle → CreateTimer_begin m = Next m' → inv m'.
Proof.
  intros Hi Hm. unfold CreateTimer_begin. destruct (_ && _) eqn:Hint; [|done]. intros [= <-].
  assert (CURL_TIMER_MS + last_id (m_Timers m) * 1000 < 2 ^ 31) as Hd
    by (unfold in_int in Hint; lia). clear Hint. pose proof (inv_last m Hi) as Hl. destruct Hi as [H1 H2 H3 H4 H5]. rewrite Hm in H1.
  assert (created m = Z.of_nat (length (threads m))) as Hc by (unfold created; rewrite Hm; lia).
  set (m' := {| heap := _; m_Timers := _; threads := _; main := _; fired := _ |}).
  assert (created m' = created m) as Hc'.
  { unfold created at 1. cbn. unfold setTimeout. rewrite length_app. cbn. lia. }
  split; rewrite ?Hc'; try done.
  - cbn. unfold setTimeout, next_addr. rewrite length_app. cbn. split; [lia|].
    rewrite H1, Hl. by rewrite insert_empty.
  - cbn. unfold setTimeout. intros k t [Hk|[Hk Ht]]%lookup_app_Some; [by apply H4|].
    apply list_lookup_singleton_Some in Ht as [Hz <-]. cbn. unfold next_addr, CURL_TIMER_MS in *. split_and!; lia.
Qed.

Lemma inv_end m a m' : inv m → main m = Creating a → CreateTimer_end m a = Next m' → inv m'.
Proof.
  intros [H1 H2 H3 H4 H5] Hm. rewrite Hm in H1. destruct H1 as [Ha Hh].
  unfold CreateTimer_end. rewrite Hh, lookup_singleton_eq. intros [= <-].
  assert (m_Timers m !! (created m + 1) = None) as Hn.
  { apply eq_None_not_Some. rewrite H2. lia. }
  assert (Z.of_nat (length (threads m)) = created m + 1) as Hc by (unfold created; rewrite Hm; lia).
  cbn [m_id new_Timer]. rewrite Hn. generalize dependent (created m). intros n.
  intros. split; unfold created; cbn [main threads m_Timers heap]; rewrite ?Hc, ?Z.sub_0_r.
  - apply delete_singleton_eq.
  - intros k. destruct (decide (k = n + 1)) as [->|Hk].
    + rewrite lookup_insert_eq. split; [lia|eauto].
    + rewrite lookup_insert_ne, H2 by done. lia.
  - intros k t [[<- <-]|[_ Ht]]%lookup_insert_Some; [done|by apply H3].
  - exact H4.
  - lia.
Qed.

(** A thread step changes only the program counter and what has fired. *)
Lemma inv_thread m k m' : inv m → thread_step m k = Some (Next m') → inv m'.
Proof.
  intros [H1 H2 H3 H4 H5]. unfold thread_step.
  destruct (threads m !! k) as [t|] eqn:Ht; [|done]. cbn.
  destruct (thread_action m t) as [[p f]|]; [|done]. intros [= <-].
  split; unfold created; cbn [main threads m_Timers heap]; rewrite ?length_insert; try done.
  intros j t' [(<- & <- & _)|[_ Hj]]%list_lookup_insert_Some; [|by apply H4].
  by apply H4 in Ht.
Qed.

Lemma inv_stop m id : inv m → inv (stop_timer m id).
Proof.
  intros [H1 H2 H3 H4 H5]. split; try done.
  - intros k. cbn. rewrite <- H2. destruct (decide (id = k)) as [->|].
    + rewrite lookup_alter_eq. by rewrite fmap_is_Some.
    + by rewrite lookup_alter_ne by done.
  - intros k t. cbn. destruct (decide (id = k)) as [->|].
    + rewrite lookup_alter_eq. intros (t' & Ht & ->)%fmap_Some. cbn. by apply H3.
    + rewrite lookup_alter_ne by done. apply H3.
Qed.

Lemma inv_reach m : reach m → inv m.
Proof.
  induction 1 as [|m m' _ Hi Hs].
  - split; try done. intros k. cbn. rewrite lookup_empty. unfold created. cbn. split; [by intros [? ?]|lia].
  - inversion Hs; subst; eauto using inv_begin, inv_end, inv_thread, inv_stop.
Qed.

(** * Theorems *)

(** C34: in every interleaving, as long as the [int] arithmetic has not overflowed,
    after the n-th call of [CreateTimer] has returned the map has exactly the
    timers 1 to n, each under its own number, and the thread of the i-th timer
    (counted from zero) sleeps 2000 + 1000 i milliseconds, which is below 2^31. *)
Theorem timer_numbers m :
  reach m → main m = Idle →
  (∀ k, (∃ t, m_Timers m !! k = Some t ∧ m_id t = k) ↔ 1 ≤ k ≤ Z.of_nat (length (threads m))) ∧
  (∀ i t, threads m !! i = Some t →
     delay t = CURL_TIMER_MS + 1000 * Z.of_nat i ∧ delay t < 2 ^ 31).
Proof.
  intros [_ H2 H3 H4 _]%inv_reach Hm. unfold created in H2. rewrite Hm in H2. split.
  - intros k. rewrite <- (Z.sub_0_r (Z.of_nat _)), <- H2. split; [intros (t & -> & _); eauto|].
    intros [t Ht]. exists t. split; [done|by apply H3].
  - intros i t Ht. by apply H4.
Qed.

(** A whole call of [CreateTimer], without a step of a thread in between. *)
Definition CreateTimer (m : machine) : result :=
  match CreateTimer_begin m with
  | Next m' => CreateTimer_end m' (next_addr m)
  | Crashed => Crashed
  end.

Lemma create_next m m' :
  reach m → main m = Idle → CreateTimer m = Next m' →
  reach m' ∧ main m' = Idle ∧ length (threads m') = S (length (threads m)).
Proof.
  intros Hr Hm. unfold CreateTimer. destruct (CreateTimer_begin m) as [m1|] eqn:E; [|done].
  assert (reach m1) as Hr1 by (eapply reach_step; [exact Hr|]; rewrite <- E; by apply step_begin).
  unfold CreateTimer_begin in E. destruct (_ && _); [|done]. injection E as <-. intros E.
  split; [eapply reach_step; [exact Hr1|]; rewrite <- E; by apply step_end|].
  unfold CreateTimer_end in E. cbn in E. rewrite lookup_insert_eq in E. injection E as <-. cbn.
  split; [done|]. unfold setTimeout. rewrite length_app. cbn. lia.
Qed.

(** Without an overflow it returns. *)
Lemma create_total m :
  reach m → main m = Idle → Z.of_nat (length (threads m)) < 2 ^ 21 → ∃ m', CreateTimer m = Next m'.
Proof.
  intros Hi%inv_reach Hm Hl. pose proof (inv_last m Hi) as Hc. destruct Hi as [_ _ _ _ Hn].
  unfold created in *. rewrite Hm in *.
  unfold CreateTimer, CreateTimer_begin, in_int, CURL_TIMER_MS. rewrite Hc.
  replace (_ && _) with true by lia. unfold CreateTimer_end. cbn. rewrite lookup_insert_eq. eauto.
Qed.

(** Two timers. *)
Definition two_timers : machine :=
  match CreateTimer init with
  | Next m => match CreateTimer m with Next m' => m' | Crashed => init end
  | Crashed => init
  end.

Lemma two_timers_reach : reach two_timers.
Proof.
  unfold two_timers. destruct (CreateTimer init) as [m|] eqn:E; [|constructor].
  apply create_next in E as (Hr & Hm & _); [|constructor|done].
  destruct (CreateTimer m) as [m'|] eqn:E'; [|constructor]. by apply create_next in E' as (? & _).
Qed.

Lemma timer_numbers_witness :
  ∃ t, m_Timers two_timers !! 2 = Some t ∧ m_id t = 2.
Proof.
  apply (timer_numbers two_timers); [apply two_timers_reach|vm_compute; reflexivity|].
  split; [discriminate|]. vm_compute. discriminate.
Defined.

(** C38: a timer that has been created can no longer fire: when [CreateTimer] has
    returned, the next action of every thread that is not finished reads the
    local variable that is gone, and stopping a timer of the map does not change
    that, because the thread does not look at the copy. *)
Theorem timer_dangling m k t id :
  reach m → main m = Idle → threads m !! k = Some t → at_pc t ≠ Finished →
  thread_step m k = Some Crashed ∧ thread_step (stop_timer m id) k = Some Crashed.
Proof.
  intros [H1 _ _ _ _]%inv_reach Hm Ht Hp. rewrite Hm in H1.
  assert (∀ m', heap m' = ∅ → threads m' = threads m → thread_step m' k = Some Crashed) as Ha.
  { intros m' Hh Hth. unfold thread_step. rewrite Hth, Ht. cbn. unfold thread_action.
    rewrite Hh, lookup_empty. by destruct (at_pc t). }
  split; by apply Ha.
Qed.

Lemma timer_dangling_witness :
  thread_step two_timers 0 = Some Crashed ∧ thread_step (stop_timer two_timers 1) 0 = Some Crashed.
Proof.
  apply (timer_dangling two_timers 0 {| this := 0; delay := 2000; at_pc := Start |} 1);
    [apply two_timers_reach|vm_compute; reflexivity..|discriminate].
Defined.

(** A thread that runs while its timer is still there fires. *)
Example fires_inside :
  let next (r : option result) := match r with Some (Next m) => thread_step m 0 | _ => None end in
  match next (next (next (Some (CreateTimer_begin init)))) with
  | Some (Next m) => fired m = [1]
  | _ => False
  end.
Proof. reflexivity. Qed.

(** * setInterval

    A timer that stays alive, with the thread of [setInterval]; nothing in the
    repository calls it.  A callback returns, is empty, or throws. *)

Inductive call_result := Returns | BadFunctionCall | Throws.

(** What [TRY_TIMER_CB] prints. *)
Definition TRY_TIMER_CB (r : call_result) : list string :=
  match r with
  | Returns => []
  | BadFunctionCall => ["timer callback, std::bad_function_call"%string]
  | Throws => ["timer callback, unhandled exceptin"%string]
  end.

(** The object, its thread, the numbers it has printed and the errors. *)
Record interval := { obj : Timer; ipc : pc; ticks : list Z; errors : list string }.

Definition setInterval (t : Timer) : interval :=
  {| obj := {| m_id := m_id t; m_clear := false |}; ipc := Start; ticks := []; errors := [] |}.

(** The next action of the thread; [r] is what the callback does in it. *)
Definition interval_step (i : interval) (r : call_result) : interval :=
  let goto p := {| obj := obj i; ipc := p; ticks := ticks i; errors := errors i |} in
  match ipc i with
  | Start => goto (if m_clear (obj i) then Finished else Asleep)
  | Asleep => goto (if m_clear (obj i) then Finished else Fire)
  | Fire => {| obj := obj i; ipc := Start; ticks := ticks i ++ [m_id (obj i)];
               errors := errors i ++ TRY_TIMER_CB r |}
  | Finished => i
  end.

(** A schedule: actions of the thread and calls of [stop]. *)
Inductive act := Act (r : call_result) | Stop.

Definition interval_act (i : interval) (a : act) : interval :=
  match a with
  | Act r => interval_step i r
  | Stop => {| obj := stop (obj i); ipc := ipc i; ticks := ticks i; errors := errors i |}
  end.

Definition interval_run : interval → list act → interval := foldl interval_act.

Definition is_act (a : act) : option unit := match a with Act _ => Some tt | Stop => None end.

(** How many actions a stopped thread has left, and whether one is a callback. *)
Definition left (p : pc) : nat := match p with Fire => 2 | Finished => 0 | _ => 1 end.
Definition owed (p : pc) : nat := match p with Fire => 1 | _ => 0 end.

Lemma interval_stopped i ls :
  m_clear (obj i) = true →
  (length (ticks (interval_run i ls)) + owed (ipc (interval_run i ls)) ≤
   length (ticks i) + owed (ipc i))%nat ∧
  (left (ipc i) ≤ length (omap is_act ls) → ipc (interval_run i ls) = Finished)%nat.
Proof.
  revert i. induction ls as [|a ls IH]; intros i Hc.
  - cbn. split; [lia|]. destruct (ipc i); cbn; (done || lia).
  - cbn [interval_run foldl]. destruct (IH (interval_act i a)) as [H1 H2].
    { destruct a; cbn; [|done]. unfold interval_step. by destruct (ipc i). }
    destruct a as [r|]; cbn in *; [|auto].
    unfold interval_step in *. rewrite Hc in *.
    destruct (ipc i) eqn:E; cbn in *; rewrite ?length_app, ?E in *; cbn in *;
      (split; [lia|intros; apply H2; lia]).
Qed.

(** [stop] works on a timer that is alive: whatever ran before it and however
    the callbacks end, at most one more callback runs after it, and the thread
    ends within two actions of its own. *)
Lemma interval_stop t before after :
  let i := interval_run (setInterval t) (before ++ [Stop]) in
  let i' := interval_run i after in
  (length (ticks i') ≤ length (ticks i) + 1)%nat ∧
  (2 ≤ length (omap is_act after) → ipc i' = Finished)%nat.
Proof.
  cbv zeta. set (i := interval_run _ (before ++ [Stop])).
  assert (m_clear (obj i) = true) as Hc by (unfold i, interval_run; by rewrite foldl_app).
  destruct (interval_stopped i after Hc) as [H1 H2].
  split; [|intros; apply H2]; destruct (ipc i); cbn in *; lia.
Qed.

End Timer.
