(* ===== verification/CurlClients.v ===== *)
(** The two libcurl clients (src/http2/libcurl_client/http2_easy_client.cc,
    http2_multi_client.cc and CurlMultiInterface.h).

    libcurl is on the other side of [Io.prog].  It calls back into the program:
    a transfer is a loop in which the library asks for one step at a time, either
    a call of the socket callback or the end of the transfer, and adding a handle
    to a multi handle answers with the timeouts it reports to the timer callback.
    The [int] objects of the easy client live in an explicit heap; the timers of
    the multi client are those of [Timer]. *)

From stdpp Require Import base list gmap strings.
From S2P Require Import Prelude Io Posix Timer.

Local Open Scope Z_scope.
Local Open Scope cs_scope.

Module CurlClients.

Definition CURLE_OK : Z := 0.
Definition CURLM_OK : Z := 0.

(** The next thing a transfer does. *)
Inductive progress :=
  | SockOpt (curlfd : Z)     (* the socket callback is called *)
  | Done (code : Z).         (* the transfer ends *)

Inductive ext :=
  | GlobalInit
  | GlobalCleanup
  | EasyInit
  | EasySetopt (option : string) (value : list Z)
  | EasyPerform                        (* one step of the transfer *)
  | EasyCleanup
  | SetTos (fd : Z) (value : Z)        (* setsockopt IP_TOS with an int *)
  | MultiInit
  | MultiSetopt (option : string)
  | MultiAddHandle                     (* the timeouts reported *)
  | MultiSocketAction
  | Say (l : list item)
  | Pause (seconds : Z).

Definition extR (e : ext) : Type :=
  match e with
  | EasyInit => bool                   (* false: a null handle *)
  | EasyPerform => progress
  | SetTos _ _ => Z
  | MultiAddHandle => list Z
  | MultiSocketAction => Z
  | _ => unit
  end.

Definition say (l : list item) : prog extR unit := call (Say l).

(** * The easy client *)

(** The [int] objects made with [new]. *)
Abbreviation heap := (gmap nat Z).

Definition new_int (hp : heap) (v : Z) : nat * heap :=
  let p := fresh (dom hp) in (p, <[p := v]> hp).

Definition sockopt_callback (hp : heap) (dscp : nat) (curlfd : Z) : prog extR (heap * Z) :=
  match hp !! dscp with
  | None => Halt (Undefined "a deleted int is read")
  | Some v =>
      r ⇐ call (SetTos curlfd v);
      let ret := if r =? -1 then -1 else 0 in
      Ret (delete dscp hp, ret)
  end.

(** [curl_easy_perform] with the callback [sockopt_callback] on [dscp]. *)
Fixpoint easy_perform (fuel : nat) (hp : heap) (dscp : nat) : prog extR (heap * Z) :=
  match fuel with
  | O => Halt OutOfFuel
  | S fuel' =>
      s ⇐ call EasyPerform;
      match s with
      | Done code => Ret (hp, code)
      | SockOpt curlfd =>
          r ⇐ sockopt_callback hp dscp curlfd;
          easy_perform fuel' r.1 dscp
      end
  end.

Definition http2POST (fuel : nat) (hp : heap) (ip api json : list Z) (dscp : nat)
    : prog extR (heap * bool) :=
  hnd ⇐ call EasyInit;
  if negb hnd then Ret (hp, false)
  else
    call (EasySetopt "URL" (bs "http://localhost:8344")) ;;;
    call (EasySetopt "HTTP_VERSION" (bs "2_PRIOR_KNOWLEDGE")) ;;;
    call (EasySetopt "SSL_VERIFYPEER" (bs "0")) ;;;
    call (EasySetopt "SSL_VERIFYHOST" (bs "0")) ;;;
    call (EasySetopt "DEBUGFUNCTION" (bs "my_trace")) ;;;
    call (EasySetopt "HTTP2_SOCKOPTFUNCTION" (bs "sockopt_callback")) ;;;
    call (EasySetopt "HTTP2_SOCKOPTDATA" (le 8 (Z.of_nat dscp))) ;;;
    call (EasySetopt "URL" (ip ++ api)) ;;;
    call (EasySetopt "POSTFIELDS" json) ;;;
    r ⇐ easy_perform fuel hp dscp;
    let ret := r.2 =? CURLE_OK in
    call EasyCleanup ;;;
    Ret (r.1, ret).

(** The body of a request; the source escapes the n of the first name. *)
Definition json (name : list Z) : list Z :=
  123 :: 10 :: bs "ame" ++ [34] ++ bs " : " ++ [34] ++ name ++ [34; 125].

(** One request and its message. *)
Definition post_test (fuel : nat) (server name : list Z) (hp : heap) (dscp : nat)
    : prog extR heap :=
  r ⇐ http2POST fuel hp server name (json name) dscp;
  (if negb r.2 then say [T "Failed "; B name] else Ret tt) ;;;
  Ret r.1.

(** The body of [while(true)]. *)
Definition easy_round (fuel : nat) (server : list Z) (hp : heap) : prog extR heap :=
  let '(dscp1, hp) := new_int hp 46 in
  let '(dscp2, hp) := new_int hp 12 in
  let '(dscp3, hp) := new_int hp 0 in
  hp ⇐ post_test fuel server (bs "test1") hp dscp1;
  hp ⇐ post_test fuel server (bs "test2") hp dscp2;
  hp ⇐ post_test fuel server (bs "test3") hp dscp3;
  call (Pause 5) ;;;
  say [T "***********************"] ;;;
  say [T "sent to localhost:3000"] ;;;
  say [T "***********************"] ;;;
  Ret hp.

(** The server of the second argument, if there is one. *)
Definition server_ip (argv : list (list Z)) : list Z :=
  match argv with
  | _ :: _ :: a :: _ => a
  | _ => bs "http://localhost:3000/"
  end.

Definition easy_main (argv : list (list Z)) (rounds fuel : nat) : prog extR heap :=
  let sServerIP := server_ip argv in
  call GlobalInit ;;;
  iterate rounds (easy_round fuel sServerIP) ∅.

(** * The multi client *)

Definition CNT : nat := 4.

(** The static members of [CurlMulti]: whether there is an instance and a
    handle, and the timer manager. *)
Record multi := { m_instance : bool; m_handle : bool; m_timerManager : Timer.machine }.

Definition GetInstance (st : multi) : multi :=
  if m_instance st then st
  else {| m_instance := true; m_handle := m_handle st; m_timerManager := Timer.init |}.

Definition setHandle (st : multi) : multi :=
  {| m_instance := m_instance st; m_handle := true; m_timerManager := m_timerManager st |}.

(** The timeout is not looked at; [None] when the arithmetic of [CreateTimer]
    overflows. *)
Definition CurlTimerCallback (st : multi) (timeout_ms : Z) : option (multi * Z) :=
  let st := GetInstance st in
  match Timer.CreateTimer (m_timerManager st) with
  | Timer.Next m =>
      Some ({| m_instance := m_instance st; m_handle := m_handle st; m_timerManager := m |}, CURLM_OK)
  | Timer.Crashed => None
  end.

(** The calls of the timer callback while a handle is added. *)
Fixpoint timer_callbacks (st : multi) (timeouts : list Z) : option multi :=
  match timeouts with
  | [] => Some st
  | ms :: timeouts' => r ← CurlTimerCallback st ms; timer_callbacks r.1 timeouts'
  end.

Definition timerTriggered : prog extR unit :=
  say [T "Hit timerTriggered"] ;;;
  rc ⇐ call MultiSocketAction;
  if negb (rc =? CURLM_OK) then say [T "curl_multi_socket_action error : "; N rc] else Ret tt.

Definition CurlSocketCallback : Z := CURLM_OK.

(** [http2POST] of the multi client: while the handle is added, libcurl calls
    the timer callback. *)
Definition multi_post (js : list Z) (st : multi) : prog extR multi :=
  call EasyInit ;;;
  call (EasySetopt "WRITEFUNCTION" (bs "write_callback")) ;;;
  call (EasySetopt "HEADER" (bs "0")) ;;;
  call (EasySetopt "URL" (bs "http://localhost:3000/test1")) ;;;
  call (EasySetopt "PRIVATE" (bs "http://localhost:3000/test1")) ;;;
  call (EasySetopt "HTTP_VERSION" (bs "2_PRIOR_KNOWLEDGE")) ;;;
  call (EasySetopt "POSTFIELDS" js) ;;;
  call (EasySetopt "VERBOSE" (bs "1")) ;;;
  call (EasySetopt "DEBUGFUNCTION" (bs "my_trace")) ;;;
  timeouts ⇐ call MultiAddHandle;
  match timer_callbacks st timeouts with
  | Some st => Ret st
  | None => Halt (Undefined "signed overflow")
  end.

Definition multi_main : prog extR (multi * Z) :=
  call GlobalInit ;;;
  call MultiInit ;;;
  let st := {| m_instance := false; m_handle := false; m_timerManager := Timer.init |} in
  let st := setHandle (GetInstance st) in
  call (MultiSetopt "TIMERFUNCTION") ;;;
  call (MultiSetopt "TIMERDATA") ;;;
  st ⇐ iterate CNT (multi_post (json (bs "test1"))) st;
  Ret (st, 0).

(** ** What a history says *)

(** The values the socket callback sets, with the socket. *)
Definition v_tos (e : ext) : extR e → option (Z * Z) :=
  match e return extR e → option (Z * Z) with SetTos fd v => λ _, Some (fd, v) | _ => λ _, None end.
Definition v_action (e : ext) : extR e → option Z :=
  match e return extR e → option Z with MultiSocketAction => λ r, Some r | _ => λ _, None end.
Definition v_timeouts (e : ext) : extR e → option (list Z) :=
  match e return extR e → option (list Z) with MultiAddHandle => λ r, Some r | _ => λ _, None end.

(** The requests, each with the sockets its callback was called for. *)
Definition group (gs : list (list Z)) (ev : event extR) : list (list Z) :=
  match ev with
  | Ev e r =>
      match e return extR e → list (list Z) with
      | EasyInit => λ _, gs ++ [[]]
      | EasyPerform => λ r,
          match r with
          | SockOpt fd =>
              match last gs with
              | Some g => take (length gs - 1) gs ++ [g ++ [fd]]
              | None => gs
              end
          | Done _ => gs
          end
      | _ => λ _, gs
      end r
  end.
Definition groups (h : trace extR) : list (list Z) := foldl group [] h.

Lemma groups_snoc h ev : groups (h ++ [ev]) = group (groups h) ev.
Proof. unfold groups. by rewrite foldl_app. Qed.

#[local] Hint Rewrite groups_snoc : cs.

(** Calls that are neither a request, a step of a transfer nor the callback's. *)
Definition plain (e : ext) : bool :=
  match e with EasyInit | EasyPerform | SetTos _ _ => false | _ => true end.

(** A history with the requests [gs] and the values [tos]. *)
Definition so_far (h : trace extR) (gs : list (list Z)) (tos : list (Z * Z)) : Prop :=
  groups h = gs ∧ view v_tos h = tos.

Lemma far_plain h gs tos e r : plain e = true → so_far h gs tos → so_far (h ++ [Ev e r]) gs tos.
Proof.
  intros He [H1 H2]. unfold so_far. autorewrite with cs. rewrite H1, H2.
  by destruct e; cbn in *; rewrite ?app_nil_r.
Qed.

Lemma far_init h gs tos r : so_far h gs tos → so_far (h ++ [Ev EasyInit r]) (gs ++ [[]]) tos.
Proof. intros [H1 H2]. unfold so_far. autorewrite with cs. rewrite H1, H2. by cbn; rewrite app_nil_r. Qed.

Lemma far_done h gs tos c : so_far h gs tos → so_far (h ++ [Ev EasyPerform (Done c)]) gs tos.
Proof. intros [H1 H2]. unfold so_far. autorewrite with cs. rewrite H1, H2. by cbn; rewrite app_nil_r. Qed.

Lemma far_socket h gs g tos fd :
  so_far h (gs ++ [g]) tos → so_far (h ++ [Ev EasyPerform (SockOpt fd)]) (gs ++ [g ++ [fd]]) tos.
Proof.
  intros [H1 H2]. unfold so_far. autorewrite with cs. rewrite H1, H2. cbn.
  rewrite last_snoc, length_app, take_app_length', app_nil_r by (cbn; lia). done.
Qed.

Lemma far_tos h gs tos fd v r :
  so_far h gs tos → so_far (h ++ [Ev (SetTos fd v) r]) gs (tos ++ [(fd, v)]).
Proof. intros [H1 H2]. unfold so_far. autorewrite with cs. by rewrite H1, H2. Qed.

(** What a request leaves: its callback ran for at most one socket, which got the
    value, and then the object is gone; a second call reads it again. *)
Definition request_post (gs : list (list Z)) (tos : list (Z * Z)) (hp : heap) (dscp : nat) (v : Z)
    (h' : trace extR) (o : outcome heap) : Prop :=
  match o with
  | Val hp' => ∃ g, (length g ≤ 1)%nat ∧ so_far h' (gs ++ [g]) (tos ++ ((., v) <$> g)) ∧
                    hp' = (if g is [] then hp else delete dscp hp)
  | Stopped s => ∃ fd fd', s = Undefined "a deleted int is read" ∧
                           so_far h' (gs ++ [[fd; fd']]) (tos ++ [(fd, v)])
  end.

Definition first {A B} (o : outcome (A * B)) : outcome A :=
  match o with Val x => Val x.1 | Stopped s => Stopped s end.

(** The second step of a transfer whose callback has run. *)
Lemma perform_again ok fuel hp dscp v gs tos fd h :
  so_far h (gs ++ [[fd]]) (tos ++ [(fd, v)]) →
  wp ok (easy_perform (S fuel) (delete dscp hp) dscp)
     (λ h' o, request_post gs tos hp dscp v h' (first o)) h.
Proof.
  intros Hh. cbn [easy_perform]. apply wp_call. intros [fd'|code] _.
  - unfold sockopt_callback. rewrite lookup_delete_eq. cbn. exists fd, fd'. split; [done|].
    by apply (far_socket _ _ [fd]).
  - cbn. exists [fd]. split_and!; [done| |done]. by apply far_done.
Qed.

Lemma perform_wp ok fuel hp dscp v gs tos h :
  so_far h (gs ++ [[]]) tos → hp !! dscp = Some v →
  wp ok (easy_perform (S (S fuel)) hp dscp) (λ h' o, request_post gs tos hp dscp v h' (first o)) h.
Proof.
  intros Hh Hv. change (easy_perform (S (S fuel)) hp dscp) with
    (s ⇐ call EasyPerform; match s with
      | Done code => Ret (hp, code)
      | SockOpt curlfd => r ⇐ sockopt_callback hp dscp curlfd; easy_perform (S fuel) r.1 dscp
      end).
  apply wp_call. intros [fd|code] _.
  - apply wp_bind. unfold sockopt_callback. rewrite Hv. apply wp_call. intros r _.
    cbn [wp seq_post fst]. apply (perform_again _ _ _ _ v gs tos fd), far_tos. by apply (far_socket _ _ []).
  - exists []. cbn. rewrite app_nil_r. split_and!; [lia| |done]. by apply far_done.
Qed.

(** Skip a call that the requests do not depend on. *)
Ltac skip_plain := apply wp_call; intros ?r _.
Ltac far := repeat (apply far_plain; [reflexivity|]).

Lemma http2POST_wp ok fuel hp ip api js dscp v gs tos h :
  so_far h gs tos → hp !! dscp = Some v →
  wp ok (http2POST (S (S fuel)) hp ip api js dscp)
     (λ h' o, request_post gs tos hp dscp v h' (first o)) h.
Proof.
  intros Hh Hv. unfold http2POST. apply wp_call. intros hnd _. destruct hnd; cbn [negb].
  - do 9 skip_plain. apply wp_bind.
    eapply wp_mono; [|apply (perform_wp _ _ _ _ v gs tos); [far; by apply far_init|done]].
    intros h' [[hp' code]|s] Hp; [|done].
    cbn in Hp. destruct Hp as (g & Hg & Hf & ->). cbn [seq_post first fst].
    skip_plain. exists g. split_and!; [done|by far|done].
  - exists []. cbn. rewrite app_nil_r. split_and!; [lia|by apply far_init|done].
Qed.

Lemma post_test_wp ok fuel server name hp dscp v gs tos h :
  so_far h gs tos → hp !! dscp = Some v →
  wp ok (post_test (S (S fuel)) server name hp dscp) (request_post gs tos hp dscp v) h.
Proof.
  intros Hh Hv. unfold post_test. apply wp_bind.
  eapply wp_mono; [|by apply (http2POST_wp _ _ _ _ _ _ _ v gs tos)]. intros h' [[hp' b]|s] Hp; [|done].
  cbn in Hp. destruct Hp as (g & Hg & Hf & ->). cbn [seq_post snd fst]. unfold say.
  destruct b; cbn [negb]; [|skip_plain]; exists g; (split_and!; [done|by far|done]).
Qed.

(** What the requests [gs] for the values [vs] set, and the values of the objects
    they leave. *)
Definition sets (v : Z) (g : list Z) : list (Z * Z) := (., v) <$> g.
Definition leaves (v : Z) (g : list Z) : list Z := if g is [] then [v] else [].
Definition all_set (vs : list Z) (gs : list (list Z)) : list (Z * Z) := concat (zip_with sets vs gs).
Definition all_left (vs : list Z) (gs : list (list Z)) : list Z := concat (zip_with leaves vs gs).
Definition held (hp : heap) : list Z := (map_to_list hp).*2.

(** [n] requests for [vs] are done, and the objects of the values [pend] wait. *)
Record balanced (vs pend : list Z) (h : trace extR) (hp : heap) : Prop := {
  b_far : so_far h (groups h) (all_set vs (groups h));
  b_len : length vs = length (groups h);
  b_one : Forall (λ g, length g ≤ 1)%nat (groups h);
  b_held : held hp ≡ₚ all_left vs (groups h) ++ pend }.

(** How the loop stops early. *)
Definition stopped (h : trace extR) (s : stop) : Prop :=
  s = Undefined "a deleted int is read" ∧
  ∃ gs fd fd', groups h = gs ++ [[fd; fd']] ∧ Forall (λ g, length g ≤ 1)%nat gs.

Lemma zip_with_snoc {A B C} (f : A → B → C) l k x y :
  length l = length k → zip_with f (l ++ [x]) (k ++ [y]) = zip_with f l k ++ [f x y].
Proof. intros Hl. by rewrite zip_with_app. Qed.

Lemma held_insert hp p v : hp !! p = None → held (<[p := v]> hp) ≡ₚ v :: held hp.
Proof. intros Hp. unfold held. by rewrite map_to_list_insert. Qed.

Lemma held_delete hp p v : hp !! p = Some v → held hp ≡ₚ v :: held (delete p hp).
Proof. intros Hp. unfold held. by rewrite <- (map_to_list_delete hp p v) by done. Qed.

(** One request. *)
Lemma balanced_step ok fuel server name hp dscp v vs pend h Q :
  balanced vs (v :: pend) h hp → hp !! dscp = Some v →
  (∀ h' hp', balanced (vs ++ [v]) pend h' hp' → (∀ p, p ≠ dscp → hp' !! p = hp !! p) →
     Q h' (Val hp')) →
  (∀ h' s, stopped h' s → Q h' (Stopped s)) →
  wp ok (post_test (S (S fuel)) server name hp dscp) Q h.
Proof.
  intros [Hf Hl Ho Hh] Hv HV HS.
  eapply wp_mono; [|by apply (post_test_wp _ _ _ _ _ _ v (groups h) (all_set vs (groups h)))].
  intros h' [hp'|s] Hp; cbn in Hp.
  - destruct Hp as (g & Hg & [Eg Et] & ->). apply HV.
    + split; rewrite ?Eg.
      * split; [done|]. rewrite Et. unfold all_set. rewrite zip_with_snoc, concat_app by done.
        cbn. by rewrite app_nil_r.
      * rewrite !length_app. cbn. lia.
      * by apply Forall_app; auto.
      * unfold all_left. rewrite zip_with_snoc, concat_app by done. cbn.
        rewrite app_nil_r, <- app_assoc. destruct g as [|fd g]; cbn; [done|].
        apply (held_delete _ _ _) in Hv. rewrite Hh in Hv. unfold all_left in Hv.
        rewrite <- Permutation_middle in Hv. by apply Permutation_cons_inv in Hv.
    + intros p Hp. destruct g; [done|]. by apply lookup_delete_ne.
  - destruct Hp as (fd & fd' & -> & [Eg _]). apply HS. split; [done|]. exists (groups h), fd, fd'. done.
Qed.

Lemma balanced_plain vs pend h hp e r :
  plain e = true → balanced vs pend h hp → balanced vs pend (h ++ [Ev e r]) hp.
Proof.
  intros He [[_ Ht] Hl Ho Hh]. assert (groups (h ++ [Ev e r]) = groups h) as E
    by (rewrite groups_snoc; by destruct e).
  split; rewrite ?E; try done. split; [done|]. rewrite view_snoc, Ht.
  destruct e; cbn in *; by rewrite ?app_nil_r.
Qed.

Lemma new_int_fresh hp v : (new_int hp v).2 = <[(new_int hp v).1 := v]> hp ∧ hp !! (new_int hp v).1 = None.
Proof. split; [done|]. cbn. apply not_elem_of_dom. apply is_fresh. Qed.

Lemma easy_round_wp ok fuel server vs hp h :
  balanced vs [] h hp →
  wp ok (easy_round (S (S fuel)) server hp)
     (λ h' o, match o with Val hp' => balanced (vs ++ [46; 12; 0]) [] h' hp'
                         | Stopped s => stopped h' s end) h.
Proof.
  intros Hb. unfold easy_round.
  destruct (new_int_fresh hp 46) as [E1 F1]. destruct (new_int hp 46) as [p1 hp1].
  destruct (new_int_fresh hp1 12) as [E2 F2]. destruct (new_int hp1 12) as [p2 hp2].
  destruct (new_int_fresh hp2 0) as [E3 F3]. destruct (new_int hp2 0) as [p3 hp3]. cbn [fst snd] in *.
  assert (p1 ≠ p2 ∧ p1 ≠ p3 ∧ p2 ≠ p3) as (N12 & N13 & N23).
  { subst hp1 hp2. apply lookup_insert_None in F2 as [? ?], F3 as [F3 ?].
    apply lookup_insert_None in F3 as [? ?]. auto. }
  assert (hp3 !! p1 = Some 46 ∧ hp3 !! p2 = Some 12 ∧ hp3 !! p3 = Some 0) as (L1 & L2 & L3)
    by (subst; split_and!; by simplify_map_eq).
  assert (balanced vs [46; 12; 0] h hp3) as HP.
  { destruct Hb as [H1 H2 H3 H4]. split; try done.
    rewrite E3, held_insert, E2, held_insert, E1, held_insert, H4, app_nil_r by done.
    solve_Permutation. }
  apply wp_bind. eapply balanced_step; [exact HP|done| |done]. intros h1 hq1 HP1 K1. cbn [seq_post].
  apply wp_bind. eapply balanced_step; [exact HP1|by rewrite K1 by auto| |done].
  intros h2 hq2 HP2 K2. cbn [seq_post].
  apply wp_bind. eapply balanced_step; [exact HP2|by rewrite K2, K1 by auto| |done].
  intros h3 hq3 HP3 K3. cbn [seq_post]. unfold say. do 4 skip_plain.
  rewrite <- !app_assoc in HP3. by do 4 (apply balanced_plain; [done|]).
Qed.

Lemma easy_main_wp ok argv rounds fuel :
  wp ok (easy_main argv rounds (S (S fuel)))
     (λ h o, match o with Val hp => balanced (concat (replicate rounds [46; 12; 0])) [] h hp
                        | Stopped s => stopped h s end) [].
Proof.
  unfold easy_main. skip_plain.
  assert (balanced [] [] ([] ++ [Ev GlobalInit r]) ∅) as H0 by (by split; [|constructor..]).
  revert H0. generalize ([] ++ [Ev GlobalInit r]) (∅ : heap).
  assert (∀ n vs (h : trace extR) hp, balanced vs [] h hp →
    wp ok (iterate n (easy_round (S (S fuel)) (server_ip argv)) hp)
      (λ h o, match o with Val hp => balanced (vs ++ concat (replicate n [46; 12; 0])) [] h hp
                         | Stopped s => stopped h s end) h) as Hn.
  { induction n as [|n IH]; intros vs h hp Hb; cbn [iterate]; [by cbn; rewrite app_nil_r|].
    apply wp_bind. eapply wp_mono; [|by apply easy_round_wp].
    intros h' [hp'|s] Hb'; [|done]. cbn [seq_post]. apply IH in Hb'.
    eapply wp_mono; [|exact Hb']. intros h'' [hp''|s] Hb''; [|done]. by rewrite <- app_assoc in Hb''. }
  intros h hp Hb. exact (Hn rounds [] h hp Hb).
Qed.

(** ** The multi client on its timers *)

(** The state after [k] calls of the timer callback, when no thread has run. *)
Definition timers_of (k : nat) (st : multi) : Prop :=
  m_instance st = true ∧ Timer.reach (m_timerManager st) ∧
  Timer.main (m_timerManager st) = Timer.Idle ∧ length (Timer.threads (m_timerManager st)) = k.

Lemma timers_step k st ms r : timers_of k st → CurlTimerCallback st ms = Some r → timers_of (S k) r.1.
Proof.
  intros (H1 & H2 & H3 & H4). unfold CurlTimerCallback, GetInstance. rewrite H1.
  destruct (Timer.CreateTimer _) as [m|] eqn:E; [|done]. intros [= <-].
  apply Timer.create_next in E as (G1 & G2 & G3); [|done..]. split_and!; [done|done|done|].
  cbn. by rewrite G3, H4.
Qed.

Lemma timers_fold k st l st' :
  timers_of k st → timer_callbacks st l = Some st' → timers_of (k + length l) st'.
Proof.
  revert k st. induction l as [|ms l IH]; intros k st Hk; cbn [timer_callbacks length].
  - intros [= <-]. by rewrite Nat.add_0_r.
  - destruct (CurlTimerCallback st ms) as [r|] eqn:E; [|done]. cbn. intros Hr.
    rewrite Nat.add_succ_r, <- Nat.add_succ_l. eapply IH; [|exact Hr]. by eapply timers_step.
Qed.

(** The invariant of the loop over the requests. *)
Definition multi_inv (h : trace extR) (st : multi) : Prop :=
  timers_of (length (concat (view v_timeouts h))) st ∧ view v_action h = [].

Definition no_timer (e : ext) : bool :=
  match e with MultiAddHandle | MultiSocketAction => false | _ => true end.

Lemma multi_inv_plain h st e r : no_timer e = true → multi_inv h st → multi_inv (h ++ [Ev e r]) st.
Proof. unfold multi_inv. autorewrite with cs. by destruct e; cbn; rewrite ?app_nil_r. Qed.

(** Adding a handle creates a timer for every timeout reported. *)
Lemma multi_inv_add h st l st' :
  multi_inv h st → timer_callbacks st l = Some st' → multi_inv (h ++ [Ev MultiAddHandle l]) st'.
Proof.
  intros [Ht Ha] Hl. split; autorewrite with cs; cbn; [|by rewrite app_nil_r].
  rewrite concat_app, length_app. cbn. rewrite app_nil_r. by eapply timers_fold.
Qed.

#[local] Hint Resolve multi_inv_plain : cs.

Definition multi_post_cond {A} (f : A → multi) (h : trace extR) (o : outcome A) : Prop :=
  match o with Val x => multi_inv h (f x) | Stopped s => s = Undefined "signed overflow" end.

Lemma multi_post_wp ok js st h :
  multi_inv h st → wp ok (multi_post js st) (multi_post_cond id) h.
Proof.
  intros Hi. unfold multi_post. do 9 skip_plain.
  apply (wp_call _ MultiAddHandle). intros l _.
  destruct (timer_callbacks st l) as [st'|] eqn:E; [|done]. cbn [wp multi_post_cond].
  eapply multi_inv_add; [|exact E]. auto 12 with cs.
Qed.

Lemma multi_main_wp ok :
  wp ok multi_main (λ h o, multi_post_cond fst h o ∧ ∀ x, o = Val x → x.2 = 0) [].
Proof.
  unfold multi_main. do 4 skip_plain. apply wp_bind.
  eapply wp_mono; [|apply (wp_iterate ok CNT _ multi_inv (λ _ s, s = Undefined "signed overflow"))].
  - intros h [st|s] Ho; cbn; split; try done. by intros x [= <-].
  - intros h st Hi. eapply wp_mono; [|by apply multi_post_wp]. by intros h' [].
  - split; [|done]. split_and!; [done|constructor|done|done].
Qed.

(** * Theorems *)

(** C26: the memory of the easy client, whatever libcurl does.  A run that has done
    its rounds has made three requests in each; the callback of every request ran
    for at most one socket, which got the request's value, 46, 12 and 0 in turn,
    and the objects that are left are those of the requests whose callback did
    not run.  A run that stops early does so because the callback of its last
    request ran for a second socket, when it reads the object it has deleted; two
    steps of a transfer are always enough. *)
Theorem easy_client_memory argv rounds fuel w :
  let '(h, o) := run w (easy_main argv rounds (S (S fuel))) [] in
  let vs := concat (replicate rounds [46; 12; 0]) in
  match o with
  | Val hp =>
      length (groups h) = length vs ∧ Forall (λ g, length g ≤ 1)%nat (groups h) ∧
      view v_tos h = concat (zip_with (λ v g, (λ fd, (fd, v)) <$> g) vs (groups h)) ∧
      (map_to_list hp).*2 ≡ₚ concat (zip_with (λ v g, if g is [] then [v] else []) vs (groups h))
  | Stopped s =>
      s = Undefined "a deleted int is read" ∧
      ∃ gs fd fd', groups h = gs ++ [[fd; fd']] ∧ Forall (λ g, length g ≤ 1)%nat gs
  end.
Proof.
  pose proof (wp_run anything w _ _ [] (λ _ _, I) (easy_main_wp _ argv rounds fuel)) as H.
  destruct (run w _ []) as [h [hp|s]]; [|exact H]. destruct H as [[_ H1] H2 H3 H4].
  cbn in *. rewrite app_nil_r in H4. done.
Qed.

(** A library that opens one socket for the first request of a round, none for
    the second, and two for the third. *)
Definition busy : env extR := λ h e,
  match e return extR e with
  | EasyInit => true
  | EasyPerform =>
      match (length (groups h) mod 3)%nat, last (groups h) with
      | 1%nat, Some [] => SockOpt 7
      | 0%nat, _ => SockOpt 8
      | _, _ => Done CURLE_OK
      end
  | SetTos _ _ => 0
  | MultiAddHandle => [0; 1]
  | MultiSocketAction => 0
  | _ => tt
  end.

(** The third request of the first round reads its object twice. *)
Example busy_run :
  (run busy (easy_main [] 1 2) []).2 = Stopped (Undefined "a deleted int is read") ∧
  view v_tos (run busy (easy_main [] 1 2) []).1 = [(7, 46); (8, 0)].
Proof. split; vm_compute; reflexivity. Qed.

(** The multi client on top of its timers: whatever libcurl reports while the four
    handles are added, [main] returns 0 with one timer for every call of the timer
    callback, numbered from one without gaps and each with its own delay, whatever
    timeout was asked for, unless the number or the delay of a timer overflows;
    and [main] itself never lets libcurl act on a socket. *)
Theorem multi_client_timers w :
  let '(h, o) := run w multi_main [] in
  match o with
  | Val (st, code) =>
      code = 0 ∧ view v_action h = [] ∧
      let n := length (concat (view v_timeouts h)) in
      (∀ k, is_Some (Timer.m_Timers (m_timerManager st) !! k) ↔ 1 ≤ k ≤ Z.of_nat n) ∧
      (∀ i t, Timer.threads (m_timerManager st) !! i = Some t →
         Timer.delay t = 2000 + 1000 * Z.of_nat i)
  | Stopped s => s = Undefined "signed overflow"
  end.
Proof.
  pose proof (wp_run (λ _ _ _, True) w _ _ [] (λ _ _, I) (multi_main_wp _)) as H.
  destruct (run w multi_main []) as [h [[st code]|s]]; cbn in H; [|by destruct H].
  destruct H as [[(_ & Hr & Hm & Hl) Ha] Hc].
  split; [by apply (Hc (st, code))|]. split; [done|].
  apply Timer.inv_reach in Hr. destruct Hr as [_ H2 _ H4 _].
  unfold Timer.created in H2. rewrite Hm, Hl, Z.sub_0_r in H2.
  split; [done|]. intros i t Ht. by apply H4.
Qed.

End CurlClients.
