(* ===== verification/Asio.v ===== *)
(** The Asio echo server (src/sockets/asio/server.cc, [listener], [echo] and
    [main]) and client (client.cc).

    The server is a set of coroutines that Boost.Asio resumes one at a time, in
    an order and with results that the program does not choose.  The model is a
    machine: a coroutine is the place of its [co_await] with its local variables,
    a label is one resumption chosen by the library, and [resume] runs the
    coroutine to its next [co_await].  [async_write] is a composed operation of
    the library that sends its buffer in pieces; a piece is a label of its own.
    The client is a program of [Io]. *)

From stdpp Require Import base list gmap strings.
From S2P Require Import Prelude Io Posix CLib Sockets.

Local Open Scope Z_scope.
Local Open Scope cs_scope.

Module Asio.

(** * The server *)

Definition DATA : nat := 1024.

(** Where the coroutine [echo] of a connection waits. *)
Inductive co :=
  | Reading                      (* in async_read_some *)
  | Writing (todo : list Z)      (* in async_write, with the bytes not sent yet *)
  | Ended.                       (* after the exception; the socket is closed *)

(** A connection: its coroutine with the array [data], and what the other side
    has seen: the bytes received from it and the bytes sent to it. *)
Record conn := { at_ : co; data : list Z; inp : list Z; outp : list Z }.

(** [running] is false after [io_context.stop()] of the signal handler. *)
Record machine := { running : bool; conns : list conn; console : list (list item) }.

Inductive result := Next (m : machine) | Crashed.

(** One resumption. *)
Inductive label :=
  | Accepted (stk : list Z)              (* async_accept returns; [stk] is where data lies *)
  | ReadSome (k : nat) (b : list Z)      (* async_read_some of the connection [k] returns *)
  | WriteSome (k : nat) (n : nat)        (* a piece of async_write is sent *)
  | Failed (k : nat) (what : string)     (* an operation of [k] throws *)
  | Signal.                              (* SIGINT or SIGTERM *)

Definition set_conn (m : machine) (k : nat) (c : conn) (out : list (list item)) : result :=
  Next {| running := running m; conns := <[k := c]> (conns m); console := console m ++ out |}.

(** The body of the loop of [echo] after the read: the console gets [data] as a
    C string, then the write starts. *)
Definition echo_read (m : machine) (k : nat) (c : conn) (b : list Z) : result :=
  let d := b ++ drop (length b) (data c) in
  match cstr d with
  | None => Crashed
  | Some s =>
      set_conn m k {| at_ := Writing (take (length b) d); data := d; inp := inp c ++ b; outp := outp c |}
        [[T "echo "; B s; T ", size "; N (Z.of_nat (length b))]]
  end.

(** A piece of the write; after the last one the loop reads again. *)
Definition echo_write (m : machine) (k : nat) (c : conn) (todo : list Z) (n : nat) : result :=
  let rest := drop n todo in
  set_conn m k {| at_ := if bool_decide (rest = []) then Reading else Writing rest;
                  data := data c; inp := inp c; outp := outp c ++ take n todo |} [].

(** The catch clause. *)
Definition echo_catch (m : machine) (k : nat) (c : conn) (what : string) : result :=
  set_conn m k {| at_ := Ended; data := data c; inp := inp c; outp := outp c |}
    [[T "echo Exception: "; T what]].

(** [listener]: a new coroutine for the socket. *)
Definition listener_accept (m : machine) (stk : list Z) : result :=
  Next {| running := running m;
          conns := conns m ++ [{| at_ := Reading; data := stk; inp := []; outp := [] |}];
          console := console m |}.

(** [None]: the library cannot do that now. *)
Definition resume (m : machine) (l : label) : option result :=
  if negb (running m) then None
  else
    match l with
    | Accepted stk => if decide (length stk = DATA) then Some (listener_accept m stk) else None
    | Signal => Some (Next {| running := false; conns := conns m; console := console m |})
    | ReadSome k b =>
        c ← conns m !! k;
        match at_ c with
        | Reading => if decide (0 < length b ≤ DATA)%nat then Some (echo_read m k c b) else None
        | _ => None
        end
    | WriteSome k n =>
        c ← conns m !! k;
        match at_ c with
        | Writing todo => if decide (0 < n ≤ length todo)%nat then Some (echo_write m k c todo n) else None
        | _ => None
        end
    | Failed k what =>
        c ← conns m !! k;
        match at_ c with
        | Ended => None
        | _ => Some (echo_catch m k c what)
        end
    end.

(** The resumptions of a run. *)
Fixpoint resume_all (m : machine) (ls : list label) : option result :=
  match ls with
  | [] => Some (Next m)
  | l :: ls' =>
      r ← resume m l;
      match r with
      | Next m' => resume_all m' ls'
      | Crashed => Some Crashed
      end
  end.

(** [main]: the address from the arguments 2 and 3, or the default. *)
Definition server_host (argv : list (list Z)) : prog sysR Sockets.host :=
  h ⇐ Sockets.getHostFromArg argv 2 3;
  match h with
  | Some h => Ret h
  | None =>
      print [T "Defaulting to localhost:3000"] ;;;
      Ret {| Sockets.ip := bs "127.0.0.1"; Sockets.port := 3000 |}
  end.

(** The machine when [io_context.run()] is called and the listener has started. *)
Definition start : machine :=
  {| running := true; conns := []; console := [[T "Listening..."]] |}.

(** * The client *)

(** The operations of the blocking socket, with their error. *)
Inductive ext :=
  | ConnectTo (ip : list Z) (port : Z)
  | WriteAll (b : list Z)
  | ReadSomeInto (n : nat)
  | Say (l : list item).

(** An error code: [None] for success. *)
Definition eof : Z := 2.
Definition extR (e : ext) : Type :=
  match e with
  | ConnectTo _ _ | WriteAll _ => option Z
  | ReadSomeInto _ => list Z * option Z
  | Say _ => unit
  end.

Definition say (l : list item) : prog extR unit := call (Say l).

Definition message : list Z := bs "Hello from Client!" ++ [10].

Definition client_main (h : Sockets.host) : prog extR Z :=
  e ⇐ call (ConnectTo (Sockets.ip h) (Sockets.port h));
  match e with
  | Some err =>
      say [T "connect failed: "; Err err; T " on "; B (Sockets.ip h); N (Sockets.port h)] ;;; Ret (-1)
  | None =>
      w ⇐ call (WriteAll message);
      (match w with
       | None => say [T "Client sent hello message!"]
       | Some err => say [T "send failed: "; Err err]
       end) ;;;
      r ⇐ call (ReadSomeInto DATA);
      let buf := r.1 ++ replicate (DATA - length r.1) 0 in
      say [T "Revieved len : "; N (Z.of_nat (length r.1))] ;;;
      (match r.2 with
       | Some err => if err =? eof then say [B buf] else say [T "receive failed: "; Err err]
       | None => say [B buf]
       end) ;;;
      Ret 0
  end.

(** ** What a client has done *)

Definition c_written (e : ext) : extR e → option (list Z) :=
  match e return extR e → option (list Z) with WriteAll b => λ _, Some b | _ => λ _, None end.
Definition c_read (e : ext) : extR e → option (list Z) :=
  match e return extR e → option (list Z) with ReadSomeInto _ => λ r, Some r.1 | _ => λ _, None end.
Definition c_say (e : ext) : extR e → option (list item) :=
  match e return extR e → option (list item) with Say l => λ _, Some l | _ => λ _, None end.

(** The bytes it has written, as far as the connection took them, and read. *)
Definition written (h : trace extR) : list Z := concat (view c_written h).
Definition was_read (h : trace extR) : list Z := concat (view c_read h).

(** The last line of a run in which the client has read [b]: the array of 1024
    characters that starts with it, or an error. *)
Definition last_line (b : list Z) (l : list item) : Prop :=
  l = [B (b ++ replicate (DATA - length b) 0)] ∨
  ∃ err, err ≠ eof ∧ l = [T "receive failed: "; Err err].

(** What the client has done when it returns [z]: it was not connected, or it
    has written its message once, read once and shown what it read. *)
Definition shown (hh : trace extR) (z : Z) : Prop :=
  (z = -1 ∧ view c_written hh = [] ∧ was_read hh = []) ∨
  (z = 0 ∧ view c_written hh = [message] ∧
   ∃ status l, view c_say hh =
       [status; [T "Revieved len : "; N (Z.of_nat (length (was_read hh)))]; l] ∧
     last_line (was_read hh) l).

Lemma client_main_wp ok h :
  wp ok (client_main h) (λ hh o, ∃ z, o = Val z ∧ shown hh z) [].
Proof.
  unfold client_main. cbn -[bs DATA message]. intros [err|] _; cbn -[bs DATA message].
  - intros [] _. exists (-1). split; [done|]. by left.
  - intros w _. set (st := match w with None => _ | Some e => _ end).
    assert (∃ l, st = say l) as (l & ->) by (destruct w; eexists; reflexivity).
    cbn -[bs DATA message]. intros [] _ [b oe] _. cbn -[bs DATA message]. intros [] _.
    destruct oe as [err|]; [destruct (Z.eqb_spec err eof)|]; cbn -[bs DATA message]; intros [] _;
      (exists 0; split; [done|]; right; split; [done|]; unfold was_read;
       cbn -[bs DATA message]; rewrite !app_nil_r; split; [done|];
       eexists _, _; split; [done|]); [by left|right; eauto|by left].
Qed.

(** * The echo invariant *)

Inductive step : machine → machine → Prop :=
  | step_resume m l m' : resume m l = Some (Next m') → step m m'.

(** The bytes still to be sent. *)
Definition pending (c : co) : list Z :=
  match c with Writing todo => todo | _ => [] end.

(** A connection that has not failed has sent what it received, up to what is
    pending; one that has failed has sent a part of it from the start. *)
Definition conn_ok (c : conn) : Prop :=
  length (data c) = DATA ∧
  match at_ c with
  | Ended => outp c `prefix_of` inp c
  | Writing todo => todo ≠ [] ∧ inp c = outp c ++ todo
  | Reading => inp c = outp c
  end.

Definition ok (m : machine) : Prop := Forall conn_ok (conns m).

Lemma set_conn_ok m k c out m' :
  ok m → conn_ok c → set_conn m k c out = Next m' → ok m'.
Proof. intros Hm Hc [= <-]. unfold ok. cbn. by apply Forall_insert. Qed.

Lemma echo_read_ok m k c b m' :
  ok m → conn_ok c → at_ c = Reading → (0 < length b ≤ DATA)%nat →
  echo_read m k c b = Next m' → ok m'.
Proof.
  intros Hm [Hl Hc] Ha Hb. rewrite Ha in Hc. unfold echo_read. case_match; [|done].
  apply set_conn_ok; [done|]. split; cbn.
  - rewrite length_app, length_drop. lia.
  - rewrite take_app_length. split; [by destruct b; cbn in *; [lia|]|by rewrite Hc].
Qed.

Lemma echo_write_ok m k c todo n m' :
  ok m → conn_ok c → at_ c = Writing todo → echo_write m k c todo n = Next m' → ok m'.
Proof.
  intros Hm [Hl Hc] Ha. rewrite Ha in Hc. destruct Hc as [_ Hc]. unfold echo_write.
  apply set_conn_ok; [done|]. split; [done|]. cbn. rewrite Hc.
  case_bool_decide as Hr.
  - by rewrite <- (take_drop n todo) at 1; rewrite Hr, app_nil_r.
  - split; [done|]. by rewrite <- app_assoc, take_drop.
Qed.

Lemma echo_catch_ok m k c what m' :
  ok m → conn_ok c → echo_catch m k c what = Next m' → ok m'.
Proof.
  intros Hm [Hl Hc]. unfold echo_catch. apply set_conn_ok; [done|]. split; [done|]. cbn.
  destruct (at_ c) as [|todo|]; [by rewrite Hc| |done]. destruct Hc as [_ ->]. by apply prefix_app_r.
Qed.

(** The case analysis of [resume] on a connection. *)
Lemma resume_ok m l m' : ok m → resume m l = Some (Next m') → ok m'.
Proof.
  intros Hm. unfold resume. destruct (running m); cbn [negb]; [|done].
  assert (∀ k c, conns m !! k = Some c → conn_ok c) as Hk by (apply Forall_lookup, Hm).
  destruct l as [stk|k b|k n|k what|].
  - destruct (decide (length stk = DATA)); [|done]. intros [= <-]. unfold ok. cbn.
    apply Forall_app. split; [done|]. by repeat constructor.
  - destruct (conns m !! k) as [c|] eqn:Ec; [|done]. cbn. destruct (at_ c) eqn:Ea; try done.
    case_decide as Hd; [|done]. intros E%(inj Some). eapply (echo_read_ok m k c b); eauto.
  - destruct (conns m !! k) as [c|] eqn:Ec; [|done]. cbn. destruct (at_ c) eqn:Ea; try done.
    case_decide as Hd; [|done]. intros E%(inj Some). eapply (echo_write_ok m k c); eauto.
  - destruct (conns m !! k) as [c|] eqn:Ec; [|done]. cbn.
    destruct (at_ c) eqn:Ea; try done; intros E%(inj Some); eapply (echo_catch_ok m k c); eauto.
  - by intros [= <-].
Qed.

Lemma reach_ok m : rtc step start m → ok m.
Proof.
  assert (ok start) as H0 by constructor. revert H0. generalize start. intros m0 H0 Hr.
  induction Hr as [|m1 m2 m3 [m l m' Hl] _ IH]; [done|]. apply IH. by eapply resume_ok.
Qed.

(** * Progress of a write *)

(** The connection a label is about. *)
Definition about (l : label) : option nat :=
  match l with
  | ReadSome k _ | WriteSome k _ | Failed k _ => Some k
  | Accepted _ | Signal => None
  end.

(** A resumption of another coroutine leaves a connection alone. *)
Lemma resume_other m l m' k c :
  about l ≠ Some k → conns m !! k = Some c → resume m l = Some (Next m') → conns m' !! k = Some c.
Proof.
  intros Hl Hc. unfold resume. destruct (running m); cbn [negb]; [|done].
  assert (∀ j c' out, j ≠ k → set_conn m j c' out = Next m' → conns m' !! k = Some c) as Hs.
  { intros j c' out Hj [= <-]. cbn. by rewrite list_lookup_insert_ne. }
  destruct l as [stk|j b|j n|j what|]; cbn in Hl.
  - case_decide; [|done]. intros [= <-]. cbn. by apply lookup_app_l_Some.
  - destruct (conns m !! j) as [cj|]; [|done]. cbn. destruct (at_ cj); try done.
    case_decide; [|done]. intros E%(inj Some). unfold echo_read in E. case_match; [|done].
    eapply (Hs j); [congruence|exact E].
  - destruct (conns m !! j) as [cj|]; [|done]. cbn. destruct (at_ cj); try done.
    case_decide; [|done]. intros E%(inj Some). eapply (Hs j); [congruence|exact E].
  - destruct (conns m !! j) as [cj|]; [|done]. cbn.
    destruct (at_ cj); try done; intros E%(inj Some); (eapply (Hs j); [congruence|exact E]).
  - by intros [= <-].
Qed.

(** The pieces of writes of the connection [k] among the labels. *)
Definition is_piece (k : nat) (l : label) : bool :=
  match l with WriteSome j _ => bool_decide (j = k) | _ => false end.
Definition pieces (k : nat) (ls : list label) : nat := length (filter (λ l, is_piece k l = true) ls).

(** No operation of [k] fails. *)
Definition no_failure (k : nat) (ls : list label) : Prop :=
  Forall (λ l, match l with Failed j _ => j ≠ k | _ => True end) ls.

Lemma piece_step m k c todo n m' :
  conns m !! k = Some c → at_ c = Writing todo →
  resume m (WriteSome k n) = Some (Next m') →
  (0 < n ≤ length todo)%nat ∧ ∃ c', conns m' !! k = Some c' ∧ inp c' = inp c ∧
    at_ c' = if bool_decide (drop n todo = []) then Reading else Writing (drop n todo).
Proof.
  intros Hc Ha. unfold resume. destruct (running m); cbn [negb]; [|done]. rewrite Hc. cbn.
  rewrite Ha. case_decide as Hn; [|done]. intros E%(inj Some). injection E as <-.
  split; [done|]. eexists. cbn [conns].
  split; [apply list_lookup_insert_eq; by eapply lookup_lt_Some|]. done.
Qed.

(** After enough pieces the write is complete. *)
Lemma write_completes ls m k c todo m' :
  ok m → conns m !! k = Some c → at_ c = Writing todo → no_failure k ls →
  (length todo ≤ pieces k ls)%nat → resume_all m ls = Some (Next m') →
  ∃ ls1 ls2 m1 c1, ls = ls1 ++ ls2 ∧ resume_all m ls1 = Some (Next m1) ∧
    conns m1 !! k = Some c1 ∧ at_ c1 = Reading ∧ inp c1 = inp c.
Proof.
  revert m c todo. induction ls as [|l ls IH]; intros m c todo Hok Hc Ha Hf Hp Hr.
  { assert (conn_ok c) as [_ Hk] by (eapply Forall_lookup_1; [exact Hok|exact Hc]).
    rewrite Ha in Hk. destruct Hk as [Hn _]. by destruct todo; cbn in *; [|lia]. }
  apply Forall_cons in Hf as [Hl Hf]. cbn in Hr.
  destruct (resume m l) as [[m2|]|] eqn:El; cbn in Hr; try done.
  assert (ok m2) as Hok2 by (by eapply resume_ok).
  assert (∀ ls1 m1, resume_all m2 ls1 = Some (Next m1) → resume_all m (l :: ls1) = Some (Next m1)) as Hcons.
  { intros ls1 m1 H1. cbn. by rewrite El. }
  destruct (decide (about l = Some k)) as [Hab|Hab].
  - destruct l as [|j b|j n|j what|]; cbn in Hab; simplify_eq.
    { unfold resume in El. rewrite Hc in El. destruct (running m); cbn in El; [|done].
      by rewrite Ha in El. }
    destruct (piece_step _ _ _ _ _ _ Hc Ha El) as (Hn & c2 & Hc2 & Hi2 & Ha2).
    case_bool_decide as Hd.
    + exists [WriteSome k n], ls, m2, c2. split_and!; auto.
    + destruct (IH m2 c2 (drop n todo)) as (ls1 & ls2 & m1 & c1 & -> & H1 & H2 & H3 & H4); auto.
      { rewrite length_drop. unfold pieces in *.
        rewrite filter_cons_True in Hp by (cbn; by apply bool_decide_eq_true). cbn in Hp. lia. }
      exists (WriteSome k n :: ls1), ls2, m1, c1. split_and!; auto. congruence.
  - assert (conns m2 !! k = Some c) as Hc2 by (by eapply resume_other).
    destruct (IH m2 c todo) as (ls1 & ls2 & m1 & c1 & -> & H1 & H2 & H3 & H4); auto.
    { unfold pieces in *. rewrite filter_cons_False in Hp; [done|].
      destruct l; cbn in *; try done. rewrite bool_decide_eq_true. congruence. }
    exists (l :: ls1), ls2, m1, c1. split_and!; auto.
Qed.

Lemma resume_all_reach m ls m' : rtc step start m → resume_all m ls = Some (Next m') → rtc step start m'.
Proof.
  revert m. induction ls as [|l ls IH]; intros m Hm; cbn; [by intros [= <-]|].
  destruct (resume m l) as [[m2|]|] eqn:El; cbn; try done.
  apply IH. eapply rtc_r; [done|]. by econstructor.
Qed.

(** * Theorems *)

(** C4: in every interleaving of the coroutines, each connection gets its own
    bytes back, in order and without loss: what was sent to it is a prefix of what
    it sent; unless it failed, the rest is exactly what the pending write still
    holds, and while the coroutine reads nothing is missing. *)
Theorem asio_echo m k c :
  rtc step start m → conns m !! k = Some c →
  outp c `prefix_of` inp c ∧
  (at_ c ≠ Ended → inp c = outp c ++ pending (at_ c)) ∧
  (at_ c = Reading → outp c = inp c).
Proof.
  intros Hm%reach_ok Hc. assert (conn_ok c) as [_ Hk] by (eapply Forall_lookup_1; [exact Hm|exact Hc]).
  destruct (at_ c) as [|todo|]; cbn in *.
  - split_and!; try done; rewrite Hk; [done|by rewrite app_nil_r].
  - destruct Hk as [_ ->]. split_and!; try done. by apply prefix_app_r.
  - done.
Qed.

(** Two connections whose messages are interleaved. *)
Definition two_clients : list label :=
  [Accepted (replicate 1024 0); Accepted (replicate 1024 0); ReadSome 0 (bs "abc");
   ReadSome 1 (bs "xy"); WriteSome 0 2; WriteSome 1 2; WriteSome 0 1].

Lemma reach_two : ∃ m c, resume_all start two_clients = Some (Next m) ∧ rtc step start m ∧
  conns m !! 1%nat = Some c ∧ outp c = bs "xy".
Proof.
  eexists _, _. split; [vm_compute; reflexivity|]. split; [|split; reflexivity].
  apply (resume_all_reach start two_clients); [done|]. vm_compute. reflexivity.
Qed.

Lemma asio_echo_witness :
  ∃ m c, rtc step start m ∧ conns m !! 1%nat = Some c ∧ outp c = bs "xy" ∧
         outp c `prefix_of` inp c.
Proof.
  destruct reach_two as (m & c & _ & Hr & Hc & Ho). exists m, c.
  split; [exact Hr|]. split; [exact Hc|]. split; [exact Ho|].
  exact (proj1 (asio_echo m 1 c Hr Hc)).
Defined.

(** C9: every message is answered: from any reachable state in which the
    connection has bytes to send, any run that is long enough to contain as many
    pieces of its write as there are bytes, and in which none of its operations
    fails, passes through a state in which the coroutine reads again and
    everything it had received has been sent back, whatever the other coroutines
    do in between. *)
Theorem asio_answers m k c todo ls m' :
  rtc step start m → conns m !! k = Some c → at_ c = Writing todo →
  no_failure k ls → (length todo ≤ pieces k ls)%nat → resume_all m ls = Some (Next m') →
  ∃ ls1 ls2 m1 c1, ls = ls1 ++ ls2 ∧ resume_all m ls1 = Some (Next m1) ∧
    conns m1 !! k = Some c1 ∧ at_ c1 = Reading ∧ outp c1 = inp c.
Proof.
  intros Hm Hc Ha Hf Hp Hr.
  destruct (write_completes ls m k c todo m') as (ls1 & ls2 & m1 & c1 & -> & H1 & H2 & H3 & H4);
    auto using reach_ok.
  exists ls1, ls2, m1, c1. split_and!; auto. rewrite <- H4.
  assert (conn_ok c1) as [_ Hk].
  { eapply Forall_lookup_1; [|exact H2]. by apply reach_ok, (resume_all_reach m ls1). }
  by rewrite H3 in Hk.
Qed.

Lemma asio_answers_witness :
  ∃ ls1 ls2 m1 c1, [WriteSome 0 1; Accepted (replicate 1024 0); WriteSome 0 1] = ls1 ++ ls2 ∧
    resume_all (match resume_all start [Accepted (replicate 1024 0); ReadSome 0 (bs "ab")] with
                | Some (Next m) => m | _ => start end) ls1 = Some (Next m1) ∧
    conns m1 !! 0%nat = Some c1 ∧ at_ c1 = Reading ∧ outp c1 = bs "ab".
Proof.
  eapply (asio_answers
    (match resume_all start [Accepted (replicate 1024 0); ReadSome 0 (bs "ab")] with
     | Some (Next m) => m | _ => start end) 0
    {| at_ := Writing (bs "ab"); data := bs "ab" ++ replicate 1022 0; inp := bs "ab"; outp := [] |}
    (bs "ab")).
  - apply (resume_all_reach start [Accepted (replicate 1024 0); ReadSome 0 (bs "ab")]); [constructor|].
    vm_compute. reflexivity.
  - vm_compute. reflexivity.
  - reflexivity.
  - repeat constructor.
  - vm_compute. lia.
  - vm_compute. reflexivity.
Defined.

(** A full array without a NUL is printed past its end. *)
Example full_read_crashes :
  resume_all start [Accepted (replicate 1024 0); ReadSome 0 (replicate 1024 65)] = Some Crashed.
Proof. vm_compute. reflexivity. Qed.

(** With one argument too few the null pointer after the arguments is used. *)
Example host_null :
  (run (small_world 0 []) (server_host [bs "server"; bs "x"; bs "1.2.3.4"]) []).2 =
  Stopped (Undefined "argv[argc] is printed and made a string").
Proof. reflexivity. Qed.

End Asio.
