(* ===== verification/AsioSystem.v ===== *)
(** The Asio client connected to the Asio server (src/sockets/asio/client.cc and
    server.cc): the client of [Asio] as a program, the server as a machine with
    any number of other connections, and between the two the streams of a TCP
    connection, which deliver bytes in order, in pieces of any size, and may
    fail.  A label is what happens next in the system. *)

From stdpp Require Import base list gmap strings.
From S2P Require Import Prelude Io Posix CLib Sockets Asio.
Import Asio.

Local Open Scope Z_scope.
Local Open Scope cs_scope.

Module AsioSystem.

(** * The system *)

(** The server, what is left of the client with its history, the number of its
    connection, the bytes on their way in both directions, and whether a write
    of the client has failed. *)
Record system := {
  server : machine;
  client : prog extR Z;
  hist : trace extR;
  conn_no : option nat;
  c2s : list Z;
  s2c : list Z;
  broken : bool }.

(** What the kernel answers to the call the client makes. *)
Inductive reply :=
  | Connected (stk : list Z)       (* the server accepts; [stk] is for its array *)
  | Refused (err : Z)
  | Written
  | WriteFailed (n : nat) (err : Z)  (* after [n] bytes *)
  | Received (n : nat)             (* the next [n] bytes *)
  | ReadFailed (err : Z)
  | Said.

Inductive slabel :=
  | Client (r : reply)
  | ServerReads (n : nat)          (* the next [n] bytes of the client *)
  | ServerWrites (n : nat)
  | ServerFails (what : string)
  | Elsewhere (l : label).         (* another connection, or the signal *)

(** The client gets the answer [r] and goes on. *)
Definition answer {e : ext} (s : system) (k : extR e → prog extR Z) (r : extR e)
    (m : machine) (no : option nat) (up down : list Z) (bad : bool) : option system :=
  Some {| server := m; client := k r; hist := hist s ++ [Ev e r]; conn_no := no;
          c2s := up; s2c := down; broken := bad |}.

Definition client_next (s : system) (r : reply) : option system :=
  match client s with
  | Call e k =>
      match e return (extR e → prog extR Z) → option system with
      | ConnectTo ip port => λ k,
          match r with
          | Connected stk =>
              match conn_no s, resume (server s) (Accepted stk) with
              | None, Some (Next m) =>
                  answer (e := ConnectTo ip port) s k None m
                         (Some (length (conns (server s)))) (c2s s) (s2c s) (broken s)
              | _, _ => None
              end
          | Refused err =>
              answer (e := ConnectTo ip port) s k (Some err) (server s) (conn_no s)
                     (c2s s) (s2c s) (broken s)
          | _ => None
          end
      | WriteAll b => λ k,
          match r with
          | Written =>
              if bool_decide (conn_no s = None) || broken s then None
              else answer (e := WriteAll b) s k None (server s) (conn_no s) (c2s s ++ b) (s2c s) (broken s)
          | WriteFailed n err =>
              let sent := if bool_decide (conn_no s = None) || broken s then [] else take n b in
              answer (e := WriteAll b) s k (Some err) (server s) (conn_no s) (c2s s ++ sent) (s2c s) true
          | _ => None
          end
      | ReadSomeInto max => λ k,
          match r with
          | Received n =>
              if decide (0 < n ≤ max ∧ n ≤ length (s2c s))%nat then
                answer (e := ReadSomeInto max) s k (take n (s2c s), None) (server s) (conn_no s)
                       (c2s s) (drop n (s2c s)) (broken s)
              else None
          | ReadFailed err =>
              answer (e := ReadSomeInto max) s k ([], Some err) (server s) (conn_no s)
                     (c2s s) (s2c s) (broken s)
          | _ => None
          end
      | Say l => λ k,
          match r with
          | Said => answer (e := Say l) s k tt (server s) (conn_no s) (c2s s) (s2c s) (broken s)
          | _ => None
          end
      end k
  | _ => None
  end.

Definition with_server (s : system) (m : machine) (up down : list Z) : system :=
  {| server := m; client := client s; hist := hist s; conn_no := conn_no s;
     c2s := up; s2c := down; broken := broken s |}.

(** What the server would send in a piece of [n] bytes. *)
Definition piece (m : machine) (k n : nat) : list Z :=
  match conns m !! k with
  | Some c => take n (pending (at_ c))
  | None => []
  end.

(** A resumption of the server with its effect on the streams. *)
Definition server_next (s : system) (l : label) (up down : list Z) : option system :=
  match resume (server s) l with
  | Some (Next m) => Some (with_server s m up down)
  | _ => None
  end.

(** [None]: this cannot happen now. *)
Definition sys_next (s : system) (l : slabel) : option system :=
  match l with
  | Client r => client_next s r
  | ServerReads n =>
      k ← conn_no s;
      server_next s (ReadSome k (take n (c2s s))) (drop n (c2s s)) (s2c s)
  | ServerWrites n =>
      k ← conn_no s;
      server_next s (WriteSome k n) (c2s s) (s2c s ++ piece (server s) k n)
  | ServerFails what =>
      k ← conn_no s;
      server_next s (Failed k what) (c2s s) (s2c s)
  | Elsewhere l =>
      if bool_decide (is_Some (conn_no s) ∧ about l = conn_no s) then None
      else server_next s l (c2s s) (s2c s)
  end.

Fixpoint sys_run (s : system) (ls : list slabel) : option system :=
  match ls with
  | [] => Some s
  | l :: ls' => s' ← sys_next s l; sys_run s' ls'
  end.

(** The client at its start, the server in a state it can be in. *)
Definition begin (m : machine) (h : Sockets.host) : system :=
  {| server := m; client := client_main h; hist := []; conn_no := None;
     c2s := []; s2c := []; broken := false |}.

(** * The streams *)

(** Where the bytes of the connection are: what the client wrote is with the
    server, on its way, or lost with a failed write; what the server sent is with
    the client or on its way. *)
Definition streams (s : system) : Prop :=
  ∃ lost, (broken s = false → lost = []) ∧
  match conn_no s with
  | None => written (hist s) = lost ∧ c2s s = [] ∧ was_read (hist s) = [] ∧ s2c s = []
  | Some k => ∃ c, conns (server s) !! k = Some c ∧
      written (hist s) = inp c ++ c2s s ++ lost ∧ outp c = was_read (hist s) ++ s2c s
  end.

Definition inv (s : system) : Prop := rtc step start (server s) ∧ streams s.

Lemma outp_prefix m k c : rtc step start m → conns m !! k = Some c → outp c `prefix_of` inp c.
Proof.
  intros Hm%reach_ok Hc. assert (conn_ok c) as [_ Hk] by (eapply Forall_lookup_1; [exact Hm|exact Hc]).
  destruct (at_ c); [by rewrite Hk| |done]. destruct Hk as [_ ->]. by apply prefix_app_r.
Qed.

(** The bytes read so far and those on their way are a part of those written. *)
Lemma inv_prefix s : inv s → (was_read (hist s) ++ s2c s) `prefix_of` written (hist s).
Proof.
  intros [Hm (lost & _ & Hs)]. destruct (conn_no s) as [k|].
  - destruct Hs as (c & Hc & -> & <-). etrans; [by eapply outp_prefix|]. by apply prefix_app_r.
  - destruct Hs as (_ & _ & -> & ->). apply prefix_nil.
Qed.

Lemma written_snoc h e r : written (h ++ [Ev e r]) = written h ++ default [] (c_written e r).
Proof. unfold written. rewrite view_snoc, concat_app. destruct (c_written e r); cbn; by rewrite ?app_nil_r. Qed.

Lemma was_read_snoc h e r : was_read (h ++ [Ev e r]) = was_read h ++ default [] (c_read e r).
Proof. unfold was_read. rewrite view_snoc, concat_app. destruct (c_read e r); cbn; by rewrite ?app_nil_r. Qed.

(** ** The server's steps *)

Lemma server_next_inv s l up down s' :
  rtc step start (server s) → server_next s l up down = Some s' →
  ∃ m, resume (server s) l = Some (Next m) ∧ s' = with_server s m up down ∧ rtc step start m.
Proof.
  intros Hm. unfold server_next. destruct (resume (server s) l) as [[m|]|] eqn:E; try done.
  intros [= <-]. exists m. split_and!; try done. eapply rtc_r; [done|]. by econstructor.
Qed.

Lemma resume_read m k b m' c :
  conns m !! k = Some c → resume m (ReadSome k b) = Some (Next m') →
  ∃ c', conns m' !! k = Some c' ∧ inp c' = inp c ++ b ∧ outp c' = outp c.
Proof.
  intros Hc. unfold resume. destruct (running m); cbn [negb]; [|done]. rewrite Hc. cbn.
  destruct (at_ c); try done. case_decide; [|done]. intros E%(inj Some). unfold echo_read in E.
  case_match; [|done]. injection E as <-. eexists. cbn [conns].
  split; [apply list_lookup_insert_eq; by eapply lookup_lt_Some|done].
Qed.

Lemma resume_write m k n m' c :
  conns m !! k = Some c → resume m (WriteSome k n) = Some (Next m') →
  ∃ c', conns m' !! k = Some c' ∧ inp c' = inp c ∧ outp c' = outp c ++ piece m k n.
Proof.
  intros Hc. unfold resume, piece. destruct (running m); cbn [negb]; [|done]. rewrite Hc. cbn.
  destruct (at_ c); try done. case_decide; [|done]. intros E%(inj Some). injection E as <-.
  eexists. cbn [conns]. split; [apply list_lookup_insert_eq; by eapply lookup_lt_Some|done].
Qed.

Lemma resume_fail m k what m' c :
  conns m !! k = Some c → resume m (Failed k what) = Some (Next m') →
  ∃ c', conns m' !! k = Some c' ∧ inp c' = inp c ∧ outp c' = outp c.
Proof.
  intros Hc. unfold resume. destruct (running m); cbn [negb]; [|done]. rewrite Hc. cbn.
  destruct (at_ c); try done; intros E%(inj Some); injection E as <-;
    (eexists; cbn [conns]; split; [apply list_lookup_insert_eq; by eapply lookup_lt_Some|done]).
Qed.

(** Every step of the server keeps the invariant and leaves the client alone. *)
Lemma server_step s l s' :
  inv s → (∀ r, l ≠ Client r) → sys_next s l = Some s' →
  inv s' ∧ client s' = client s ∧ hist s' = hist s.
Proof.
  intros [Hm (lost & Hb & Hs)] Hl. destruct l as [r|n|n|what|l]; [by destruct (Hl r)|..]; cbn.
  all: destruct (conn_no s) as [k|] eqn:Ek; cbn; try done.
  - intros (m & E & -> & Hm')%server_next_inv; [|done].
    destruct Hs as (c & Hc & E1 & E2). destruct (resume_read _ _ _ _ _ Hc E) as (c' & Hc' & E3 & E4).
    split; [|done]. split; [done|]. exists lost. split; [done|]. cbn. rewrite Ek.
    exists c'. rewrite E3, E4, <- app_assoc, (app_assoc (take _ _)), take_drop. done.
  - intros (m & E & -> & Hm')%server_next_inv; [|done].
    destruct Hs as (c & Hc & E1 & E2). destruct (resume_write _ _ _ _ _ Hc E) as (c' & Hc' & E3 & E4).
    split; [|done]. split; [done|]. exists lost. split; [done|]. cbn. rewrite Ek.
    exists c'. by rewrite E3, E4, E2, <- app_assoc.
  - intros (m & E & -> & Hm')%server_next_inv; [|done].
    destruct Hs as (c & Hc & E1 & E2). destruct (resume_fail _ _ _ _ _ Hc E) as (c' & Hc' & E3 & E4).
    split; [|done]. split; [done|]. exists lost. split; [done|]. cbn. rewrite Ek.
    exists c'. by rewrite E3, E4.
  - case_bool_decide as Hd; [done|]. intros (m & E & -> & Hm')%server_next_inv; [|done].
    destruct Hs as (c & Hc & E1 & E2).
    split; [|done]. split; [done|]. exists lost. split; [done|]. cbn. rewrite Ek.
    exists c. split; [|done]. eapply resume_other; [|done..]. intros Ha. destruct Hd. eauto.
  - intros (m & E & -> & Hm')%server_next_inv; [|done].
    split; [|done]. split; [done|]. exists lost. split; [done|]. cbn. by rewrite Ek.
Qed.

(** ** The client's steps *)

(** An answer that changes neither stream. *)
Lemma inv_quiet s e (r : extR e) (k : extR e → prog extR Z) s' :
  inv s → c_written e r = None → default [] (c_read e r) = [] →
  answer s k r (server s) (conn_no s) (c2s s) (s2c s) (broken s) = Some s' → inv s'.
Proof.
  intros [Hm (lost & Hb & Hs)] Hw Hr [= <-]. split; [done|]. exists lost. split; [done|]. cbn [hist conn_no server c2s s2c broken].
  rewrite written_snoc, was_read_snoc, Hw, Hr. cbn. by rewrite !app_nil_r.
Qed.

Lemma inv_connect s ip port (k : option Z → prog extR Z) stk m s' :
  inv s → conn_no s = None → resume (server s) (Accepted stk) = Some (Next m) →
  answer (e := ConnectTo ip port) s k None m (Some (length (conns (server s))))
         (c2s s) (s2c s) (broken s) = Some s' → inv s'.
Proof.
  intros [Hm (lost & Hb & Hs)] Hn Hr [= <-]. rewrite Hn in Hs. destruct Hs as (E1 & E2 & E3 & E4).
  split; [eapply rtc_r; [done|by econstructor]|]. exists lost. split; [done|]. cbn [hist conn_no server c2s s2c broken].
  rewrite written_snoc, was_read_snoc, E1, E2, E3, E4. cbn.
  unfold resume in Hr. destruct (running (server s)); cbn [negb] in Hr; [|done].
  case_decide; [|done]. injection Hr as <-. cbn [conns listener_accept]. eexists.
  split; [apply list_lookup_middle; done|]. cbn. by rewrite app_nil_r.
Qed.

Lemma inv_write s b (k : option Z → prog extR Z) r n bad s' :
  inv s → (bad = false → conn_no s ≠ None ∧ broken s = false ∧ take n b = b) →
  answer (e := WriteAll b) s k r (server s) (conn_no s)
    (c2s s ++ if bool_decide (conn_no s = None) || broken s then [] else take n b)
    (s2c s) bad = Some s' → inv s'.
Proof.
  intros [Hm (lost & Hb & Hs)] Hbad [= <-]. split; [done|]. unfold streams. cbn [hist conn_no server c2s s2c broken].
  rewrite written_snoc, was_read_snoc. cbn. rewrite app_nil_r.
  destruct (conn_no s) as [j|] eqn:Ej; cbn.
  - destruct Hs as (c & Hc & E1 & E2). rewrite E1.
    destruct (broken s) eqn:Ebr; cbn.
    + exists (lost ++ b). split; [intros [_ [? _]]%Hbad; done|]. exists c.
      rewrite app_nil_r, <- !app_assoc. done.
    + rewrite (Hb eq_refl), app_nil_r. exists (drop n b). split.
      * intros (_ & _ & E)%Hbad. rewrite <- E. apply drop_ge. rewrite length_take. lia.
      * exists c. by rewrite <- !app_assoc, take_drop.
  - destruct Hs as (E1 & E2 & E3 & E4). exists (lost ++ b). split; [intros [? _]%Hbad; done|].
    by rewrite E1, E2, E3, E4.
Qed.

Lemma inv_read s max (k : list Z * option Z → prog extR Z) n s' :
  inv s →
  answer (e := ReadSomeInto max) s k (take n (s2c s), None) (server s) (conn_no s)
    (c2s s) (drop n (s2c s)) (broken s) = Some s' → inv s'.
Proof.
  intros [Hm (lost & Hb & Hs)] [= <-]. split; [done|]. exists lost. split; [done|]. cbn [hist conn_no server c2s s2c broken].
  rewrite written_snoc, was_read_snoc. cbn. rewrite app_nil_r, <- app_assoc, take_drop.
  destruct (conn_no s); [done|]. destruct Hs as (E1 & E2 & E3 & E4). rewrite E4, take_nil, drop_nil.
  by rewrite E1, E2, E3.
Qed.

(** A step of the client keeps the invariant and the precondition of its rest. *)
Lemma client_step s r s' Q :
  inv s → wp anything (client s) Q (hist s) → client_next s r = Some s' →
  inv s' ∧ wp anything (client s') Q (hist s').
Proof.
  intros Hi Hw. unfold client_next. destruct (client s) as [z|e k|st] eqn:Ec; try done.
  cbn in Hw. destruct e as [ip port|b|max|l].
  - destruct r as [stk|err| | | | |]; try done.
    + destruct (conn_no s) eqn:En; [done|].
      destruct (resume (server s) (Accepted stk)) as [[m|]|] eqn:Er; try done.
      intros Ha. split; [by eapply inv_connect|]. injection Ha as <-. by apply Hw.
    + intros Ha. split; [eapply inv_quiet; [exact Hi| | |exact Ha]; done|]. injection Ha as <-. by apply Hw.
  - destruct r as [| | |n err| | |]; try done.
    + destruct (bool_decide (conn_no s = None) || broken s) eqn:Eb; [done|].
      intros Ha. split; [|injection Ha as <-; by apply Hw].
      apply orb_false_iff in Eb as [Eb1 Eb2]. apply (inv_write s b k None (length b) (broken s)); [done| |].
      * intros _. rewrite firstn_all. by apply bool_decide_eq_false in Eb1.
      * by rewrite Eb1, Eb2, firstn_all; cbn; rewrite Eb2 in Ha.
    + intros Ha. split; [eapply inv_write; [exact Hi| |exact Ha]; done|injection Ha as <-; by apply Hw].
  - destruct r as [| | | |n|err|]; try done.
    + case_decide as Hn; [|done]. intros Ha. split; [eapply inv_read; [exact Hi|exact Ha]|].
      injection Ha as <-. by apply Hw.
    + intros Ha. split; [eapply inv_quiet; [exact Hi| | |exact Ha]; done|]. injection Ha as <-. by apply Hw.
  - destruct r; try done. intros Ha. split; [eapply inv_quiet; [exact Hi| | |exact Ha]; done|]. injection Ha as <-. by apply Hw.
Qed.

Lemma sys_run_inv ls s s' Q :
  inv s → wp anything (client s) Q (hist s) → sys_run s ls = Some s' →
  inv s' ∧ wp anything (client s') Q (hist s').
Proof.
  revert s. induction ls as [|l ls IH]; intros s Hi Hw; cbn; [by intros [= <-]|].
  destruct (sys_next s l) as [s1|] eqn:E; cbn; [|done].
  destruct l as [r|n|n|what|l].
  1: destruct (client_step _ _ _ Q Hi Hw E) as [Hi1 Hw1]; by apply IH.
  all: eapply server_step in E as (Hi1 & Ec & Eh); [|done|done]; apply IH; [done|];
    by rewrite Ec, Eh.
Qed.

(** * Theorems *)

(** What a client that returns [z] has done, and what it got. *)
Definition finished (hh : trace extR) (z : Z) : Prop :=
  shown hh z ∧ was_read hh `prefix_of` written hh.

(** C5: a client of the echo server gets its own bytes back: however the client,
    its connection, the other connections and the kernel interleave, whatever
    pieces the streams deliver and wherever they fail, a client that ends has
    either not been connected, or it has written its message, and what it has
    read and shows is the beginning of that message, never the bytes of
    another connection. *)
Theorem client_sees_own_bytes m h ls s z :
  rtc step start m → sys_run (begin m h) ls = Some s → client s = Ret z →
  finished (hist s) z.
Proof.
  intros Hm Hr Hc. assert (inv (begin m h)) as Hi.
  { split; [done|]. exists []. by cbn. }
  destruct (sys_run_inv ls _ _ _ Hi (client_main_wp anything h) Hr) as [Hi' Hw].
  rewrite Hc in Hw. destruct Hw as (z' & [= <-] & Hf). split; [done|].
  etrans; [|by apply inv_prefix]. by apply prefix_app_r.
Qed.

(** A run with another connection whose bytes are on their way at the same time. *)
Definition sample : list slabel :=
  [Client (Connected (replicate 1024 0)); Client Written; Elsewhere (ReadSome 0 (bs "other"));
   Client Said; ServerReads 5; ServerWrites 2; Elsewhere (WriteSome 0 5); ServerWrites 3;
   Client (Received 4); Client Said; Client Said].

Definition other_client : machine :=
  match resume start (Accepted (replicate 1024 0)) with Some (Next m) => m | _ => start end.

Definition localhost : Sockets.host := {| Sockets.ip := bs "127.0.0.1"; Sockets.port := 3000 |}.

Lemma client_sees_own_bytes_witness :
  match sys_run (begin other_client localhost) sample with
  | Some s => client s = Ret 0 ∧ finished (hist s) 0 ∧ was_read (hist s) = bs "Hell"
  | None => False
  end.
Proof.
  destruct (sys_run (begin other_client localhost) sample) as [s|] eqn:E.
  - assert (client s = Ret 0 ∧ was_read (hist s) = bs "Hell") as [H1 H2].
    { vm_compute in E. injection E as <-. split; reflexivity. }
    split; [exact H1|]. split; [|exact H2].
    apply (client_sees_own_bytes other_client localhost sample s 0); [|exact E|exact H1].
    apply rtc_once. apply (step_resume _ (Accepted (replicate 1024 0))). vm_compute. reflexivity.
  - vm_compute in E. discriminate E.
Defined.

End AsioSystem.
