(* ===== verification/Tcp.v ===== *)
(** A server and its clients on a network.

    The server is a program over the system calls of [Posix]; the clients are
    programs over any calls that can be read as operations on one TCP connection
    (the class [TcpClient]).  A connection is what has gone through it: the bytes
    taken from the client, the chunks the server has read, the buffers it has
    written with the part that was taken, and the bytes the client has read.  The
    kernel gives out the bytes of a stream in order, in pieces of any size, takes
    any part of what is written, reuses a descriptor that was closed, and may
    fail any call.

    A server has a discipline when it answers every chunk by one write of a fixed
    function of the chunk on the same descriptor, before it reads, closes or
    accepts anything else ([talk]).  For such a server the streams of every
    connection are determined in every reachable configuration ([config_reach]); the
    theorems about pairs of programs are in Pairs.v.  [play] runs a configuration
    along a schedule. *)

From stdpp Require Import base list gmap strings.
From S2P Require Import Prelude Io Posix.

Local Open Scope Z_scope.
Local Open Scope cs_scope.

Module Tcp.

(** * The network *)

Record link := {
  owner : nat;                          (* the client *)
  sent : list Z;                        (* bytes taken from the client *)
  chunks : list (list Z);               (* read by the server *)
  replies : list (list Z * list Z);     (* written by the server, and the part taken *)
  received : list Z }.                  (* read by the client *)

Definition new_link (i : nat) : link :=
  {| owner := i; sent := []; chunks := []; replies := []; received := [] |}.

Definition with_sent (l : link) (b : list Z) : link :=
  {| owner := owner l; sent := sent l ++ b; chunks := chunks l; replies := replies l;
     received := received l |}.
Definition with_chunk (l : link) (d : list Z) : link :=
  {| owner := owner l; sent := sent l; chunks := chunks l ++ [d]; replies := replies l;
     received := received l |}.
Definition with_reply (l : link) (b taken : list Z) : link :=
  {| owner := owner l; sent := sent l; chunks := chunks l; replies := replies l ++ [(b, taken)];
     received := received l |}.
Definition with_received (l : link) (d : list Z) : link :=
  {| owner := owner l; sent := sent l; chunks := chunks l; replies := replies l;
     received := received l ++ d |}.

(** The bytes on the way back. *)
Definition returned (l : link) : list Z := concat (snd <$> replies l).

(** The connections in the order they were made, how many of them the server has
    accepted, and its descriptors for them. *)
Record net := { links : list link; accepted : nat; fds : gmap Z nat }.

Definition with_links (n : net) (ls : list link) : net :=
  {| links := ls; accepted := accepted n; fds := fds n |}.

(** ** The calls of the server *)

(** A write of [b] on [fd] that returned [z]. *)
Definition net_write (n : net) (fd : Z) (b : list Z) (z : Z) : option net :=
  match fds n !! fd with
  | None => Some n
  | Some k =>
      l ← links n !! k;
      Some (with_links n (<[k := with_reply l b (take (Z.to_nat z) b)]> (links n)))
  end.

(** [None]: the kernel does not answer so. *)
Definition net_server (n : net) (e : sys) : sysR e → option net :=
  match e return sysR e → option net with
  | Accept _ => λ r,
      if ret r.1 <? 0 then Some n
      else if decide (accepted n < length (links n))%nat then
        match fds n !! ret r.1 with
        | None => Some {| links := links n; accepted := S (accepted n);
                          fds := <[ret r.1 := accepted n]> (fds n) |}
        | Some _ => None
        end
      else None
  | Read fd _ => λ r,
      if 0 <? rret r then
        k ← fds n !! fd;
        l ← links n !! k;
        if decide ((concat (chunks l) ++ rdata r) `prefix_of` sent l)
        then Some (with_links n (<[k := with_chunk l (rdata r)]> (links n)))
        else None
      else Some n
  | Write fd b => λ r, net_write n fd b (ret r)
  | Send fd b _ => λ r, net_write n fd b (ret r)
  | Close fd => λ _,
      Some {| links := links n; accepted := accepted n; fds := delete fd (fds n) |}
  | Socket _ _ _ => λ r, if decide (fds n !! ret r = None) then Some n else None
  | EpollCreate _ => λ r, if decide (fds n !! ret r = None) then Some n else None
  | Pipe => λ r,
      if decide (fds n !! r.2.1 = None ∧ fds n !! r.2.2 = None) then Some n else None
  | _ => λ _, Some n
  end.

(** ** The calls of a client *)

(** What a call of a client does to its connection. *)
Inductive action :=
  | Connects
  | Sends (b : list Z)        (* the bytes the kernel takes *)
  | Receives (d : list Z)
  | Nothing.

(** [acts e r a]: the call [e] that returns [r] can do [a]; [given] is what such
    a call hands to the kernel and [taken] what it gets. *)
Class TcpClient {E : Type} (R : E → Type) := {
  acts : ∀ e, R e → action → Prop;
  given : ∀ e, R e → option (list Z);
  taken : ∀ e, R e → option (list Z) }.

(** The kernel takes a part of what is given, and gives what is taken. *)
Class TcpClientLaws {E : Type} (R : E → Type) `{TcpClient E R} : Prop := {
  acts_sends e (r : R e) b :
    acts e r (Sends b) → default [] (taken e r) = [] ∧ ∃ g, given e r = Some g ∧ b `prefix_of` g;
  acts_receives e (r : R e) d :
    acts e r (Receives d) → given e r = None ∧ default [] (taken e r) = d;
  acts_other e (r : R e) :
    acts e r Connects ∨ acts e r Nothing → given e r = None ∧ default [] (taken e r) = [] }.

(** The effect on the network and on the number of the client's connection; a
    client makes at most one. *)
Definition net_client (n : net) (i : nat) (no : option nat) (a : action)
    : option (net * option nat) :=
  match a, no with
  | Nothing, _ => Some (n, no)
  | Connects, None => Some (with_links n (links n ++ [new_link i]), Some (length (links n)))
  | Connects, Some _ => None
  | Sends b, Some k =>
      l ← links n !! k;
      Some (with_links n (<[k := with_sent l b]> (links n)), no)
  | Sends b, None => if decide (b = []) then Some (n, no) else None
  | Receives d, Some k =>
      l ← links n !! k;
      if decide ((received l ++ d) `prefix_of` returned l)
      then Some (with_links n (<[k := with_received l d]> (links n)), no)
      else None
  | Receives d, None => if decide (d = []) then Some (n, no) else None
  end.

(** * Configurations *)

Section config.
Context {E : Type} {R : E → Type} `{TcpClient E R} {A B : Type}.

Record proc := { code : prog R B; past : trace R; link_no : option nat }.

Record config := {
  server : prog sysR A; history : systrace; network : net; clients : list proc }.

Definition start (s : prog sysR A) (cs : list (prog R B)) : config :=
  {| server := s; history := []; network := {| links := []; accepted := 0; fds := ∅ |};
     clients := (λ p, {| code := p; past := []; link_no := None |}) <$> cs |}.

Inductive step : config → config → Prop :=
  | server_step c e k r n :
      server c = Call e k → sys_ok (history c) e r → net_server (network c) e r = Some n →
      step c {| server := k r; history := history c ++ [Ev e r]; network := n;
                clients := clients c |}
  | client_step c i p e k r a n no :
      clients c !! i = Some p → code p = Call e k → acts e r a →
      net_client (network c) i (link_no p) a = Some (n, no) →
      step c {| server := server c; history := history c; network := n;
                clients := <[i := {| code := k r; past := past p ++ [Ev e r]; link_no := no |}]>
                             (clients c) |}.

(** ** Running a configuration

    [w] answers the server, [cw] the clients with the action that goes with the
    answer; a schedule says who makes a call. *)

Inductive turn := Server | Client (i : nat).

Section play.
Context (w : env sysR) (cw : trace R → ∀ e, R e * action).

Definition turn_step (c : config) (t : turn) : option config :=
  match t with
  | Server =>
      match server c with
      | Call e k =>
          let r := w (history c) e in
          n ← net_server (network c) e r;
          Some {| server := k r; history := history c ++ [Ev e r]; network := n;
                  clients := clients c |}
      | _ => None
      end
  | Client i =>
      p ← clients c !! i;
      match code p with
      | Call e k =>
          let ra := cw (past p) e in
          '(n, no) ← net_client (network c) i (link_no p) ra.2;
          Some {| server := server c; history := history c; network := n;
                  clients := <[i := {| code := k ra.1; past := past p ++ [Ev e ra.1];
                                       link_no := no |}]> (clients c) |}
      | _ => None
      end
  end.

Fixpoint play (c : config) (ts : list turn) : option config :=
  match ts with
  | [] => Some c
  | t :: ts' => c' ← turn_step c t; play c' ts'
  end.

Context (Hw : env_ok sys_ok w) (Hcw : ∀ h e, acts e (cw h e).1 (cw h e).2).

Lemma turn_step_step c t c' : turn_step c t = Some c' → step c c'.
Proof.
  destruct t as [|i]; cbn.
  - destruct (server c) as [a|e k|s] eqn:Es; try done.
    destruct (net_server _ _ _) as [n|] eqn:En; [|done]. cbn. intros [= <-].
    by eapply server_step.
  - destruct (clients c !! i) as [p|] eqn:Ep; [|done]. cbn.
    destruct (code p) as [a|e k|s] eqn:Ec; try done.
    destruct (net_client _ _ _ _) as [[n no]|] eqn:En; [|done]. cbn. intros [= <-].
    by eapply client_step.
Qed.

Lemma play_rtc c ts c' : play c ts = Some c' → rtc step c c'.
Proof.
  revert c. induction ts as [|t ts IH]; intros c; cbn; [intros [= <-]; apply rtc_refl|].
  destruct (turn_step c t) as [c1|] eqn:Et; [|done]. cbn. intros Hp.
  eapply rtc_l; [by eapply turn_step_step|by apply IH].
Qed.

End play.

End config.
Arguments proc {E} R B.
Arguments config {E} R A B.

(** * The discipline of a server *)

Section discipline.
(** The answer to a chunk. *)
Context (resp : list Z → list Z).

(** The descriptor and the chunk that still have to be answered. *)
Definition expect : Type := option (Z * list Z).

Definition talk1 (st : option expect) (ev : event sysR) : option expect :=
  p ← st;
  match ev with
  | Ev e r =>
      match e return sysR e → option expect with
      | Read fd _ => λ r,
          if 0 <? rret r then
            match p with None => Some (Some (fd, rdata r)) | Some _ => None end
          else Some p
      | Write fd b => λ _,
          '(fd', d) ← p;
          if decide (fd = fd' ∧ b = resp d) then Some None else None
      | Close _ => λ _, match p with None => Some None | Some _ => None end
      | Send _ _ _ => λ _, None
      | _ => λ _, Some p
      end r
  end.

(** [None] when the history breaks the discipline. *)
Definition talk (h : systrace) : option expect := foldl talk1 (Some None) h.

Lemma talk_snoc h ev : talk (h ++ [ev]) = talk1 (talk h) ev.
Proof. unfold talk. by rewrite foldl_app. Qed.

Lemma talk_prefix h h' : h `prefix_of` h' → is_Some (talk h') → is_Some (talk h).
Proof.
  intros [t ->]. induction t as [|ev t IH] using rev_ind; [by rewrite app_nil_r|].
  rewrite app_assoc, talk_snoc. intros Ht. apply IH. by destruct (talk (h ++ t)); [|destruct Ht].
Qed.

(** A program that keeps the discipline to the end keeps it now. *)
Lemma talk_now {A} (p : prog sysR A) h :
  wp sys_ok p (λ h' _, is_Some (talk h')) h → is_Some (talk h).
Proof.
  apply (wp_now _ (small_world 0 [])); [by apply small_world_ok|]. intros ??. apply talk_prefix.
Qed.

(** Nothing is to be answered. *)
Definition at_rest (h : systrace) : Prop := talk h = Some None.

(** The calls that do not matter to the discipline. *)
Definition calm (e : sys) : bool :=
  match e with Read _ _ | Write _ _ | Send _ _ _ | Close _ => false | _ => true end.

Lemma rest_calm h e r : calm e = true → at_rest h → at_rest (h ++ [Ev e r]).
Proof. unfold at_rest. rewrite talk_snoc. intros He ->. by destruct e. Qed.

Lemma rest_close h fd r : at_rest h → at_rest (h ++ [Ev (Close fd) r]).
Proof. unfold at_rest. rewrite talk_snoc. by intros ->. Qed.

Lemma rest_no_data h fd n r : rret r ≤ 0 → at_rest h → at_rest (h ++ [Ev (Read fd n) r]).
Proof.
  unfold at_rest. rewrite talk_snoc. intros Hr ->. cbn. by destruct (Z.ltb_spec 0 (rret r)); [lia|].
Qed.

(** A chunk has been read. *)
Definition answering (h : systrace) (fd : Z) (d : list Z) : Prop := talk h = Some (Some (fd, d)).

Lemma rest_data h fd n r :
  0 < rret r → at_rest h → answering (h ++ [Ev (Read fd n) r]) fd (rdata r).
Proof.
  unfold at_rest, answering. rewrite talk_snoc. intros Hr ->. cbn.
  by destruct (Z.ltb_spec 0 (rret r)); [|lia].
Qed.

Lemma answering_calm h fd d e r :
  calm e = true → answering h fd d → answering (h ++ [Ev e r]) fd d.
Proof. unfold answering. rewrite talk_snoc. intros He ->. by destruct e. Qed.

Lemma answering_write h fd d r :
  answering h fd d → at_rest (h ++ [Ev (Write fd (resp d)) r]).
Proof. unfold answering, at_rest. rewrite talk_snoc. intros ->. cbn. by rewrite decide_True. Qed.

Lemma rest_talk h : at_rest h → is_Some (talk h).
Proof. unfold at_rest. intros ->. eauto. Qed.

Lemma answering_talk h fd d : answering h fd d → is_Some (talk h).
Proof. unfold answering. intros ->. eauto. Qed.

(** ** The streams of a disciplined server *)

(** What the connection [k] is still owed. *)
Definition owed (st : expect) (n : net) (k : nat) : list (list Z) :=
  match st with
  | Some (fd, d) => if decide (fds n !! fd = Some k) then [resp d] else []
  | None => []
  end.

(** One connection: the server reads what the client sent and answers each
    chunk, and the client reads what was taken of the answers. *)
Record link_ok (st : expect) (n : net) (k : nat) (l : link) : Prop := {
  l_replies : (fst <$> replies l) ++ owed st n k = resp <$> chunks l;
  l_chunks : concat (chunks l) `prefix_of` sent l;
  l_taken : Forall (λ bt, bt.2 `prefix_of` bt.1) (replies l);
  l_received : received l `prefix_of` returned l }.

Record net_ok (st : expect) (n : net) : Prop := {
  n_links k l : links n !! k = Some l → link_ok st n k l;
  n_fds fd k : fds n !! fd = Some k → (k < accepted n)%nat;
  n_accepted : (accepted n ≤ length (links n))%nat;
  n_expect fd d : st = Some (fd, d) → is_Some (fds n !! fd) }.

(** A network with the same connections and descriptors. *)
Lemma net_ok_set st n k l :
  net_ok st n → (k < length (links n))%nat → link_ok st n k l →
  net_ok st (with_links n (<[k := l]> (links n))).
Proof.
  intros [H1 H2 H3 H4] Hk Hl. split; cbn; rewrite ?length_insert; auto.
  intros j l' [(<- & <- & _)|[_ Hj]]%list_lookup_insert_Some.
  - by destruct Hl.
  - by destruct (H1 _ _ Hj).
Qed.

Lemma net_accept st n fd :
  net_ok st n → (accepted n < length (links n))%nat → fds n !! fd = None →
  net_ok st {| links := links n; accepted := S (accepted n); fds := <[fd := accepted n]> (fds n) |}.
Proof.
  intros [H1 H2 H3 H4] Hn Hfd.
  assert (∀ k, owed st {| links := links n; accepted := S (accepted n);
                          fds := <[fd := accepted n]> (fds n) |} k = owed st n k) as Ho.
  { intros k. destruct st as [[fd' d]|]; [|done]. cbn. destruct (H4 _ _ eq_refl) as [j Hj].
    rewrite lookup_insert_ne by congruence. done. }
  split; cbn.
  - intros k l Hk. destruct (H1 _ _ Hk) as [L1 L2 L3 L4]. split; auto. by rewrite Ho.
  - intros fd' k [[<- <-]|[_ Hk]]%lookup_insert_Some; [lia|]. apply H2 in Hk. lia.
  - done.
  - intros fd' d Hd. destruct (H4 _ _ Hd) as [j Hj]. rewrite lookup_insert_ne by congruence. eauto.
Qed.

Lemma net_close n fd :
  net_ok None n →
  net_ok None {| links := links n; accepted := accepted n; fds := delete fd (fds n) |}.
Proof.
  intros [H1 H2 H3 H4]. split; cbn; try done.
  - intros k l Hk. by destruct (H1 _ _ Hk).
  - intros fd' k [_ Hk]%lookup_delete_Some. by apply H2 in Hk.
Qed.

Lemma net_read n fd k l d :
  net_ok None n → fds n !! fd = Some k → links n !! k = Some l →
  (concat (chunks l) ++ d) `prefix_of` sent l →
  net_ok (Some (fd, d)) (with_links n (<[k := with_chunk l d]> (links n))).
Proof.
  intros [H1 H2 H3 H4] Hfd Hl Hp. split; cbn; rewrite ?length_insert; auto.
  - intros j l' [(<- & <- & _)|[Hne Hj]]%list_lookup_insert_Some.
    + destruct (H1 _ _ Hl) as [L1 L2 L3 L4]. split; cbn; auto.
      * cbn in L1. rewrite app_nil_r in L1. by rewrite decide_True, fmap_app, L1.
      * by rewrite concat_app; cbn; rewrite app_nil_r.
    + destruct (H1 _ _ Hj) as [L1 L2 L3 L4]. split; auto. cbn in *.
      rewrite decide_False by congruence. done.
  - intros ?? [= <- <-]. eauto.
Qed.

Lemma net_reply n fd d k l z :
  net_ok (Some (fd, d)) n → fds n !! fd = Some k → links n !! k = Some l →
  net_ok None (with_links n (<[k := with_reply l (resp d) (take z (resp d))]> (links n))).
Proof.
  intros [H1 H2 H3 H4] Hfd Hl. split; cbn; rewrite ?length_insert; auto; [|done].
  intros j l' [(<- & <- & _)|[Hne Hj]]%list_lookup_insert_Some.
  - destruct (H1 _ _ Hl) as [L1 L2 L3 L4]. cbn in L1. rewrite decide_True in L1 by done.
    split; cbn; auto.
    + by rewrite app_nil_r, fmap_app.
    + apply Forall_app. split; [done|]. constructor; [|done]. apply prefix_take.
    + unfold returned in *. cbn. rewrite fmap_app, concat_app. by apply prefix_app_r.
  - destruct (H1 _ _ Hj) as [L1 L2 L3 L4]. split; auto. cbn in L1.
    by rewrite decide_False in L1 by congruence.
Qed.

(** Every answer of the kernel to a disciplined call keeps the streams. *)
Lemma net_server_ok st st' n n' e r :
  net_ok st n → talk1 (Some st) (Ev e r) = Some st' → net_server n e r = Some n' → net_ok st' n'.
Proof.
  intros Hn. destruct e; cbn; intros Ht Hs; simplify_eq; try done.
  - repeat case_decide; by simplify_eq.
  - destruct (ret r.1 <? 0); [by simplify_eq|]. case_decide; [|done].
    destruct (fds n !! ret r.1) eqn:Efd; [done|]. simplify_eq. by apply net_accept.
  - destruct (0 <? rret r); [|by simplify_eq]. destruct st; [done|].
    destruct (fds n !! fd) as [k|] eqn:Efd; [|done]. cbn in Hs.
    destruct (links n !! k) as [l|] eqn:El; [|done]. cbn in Hs.
    case_decide; [|done]. simplify_eq. by apply net_read.
  - destruct st as [[fd' d]|]; [|done]. cbn in Ht. case_decide as Hd; [|done]. destruct Hd as [-> ->].
    simplify_eq. destruct (n_expect _ _ Hn _ _ eq_refl) as [k Hk]. unfold net_write in Hs.
    rewrite Hk in Hs. destruct (links n !! k) as [l|] eqn:El; [|done]. cbn in Hs. simplify_eq.
    by eapply net_reply.
  - destruct st; [done|]. simplify_eq. by apply net_close.
  - case_decide; by simplify_eq.
  - case_decide; by simplify_eq.
Qed.

End discipline.

#[export] Hint Resolve rest_calm rest_close rest_no_data rest_data answering_calm
  answering_write rest_talk answering_talk : cs.

(** * Clients *)

Section clients.
Context {E : Type} {R : E → Type} `{TcpClient E R, !TcpClientLaws R} {A B : Type}.
Context (resp : list Z → list Z).

(** The connection of the client [i] holds what its calls gave and took: a part
    of each buffer given, and all that was taken. *)
Definition client_ok (n : net) (i : nat) (p : proc R B) : Prop :=
  ∃ parts, Forall2 prefix parts (view given (past p)) ∧
  match link_no p with
  | None => concat parts = [] ∧ concat (view taken (past p)) = []
  | Some k => ∃ l, links n !! k = Some l ∧ owner l = i ∧ sent l = concat parts ∧
                   received l = concat (view taken (past p))
  end.

(** What a client sees of a connection. *)
Definition same_ends (l l' : link) : Prop :=
  owner l' = owner l ∧ sent l' = sent l ∧ received l' = received l.

Lemma client_ok_frame n n' i p :
  (∀ k l, links n !! k = Some l → owner l = i →
          ∃ l', links n' !! k = Some l' ∧ same_ends l l') →
  client_ok n i p → client_ok n' i p.
Proof.
  intros Hf (parts & HF & Hp). exists parts. split; [done|]. destruct (link_no p) as [k|]; [|done].
  destruct Hp as (l & Hl & Ho & Hs & Hr). destruct (Hf _ _ Hl Ho) as (l' & Hl' & E1 & E2 & E3).
  exists l'. by rewrite E1, E2, E3.
Qed.

(** The server does not change the ends of the clients. *)
Lemma net_server_ends n n' e r k l :
  net_server n e r = Some n' → links n !! k = Some l →
  ∃ l', links n' !! k = Some l' ∧ same_ends l l'.
Proof.
  assert (∀ j l0 l1, links n !! j = Some l0 → same_ends l0 l1 → links n !! k = Some l →
    ∃ l', <[j := l1]> (links n) !! k = Some l' ∧ same_ends l l') as Hset.
  { intros j l0 l1 Hj He Hk. destruct (decide (j = k)) as [->|].
    - exists l1. rewrite list_lookup_insert_eq by (by eapply lookup_lt_Some). by simplify_eq.
    - exists l. by rewrite list_lookup_insert_ne. }
  assert (∀ fd b z, net_write n fd b z = Some n' → links n !! k = Some l →
    ∃ l', links n' !! k = Some l' ∧ same_ends l l') as Hwr.
  { intros fd b z. unfold net_write. destruct (fds n !! fd) as [j|]; [|intros; simplify_eq; by exists l].
    destruct (links n !! j) as [l0|] eqn:Ej; [|done]. cbn. intros [= <-]. by apply (Hset j l0). }
  destruct e; cbn; intros Hs Hk; try (by simplify_eq; exists l); try (by eapply Hwr).
  - repeat case_decide; simplify_eq; by exists l.
  - destruct (ret r.1 <? 0); [simplify_eq; by exists l|]. case_decide; [|done].
    destruct (fds n !! ret r.1); simplify_eq. by exists l.
  - destruct (0 <? rret r); [|simplify_eq; by exists l].
    destruct (fds n !! fd) as [j|]; [|done]. cbn in Hs.
    destruct (links n !! j) as [l0|] eqn:Ej; [|done]. cbn in Hs. case_decide; [|done].
    simplify_eq. by apply (Hset j l0).
  - case_decide; simplify_eq; by exists l.
  - case_decide; simplify_eq; by exists l.
Qed.

Definition got (h : trace R) : list Z := concat (view taken h).

Lemma got_snoc h e r : got (h ++ [Ev e r]) = got h ++ default [] (taken e r).
Proof. unfold got. rewrite view_snoc, concat_app. destruct (taken e r); cbn; by rewrite ?app_nil_r. Qed.

(** A change of the connection of [i] is not seen by the others. *)
Lemma others_ok n k l l' i j q :
  links n !! k = Some l → owner l = i → j ≠ i →
  client_ok n j q → client_ok (with_links n (<[k := l']> (links n))) j q.
Proof.
  intros Hl Ho Hj. apply client_ok_frame. intros k' l0 Hl0 Ho0. exists l0. split; [|done]. cbn.
  rewrite list_lookup_insert_ne; [done|]. intros ->. congruence.
Qed.

(** The three actions. *)
Lemma connect_ok st n i :
  net_ok resp st n → net_ok resp st (with_links n (links n ++ [new_link i])).
Proof.
  intros [H1 H2 H3 H4]. split; cbn; rewrite ?length_app; auto with lia.
  intros j l [Hj|[Hj Hl]]%lookup_app_Some; [by destruct (H1 _ _ Hj)|].
  apply list_lookup_singleton_Some in Hl as [Hz <-]. split; cbn; try done.
  destruct st as [[fd d]|]; [|done]. cbn. rewrite decide_False; [done|]. intros Hk%H2. lia.
Qed.

Lemma send_ok st n k l b :
  net_ok resp st n → links n !! k = Some l →
  net_ok resp st (with_links n (<[k := with_sent l b]> (links n))).
Proof.
  intros Hn Hl. apply net_ok_set; [done|by eapply lookup_lt_Some|].
  destruct (n_links _ _ _ Hn _ _ Hl) as [L1 L2 L3 L4]. split; cbn; auto. by apply prefix_app_r.
Qed.

Lemma receive_ok st n k l d :
  net_ok resp st n → links n !! k = Some l → (received l ++ d) `prefix_of` returned l →
  net_ok resp st (with_links n (<[k := with_received l d]> (links n))).
Proof.
  intros Hn Hl Hd. apply net_ok_set; [done|by eapply lookup_lt_Some|].
  by destruct (n_links _ _ _ Hn _ _ Hl).
Qed.

(** A call of the client [i] keeps the streams, its own ends and those of the
    others. *)
Lemma net_client_ok st n n' i p e k r a no :
  net_ok resp st n → client_ok n i p → acts e r a →
  net_client n i (link_no p) a = Some (n', no) →
  net_ok resp st n' ∧
  client_ok n' i {| code := k r; past := past p ++ [Ev e r]; link_no := no |} ∧
  ∀ j q, j ≠ i → client_ok n j q → client_ok n' j q.
Proof.
  intros Hn (parts & HF & Hp) Ha. unfold client_ok at 1. cbn [past link_no].
  fold (got (past p ++ [Ev e r])). fold (got (past p)) in Hp. rewrite got_snoc, view_snoc.
  destruct a as [|b|d|]; cbn [net_client].
  - destruct (acts_other e r) as [-> ->]; [by left|]. rewrite !app_nil_r.
    destruct (link_no p); [done|]. intros [= <- <-]. destruct Hp as [E1 E2].
    split; [by apply connect_ok|]. split.
    + exists parts. split; [done|]. exists (new_link i). cbn. rewrite E1, E2.
      by rewrite lookup_app_r, Nat.sub_diag by lia.
    + intros j q Hj. apply client_ok_frame. intros j' l Hl _. exists l.
      split; [by apply lookup_app_l_Some|done].
  - destruct (acts_sends e r b Ha) as (-> & g & -> & Hb). rewrite app_nil_r.
    destruct (link_no p) as [j|].
    + destruct Hp as (l & Hl & Ho & Hs & Hr). rewrite Hl. intros [= <- <-].
      split; [by apply send_ok|]. split; [|intros; by eapply others_ok].
      exists (parts ++ [b]). split; [by apply Forall2_app; [|constructor]|].
      exists (with_sent l b). cbn. rewrite list_lookup_insert_eq by (by eapply lookup_lt_Some).
      by rewrite Hs, concat_app; cbn; rewrite app_nil_r.
    + case_decide as Hd; [|done]. subst b. intros [= <- <-]. split_and!; try done.
      exists (parts ++ [[]]). split; [by apply Forall2_app; [|constructor]|].
      rewrite concat_app. cbn. by rewrite !app_nil_r.
  - destruct (acts_receives e r d Ha) as (-> & ->). rewrite app_nil_r.
    destruct (link_no p) as [j|].
    + destruct Hp as (l & Hl & Ho & Hs & Hr). rewrite Hl. cbn. case_decide; [|done]. intros [= <- <-].
      split; [by apply receive_ok|]. split; [|intros; by eapply others_ok].
      exists parts. split; [done|]. exists (with_received l d). cbn.
      rewrite list_lookup_insert_eq by (by eapply lookup_lt_Some). by rewrite Hr.
    + case_decide as Hd; [|done]. subst d. intros [= <- <-]. rewrite app_nil_r.
      split_and!; try done. by exists parts.
  - destruct (acts_other e r) as [-> ->]; [by right|]. rewrite !app_nil_r. intros [= <- <-].
    split_and!; try done. by exists parts.
Qed.

(** * What holds in every reachable configuration *)

Record inv (Q : trace R → outcome B → Prop) (c : config R A B) : Prop := {
  i_net : ∃ st, talk resp (history c) = Some st ∧ net_ok resp st (network c);
  i_server : wp sys_ok (server c) (λ h _, is_Some (talk resp h)) (history c);
  i_clients i p : clients c !! i = Some p →
    client_ok (network c) i p ∧ wp anything (code p) Q (past p) }.

Lemma config_step Q c c' : inv Q c → step c c' → inv Q c'.
Proof.
  intros [(st & Ht & Hn) Hs Hc] Hstep. destruct Hstep as [c e k r n Ec Hr En|c i p e k r a n no Hi Ec Ha En].
  - rewrite Ec in Hs. cbn in Hs. specialize (Hs r Hr).
    destruct (talk_now resp _ _ Hs) as [st' Ht']. split; cbn; [|done|].
    + exists st'. split; [done|]. rewrite talk_snoc, Ht in Ht'. by eapply net_server_ok.
    + intros i p Hi. destruct (Hc _ _ Hi) as [H1 H2]. split; [|done].
      eapply client_ok_frame; [|exact H1]. intros k' l Hl _. by eapply net_server_ends.
  - destruct (Hc _ _ Hi) as [H1 H2]. rewrite Ec in H2.
    destruct (net_client_ok st _ _ i p e k r a no Hn H1 Ha En) as (Hn' & H1' & Hoth).
    split; cbn; [eauto|done|].
    intros j q [(<- & <- & _)|[Hne Hj]]%list_lookup_insert_Some.
    + split; [done|]. cbn. by apply H2.
    + destruct (Hc _ _ Hj). auto.
Qed.

Lemma config_start Q s cs :
  wp sys_ok s (λ h _, is_Some (talk resp h)) [] → Forall (λ p, wp anything p Q []) cs →
  inv Q (start s cs).
Proof.
  intros Hs Hcs. split; cbn; [|done|].
  - exists None. split; [done|]. by split.
  - intros i p Hi. rewrite list_lookup_fmap in Hi. apply fmap_Some in Hi as (q & Hq & ->).
    split; cbn; [|by eapply Forall_lookup_1 in Hcs]. exists []. by split; [constructor|].
Qed.

Lemma config_reach Q s cs c :
  wp sys_ok s (λ h _, is_Some (talk resp h)) [] → Forall (λ p, wp anything p Q []) cs →
  rtc step (start s cs) c → inv Q c.
Proof.
  intros Hs Hcs Hr. assert (inv Q (start s cs)) as Hi by (by apply config_start).
  revert Hi. induction Hr as [|c1 c2 c3 H12 _ IH]; [done|]. intros Hi. by eapply IH, config_step.
Qed.

End clients.

End Tcp.
