(* ===== verification/Pairs.v ===== *)
(** Servers of the repository with its clients, on the network of [Tcp].

    The epoll server and the plain TCP server have the discipline of [Tcp], with
    the chunk itself and the fixed reply as the answer; the Asio client and the
    plain TCP client are clients of it.  The theorems say what a client gets from
    each server, with any number of other clients at the same time. *)

From stdpp Require Import base list gmap strings.
From S2P Require Import Prelude Io Posix CLib Sockets Epoll Asio Tcp.

Local Open Scope Z_scope.
Local Open Scope cs_scope.

Module Pairs.

(** * The epoll server answers with what it read *)

Definition rested (resp : list Z → list Z) {A} (h : systrace) (o : outcome A) : Prop :=
  match o with
  | Val _ => Tcp.at_rest resp h
  | Stopped _ => is_Some (Tcp.talk resp h)
  end.

Lemma rested_talk resp {A} h (o : outcome A) : rested resp h o → is_Some (Tcp.talk resp h).
Proof. destruct o; cbn; eauto with cs. Qed.

(** Steps of a proof: calls that do not matter. *)
Ltac calm := repeat (apply Tcp.rest_calm; [reflexivity|]).

Lemma epoll_read_loop fuel conn h :
  Tcp.at_rest id h → wp sys_ok (Epoll.read_loop fuel conn) (rested id) h.
Proof.
  revert h. induction fuel as [|fuel IH]; intros h Hh; cbn [Epoll.read_loop]; [cbn; eauto with cs|].
  destruct conn as [fd|]; [|cbn; eauto with cs]. apply wp_bind. cbn [wp call]. intros r Hr. cbn [seq_post].
  destruct (Z.ltb_spec (rret r) 0); [|destruct (Z.ltb_spec 0 (rret r))].
  - cbn. intros [] _. calm. by apply Tcp.rest_no_data; [lia|].
  - assert (Hd := Tcp.rest_data id h fd Epoll.BUF_SIZE r ltac:(done) Hh).
    destruct (cstr _); [|cbn; eauto with cs]. cbn [bind print wp]. intros [] _ w _.
    rewrite (Epoll.read_data sys_ok ltac:(done) fd h r) by done.
    assert (Tcp.at_rest id (((h ++ [Ev (Read fd Epoll.BUF_SIZE) r]) ++ [Ev (Print [T "data "; B l]) ()]) ++
      [Ev (Write fd (rdata r)) w])) as Hh' by (by apply (Tcp.answering_write id _ _ (rdata r)), Tcp.answering_calm).
    cbn [bind]. destruct (ret w <? 0); [cbn; intros [] _; by calm|by apply IH].
  - cbn. intros [] _. calm. by apply Tcp.rest_no_data; [lia|].
Qed.

Lemma epoll_handle_event ls ep fuel conn ev h :
  Tcp.at_rest id h → wp sys_ok (Epoll.handle_event ls ep fuel conn ev) (rested id) h.
Proof.
  intros Hh. unfold Epoll.handle_event. apply wp_bind. eapply (wp_mono _ _ (rested id)).
  - intros h' [conn'|s] Hr; cbn in *; [|done]. destruct (negb _); [|done].
    cbn. intros [] _ r _ r' _. apply Tcp.rest_close. by calm.
  - destruct (_ =? ls).
    + cbn. intros a _ g _ s _. destruct (ret s =? -1); cbn; intros [] _; [apply Tcp.rest_talk; by calm|].
      intros c _. destruct (ret c =? -1); cbn; [intros [] _; apply Tcp.rest_talk; by calm|by calm].
    + destruct (negb _); [|cbn; intros [] _; by calm].
      apply wp_bind. eapply wp_mono; [|by apply epoll_read_loop]. by intros h' [[]|s].
Qed.

Lemma epoll_handle_events ls ep fuel conn evs h :
  Tcp.at_rest id h → wp sys_ok (Epoll.handle_events ls ep fuel conn evs) (rested id) h.
Proof.
  revert conn h. induction evs as [|ev evs IH]; intros conn h Hh; [done|]. cbn [Epoll.handle_events].
  apply wp_bind. eapply wp_mono; [|by apply epoll_handle_event].
  intros h' [conn'|s] Hr; [by apply IH|done].
Qed.

Lemma epoll_disciplined rounds fuel :
  wp sys_ok (Epoll.main rounds fuel) (λ h _, is_Some (Tcp.talk id h)) [].
Proof.
  eapply wp_mono; [intros h o; apply (rested_talk id h o)|]. unfold Epoll.main.
  assert (Tcp.at_rest id []) as H0 by done. apply wp_bind.
  apply (wp_mono _ _ (rested id)).
  - intros h [[ls ep]|s] Hr; [|done]. cbn in Hr |- *.
    eapply wp_mono; [|apply (wp_iterate _ rounds _ (λ h _, Tcp.at_rest id h)
      (λ h _, is_Some (Tcp.talk id h))); [|exact Hr]]; [by intros h' []|].
    intros h' conn Hh'. unfold Epoll.round. cbn. intros r _.
    eapply wp_mono; [|apply epoll_handle_events; by calm]. by intros h'' [].
  - unfold Epoll.setup. cbn. intros s _ b _ g _ f _.
    destruct (ret f =? -1); cbn; [intros [] _; by eexists|].
    intros l _. destruct (ret l <? 0); cbn; [intros [] _; by eexists|].
    intros e _ c _. destruct (ret c =? -1); cbn; [intros [] _; by eexists|done].
Qed.

(** * The plain server answers with its reply *)

Definition fixed (d : list Z) : list Z := Sockets.reply.

Lemma plain_serve_client fuel fd buf h :
  Tcp.at_rest fixed h → wp sys_ok (Sockets.serve_client fuel fd buf) (rested fixed) h.
Proof.
  revert buf h. induction fuel as [|fuel IH]; intros buf h Hh; cbn; [eauto with cs|].
  intros r _. destruct (Z.ltb_spec 0 (rret r)) as [Hr|Hr]; cbn; [|by apply Tcp.rest_no_data].
  intros w _. assert (Tcp.at_rest fixed ((h ++ [Ev (Read fd Sockets.BUF) r]) ++
    [Ev (Write fd Sockets.reply) w])) as Hh'
    by (by apply (Tcp.answering_write fixed _ _ (rdata r)), Tcp.rest_data).
  destruct (cstr _); cbn; [|eauto with cs]. intros u _. apply IH. by calm.
Qed.

Lemma plain_report b msg h :
  Tcp.at_rest fixed h → wp sys_ok (Sockets.report b msg) (rested fixed) h.
Proof. intros Hh. unfold Sockets.report, Sockets.retError. destruct b; cbn; [intros|]; by calm. Qed.

Lemma plain_accept fuel sock buf h :
  Tcp.at_rest fixed h → wp sys_ok (Sockets.accept_round fuel sock buf) (rested fixed) h.
Proof.
  intros Hh. unfold Sockets.accept_round, Sockets.retError. cbn. intros a _.
  destruct (ret a.1 <? 0); cbn; intros; apply plain_serve_client; by calm.
Qed.

Ltac plain_report_step :=
  apply wp_bind; eapply wp_mono; [|apply plain_report; by calm];
  intros ?h [[]|?] ?Hh; cbn [seq_post]; [|done].

Lemma plain_disciplined argv rounds fuel stk :
  wp sys_ok (Sockets.server_main argv rounds fuel stk) (λ h _, is_Some (Tcp.talk fixed h)) [].
Proof.
  eapply wp_mono; [intros h o; apply (rested_talk fixed h o)|].
  assert (Tcp.at_rest fixed []) as H0 by done.
  unfold Sockets.server_main, Sockets.getHostFromArg. cbv zeta. destruct (_ || _).
  - cbn [bind]. plain_report_step. apply wp_call. intros r _. plain_report_step.
    cbn. intros [] _. apply Tcp.rest_talk. by calm.
  - destruct (argv !! 1%nat) as [a|]; [|cbn; eauto]. destruct (argv !! 2%nat) as [q|]; [|cbn; eauto].
    cbn [bind print wp]. intros [] _. plain_report_step. apply wp_call. intros s _. plain_report_step.
    cbn [bind print Sockets.deref wp]. intros [] _. apply wp_call. intros b _. plain_report_step.
    cbn [bind print wp]. intros [] _. apply wp_call. intros l _. plain_report_step.
    cbn [bind print wp]. intros [] _. apply wp_bind.
    eapply wp_mono; [|apply (wp_iterate _ rounds (Sockets.accept_round fuel (ret s))
      (λ h _, Tcp.at_rest fixed h) (λ h _, is_Some (Tcp.talk fixed h)))].
    + by intros h' [].
    + intros h' st Hh'. eapply wp_mono; [|by apply plain_accept]. by intros h'' [].
    + by calm.
Qed.

(** * The clients *)

Import Tcp.

(** The Asio client: a write that fails may have sent a part of its buffer. *)
#[export] Instance asio_client : TcpClient Asio.extR := {|
  acts e := match e return Asio.extR e → action → Prop with
            | Asio.ConnectTo _ _ => λ r a, a = if r is None then Connects else Nothing
            | Asio.WriteAll b => λ r a,
                match r with None => a = Sends b | Some _ => ∃ n, a = Sends (take n b) end
            | Asio.ReadSomeInto n => λ r a, a = Receives r.1 ∧ (length r.1 ≤ n)%nat
            | Asio.Say _ => λ _ a, a = Nothing
            end;
  given := Asio.c_written;
  taken := Asio.c_read |}.

#[export] Instance asio_client_laws : TcpClientLaws Asio.extR.
Proof.
  split.
  - intros [ip port|b|n|l] r b'; cbn; try (by destruct r); try done; [|by intros [? _]].
    intros Ha. split; [done|]. exists b. split; [done|]. destruct r as [err|].
    + destruct Ha as [n [= ->]]. apply prefix_take.
    + by injection Ha as ->.
  - intros [ip port|b|n|l] r d; cbn; try (by destruct r); try done; [|by intros [[= ->] _]].
    destruct r; [by intros [??]|done].
  - intros [ip port|b|n|l] r; cbn; try done; [destruct r|]; naive_solver.
Qed.

(** The plain client, a program over the system calls with one socket. *)
Definition v_send (e : sys) : sysR e → option (list Z) :=
  match e return sysR e → option (list Z) with Send _ b _ => λ _, Some b | _ => λ _, None end.

#[export] Instance plain_client : TcpClient sysR := {|
  acts e := match e return sysR e → action → Prop with
            | Connect _ _ => λ r a, a = if ret r =? 0 then Connects else Nothing
            | Send _ b _ => λ r a, a = Sends (take (Z.to_nat (ret r)) b)
            | Read _ _ => λ r a, a = Receives (if 0 <? rret r then rdata r else [])
            | _ => λ _ a, a = Nothing
            end;
  given := v_send;
  taken e := match e return sysR e → option (list Z) with
             | Read _ _ => λ r, Some (if 0 <? rret r then rdata r else [])
             | _ => λ _, None
             end |}.

#[export] Instance plain_client_laws : TcpClientLaws sysR.
Proof.
  split.
  - intros [] r b'; cbn; try done; [by destruct (ret r =? 0)|]. intros [= ->].
    split; [done|]. eexists. split; [done|]. apply prefix_take.
  - intros [] r d; cbn; try done; [by destruct (ret r =? 0)|by intros [= ->]].
  - intros [] r; cbn; try done; naive_solver.
Qed.

(** * What a client gets *)

(** Everything the server has written so far was taken by the network. *)
Definition complete (n : net) : Prop :=
  Forall (λ l, Forall (λ bt, bt.2 = bt.1) (replies l)) (links n).

Lemma is_some_default {A} (d : A) (o : option A) :
  (if o is Some _ then true else false) = true → o = Some (default d o).
Proof. by destruct o. Qed.

(** Lists of parts and of wholes. *)
Lemma prefix_sublist {A} (a b : list A) : a `prefix_of` b → a `sublist_of` b.
Proof. intros [c ->]. by apply sublist_inserts_r. Qed.

Lemma concat_sublist (ls : list (list Z * list Z)) :
  Forall (λ bt, bt.2 `prefix_of` bt.1) ls → concat (snd <$> ls) `sublist_of` concat (fst <$> ls).
Proof.
  induction 1 as [|[b t] ls Hb _ IH]; cbn; [done|]. by apply sublist_app; [apply prefix_sublist|].
Qed.

Lemma concat_complete (ls : list (list Z * list Z)) :
  Forall (λ bt, bt.2 = bt.1) ls → concat (snd <$> ls) = concat (fst <$> ls).
Proof. induction 1 as [|[b t] ls Hb _ IH]; cbn in *; [done|]. by rewrite Hb, IH. Qed.

Lemma concat_prefix {A} (a b : list (list A)) : a `prefix_of` b → concat a `prefix_of` concat b.
Proof. intros [c ->]. rewrite concat_app. by apply prefix_app_r. Qed.

Section client_view.
Context {E : Type} {R : E → Type} `{TcpClient E R, !TcpClientLaws R} {A B : Type}.
Context (resp : list Z → list Z) (Q : trace R → outcome B → Prop).

(** The bytes a client has read come from the answers to the chunks of its own
    bytes: a part of every answer in order, all of it if every write was
    complete. *)
Lemma client_view (c : config R A B) i p k :
  Tcp.inv resp Q c → clients c !! i = Some p → link_no p = Some k →
  ∃ parts cs, Forall2 prefix parts (view given (past p)) ∧
    concat cs `prefix_of` concat parts ∧
    got (past p) `sublist_of` concat (resp <$> cs) ∧
    (complete (network c) → got (past p) `prefix_of` concat (resp <$> cs)).
Proof.
  intros Hinv Hp Hk. destruct (i_net _ _ _ Hinv) as (st & _ & Hn).
  destruct (i_clients _ _ _ Hinv _ _ Hp) as [(parts & HF & Hc) _]. rewrite Hk in Hc.
  destruct Hc as (l & Hl & _ & Hs & Hr).
  destruct (n_links _ _ _ Hn _ _ Hl) as [L1 L2 L3 L4].
  exists parts, (chunks l). rewrite <- Hs. fold (got (past p)) in Hr. rewrite <- Hr.
  assert (concat (fst <$> replies l) `prefix_of` concat (resp <$> chunks l)) as Hpre.
  { rewrite <- L1. apply concat_prefix. by apply prefix_app_r. }
  split_and!; try done.
  - etrans; [by apply prefix_sublist, L4|]. etrans; [by apply concat_sublist|].
    by apply prefix_sublist.
  - intros Hcomp. etrans; [exact L4|]. unfold returned. rewrite concat_complete; [done|].
    by eapply Forall_lookup_1 in Hcomp.
Qed.

Lemma client_unconnected (c : config R A B) i p :
  Tcp.inv resp Q c → clients c !! i = Some p → link_no p = None → got (past p) = [].
Proof.
  intros Hinv Hp Hk. destruct (i_clients _ _ _ Hinv _ _ Hp) as [(parts & _ & Hc) _].
  rewrite Hk in Hc. by destruct Hc.
Qed.

(** A client that has ended. *)
Lemma client_ended (c : config R A B) i p z :
  Tcp.inv resp Q c → clients c !! i = Some p → code p = Ret z → Q (past p) (Val z).
Proof. intros Hinv Hp Hz. destruct (i_clients _ _ _ Hinv _ _ Hp) as [_ Hw]. by rewrite Hz in Hw. Qed.

End client_view.

(** The Asio clients of a server. *)
Definition asio_clients (hosts : list Sockets.host) : list (prog Asio.extR Z) :=
  Asio.client_main <$> hosts.

Definition asio_post (hh : trace Asio.extR) (o : outcome Z) : Prop :=
  ∃ z, o = Val z ∧ Asio.shown hh z.

Lemma asio_clients_wp hosts : Forall (λ p, wp anything p asio_post []) (asio_clients hosts).
Proof. apply Forall_fmap, Forall_true. intros h. apply Asio.client_main_wp. Qed.

(** The message is all an Asio client can have given. *)
Lemma asio_parts hh z parts :
  Asio.shown hh z → Forall2 prefix parts (view Asio.c_written hh) →
  concat parts `prefix_of` Asio.message.
Proof.
  intros [(_ & -> & _)|(_ & -> & _)] HF.
  - apply Forall2_nil_inv_r in HF as ->. apply prefix_nil.
  - apply Forall2_cons_inv_r in HF as (b & bs' & Hb & HF & ->).
    apply Forall2_nil_inv_r in HF as ->. cbn. by rewrite app_nil_r.
Qed.

(** C6: the Asio client at the epoll echo server, with any number of other
    clients: a client that has ended shows what it read, and that is a part of
    its own message in the order of the message; if the kernel took every write
    of the server completely, it is the beginning of the message. *)
Theorem epoll_client_gets_echo rounds fuel hosts c i p z :
  rtc step (start (Epoll.main rounds fuel) (asio_clients hosts)) c →
  clients c !! i = Some p → code p = Ret z →
  Asio.shown (past p) z ∧
  Asio.was_read (past p) `sublist_of` Asio.message ∧
  (complete (network c) → Asio.was_read (past p) `prefix_of` Asio.message).
Proof.
  intros Hr Hp Hz.
  assert (Tcp.inv id asio_post c) as Hi
    by (eapply config_reach; [apply epoll_disciplined|apply asio_clients_wp|done]).
  destruct (client_ended _ _ _ _ _ _ Hi Hp Hz) as (z' & [= <-] & Hs). split; [done|].
  change (Asio.was_read (past p)) with (got (past p)).
  destruct (link_no p) as [k|] eqn:Ek.
  - destruct (client_view _ _ _ _ _ _ Hi Hp Ek) as (parts & cs & HF & H1 & H2 & H3).
    rewrite list_fmap_id in H2, H3.
    assert (concat cs `prefix_of` Asio.message) as H4 by (etrans; [exact H1|]; by eapply asio_parts).
    split; [|by intros ?%H3; etrans]. etrans; [exact H2|]. by apply prefix_sublist.
  - rewrite (client_unconnected _ _ _ _ _ Hi Hp Ek). split; [apply sublist_nil_l|intros; apply prefix_nil].
Qed.

(** A run: the client connects and sends its message, the server accepts it,
    reads the message and writes it back, and the client reads it. *)
Definition full_writes (flags : Z) (data : list Z) : env sysR := λ h e,
  match e return sysR e with
  | Write _ b => {| ret := Z.of_nat (length b); errno := 0 |}
  | e => small_world flags data h e
  end.

Lemma full_writes_ok flags data : is_bytes data → env_ok sys_ok (full_writes flags data).
Proof. intros Hd h e. pose proof (small_world_ok flags data Hd h e). destruct e; cbn in *; auto with lia. Qed.

Lemma message_bytes : is_bytes Asio.message.
Proof. apply Forall_app. split; [apply bs_bytes|repeat constructor]; done. Qed.

Definition asio_world (h : trace Asio.extR) (e : Asio.ext) : Asio.extR e * action :=
  match e return Asio.extR e * action with
  | Asio.ConnectTo _ _ => (None, Connects)
  | Asio.WriteAll b => (None, Sends b)
  | Asio.ReadSomeInto n => let d := take n Asio.message in ((d, None), Receives d)
  | Asio.Say _ => (tt, Nothing)
  end.

Lemma asio_world_acts h e : acts e (asio_world h e).1 (asio_world h e).2.
Proof. destruct e as [| |n|]; cbn; try done. split; [done|]. rewrite length_take. lia. Qed.

Definition echo_start : config Asio.extR (option Z) Z :=
  start (Epoll.main 2 3) (asio_clients [{| Sockets.ip := bs "127.0.0.1"; Sockets.port := 3000 |}]).

Definition echo_turns : list turn :=
  replicate 3 (Client 0) ++ replicate 17 Server ++ replicate 3 (Client 0).

Definition echo_run : option (config Asio.extR (option Z) Z) :=
  play (full_writes EPOLLIN Asio.message) asio_world echo_start echo_turns.

Definition echo_end : config Asio.extR (option Z) Z := default echo_start echo_run.
Definition echo_client : proc Asio.extR Z :=
  default {| code := Ret 1; past := []; link_no := None |} (clients echo_end !! 0%nat).

Lemma echo_run_end : echo_run = Some echo_end.
Proof. apply is_some_default. vm_compute. reflexivity. Qed.

Lemma echo_end_client : clients echo_end !! 0%nat = Some echo_client.
Proof. apply is_some_default. vm_compute. reflexivity. Qed.

Lemma epoll_client_gets_echo_witness :
  Asio.shown (past echo_client) 0 ∧
  Asio.was_read (past echo_client) `sublist_of` Asio.message ∧
  (complete (network echo_end) → Asio.was_read (past echo_client) `prefix_of` Asio.message).
Proof.
  apply (epoll_client_gets_echo 2 3 [{| Sockets.ip := bs "127.0.0.1"; Sockets.port := 3000 |}] echo_end 0).
  - exact (play_rtc (full_writes EPOLLIN Asio.message) asio_world
      (full_writes_ok EPOLLIN _ message_bytes) asio_world_acts echo_start echo_turns _ echo_run_end).
  - exact echo_end_client.
  - vm_compute. reflexivity.
Defined.

(** In that run every write is complete and the whole message comes back. *)
Example echo_comes_back :
  complete (network echo_end) ∧ Asio.was_read (past echo_client) = Asio.message.
Proof. split; [unfold complete|]; vm_compute; repeat constructor. Qed.

(** ** The plain client at the plain server *)

Definition plain_clients (inet_aton : list Z → option Z) (args : list (list (list Z)))
    (rounds : nat) (garbage : Z) : list (prog sysR unit) :=
  (λ argv, Sockets.client_main inet_aton argv rounds garbage) <$> args.

(** All a plain client ever gives is its message. *)
Definition only_test (h : systrace) : Prop := Forall (λ b, b = bs "test") (view v_send h).

Lemma only_test_prefix h h' : h `prefix_of` h' → only_test h' → only_test h.
Proof. intros [t ->]. unfold only_test. rewrite view_app, Forall_app. by intros [? _]. Qed.

Lemma only_test_quiet h e r : v_send e r = None → only_test h → only_test (h ++ [Ev e r]).
Proof. unfold only_test. rewrite view_snoc. intros -> ?. cbn. by rewrite app_nil_r. Qed.

Lemma only_test_send h fd fl r : only_test h → only_test (h ++ [Ev (Send fd (bs "test") fl) r]).
Proof. unfold only_test. rewrite view_snoc. intros. apply Forall_app. cbn. auto. Qed.

Ltac quiet := repeat (apply only_test_quiet; [reflexivity|]).

Lemma only_test_report b msg h :
  only_test h → wp anything (Sockets.report b msg) (λ h' o, only_test h' ∧ o = Val tt) h.
Proof.
  intros Hh. unfold Sockets.report, Sockets.retError. destruct b; cbn; [intros|]; split; by quiet.
Qed.

Ltac report_step :=
  apply wp_bind; eapply wp_mono; [|apply only_test_report; by quiet];
  intros ?h ?o [?Hh ->]; cbn [seq_post].

Lemma plain_client_gives inet_aton argv rounds garbage :
  wp anything (Sockets.client_main inet_aton argv rounds garbage) (λ h _, only_test h) [].
Proof.
  assert (only_test []) as H0 by constructor.
  unfold Sockets.client_main, Sockets.getHostFromArg. cbv zeta. destruct (_ || _).
  - cbn [bind]. report_step. apply wp_call. intros r _. report_step. cbn. intros [] _. by quiet.
  - destruct (argv !! 1%nat) as [a|]; [|done]. destruct (argv !! 2%nat) as [q|]; [|done].
    cbn [bind print wp]. intros [] _. report_step. apply wp_call. intros s _. report_step.
    cbn [bind print Sockets.deref wp]. intros [] _. apply wp_call. intros o _. report_step.
    cbn [bind print wp]. intros [] _. apply wp_call. intros cn _. report_step.
    eapply wp_mono; [|apply (wp_iterate _ rounds (Sockets.send_round (ret s))
      (λ h _, only_test h) (λ h _, only_test h))].
    + by intros h' [].
    + intros h' [] Hh'. unfold Sockets.send_round. cbn -[bs]. intros r _.
      destruct (ret r =? -1); cbn -[bs]; intros; quiet; by apply only_test_send.
    + done.
Qed.

Lemma plain_clients_wp inet_aton args rounds garbage :
  Forall (λ p, wp anything p (λ h _, only_test h) []) (plain_clients inet_aton args rounds garbage).
Proof.
  apply Forall_fmap, Forall_true. intros a. exact (plain_client_gives inet_aton a rounds garbage).
Qed.

(** With a fixed answer all replies are that. *)
Lemma fixed_replies st n k l :
  link_ok fixed st n k l →
  fst <$> replies l = replicate (length (replies l)) Sockets.reply ∧
  (length (replies l) ≤ length (chunks l) ≤ S (length (replies l)))%nat.
Proof.
  intros [L1 _ _ _].
  assert ((fst <$> replies l) ++ owed fixed st n k = replicate (length (chunks l)) Sockets.reply) as E
    by (rewrite L1; by apply const_fmap).
  split.
  - apply (f_equal (take (length (replies l)))) in E. rewrite take_app_le, take_replicate in E
      by (by rewrite length_fmap). rewrite take_ge in E by (by rewrite length_fmap).
    rewrite E. f_equal. apply (f_equal length) in L1. rewrite length_app, !length_fmap in L1. lia.
  - apply (f_equal length) in L1. rewrite length_app, !length_fmap in L1.
    assert (length (owed fixed st n k) ≤ 1)%nat; [|lia].
    destruct st as [[fd d]|]; cbn; [case_decide|]; cbn; lia.
Qed.

(** C7: the plain TCP clients at the plain TCP server: on every connection the
    bytes the server has read are the beginning of the bytes the connection took
    from its own client, these are parts, one for each, of the buffers which that
    client has given to [send] so far, all of them the message test, and the
    server has answered each chunk it read with one write of its reply, but for a
    chunk it is just answering. *)
Theorem plain_pair argv srounds fuel stk inet_aton args crounds garbage c i p k :
  rtc step (start (Sockets.server_main argv srounds fuel stk)
                  (plain_clients inet_aton args crounds garbage)) c →
  clients c !! i = Some p → link_no p = Some k →
  ∃ l parts m, links (network c) !! k = Some l ∧ owner l = i ∧
    concat (chunks l) `prefix_of` sent l ∧ sent l = concat parts ∧
    Forall2 prefix parts (view v_send (past p)) ∧
    Forall (λ b, b = bs "test") (view v_send (past p)) ∧
    fst <$> replies l = replicate m (bs "received") ∧ (m ≤ length (chunks l) ≤ S m)%nat.
Proof.
  intros Hr Hp Hk.
  assert (Tcp.inv fixed (λ h _, only_test h) c) as Hi.
  { eapply config_reach; [apply plain_disciplined|apply plain_clients_wp|done]. }
  destruct (i_net _ _ _ Hi) as (st & _ & Hn).
  destruct (i_clients _ _ _ Hi _ _ Hp) as [(parts & HF & Hc) Hw]. rewrite Hk in Hc.
  destruct Hc as (l & Hl & Ho & Hs & _). pose proof (n_links _ _ _ Hn _ _ Hl) as Hlk.
  destruct (fixed_replies _ _ _ _ Hlk) as [Hf Hm].
  apply (wp_now _ (small_world 0 []) _ only_test) in Hw; [|done|apply only_test_prefix].
  exists l, parts, (length (replies l)). pose proof (l_chunks _ _ _ _ _ Hlk). done.
Qed.

(** A run: of two clients the second connects and sends its message, and the server
    reads it in two pieces. *)
Definition piece_world : env sysR := λ h e,
  match e return sysR e with
  | Read _ n =>
      let d := take n (match view v_read h with [] => bs "tes" | [_] => bs "t" | _ => [] end) in
      {| rret := Z.of_nat (length d); rerrno := 0; rdata := d |}
  | e => full_writes 0 [] h e
  end.

Lemma piece_world_ok : env_ok sys_ok piece_world.
Proof.
  intros h e. pose proof (full_writes_ok 0 [] ltac:(by constructor) h e).
  destruct e as [| | | | | | | | |fd n| | | | | | | | | | | |]; try done.
  right. cbn -[bs]. rewrite length_take. split_and!; [lia..|].
  apply Forall_take. destruct (view v_read h) as [|? [|??]]; [apply bs_bytes..|constructor].
Qed.

Definition plain_world (h : systrace) (e : sys) : sysR e * action :=
  match e return sysR e * action with
  | Connect _ _ => (done0, Connects)
  | Send _ b _ => ({| ret := Z.of_nat (length b); errno := 0 |},
                   Sends (take (Z.to_nat (Z.of_nat (length b))) b))
  | Read _ _ => ({| rret := 0; rerrno := 0; rdata := [] |}, Receives [])
  | e => (small_world 0 [] h e, Nothing)
  end.

Lemma plain_world_acts h e : acts e (plain_world h e).1 (plain_world h e).2.
Proof. by destruct e. Qed.

Definition plain_args (name : string) : list (list Z) := [bs name; bs "127.0.0.1"; bs "3000"].

Definition plain_start : config sysR unit unit :=
  start (Sockets.server_main (plain_args "server") 1 5 (replicate 256 0))
        (plain_clients (λ _, None) [[]; plain_args "client"] 1 0).

Definition plain_turns : list turn := replicate 7 (Client 1) ++ replicate 13 Server.

Definition plain_run : option (config sysR unit unit) :=
  play piece_world plain_world plain_start plain_turns.

Definition plain_end : config sysR unit unit := default plain_start plain_run.
Definition plain_sender : proc sysR unit :=
  default {| code := Ret tt; past := []; link_no := None |} (clients plain_end !! 1%nat).

Lemma plain_run_end : plain_run = Some plain_end.
Proof. apply is_some_default. vm_compute. reflexivity. Qed.

Lemma plain_end_sender : clients plain_end !! 1%nat = Some plain_sender.
Proof. apply is_some_default. vm_compute. reflexivity. Qed.

Lemma plain_pair_witness :
  ∃ l parts m, links (network plain_end) !! 0%nat = Some l ∧ owner l = 1%nat ∧
    concat (chunks l) `prefix_of` sent l ∧ sent l = concat parts ∧
    Forall2 prefix parts (view v_send (past plain_sender)) ∧
    Forall (λ b, b = bs "test") (view v_send (past plain_sender)) ∧
    fst <$> replies l = replicate m (bs "received") ∧ (m ≤ length (chunks l) ≤ S m)%nat.
Proof.
  apply (plain_pair (plain_args "server") 1 5 (replicate 256 0) (λ _, None)
    [[]; plain_args "client"] 1 0 plain_end 1 plain_sender 0).
  - exact (play_rtc piece_world plain_world piece_world_ok plain_world_acts plain_start plain_turns
      _ plain_run_end).
  - exact plain_end_sender.
  - vm_compute. reflexivity.
Defined.

(** There the second piece is still to be answered. *)
Example plain_pieces :
  (λ l, (chunks l, length (replies l))) <$> links (network plain_end) = [([bs "tes"; bs "t"], 1%nat)].
Proof. vm_compute. reflexivity. Qed.

End Pairs.
