(* ===== verification/Dns.v ===== *)
(** The resolver programs (src/sockets/dns_lookup/utils.h, dns.cc and
    posix_async/async_dns.cc, async_dns_signal.cc, async_dns_thread.cc).

    A list of [struct addrinfo] linked by [ai_next] is a list, a pointer into it
    a suffix, the null pointer the empty list.  The resolver of the C library and
    the kernel are on the other side of [Io.prog]. *)

From stdpp Require Import base list gmap strings.
From S2P Require Import Prelude Io Posix.

Local Open Scope Z_scope.
Local Open Scope cs_scope.

Module Dns.

Definition EAI_AGAIN : Z := -3.
Definition EAI_MEMORY : Z := -10.
Definition EAI_SYSTEM : Z := -11.
Definition EAI_INPROGRESS : Z := -100.
Definition EAI_ALLDONE : Z := -103.
Definition EAI_INTR : Z := -104.
Definition MAX_EVENTS : nat := 32.
Definition SIGRTMIN : Z := 34.

Record addrinfo := {
  ai_family : Z; ai_socktype : Z; ai_protocol : Z; ai_flags : Z; ai_addrlen : Z;
  ai_canonname : option (list Z); sa_family : Z; sin_addr : Z }.

(** When the notification thread of [getaddrinfo_a] runs. *)
Inductive notified := BeforeFree | AfterFree | Never.

Inductive ext :=
  | Getaddrinfo (node service : list Z)
  | Getnameinfo (a : addrinfo)
  | Freeaddrinfo (l : list addrinfo)
  | GetaddrinfoA (node service : list Z)
  | GaiError
  | GaiResult                            (* ar_result of the request *)
  | GaiSuspend (seconds : Z)
  | Notification
  | Usleep (us : Z)
  | Signalfd (signal : Z)
  | EpollCreate1
  | EpollAdd (epfd fd : Z)
  | EpollWaitFds (epfd : Z) (max : nat)  (* data.fd of the events, None for -1 *)
  | ReadSiginfo (fd : Z)
  | Free (what : string)
  | SayInfo (a : addrinfo)               (* the lines printed for one record *)
  | Say (l : list item).

Definition extR (e : ext) : Type :=
  match e with
  | Getaddrinfo _ _ => Z * list addrinfo
  | Getnameinfo _ => list Z
  | GetaddrinfoA _ _ | GaiError | GaiSuspend _ | Signalfd _ | EpollCreate1 | EpollAdd _ _ => Z
  | GaiResult => list addrinfo
  | Notification => notified
  | EpollWaitFds _ _ => option (list Z)
  | ReadSiginfo _ => Z * Z               (* the result and ssi_signo *)
  | _ => unit
  end.

Definition say (l : list item) : prog extR unit := call (Say l).

(** * utils.h *)

(** The recursion over [ai_next]. *)
Fixpoint printAddrInfo (info : list addrinfo) : prog extR unit :=
  match info with
  | [] => Halt (Undefined "a null addrinfo is read")
  | a :: next =>
      call (SayInfo a) ;;;
      match next with
      | [] => Ret tt
      | _ => say [T "*****************************"] ;;; printAddrInfo next
      end
  end.

Definition getHostFromArg (index : nat) (argv : list (list Z)) : list Z :=
  match argv !! index with
  | Some a => a
  | None => bs "google.com"
  end.

(** The loops [for(p = l; p != NULL; p = p->ai_next) printAddrInfo(p)]. *)
Fixpoint print_each (l : list addrinfo) : prog extR unit :=
  match l with
  | [] => Ret tt
  | _ :: next => printAddrInfo l ;;; print_each next
  end.

(** * dns.cc *)

(** [ai_addr] is not initialised but for the address, which [inet_aton] sets if
    the text is one: [fam] and [old] are what the memory held. *)
Definition ip2AddrInfo (inet_aton : list Z → option Z) (fam old : Z) (ip : list Z)
    : prog extR (list addrinfo) :=
  let a := default old (inet_aton ip) in
  say [T "ip address "; Ip a] ;;;
  Ret [{| ai_family := AF_INET; ai_socktype := SOCK_STREAM; ai_protocol := 6; ai_flags := 0;
          ai_addrlen := Z.of_nat (length ip); ai_canonname := None; sa_family := fam;
          sin_addr := a |}].

Fixpoint resolved (l : list addrinfo) : prog extR unit :=
  match l with
  | [] => Ret tt
  | p :: next =>
      host ⇐ call (Getnameinfo p);
      say [T "resolved ip: "; B host] ;;;
      resolved next
  end.

Definition dns_main : prog extR Z :=
  r ⇐ call (Getaddrinfo (bs "google.com") (bs "http"));
  if negb (r.1 =? 0) then
    say [T "getaddrinfo: "; Err r.1] ;;; Halt (Exit 1)
  else
    resolved r.2 ;;;
    call (Freeaddrinfo r.2) ;;;
    Ret 0.

(** * async_dns.cc *)

(** The waiting loop. *)
Fixpoint wait_loop (fuel : nat) : prog extR unit :=
  match fuel with
  | O => Halt OutOfFuel
  | S fuel' =>
      ret ⇐ call GaiError;
      if ret =? EAI_INPROGRESS then call (Usleep 1000) ;;; wait_loop fuel'
      else if ret =? 0 then l ⇐ call GaiResult; printAddrInfo l
      else say [T "Error resolving DNS: "; Err ret]
  end.

Definition async_main (fuel : nat) : prog extR Z :=
  ret ⇐ call (GetaddrinfoA (bs "google.com") (bs "80"));
  if negb (ret =? 0) then
    say [T "Error starting DNS resolution: "; Err ret] ;;; Ret 1
  else wait_loop fuel ;;; Ret 0.

(** The [switch] on the result of [getaddrinfo_a]: the error returns. *)
Definition start_failed (rv : Z) : prog extR bool :=
  if rv =? EAI_AGAIN then
    e ⇐ call GaiError; say [T "getaddrinfo_a failed! "; N e] ;;; Ret true
  else if rv =? EAI_MEMORY then
    say [T "getaddrinfo_a failed! Out of Memory"] ;;; Ret true
  else if rv =? EAI_SYSTEM then
    say [T "getaddrinfo_a failed! EAI_SYSTEM"] ;;; Ret true
  else Ret false.

(** * async_dns_signal.cc *)

(** The epoll descriptor, -1 on failure, and [sfd]. *)
Definition signalfd_setup (signal : Z) : prog extR (Z * Z) :=
  sfd ⇐ call (Signalfd signal);
  say [T "Setup signalfd "; N sfd] ;;;
  epfd ⇐ call EpollCreate1;
  c ⇐ call (EpollAdd epfd sfd);
  if c =? -1 then say [T "failed initial epoll_ctl"] ;;; Ret (-1, sfd)
  else Ret (epfd, sfd).

(** The loop over the events. *)
Fixpoint signal_events (signal sfd : Z) (evs : list Z) : prog extR unit :=
  match evs with
  | [] => Ret tt
  | fd :: evs' =>
      say [T "Reading file descriptor "; N fd] ;;;
      (if fd =? sfd then
         r ⇐ call (ReadSiginfo sfd);
         if 0 <? r.1 then
           if r.2 =? signal then
             say [T "Got signal from getaddrinfo_a"] ;;;
             l ⇐ call GaiResult;
             print_each l
           else Ret tt
         else say [T "Error :"]
       else Ret tt) ;;;
      signal_events signal sfd evs'
  end.

Definition signal_main (argv : list (list Z)) : prog extR Z :=
  let host := getHostFromArg 1 argv in
  say [T "Resolving "; B host] ;;;
  let signal := SIGRTMIN + 3 in
  fds ⇐ signalfd_setup signal;
  if (fds.1 =? -1) || (fds.2 =? -1) then Ret (-1)
  else
    rv ⇐ call (GetaddrinfoA host (bs "http"));
    failed ⇐ start_failed rv;
    if (failed : bool) then Ret (-1)
    else
      evs ⇐ call (EpollWaitFds fds.1 MAX_EVENTS);
      say [T "Got nfds "; N (match evs with Some l => Z.of_nat (length l) | None => -1 end)] ;;;
      signal_events signal fds.2 (default [] evs) ;;;
      call (Free "dnsReqs[0]") ;;;
      call (Free "dnsReqs") ;;;
      Ret 0.

(** * async_dns_thread.cc *)

(** The callback on the request; [freed] when its memory is gone. *)
Definition dnsCallback (freed : bool) : prog extR unit :=
  say [T "****Hit dnsCallback"] ;;;
  if freed then Halt (Undefined "the request is read after free")
  else
    l ⇐ call GaiResult;
    print_each l ;;;
    say [T "******************"].

Definition suspend_text (rv : Z) : prog extR unit :=
  if rv =? EAI_AGAIN then say [T "gai_suspend timeout "]
  else if rv =? EAI_ALLDONE then say [T "gai_suspend no requests pending"]
  else if rv =? EAI_INTR then say [T "gai_suspend interupt"]
  else Ret tt.

(** The other thread runs at the point the library chooses. *)
Definition thread_main (argv : list (list Z)) : prog extR Z :=
  let host := getHostFromArg 1 argv in
  say [T "Resolving "; B host] ;;;
  rv ⇐ call (GetaddrinfoA host (bs "http"));
  failed ⇐ start_failed rv;
  if (failed : bool) then Ret (-1)
  else
    n ⇐ call Notification;
    (match n with BeforeFree => dnsCallback false | _ => Ret tt end) ;;;
    rv ⇐ call (GaiSuspend 15);
    suspend_text rv ;;;
    call (Free "dnsReqs[0]") ;;;
    call (Free "dnsReqs") ;;;
    (match n with AfterFree => dnsCallback true | _ => Ret tt end) ;;;
    Ret 0.

(** * What a history says *)

(** The records printed, the names asked for with their answer, the lines
    printed, the lists freed and the memory freed. *)
Definition v_info (e : ext) : extR e → option addrinfo :=
  match e return extR e → option addrinfo with SayInfo a => λ _, Some a | _ => λ _, None end.
Definition v_name (e : ext) : extR e → option (addrinfo * list Z) :=
  match e return extR e → option (addrinfo * list Z) with
  | Getnameinfo a => λ r, Some (a, r)
  | _ => λ _, None
  end.
Definition v_say (e : ext) : extR e → option (list item) :=
  match e return extR e → option (list item) with Say l => λ _, Some l | _ => λ _, None end.
Definition v_freelist (e : ext) : extR e → option (list addrinfo) :=
  match e return extR e → option (list addrinfo) with
  | Freeaddrinfo l => λ _, Some l
  | _ => λ _, None
  end.
Definition v_free (e : ext) : extR e → option string :=
  match e return extR e → option string with Free x => λ _, Some x | _ => λ _, None end.
Definition v_error (e : ext) : extR e → option Z :=
  match e return extR e → option Z with GaiError => λ r, Some r | _ => λ _, None end.
Definition v_sleep (e : ext) : extR e → option Z :=
  match e return extR e → option Z with Usleep us => λ _, Some us | _ => λ _, None end.

Abbreviation infos := (view v_info).

(** * Printing *)

(** Every suffix of a list, one after the other. *)
Fixpoint suffixes {A} (l : list A) : list A :=
  match l with
  | [] => []
  | _ :: l' => l ++ suffixes l'
  end.

Lemma length_suffixes {A} (l : list A) :
  (2 * length (suffixes l) = length l * (length l + 1))%nat.
Proof. induction l as [|a l IH]; cbn; [done|]. rewrite length_app. lia. Qed.

Lemma printAddrInfo_wp ok l h :
  l ≠ [] → wp ok (printAddrInfo l) (λ h' o, o = Val tt ∧ infos h' = infos h ++ l) h.
Proof.
  revert h. induction l as [|a l IH]; intros h Hl; [done|]. cbn [printAddrInfo].
  apply wp_call. intros r _. destruct l as [|b l].
  - cbn [wp]. split; [done|]. by autorewrite with cs.
  - unfold say. apply wp_call. intros r' _. eapply wp_mono; [|by apply IH].
    intros h' o [-> ->]. split; [done|]. autorewrite with cs. cbn. by rewrite app_nil_r, <- app_assoc.
Qed.

Lemma print_each_wp ok l h :
  wp ok (print_each l) (λ h' o, o = Val tt ∧ infos h' = infos h ++ suffixes l) h.
Proof.
  revert h. induction l as [|a l IH]; intros h; cbn [print_each suffixes].
  - cbn [wp]. by rewrite app_nil_r.
  - apply wp_bind. eapply wp_mono; [|by apply printAddrInfo_wp]. intros h1 o [-> E1]. cbn [seq_post].
    eapply wp_mono; [|apply IH]. intros h2 o [-> E2]. split; [done|]. by rewrite E2, E1, <- app_assoc.
Qed.

(** * dns.cc *)

Lemma resolved_wp ok l h :
  wp ok (resolved l)
     (λ h' o, o = Val tt ∧ view v_freelist h' = view v_freelist h ∧
        ∃ hosts, length hosts = length l ∧ view v_name h' = view v_name h ++ zip l hosts ∧
          view v_say h' = view v_say h ++ ((λ x, [T "resolved ip: "; B x]) <$> hosts)) h.
Proof.
  revert h. induction l as [|a l IH]; intros h; cbn [resolved].
  - cbn [wp]. split_and!; [done|done|]. exists []. cbn. by rewrite !app_nil_r.
  - apply (wp_call _ (Getnameinfo a)). intros host _. unfold say. apply wp_call. intros r _.
    eapply wp_mono; [|apply IH]. intros h' o (-> & E1 & hosts & El & E2 & E3).
    split; [done|]. rewrite E1, E2, E3. autorewrite with cs. cbn. rewrite !app_nil_r.
    split; [done|]. exists (host :: hosts). cbn. rewrite <- !app_assoc. auto.
Qed.

(** * async_dns.cc *)

(** The resolver reports progress [k] times and then something else, and a
    result that is not empty. *)
Definition finishes_after (k : nat) (h : trace extR) (e : ext) : extR e → Prop :=
  match e return extR e → Prop with
  | GaiError => λ r, r = EAI_INPROGRESS ↔ (length (view v_error h) < k)%nat
  | GaiResult => λ r, r ≠ []
  | _ => λ _, True
  end.

Definition waited (h : trace extR) : nat := length (view v_error h).
Definition slept (h : trace extR) : nat := length (view v_sleep h).

(** Printing does not wait. *)
Lemma print_quiet ok l h :
  l ≠ [] → wp ok (printAddrInfo l) (λ h' o, o = Val tt ∧ slept h' = slept h) h.
Proof.
  revert h. induction l as [|a l IH]; intros h Hl; [done|]. cbn [printAddrInfo].
  apply wp_call. intros r _. unfold slept. destruct l as [|b l].
  - cbn [wp]. split; [done|]. autorewrite with cs. cbn. by rewrite app_nil_r.
  - unfold say. apply wp_call. intros r' _. eapply wp_mono; [|by apply IH].
    intros h' o [-> E]. split; [done|]. unfold slept in E. rewrite E. autorewrite with cs. cbn.
    by rewrite !app_nil_r.
Qed.

Lemma wait_loop_wp k fuel h :
  (waited h ≤ k)%nat → slept h = waited h → (k - waited h < fuel)%nat →
  wp (finishes_after k) (wait_loop fuel) (λ h' o, o = Val tt ∧ slept h' = k) h.
Proof.
  revert h. induction fuel as [|fuel IH]; intros h Hw Hs Hf; [lia|]. cbn [wait_loop].
  apply (wp_call _ GaiError). intros ret Hr. cbn in Hr.
  fold (waited h) in Hr. destruct (Z.eqb_spec ret EAI_INPROGRESS) as [->|Hn].
  - apply wp_call. intros r _. assert (waited h < k)%nat by (by apply Hr).
    apply IH; unfold waited, slept in *; autorewrite with cs; cbn;
      rewrite ?app_nil_r, ?length_app; cbn; lia.
  - assert (waited h = k) as Hk by (destruct (decide (waited h < k)%nat) as [Hlt|]; [by apply Hr in Hlt|lia]).
    destruct (ret =? 0).
    + apply (wp_call _ GaiResult). intros l Hl. cbn in Hl. eapply wp_mono; [|by apply print_quiet].
      intros h' o [-> E]. split; [done|]. rewrite E. unfold slept. autorewrite with cs. cbn.
      rewrite !app_nil_r. unfold slept in Hs. lia.
    + unfold say. cbn. intros [] ?. split; [done|]. unfold slept. autorewrite with cs. cbn.
      rewrite !app_nil_r. unfold slept in Hs. lia.
Qed.

(** * Theorems *)


(** C25: the polling client ends.  If [getaddrinfo_a] does not start it returns 1
    at once, without a sleep.  If it starts and the resolver reports progress k
    times before it reports anything else, k + 1 rounds of the loop are enough,
    it sleeps exactly k times, and it returns 0, whether the resolution succeeded
    or failed. *)
Theorem async_main_terminates k fuel w :
  env_ok (finishes_after k) w → (k < fuel)%nat →
  let '(h, o) := run w (async_main fuel) [] in
  if w [] (GetaddrinfoA (bs "google.com") (bs "80")) =? 0
  then o = Val 0 ∧ length (view v_sleep h) = k
  else o = Val 1 ∧ length (view v_sleep h) = 0%nat.
Proof.
  intros Hw Hf. unfold async_main.
  change (run w _ []) with (let r := w [] (GetaddrinfoA (bs "google.com") (bs "80")) in
    run w (if negb (r =? 0) then say [T "Error starting DNS resolution: "; Err r] ;;; Ret 1
           else wait_loop fuel ;;; Ret 0) [Ev (GetaddrinfoA (bs "google.com") (bs "80")) r]).
  cbv zeta. set (r := w [] _). destruct (r =? 0); cbn [negb]; [|done].
  assert (wp (finishes_after k) (wait_loop fuel ;;; Ret 0) (λ h o, o = Val 0 ∧ slept h = k)
    [Ev (GetaddrinfoA (bs "google.com") (bs "80")) r]) as H.
  { apply wp_bind. eapply wp_mono;
      [|apply (wait_loop_wp k); unfold waited, slept; cbn; lia]. by intros h' o [-> E]. }
  apply (wp_run _ _ _ _ _ Hw) in H. by destruct (run w _ _).
Qed.

(** A resolver that is done at the third question. *)
Definition third_time : env extR := λ h e,
  match e return extR e with
  | Getaddrinfo _ _ => (0, [])
  | Getnameinfo _ => []
  | GetaddrinfoA _ _ => 0
  | GaiError => if (length (view v_error h) <? 2)%nat then EAI_INPROGRESS else 0
  | GaiResult => [{| ai_family := 2; ai_socktype := 1; ai_protocol := 6; ai_flags := 0;
                     ai_addrlen := 16; ai_canonname := None; sa_family := 2; sin_addr := 1 |}]
  | GaiSuspend _ => 0
  | Notification => Never
  | Signalfd _ | EpollCreate1 | EpollAdd _ _ => 0
  | EpollWaitFds _ _ => None
  | ReadSiginfo _ => (0, 0)
  | Usleep _ | Freeaddrinfo _ | Free _ | SayInfo _ | Say _ => tt
  end.

Lemma third_time_ok : env_ok (finishes_after 2) third_time.
Proof.
  intros h []; cbn -[Nat.ltb]; try done. destruct (Nat.ltb_spec (length (view v_error h)) 2);
    unfold EAI_INPROGRESS; lia.
Qed.

Lemma async_main_terminates_witness :
  let '(h, o) := run third_time (async_main 3) [] in
  if third_time [] (GetaddrinfoA (bs "google.com") (bs "80")) =? 0
  then o = Val 0 ∧ length (view v_sleep h) = 2%nat
  else o = Val 1 ∧ length (view v_sleep h) = 0%nat.
Proof. exact (async_main_terminates 2 3 third_time third_time_ok (le_n 3)). Defined.

(** Note: the programs that are notified print the record at position i of the
    answer i + 1 times: the loop over the list calls the printer, which follows
    the list itself, so n records become n (n + 1) / 2. *)
Theorem callback_prints_suffixes w h :
  let '(h1, o) := run w (dnsCallback false) h in
  ∃ l, o = Val tt ∧ infos h1 = infos h ++ suffixes l ∧
    (2 * length (suffixes l) = length l * (length l + 1))%nat.
Proof.
  assert (wp (λ _ _ _, True) (dnsCallback false)
    (λ h1 o, ∃ l, o = Val tt ∧ infos h1 = infos h ++ suffixes l) h) as H.
  { unfold dnsCallback, say. apply wp_call. intros r _. apply (wp_call _ GaiResult). intros l _.
    apply wp_bind. eapply wp_mono; [|apply print_each_wp]. intros h' o [-> E]. cbn [seq_post call wp].
    intros [] _. exists l. split; [done|]. autorewrite with cs in *. rewrite E. cbn.
    by rewrite !app_nil_r. }
  apply (wp_run _ w _ _ _ (λ _ _, I)) in H. destruct (run w (dnsCallback false) h) as [h1 o].
  cbn [fst snd] in H. destruct H as (l & -> & E). exists l. split_and!; [done|done|apply length_suffixes].
Qed.

(** A notification that comes after the wait has timed out reads the request
    that [main] has freed. *)
Example late_notification :
  (run (λ h e, match e return extR e with
               | Notification => AfterFree
               | GaiSuspend _ => EAI_AGAIN
               | e => third_time h e
               end) (thread_main []) []).2 = Stopped (Undefined "the request is read after free").
Proof. reflexivity. Qed.

End Dns.
