(* ===== verification/Wasm.v ===== *)
(** The Envoy filter (src/proxy/envoy/wasm/dscp/dscp-filter.cc).

    The filter is a set of callbacks that Envoy calls for the life of a module
    and of each HTTP stream.  The header maps and buffers belong to Envoy; the
    filter reaches them through the proxy-wasm SDK.  That interface is the class
    [ProxyHost], and [ProxyHostLaws] is what its documentation says of header
    values and of the bytes of a buffer; the theorems hold for every host with
    these laws, and [list_host] is one. *)

From stdpp Require Import base list gmap strings.
From S2P Require Import Prelude CLib Posix.

Local Open Scope Z_scope.

Module Wasm.

(** * The host *)

Class ProxyHost (M : Type) := {
  pairs : M → list (list Z * list Z);
  add : list Z → list Z → M → M;
  replace : list Z → list Z → M → M;
  remove : list Z → M → M;
  get_bytes : list Z → nat → nat → list Z;            (* start, length *)
  set_bytes : list Z → nat → nat → list Z → list Z }.

(** The values of a header, in order; names do not tell case apart. *)
Definition values {M} `{ProxyHost M} (k : list Z) (m : M) : list (list Z) :=
  omap (λ kv, if caseeq kv.1 k then Some kv.2 else None) (pairs m).

Class ProxyHostLaws (M : Type) `{ProxyHost M} : Prop := {
  values_add k k' v m :
    values k' (add k v m) = if caseeq k k' then values k' m ++ [v] else values k' m;
  values_replace k k' v m :
    values k' (replace k v m) = if caseeq k k' then [v] else values k' m;
  values_remove k k' m :
    values k' (remove k m) = if caseeq k k' then [] else values k' m;
  get_bytes_law b start len : get_bytes b start len = take len (drop start b);
  set_bytes_law b start len d :
    (start ≤ length b)%nat →
    set_bytes b start len d = take start b ++ d ++ drop (start + len) b }.

(** * The filter *)

Inductive level := TRACE | DEBUG | INFO | WARN | ERROR.

(** What the callbacks of one stream and of its module act on: the headers and
    buffers of the host, the log, the tick period and the commands run. *)
Record stream (M : Type) := {
  req_headers : M; req_body : list Z; resp_headers : M; resp_body : list Z;
  logged : list (level * list item); tick_period : option Z; commands : list string }.
Arguments req_headers {M} _.
Arguments req_body {M} _.
Arguments resp_headers {M} _.
Arguments resp_body {M} _.
Arguments logged {M} _.
Arguments tick_period {M} _.
Arguments commands {M} _.

Inductive FilterHeadersStatus :=
  | HContinue | HStopIteration | HContinueAndEndStream
  | HStopAllIterationAndBuffer | HStopAllIterationAndWatermark.
Inductive FilterDataStatus :=
  | DContinue | DStopIterationAndBuffer | DStopIterationAndWatermark | DStopIterationNoBuffer.

Section filter.
Context {M : Type} `{ProxyHost M}.
(** [id()] of the context. *)
Context (id : Z).

Definition LOG (l : level) (msg : list item) (s : stream M) : stream M :=
  {| req_headers := req_headers s; req_body := req_body s;
     resp_headers := resp_headers s; resp_body := resp_body s;
     logged := logged s ++ [(l, msg)]; tick_period := tick_period s; commands := commands s |}.

Definition set_resp_headers (m : M) (s : stream M) : stream M :=
  {| req_headers := req_headers s; req_body := req_body s;
     resp_headers := m; resp_body := resp_body s;
     logged := logged s; tick_period := tick_period s; commands := commands s |}.

Definition set_resp_body (b : list Z) (s : stream M) : stream M :=
  {| req_headers := req_headers s; req_body := req_body s;
     resp_headers := resp_headers s; resp_body := b;
     logged := logged s; tick_period := tick_period s; commands := commands s |}.

Definition proxy_set_tick_period_milliseconds (ms : Z) (s : stream M) : stream M :=
  {| req_headers := req_headers s; req_body := req_body s;
     resp_headers := resp_headers s; resp_body := resp_body s;
     logged := logged s; tick_period := Some ms; commands := commands s |}.

Definition system (cmd : string) (s : stream M) : stream M :=
  {| req_headers := req_headers s; req_body := req_body s;
     resp_headers := resp_headers s; resp_body := resp_body s;
     logged := logged s; tick_period := tick_period s; commands := commands s ++ [cmd] |}.

Definition onStart (s : stream M) : stream M * bool := (LOG TRACE [T "onStart"] s, true).

Definition onConfigure (s : stream M) : stream M * bool :=
  (proxy_set_tick_period_milliseconds 1000 (LOG TRACE [T "onConfigure"] s), true).

Definition onTick (s : stream M) : stream M := LOG TRACE [T "onTick"] s.

Definition onCreate (s : stream M) : stream M := LOG WARN [T "onCreate "; N id] s.

(** The number of headers, and the loop over them. *)
Definition log_pairs (ps : list (list Z * list Z)) (s : stream M) : stream M :=
  foldl (λ s p, LOG INFO [B p.1; T " -> "; B p.2] s)
        (LOG INFO [T "headers: "; N (Z.of_nat (length ps))] s) ps.

Definition onRequestHeaders (s : stream M) : stream M * FilterHeadersStatus :=
  let s := LOG DEBUG [T "onRequestHeaders "; N id] s in
  let s := log_pairs (pairs (req_headers s)) s in
  (system "echo hello" s, HContinue).

Definition onResponseHeaders (s : stream M) : stream M * FilterHeadersStatus :=
  let s := LOG DEBUG [T "onResponseHeaders "; N id] s in
  let s := log_pairs (pairs (resp_headers s)) s in
  let m := add (bs "X-Wasm-custom") (bs "FOO") (resp_headers s) in
  let m := replace (bs "content-type") (bs "text/plain; charset=utf-8") m in
  let m := remove (bs "content-length") m in
  (set_resp_headers m s, HContinue).

Definition onRequestBody (body_buffer_length : nat) (s : stream M) : stream M * FilterDataStatus :=
  let body := get_bytes (req_body s) 0 body_buffer_length in
  (LOG ERROR [T "onRequestBody "; B body] s, DContinue).

Definition hello : list Z := bs "Hello, world" ++ [10].

Definition onResponseBody (body_buffer_length : nat) (s : stream M) : stream M * FilterDataStatus :=
  (set_resp_body (set_bytes (resp_body s) 0 body_buffer_length hello) s, DContinue).

Definition onDone (s : stream M) : stream M := LOG WARN [T "onDone "; N id] s.
Definition onLog (s : stream M) : stream M := LOG WARN [T "onLog "; N id] s.
Definition onDelete (s : stream M) : stream M := LOG WARN [T "onDelete "; N id] s.

(** ** A stream through the filter *)

(** What Envoy does with a stream: the parts of the two messages arrive in some
    order; the header map or the part of a body is what the host holds when its
    callback is called, and what the host holds afterwards is passed on if the
    callback says to continue. *)
Inductive part :=
  | RequestHeaders (m : M)
  | RequestData (chunk : list Z)
  | ResponseHeaders (m : M)
  | ResponseData (chunk : list Z).

Definition with_req (m : M) (b : list Z) (s : stream M) : stream M :=
  {| req_headers := m; req_body := b;
     resp_headers := resp_headers s; resp_body := resp_body s;
     logged := logged s; tick_period := tick_period s; commands := commands s |}.

Definition header_result (st : FilterHeadersStatus) (s : stream M) (p : part) : option (stream M * part) :=
  match st with HContinue => Some (s, p) | _ => None end.
Definition data_result (st : FilterDataStatus) (s : stream M) (p : part) : option (stream M * part) :=
  match st with DContinue => Some (s, p) | _ => None end.

(** One part through the filter; [None] when a callback stops the message. *)
Definition pass (s : stream M) (a : part) : option (stream M * part) :=
  match a with
  | RequestHeaders m =>
      let '(s, st) := onRequestHeaders (with_req m (req_body s) s) in
      header_result st s (RequestHeaders (req_headers s))
  | RequestData c =>
      let '(s, st) := onRequestBody (length c) (with_req (req_headers s) c s) in
      data_result st s (RequestData (req_body s))
  | ResponseHeaders m =>
      let '(s, st) := onResponseHeaders (set_resp_headers m s) in
      header_result st s (ResponseHeaders (resp_headers s))
  | ResponseData c =>
      let '(s, st) := onResponseBody (length c) (set_resp_body c s) in
      data_result st s (ResponseData (resp_body s))
  end.

Fixpoint pass_all (s : stream M) (l : list part) : option (stream M * list part) :=
  match l with
  | [] => Some (s, [])
  | a :: l' =>
      '(s, p) ← pass s a;
      '(s, ps) ← pass_all s l';
      Some (s, p :: ps)
  end.

(** ** What the filter promises *)

(** The values of the header [k] of a response. *)
Definition edited (k : list Z) (old : list (list Z)) : list (list Z) :=
  if caseeq (bs "content-length") k then []
  else if caseeq (bs "content-type") k then [bs "text/plain; charset=utf-8"]
  else if caseeq (bs "X-Wasm-custom") k then old ++ [bs "FOO"]
  else old.

(** [a] arrives and [p] is passed on. *)
Definition passed (a p : part) : Prop :=
  match a, p with
  | RequestHeaders m, RequestHeaders m' => m' = m
  | RequestData c, RequestData c' => c' = c
  | ResponseHeaders m, ResponseHeaders m' => ∀ k, values k m' = edited k (values k m)
  | ResponseData _, ResponseData c' => c' = hello
  | _, _ => False
  end.

(** The command of every request. *)
Definition commanded (a : part) : option string :=
  match a with RequestHeaders _ => Some "echo hello"%string | _ => None end.

(** * Theorems *)

Context `{!ProxyHostLaws M}.

#[local] Arguments hello : simpl never.
#[local] Arguments bs : simpl never.

Lemma log_pairs_frame ps s :
  req_headers (log_pairs ps s) = req_headers s ∧ resp_headers (log_pairs ps s) = resp_headers s ∧
  commands (log_pairs ps s) = commands s.
Proof.
  unfold log_pairs. set (s0 := LOG INFO _ s).
  change (req_headers s) with (req_headers s0). change (resp_headers s) with (resp_headers s0).
  change (commands s) with (commands s0).
  clearbody s0. revert s0. induction ps as [|p ps IH]; intros s0; [done|]. apply (IH (LOG _ _ s0)).
Qed.

Lemma onResponseHeaders_values s k :
  values k (resp_headers (onResponseHeaders s).1) = edited k (values k (resp_headers s)).
Proof.
  unfold onResponseHeaders. cbn [fst resp_headers set_resp_headers].
  destruct (log_pairs_frame (pairs (resp_headers (LOG DEBUG [T "onResponseHeaders "; N id] s)))
              (LOG DEBUG [T "onResponseHeaders "; N id] s)) as (_ & -> & _).
  cbn [resp_headers LOG].
  rewrite values_remove, values_replace, values_add. unfold edited.
  destruct (caseeq (bs "content-length") k); [done|].
  by destruct (caseeq (bs "content-type") k).
Qed.

(** One part: the callback lets it continue. *)
Lemma pass_one s a :
  ∃ s' p, pass s a = Some (s', p) ∧ passed a p ∧
          commands s' = commands s ++ option_list (commanded a).
Proof.
  destruct a as [m|c|m|c]; cbn [pass commanded option_list]; rewrite ?app_nil_r.
  - unfold onRequestHeaders. set (s0 := LOG _ _ _).
    destruct (log_pairs_frame (pairs (req_headers s0)) s0) as (E1 & _ & E2).
    eexists _, _. split; [done|]. cbn -[log_pairs] in *. by rewrite E1, E2.
  - eexists _, _. split; [done|]. done.
  - pose proof (onResponseHeaders_values (set_resp_headers m s)) as Hv.
    unfold onResponseHeaders in *. set (s0 := LOG _ _ _) in *.
    destruct (log_pairs_frame (pairs (resp_headers s0)) s0) as (_ & _ & E2).
    eexists _, _. split; [done|]. split; [exact Hv|].
    cbn -[log_pairs] in *. by rewrite E2.
  - eexists _, _. split; [done|]. split; [|done]. cbn.
    rewrite set_bytes_law, drop_ge, app_nil_r by (cbn; lia). done.
Qed.

(** C30: in whatever order the parts of requests and responses arrive, no
    callback stops a message and every part is passed on, in order: request
    headers and request bodies unchanged; every part of a response body replaced
    by the greeting; and a response's headers with the same values but for three
    names: one X-Wasm-custom is added, the content-type is text/plain, and there
    is no content-length that could contradict the new body.  The command is run
    once for every request. *)
Theorem filter_stream (l : list part) (s : stream M) :
  ∃ s' out, pass_all s l = Some (s', out) ∧ Forall2 passed l out ∧
            commands s' = commands s ++ omap commanded l.
Proof.
  revert s. induction l as [|a l IH]; intros s; cbn [pass_all].
  - exists s, []. cbn. by rewrite app_nil_r.
  - destruct (pass_one s a) as (s1 & p & -> & Hp & E1). cbn.
    destruct (IH s1) as (s2 & out & -> & Ho & E2). exists s2, (p :: out). cbn.
    split_and!; [done|by constructor|]. rewrite E2, E1, <- app_assoc. by destruct (commanded a).
Qed.

End filter.

(** * A host *)

(** Headers as an association list in the order of the message. *)
#[export] Instance list_host : ProxyHost (list (list Z * list Z)) := {|
  pairs m := m;
  add k v m := m ++ [(k, v)];
  replace k v m := filter (λ kv, caseeq k kv.1 = false) m ++ [(k, v)];
  remove k m := filter (λ kv, caseeq k kv.1 = false) m;
  get_bytes b start len := take len (drop start b);
  set_bytes b start len d := take start b ++ d ++ drop (start + len) b |}.

Lemma values_filter k k' (m : list (list Z * list Z)) :
  values k' (filter (λ kv, caseeq k kv.1 = false) m) = if caseeq k k' then [] else values k' m.
Proof.
  unfold values. cbn [pairs list_host]. induction m as [|[a v] m IH]; [by destruct (caseeq k k')|].
  rewrite filter_cons. cbn [fst]. destruct (decide (caseeq k a = false)) as [E|E]; cbn [omap list_omap fst].
  - rewrite IH. destruct (caseeq k k') eqn:E2; [|done].
    destruct (caseeq a k') eqn:E3; [|done].
    rewrite caseeq_sym in E3. by rewrite (caseeq_trans k k' a) in E.
  - rewrite IH. destruct (caseeq k k') eqn:E2; [done|].
    destruct (caseeq a k') eqn:E3; [|done].
    apply not_false_is_true in E. by rewrite (caseeq_trans k a k') in E2.
Qed.

#[export] Instance list_host_laws : ProxyHostLaws (list (list Z * list Z)).
Proof.
  split; try done.
  - intros. unfold values. cbn. rewrite omap_app. cbn. destruct (caseeq k k'); [done|].
    by rewrite app_nil_r.
  - intros. unfold values. cbn [pairs add replace list_host]. rewrite omap_app.
    change (omap _ (filter _ m)) with (values k' (filter (λ kv, caseeq k kv.1 = false) m)).
    rewrite values_filter. cbn. destruct (caseeq k k'); [done|]. by rewrite app_nil_r.
  - intros. apply values_filter.
Qed.

(** A response in two parts. *)
Definition sample : stream (list (list Z * list Z)) := {|
  req_headers := []; req_body := []; resp_headers := []; resp_body := [];
  logged := []; tick_period := None; commands := [] |}.

Lemma filter_stream_witness :
  ∃ s' out,
    pass_all 7 sample
      [RequestHeaders [(bs ":path", bs "/")]; RequestData (bs "a");
       ResponseHeaders [(bs "Content-Length", bs "6")];
       ResponseData (bs "abc"); RequestData (bs "b"); ResponseData (bs "def")] = Some (s', out) ∧
    Forall2 passed
      [RequestHeaders [(bs ":path", bs "/")]; RequestData (bs "a");
       ResponseHeaders [(bs "Content-Length", bs "6")];
       ResponseData (bs "abc"); RequestData (bs "b"); ResponseData (bs "def")] out ∧
    commands s' = ["echo hello"%string].
Proof.
  exact (filter_stream 7
    [RequestHeaders [(bs ":path", bs "/")]; RequestData (bs "a");
     ResponseHeaders [(bs "Content-Length", bs "6")];
     ResponseData (bs "abc"); RequestData (bs "b"); ResponseData (bs "def")] sample).
Defined.

End Wasm.
