(* ===== verification/Logging.v ===== *)
(** Logging (src/opentelemetry/logging): the logger on {fmt} of fmt_logger.h and
    fmt_logger.cc, and the OpenTelemetry logger with its factory of logger.h,
    logger.cc, logger_factory.h and logger_factory.cc.

    The clock, the terminal, {fmt} and the OpenTelemetry SDK are on the other
    side of [Io.prog]; the sequences that {fmt} writes for a colour are parameters.
    A level is the number behind the enumerator, since any
    number can be converted to the type. *)

From stdpp Require Import base list gmap strings.
From S2P Require Import Prelude Io CLib Posix.

Local Open Scope Z_scope.
Local Open Scope cs_scope.

Module FmtLog.

(** * fmt_logger *)

Definition Info : Z := 0.
Definition Debug : Z := 1.
Definition Error : Z := 2.

Inductive color := floral_white | steel_blue | crimson.

Inductive ext :=
  | Now                                      (* system_clock::now(), as {fmt} prints it *)
  | Print (fg : option color) (text : list Z).

Definition extR (e : ext) : Type :=
  match e with Now => list Z | Print _ _ => unit end.

(** The result of code that may throw. *)
Inductive res (A : Type) := Ok (a : A) | Throw (what : string).
Arguments Ok {A} a.
Arguments Throw {A} what.

Record FmtLogger := { m_name : list Z; m_breakStr : list Z }.

Definition new_FmtLogger (name : list Z) : FmtLogger :=
  {| m_name := name; m_breakStr := bs "**********************************" |}.

Definition getDebugLevel (level : Z) : res (color * list Z) :=
  if level =? Info then Ok (floral_white, bs "INFO")
  else if level =? Debug then Ok (steel_blue, bs "DEBUG")
  else if level =? Error then Ok (crimson, bs "ERROR")
  else Throw "Unknown log level".

Definition NL : list Z := [10].
Definition SP : list Z := [32].

Definition Log (l : FmtLogger) (level : Z) (log : list Z) : prog extR (res unit) :=
  match getDebugLevel level with
  | Throw w => Ret (Throw w)
  | Ok (c, s) =>
      call (Print (Some c) (s ++ SP)) ;;;
      t ⇐ call Now;
      call (Print None (m_name l ++ SP ++ t ++ NL ++ log ++ NL)) ;;;
      Ret (Ok tt)
  end.

(** [vformat] is the formatting of {fmt}; [None] when it throws. *)
Definition LogFmt (vformat : list Z → list (list Z) → option (list Z))
    (l : FmtLogger) (level : Z) (log_fmt : list Z) (args : list (list Z)) : prog extR (res unit) :=
  match getDebugLevel level with
  | Throw w => Ret (Throw w)
  | Ok (c, s) =>
      t ⇐ call Now;
      call (Print (Some c) (s ++ SP ++ m_name l ++ SP ++ t ++ NL)) ;;;
      match vformat log_fmt args with
      | None => Ret (Throw "format_error")
      | Some text => call (Print None text) ;;; Ret (Ok tt)
      end
  end.

(** [operator<<] of the stream that [LogStream] returns; it has no state. *)
Definition stream_out (log : list Z) : prog extR unit := call (Print None (SP ++ SP ++ log)).

Definition LogStream (l : FmtLogger) (level : Z) (log : list Z) : prog extR (res unit) :=
  match getDebugLevel level with
  | Throw w => Ret (Throw w)
  | Ok (c, s) =>
      call (Print (Some c) (NL ++ s ++ SP)) ;;;
      t ⇐ call Now;
      call (Print None (m_name l ++ SP ++ t ++ NL ++ log)) ;;;
      Ret (Ok tt)
  end.

Definition Break (l : FmtLogger) : prog extR unit := call (Print None (m_breakStr l ++ NL)).
Definition LineBreak : prog extR unit := call (Print None NL).
Definition GetName (l : FmtLogger) : list Z := m_name l.
Definition SetBreakStr (l : FmtLogger) (s : list Z) : FmtLogger :=
  {| m_name := m_name l; m_breakStr := s |}.

(** ** Sequences of calls *)

Fixpoint chain (logs : list (list Z)) : prog extR unit :=
  match logs with
  | [] => Ret tt
  | x :: logs' => stream_out x ;;; chain logs'
  end.

(** A caller that logs some records, up to the first exception. *)
Fixpoint log_all (l : FmtLogger) (es : list (Z * list Z)) : prog extR (res unit) :=
  match es with
  | [] => Ret (Ok tt)
  | (level, body) :: es' =>
      r ⇐ Log l level body;
      match r with
      | Ok _ => log_all l es'
      | Throw w => Ret (Throw w)
      end
  end.

(** The terminal.  [fg c] is the sequence that {fmt} writes before a text in the
    colour [c], [reset] the one it writes behind it. *)
Section Terminal.
Context (fg : color → list Z) (reset : list Z).

Definition shown (style : option color) (s : list Z) : list Z :=
  match style with Some c => fg c ++ s ++ reset | None => s end.

Definition v_text (e : ext) : extR e → option (list Z) :=
  match e return extR e → option (list Z) with Print c s => λ _, Some (shown c s) | _ => λ _, None end.
Definition v_time (e : ext) : extR e → option (list Z) :=
  match e return extR e → option (list Z) with Now => λ t, Some t | _ => λ _, None end.

(** What is written to the terminal. *)
Definition text (h : trace extR) : list Z := concat (view v_text h).
Definition times (h : trace extR) : list (list Z) := view v_time h.

(** A time is printed on one line. *)
Definition clock_ok (h : trace extR) (e : ext) : extR e → Prop :=
  match e return extR e → Prop with Now => λ t, 10 ∉ t | _ => λ _, True end.

(** ** A reader of the format of the comment *)

(** The next line and what follows it. *)
Fixpoint line (s : list Z) : option (list Z * list Z) :=
  match s with
  | [] => None
  | c :: s' => if c =? 10 then Some ([], s') else prod_map (c ::.) id <$> line s'
  end.

Definition level_text (level : Z) : list Z :=
  match getDebugLevel level with Ok (_, s) => s | Throw _ => [] end.

(** An ANSI sequence that selects a rendition: ESC [, parameters, m. *)
Definition parameter (c : Z) : bool := ((48 <=? c) && (c <=? 57)) || (c =? 59).
Definition sgr (e : list Z) : Prop :=
  ∃ ps, e = 27 :: 91 :: ps ++ [109] ∧ Forall (λ c, parameter c = true) ps.

(** The sequence at the start of a text, and what follows it. *)
Fixpoint sgr_params (s : list Z) : option (list Z * list Z) :=
  match s with
  | [] => None
  | c :: s' => if c =? 109 then Some ([c], s')
               else if parameter c then prod_map (c ::.) id <$> sgr_params s' else None
  end.

Definition read_sgr (s : list Z) : option (list Z * list Z) :=
  match s with
  | 27 :: 91 :: s' => prod_map (λ e, 27 :: 91 :: e) id <$> sgr_params s'
  | _ => None
  end.

(** What follows [p] at the start of [s]. *)
Definition strip (p s : list Z) : option (list Z) :=
  if prefixb p s then Some (drop (length p) s) else None.

Definition try_level (s : list Z) (level : Z) : option (Z * list Z) :=
  pair level <$> strip (level_text level ++ SP) s.

Definition read_level (s : list Z) : option (Z * list Z) :=
  union (try_level s Info) (union (try_level s Debug) (try_level s Error)).

(** A first line: the level in its colour, the name, the time. *)
Definition read_meta (name s : list Z) : option (list Z * Z * list Z) :=
  '(e, s) ← read_sgr s;
  '(level, s) ← read_level s;
  '(_, s) ← read_sgr s;
  t ← strip (name ++ SP) s;
  Some (e, level, t).

(** The records of a text: the sequence before the level, level, time and body. *)
Fixpoint read_log (fuel : nat) (name s : list Z) : option (list (list Z * Z * list Z * list Z)) :=
  match fuel, s with
  | _, [] => Some []
  | O, _ => None
  | S fuel', _ =>
      '(l1, s) ← line s;
      '(l2, s) ← line s;
      '(e, level, t) ← read_meta name l1;
      ((e, level, t, l2) ::.) <$> read_log fuel' name s
  end.

Lemma line_app a s : 10 ∉ a → line (a ++ 10 :: s) = Some (a, s).
Proof.
  induction a as [|c a IH]; intros Ha; [done|]. cbn.
  destruct (Z.eqb_spec c 10) as [->|]; [set_solver|]. rewrite IH by set_solver. done.
Qed.

Definition known (level : Z) : Prop := level = Info ∨ level = Debug ∨ level = Error.

(** The colour that the levels are shown in. *)
Definition level_color (level : Z) : color :=
  if level =? Info then floral_white else if level =? Debug then steel_blue else crimson.

(** {fmt} writes the colours as ANSI sequences. *)
Context (fg_sgr : ∀ c, sgr (fg c)) (reset_sgr : sgr reset).

Lemma read_sgr_app e s : sgr e → read_sgr (e ++ s) = Some (e, s).
Proof.
  intros (ps & -> & Hps). cbn.
  assert (sgr_params ((ps ++ [109]) ++ s) = Some (ps ++ [109], s)) as ->; [|done].
  induction Hps as [|c ps Hc _ IH]; [done|]. cbn.
  destruct (Z.eqb_spec c 109) as [->|_]; [done|]. by rewrite Hc, IH.
Qed.

Lemma sgr_line e : sgr e → 10 ∉ e.
Proof.
  intros (ps & -> & Hps). rewrite Forall_forall in Hps.
  assert (10 ∉ ps) by (intros H; by apply Hps in H). set_solver by lia.
Qed.

Lemma strip_app p s : strip p (p ++ s) = Some s.
Proof. unfold strip. by rewrite (proj2 (prefixb_spec p (p ++ s))), drop_app_length by eauto. Qed.

Lemma read_level_app level s :
  known level → read_level (level_text level ++ SP ++ s) = Some (level, s).
Proof.
  intros H. rewrite app_assoc. unfold read_level, try_level.
  destruct H as [->|[->| ->]]; by rewrite strip_app.
Qed.

(** The first line of a record. *)
Definition meta (l : FmtLogger) (level : Z) (t : list Z) : list Z :=
  fg (level_color level) ++ level_text level ++ SP ++ reset ++ m_name l ++ SP ++ t.

Lemma read_meta_log l level t :
  known level →
  read_meta (m_name l) (meta l level t) = Some (fg (level_color level), level, t).
Proof.
  intros H. unfold read_meta, meta.
  rewrite read_sgr_app by done. cbn [mbind option_bind].
  rewrite read_level_app by done. cbn [mbind option_bind].
  rewrite read_sgr_app by done. cbn [mbind option_bind].
  rewrite app_assoc, strip_app. done.
Qed.

Lemma meta_line l level t :
  known level → 10 ∉ m_name l → 10 ∉ t → 10 ∉ meta l level t.
Proof.
  intros Hl Hn Ht. pose proof (sgr_line _ (fg_sgr (level_color level))).
  pose proof (sgr_line _ reset_sgr).
  assert (10 ∉ level_text level) by (destruct Hl as [->|[->| ->]]; cbn; set_solver by lia).
  unfold meta, SP. set_solver by lia.
Qed.

(** One record as [Log] prints it. *)
Definition record (l : FmtLogger) (level : Z) (t body : list Z) : list Z :=
  meta l level t ++ 10 :: body ++ 10 :: [].

Lemma known_level level :
  known level → getDebugLevel level = Ok (level_color level, level_text level).
Proof. by intros [->|[->| ->]]. Qed.

Lemma Log_wp l level body h :
  known level →
  wp clock_ok (Log l level body)
     (λ h' o, ∃ t, o = Val (Ok tt) ∧ 10 ∉ t ∧ times h' = times h ++ [t] ∧
                   text h' = text h ++ record l level t body) h.
Proof.
  intros Hc%known_level. unfold Log. rewrite Hc. cbn -[level_text].
  intros [] _ t Ht [] _. exists t. unfold times, text, record, meta.
  autorewrite with cs. cbn -[level_text]. rewrite !app_nil_r, !concat_app.
  split_and!; try done. unfold SP, NL. by list_simplifier.
Qed.

Lemma log_all_wp l es h :
  Forall (λ e, known e.1) es →
  wp clock_ok (log_all l es)
     (λ h' o, ∃ ts, o = Val (Ok tt) ∧ Forall (λ t, 10 ∉ t) ts ∧ length ts = length es ∧
                    times h' = times h ++ ts ∧
                    text h' = text h ++
                      concat (zip_with (λ e t, record l e.1 t e.2) es ts)) h.
Proof.
  intros Hes. revert h. induction Hes as [|[level body] es He _ IH]; intros h; cbn [log_all].
  - exists []. cbn. by rewrite !app_nil_r.
  - apply wp_bind. eapply wp_mono; [|by apply Log_wp].
    intros h' o (t & -> & Ht & E1 & E2). cbn [seq_post].
    eapply wp_mono; [|apply IH]. intros h'' o (ts & -> & Hts & Hl & E3 & E4).
    exists (t :: ts). cbn [zip_with concat length]. rewrite E3, E4, E1, E2, <- !app_assoc.
    split_and!; auto.
Qed.

Lemma read_record fuel l level t body s :
  known level → 10 ∉ m_name l → 10 ∉ t → 10 ∉ body →
  read_log (S fuel) (m_name l) (record l level t body ++ s) =
  ((fg (level_color level), level, t, body) ::.) <$> read_log fuel (m_name l) s.
Proof.
  intros Hl Hn Ht Hb. pose proof (meta_line l level t Hl Hn Ht) as H1.
  pose proof (read_meta_log l level t Hl) as Hm. unfold record.
  generalize dependent (meta l level t). intros l1 H1 Hm.
  replace (_ ++ s) with (l1 ++ 10 :: body ++ 10 :: s)
    by (by rewrite <- !app_assoc; cbn; rewrite <- !app_assoc).
  cbn [read_log]. rewrite line_app by done.
  destruct (l1 ++ _) eqn:E; [by destruct l1|]. cbn. rewrite line_app by done. cbn. by rewrite Hm.
Qed.

Lemma read_records l es ts :
  10 ∉ m_name l → Forall (λ e, known e.1 ∧ 10 ∉ e.2) es → Forall (λ t, 10 ∉ t) ts →
  length ts = length es →
  read_log (length es) (m_name l) (concat (zip_with (λ e t, record l e.1 t e.2) es ts)) =
    Some (zip_with (λ e t, (fg (level_color e.1), e.1, t, e.2)) es ts).
Proof.
  intros Hn Hes Hts. revert es Hes.
  induction Hts as [|t ts Ht _ IH]; intros [|[level body] es] Hes Hl; try done.
  apply Forall_cons in Hes as [[He1 He2] Hes]. cbn [zip_with concat length fst snd].
  rewrite read_record by done. rewrite IH by (auto with lia). done.
Qed.

(** A level that is not an enumerator throws before anything is printed. *)
Lemma Log_unknown ok l level body h :
  ¬ known level →
  wp ok (Log l level body) (λ h' o, h' = h ∧ o = Val (Throw "Unknown log level")) h.
Proof.
  intros Hk. unfold Log, getDebugLevel.
  destruct (Z.eqb_spec level Info); [by destruct Hk; left|].
  destruct (Z.eqb_spec level Debug); [by destruct Hk; right; left|].
  destruct (Z.eqb_spec level Error); [by destruct Hk; right; right|]. done.
Qed.

(** A streamed record starts on a new line and shows the chained parts behind
    its body, on the same line. *)
Lemma LogStream_wp l level body logs h :
  known level →
  wp clock_ok (r ⇐ LogStream l level body; chain logs ;;; Ret r)
     (λ h' o, ∃ t, o = Val (Ok tt) ∧ 10 ∉ t ∧
        text h' = text h ++ fg (level_color level) ++ 10 :: level_text level ++ SP ++ reset ++
                  m_name l ++ SP ++ t ++ 10 :: body ++ concat ((λ x, SP ++ SP ++ x) <$> logs)) h.
Proof.
  intros Hc%known_level. unfold LogStream. rewrite Hc. cbn -[level_text].
  intros [] _ t Ht [] _. apply wp_bind.
  match goal with |- wp _ _ _ ?h1 => set (h' := h1) end.
  assert (text h' = text h ++ fg (level_color level) ++ 10 :: level_text level ++ SP ++ reset ++
                    m_name l ++ SP ++ t ++ 10 :: body) as E.
  { unfold h', text. autorewrite with cs. rewrite !concat_app. cbn -[level_text].
    by rewrite !app_nil_r, <- !app_assoc; cbn -[level_text]; rewrite <- !app_assoc. }
  clearbody h'. revert body h' E. induction logs as [|x logs IH]; intros body h' E; cbn -[level_text].
  - exists t. by rewrite app_nil_r.
  - intros [] _. eapply wp_mono; [|apply (IH (body ++ SP ++ SP ++ x))].
    + intros h'' [r|] Ho; cbn in *; [|naive_solver]. by rewrite <- !app_assoc in Ho.
    + unfold text. autorewrite with cs. rewrite concat_app. fold (text h'). rewrite E.
      unfold SP. by list_simplifier.
Qed.

End Terminal.


(** The sequences of {fmt}: the colour as red, green and blue. *)
Definition fmt_fg (c : color) : list Z :=
  27 :: 91 :: match c with
              | floral_white => bs "38;2;255;250;240"
              | steel_blue => bs "38;2;070;130;180"
              | crimson => bs "38;2;220;020;060"
              end ++ [109].
Definition fmt_reset : list Z := 27 :: 91 :: bs "0" ++ [109].


(** Two records by [LogFmt] whose format does not end the line share a line. *)
Example LogFmt_same_line :
  let w : env extR := λ _ e, match e return extR e with Now => bs "12" | Print _ _ => tt end in
  let p := LogFmt (λ f _, Some f) (new_FmtLogger (bs "n")) Info (bs "a") [] in
  text (λ _, bs "<") (bs ">") (run w (p ;;; p) []).1 =
    bs "<INFO n 12" ++ NL ++ bs ">a<INFO n 12" ++ NL ++ bs ">a".
Proof. reflexivity. Qed.

End FmtLog.

Module OtelLog.

(** * logger and logger_factory *)

(** The enumerator; [OtherExport] is a number outside of the enumeration. *)
Inductive ExportType := OStream | Http | OtherExport (n : Z).

(** The exporter behind a provider; the switch leaves it null for a number that
    is not an enumerator. *)
Inductive exporter := OStreamLogRecordExporter | OtlpHttpLogRecordExporter | NullExporter.

(** Calls into the SDK.  Objects of the SDK are pointers, 0 the null pointer. *)
Inductive ext :=
  | CreateProvider (e : exporter)              (* processor and provider *)
  | SetLoggerProvider (p : Z)
  | GetLoggerProvider
  | SdkGetLogger (p : Z) (name caller : list Z)
  | EmitLogRecord (lg : Z) (severity : Z) (body : list Z) (time : Z)
  | SdkGetName (lg : Z)
  | Now
  | UntieStreams                               (* sync_with_stdio(false), cin.tie(NULL) *)
  | Say (l : list item).

Definition extR (e : ext) : Type :=
  match e with
  | CreateProvider _ | GetLoggerProvider | SdkGetLogger _ _ _ | Now => Z
  | SdkGetName _ => list Z
  | EmitLogRecord _ _ _ _ => bool              (* false: through a null exporter *)
  | _ => unit
  end.

Record Logger := { m_eventId : Z; m_logger : Z }.

Definition new_Logger (name caller_name : list Z) : prog extR Logger :=
  p ⇐ call GetLoggerProvider;
  if p =? 0 then Halt (Undefined "the null provider is dereferenced")
  else
    lg ⇐ call (SdkGetLogger p name caller_name);
    call (Say [T "***Logger::Logger"]) ;;;
    Ret {| m_eventId := 0; m_logger := lg |}.

Definition log (l : Logger) (dl : Z) (text : list Z) : prog extR Logger :=
  if in_i64 (m_eventId l + 1) then
    t ⇐ call Now;
    ok ⇐ call (EmitLogRecord (m_logger l) dl text t);
    if ok : bool then Ret {| m_eventId := m_eventId l + 1; m_logger := m_logger l |}
    else Halt (Undefined "the null exporter is dereferenced")
  else Halt (Undefined "signed overflow").

Definition loggerName (l : Logger) : prog extR (list Z) := call (SdkGetName (m_logger l)).

Definition init (transportType : ExportType) : prog extR bool :=
  (match transportType with
   | OStream => call (Say [T "**getting ostream exporter"])
   | _ => Ret tt
   end) ;;;
  provider ⇐ call (CreateProvider
    match transportType with
    | OStream => OStreamLogRecordExporter
    | Http => OtlpHttpLogRecordExporter
    | OtherExport _ => NullExporter
    end);
  call (SetLoggerProvider provider) ;;;
  call UntieStreams ;;;
  Ret true.

Definition GetLogger (name caller_name : list Z) : prog extR Logger := new_Logger name caller_name.

(** [~LoggerFactory], at the end of the process. *)
Definition destroy : prog extR unit := call (SetLoggerProvider 0).

(** ** A process that logs *)

Inductive op :=
  | Init (t : ExportType)
  | Get (name caller : list Z)
  | LogOn (i : nat) (dl : Z) (text : list Z)     (* log of the i-th logger *)
  | NameOf (i : nat).

(** One operation; the process holds the loggers it was given, and an operation
    on another one is not a program. *)
Definition step (objs : list Logger) (o : op) : prog extR (list Logger) :=
  match o with
  | Init t => init t ;;; Ret objs
  | Get n c => l ⇐ GetLogger n c; Ret (objs ++ [l])
  | LogOn i dl text =>
      match objs !! i with
      | Some l => l' ⇐ log l dl text; Ret (<[i := l']> objs)
      | None => Ret objs
      end
  | NameOf i =>
      match objs !! i with
      | Some l => loggerName l ;;; Ret objs
      | None => Ret objs
      end
  end.

Fixpoint session (objs : list Logger) (ops : list op) : prog extR (list Logger) :=
  match ops with
  | [] => Ret objs
  | o :: ops' => objs ⇐ step objs o; session objs ops'
  end.

(** ** What the process promises *)

(** The calls of [init]; for every logger the number of calls before it was made,
    with its names; and the records, each with its logger. *)
Record spec := {
  inits : list ExportType; made : list (nat * list Z * list Z); records : list (nat * Z * list Z) }.

Definition spec_step (sp : spec) (o : op) : spec :=
  match o with
  | Init t => {| inits := inits sp ++ [t]; made := made sp; records := records sp |}
  | Get n c => {| inits := inits sp; made := made sp ++ [(length (inits sp), n, c)]; records := records sp |}
  | LogOn i dl text =>
      {| inits := inits sp; made := made sp;
         records := if decide (i < length (made sp))%nat
                    then records sp ++ [(i, dl, text)] else records sp |}
  | NameOf _ => sp
  end.

Definition spec0 : spec := {| inits := []; made := []; records := [] |}.

(** The exporter an enumerator stands for. *)
Definition exporter_for (t : ExportType) : exporter :=
  match t with
  | OStream => OStreamLogRecordExporter
  | Http => OtlpHttpLogRecordExporter
  | OtherExport _ => NullExporter
  end.

(** An operation whose export type is in the enumeration. *)
Definition in_enum (o : op) : Prop :=
  match o with Init (OtherExport _) => False | _ => True end.

(** The records of the logger [i]. *)
Definition count_of (i : nat) (rs : list (nat * Z * list Z)) : nat :=
  length (filter (λ r, r.1.1 = i) rs).

Definition v_created (e : ext) : extR e → option (exporter * Z) :=
  match e return extR e → option (exporter * Z) with
  | CreateProvider x => λ r, Some (x, r) | _ => λ _, None end.
Definition v_set (e : ext) : extR e → option Z :=
  match e return extR e → option Z with SetLoggerProvider p => λ _, Some p | _ => λ _, None end.
Definition v_got (e : ext) : extR e → option (Z * list Z * list Z * Z) :=
  match e return extR e → option (Z * list Z * list Z * Z) with
  | SdkGetLogger p n c => λ r, Some (p, n, c, r) | _ => λ _, None end.
Definition v_emit (e : ext) : extR e → option (Z * Z * list Z) :=
  match e return extR e → option (Z * Z * list Z) with
  | EmitLogRecord lg dl b _ => λ _, Some (lg, dl, b) | _ => λ _, None end.

(** What the SDK documents: the global provider is the one set last, before
    that the default one; what it creates is not null; and a record goes through
    a null exporter only if a provider was created with one. *)
Definition sdk_ok (dflt : Z) (h : trace extR) (e : ext) : extR e → Prop :=
  match e return extR e → Prop with
  | GetLoggerProvider => λ r, r = default dflt (last (view v_set h))
  | CreateProvider _ | SdkGetLogger _ _ _ => λ r, r ≠ 0
  | EmitLogRecord _ _ _ _ => λ ok, NullExporter ∉ (view v_created h).*1 → ok = true
  | _ => λ _, True
  end.

(** The provider after [g] calls of [init]. *)
Definition provider_at (dflt : Z) (created : list Z) (g : nat) : Z :=
  default dflt (last (take g created)).

(** The history [h] and the loggers [objs] implement [sp]: every [init] created a
    provider with the exporter of its type, and the global provider is the one of
    the last [init]; every logger was got from the provider of its
    time under its names; every record was emitted on the logger it was logged
    on, in order; and the event number of a logger counts its records. *)
Definition implements (dflt : Z) (h : trace extR) (objs : list Logger) (sp : spec) : Prop :=
  let created := (view v_created h).*2 in
  let lgs := m_logger <$> objs in
  (view v_set h = created ∧ (view v_created h).*1 = exporter_for <$> inits sp ∧
   Forall (λ p, p ≠ 0) created) ∧
  (length objs = length (made sp) ∧ Forall (λ m, m.1.1 ≤ length (inits sp))%nat (made sp) ∧
   view v_got h = zip_with (λ m lg, (provider_at dflt created m.1.1, m.1.2, m.2, lg)) (made sp) lgs) ∧
  (Forall (λ r, r.1.1 < length (made sp))%nat (records sp) ∧
   view v_emit h = (λ r, (default 0 (lgs !! r.1.1), r.1.2, r.2)) <$> records sp) ∧
  ∀ i l, objs !! i = Some l → m_eventId l = Z.of_nat (count_of i (records sp)).

Lemma provider_at_app dflt created p g :
  (g ≤ length created)%nat → provider_at dflt (created ++ [p]) g = provider_at dflt created g.
Proof. intros. unfold provider_at. by rewrite take_app_le. Qed.

Lemma provider_at_now dflt created : provider_at dflt created (length created) = default dflt (last created).
Proof. unfold provider_at. by rewrite firstn_all. Qed.

Lemma count_of_snoc i j dl t rs :
  count_of i (rs ++ [(j, dl, t)]) = (count_of i rs + if decide (j = i) then 1 else 0)%nat.
Proof.
  unfold count_of. rewrite filter_app, length_app, filter_cons. cbn. by destruct (decide (j = i)).
Qed.

Lemma count_of_le i rs : (count_of i rs ≤ length rs)%nat.
Proof. apply length_filter. Qed.

Lemma count_of_fresh i n rs : Forall (λ r, r.1.1 < n)%nat rs → (n ≤ i)%nat → count_of i rs = O.
Proof.
  intros Hr Hi. unfold count_of. induction Hr as [|r rs Hr _ IH]; [done|].
  rewrite filter_cons, decide_False by lia. done.
Qed.

Lemma created_length (cr : list (exporter * Z)) (ts : list ExportType) :
  cr.*1 = exporter_for <$> ts → length cr.*2 = length ts.
Proof. intros H%(f_equal length). rewrite !length_fmap in *. done. Qed.

Lemma no_null h objs sp dflt :
  implements dflt h objs sp → Forall (λ t, in_enum (Init t)) (inits sp) →
  NullExporter ∉ (view v_created h).*1.
Proof.
  intros ((_ & -> & _) & _) Hi (t & E & Ht)%list_elem_of_fmap.
  rewrite Forall_forall in Hi. apply Hi in Ht. by destruct t.
Qed.

(** The views after [init], the construction of a logger, and a record. *)
Lemma implements_init dflt h h' objs sp p t :
  implements dflt h objs sp → p ≠ 0 →
  view v_created h' = view v_created h ++ [(exporter_for t, p)] → view v_set h' = view v_set h ++ [p] →
  view v_got h' = view v_got h → view v_emit h' = view v_emit h →
  implements dflt h' objs (spec_step sp (Init t)).
Proof.
  intros ((E1 & L1 & F1) & (L2 & F2 & E2) & (F3 & E3) & E4) Hp Hc Hs Hg He.
  unfold implements. cbn [spec_step inits made records].
  rewrite Hc, Hs, Hg, He, E1, E2, E3, !fmap_app, L1, length_app. cbn [length fmap list_fmap fst snd].
  split_and!; auto.
  - apply Forall_app; auto.
  - eapply Forall_impl; [exact F2|]. cbn. lia.
  - clear E2. rewrite <- (created_length _ _ L1) in F2. revert F2. generalize ((view v_created h).*2). intros cr F2. revert F2. generalize (m_logger <$> objs). clear.
    induction (made sp) as [|m ms IH]; intros [|lg lgs] F; cbn; try done.
    apply Forall_cons in F as [Hm F]. by rewrite provider_at_app, IH.
Qed.

Lemma implements_get dflt h h' objs sp n c lg :
  implements dflt h objs sp →
  view v_created h' = view v_created h → view v_set h' = view v_set h →
  view v_got h' = view v_got h ++ [(default dflt (last (view v_set h)), n, c, lg)] →
  view v_emit h' = view v_emit h →
  implements dflt h' (objs ++ [{| m_eventId := 0; m_logger := lg |}]) (spec_step sp (Get n c)).
Proof.
  intros ((E1 & L1 & F1) & (L2 & F2 & E2) & (F3 & E3) & E4) Hc Hs Hg He.
  unfold implements. cbn [spec_step inits made records].
  rewrite Hc, Hs, Hg, He, E1, E2, E3, !length_app, L2, fmap_app. cbn [length].
  split_and!; auto.
  - apply Forall_app; auto.
  - rewrite zip_with_app by (by rewrite length_fmap). cbn. by rewrite <- (created_length _ _ L1), provider_at_now.
  - eapply Forall_impl; [exact F3|]. cbn. lia.
  - apply list_fmap_ext. intros i r Hr. eapply Forall_lookup_1 in F3; [|exact Hr].
    rewrite lookup_app_l; [done|]. rewrite length_fmap. lia.
  - intros i l [Hl|[Hi Hl]]%lookup_app_Some; [by apply E4|].
    apply list_lookup_singleton_Some in Hl as [_ <-].
    by rewrite (count_of_fresh _ (length (made sp))) by (done || lia).
Qed.

Lemma implements_log dflt h h' objs sp i l dl t :
  implements dflt h objs sp → objs !! i = Some l →
  view v_created h' = view v_created h → view v_set h' = view v_set h →
  view v_got h' = view v_got h → view v_emit h' = view v_emit h ++ [(m_logger l, dl, t)] →
  implements dflt h' (<[i := {| m_eventId := m_eventId l + 1; m_logger := m_logger l |}]> objs)
    (spec_step sp (LogOn i dl t)).
Proof.
  intros ((E1 & L1 & F1) & (L2 & F2 & E2) & (F3 & E3) & E4) Hi Hc Hs Hg He.
  pose proof (lookup_lt_Some _ _ _ Hi) as Hlt.
  unfold implements. cbn [spec_step inits made records]. rewrite decide_True by lia.
  rewrite Hc, Hs, Hg, He, E1, E2, E3, length_insert, list_fmap_insert. cbn.
  rewrite (list_insert_id (m_logger <$> objs)) by (by rewrite list_lookup_fmap, Hi).
  split_and!; auto.
  - apply Forall_app. split; [done|]. constructor; [|done]. cbn. lia.
  - rewrite fmap_app. cbn. by rewrite list_lookup_fmap, Hi.
  - intros j l' Hj. rewrite count_of_snoc.
    apply list_lookup_insert_Some in Hj as [(-> & <- & _)|[Hne Hj]].
    + cbn. rewrite (E4 _ _ Hi), decide_True by done. lia.
    + rewrite (E4 _ _ Hj), decide_False by done. lia.
Qed.

Lemma implements_same dflt h h' objs sp :
  implements dflt h objs sp →
  view v_created h' = view v_created h → view v_set h' = view v_set h →
  view v_got h' = view v_got h → view v_emit h' = view v_emit h →
  implements dflt h' objs sp.
Proof. unfold implements. by intros H -> -> -> ->. Qed.

Ltac views := autorewrite with cs; cbn; by rewrite ?app_nil_r.

Lemma step_wp dflt o h objs sp :
  dflt ≠ 0 → Z.of_nat (length (records sp)) + 1 < 2 ^ 63 →
  Forall (λ t, in_enum (Init t)) (inits sp) → implements dflt h objs sp →
  wp (sdk_ok dflt) (step objs o)
     (λ h' r, ∃ objs', r = Val objs' ∧ implements dflt h' objs' (spec_step sp o)) h.
Proof.
  intros Hd Hn Hi0 HI. destruct o as [t|n c|i dl t|i]; cbn [step].
  - unfold init. destruct t; cbn; intros; eexists; (split; [done|]);
      (eapply implements_init; [exact HI|eassumption|..]; views).
  - unfold GetLogger, new_Logger. cbn. intros p ->.
    destruct (Z.eqb_spec (default dflt (last (view v_set h))) 0) as [E|_].
    + exfalso. destruct HI as ((E1 & _ & F) & _). rewrite E1 in E.
      destruct (last (view v_created h).*2) eqn:El; [|done].
      apply last_Some_elem_of in El. rewrite Forall_forall in F. by apply (F _ El).
    + cbn. intros lg Hlg [] _. eexists; split; [done|].
      eapply implements_get; [exact HI|..]; views.
  - destruct (objs !! i) as [l|] eqn:Hi.
    + unfold log. pose proof HI as (_ & _ & _ & Hc). rewrite (Hc _ _ Hi).
      pose proof (count_of_le i (records sp)).
      assert (in_i64 (Z.of_nat (count_of i (records sp)) + 1) = true) as ->.
      { unfold in_i64. apply andb_true_iff. split; [apply Z.leb_le|apply Z.ltb_lt]; lia. }
      cbn. intros z _ ok Hok. rewrite Hok; [|autorewrite with cs; cbn; rewrite app_nil_r;
        by eapply no_null]. cbn. eexists; split; [done|]. rewrite <- (Hc _ _ Hi).
      eapply implements_log; [exact HI|exact Hi|..]; views.
    + cbn. eexists; split; [done|]. rewrite decide_False; [by destruct sp|].
      apply lookup_ge_None in Hi. destruct HI as (_ & (L & _) & _). lia.
  - destruct (objs !! i); cbn; intros; eexists; (split; [done|]); [|done].
    eapply implements_same; [exact HI|..]; views.
Qed.

Lemma records_step sp o : (length (records (spec_step sp o)) ≤ S (length (records sp)))%nat.
Proof. destruct o; cbn; try lia. case_decide; rewrite ?length_app; cbn; lia. Qed.

Lemma inits_step sp o :
  in_enum o → Forall (λ t, in_enum (Init t)) (inits sp) →
  Forall (λ t, in_enum (Init t)) (inits (spec_step sp o)).
Proof. destruct o; cbn; intros Ho H; auto. apply Forall_app; auto. Qed.

Lemma session_wp dflt ops h objs sp :
  dflt ≠ 0 → Z.of_nat (length (records sp) + length ops) < 2 ^ 63 →
  Forall in_enum ops → Forall (λ t, in_enum (Init t)) (inits sp) →
  implements dflt h objs sp →
  wp (sdk_ok dflt) (session objs ops)
     (λ h' r, ∃ objs', r = Val objs' ∧ implements dflt h' objs' (foldl spec_step sp ops)) h.
Proof.
  intros Hd. revert h objs sp. induction ops as [|o ops IH]; intros h objs sp Hn Ho Hi HI; cbn [session].
  - cbn. eauto.
  - apply Forall_cons in Ho as [Ho Hos].
    apply wp_bind. eapply wp_mono; [|apply (step_wp dflt o h objs sp); [done| |done|done]].
    + intros h' r (objs' & -> & HI'). cbn [seq_post foldl].
      apply IH; [|done|by apply inits_step|done].
      pose proof (records_step sp o). cbn [length] in Hn. lia.
    + cbn [length] in Hn. lia.
Qed.

(** C28: for every sequence of less than 2^63 calls of [init], with a type of the
    enumeration, of [GetLogger], [log] and [loggerName], with a default provider
    that is not null, the process dereferences no null pointer and implements the
    abstract log: [init] creates a provider with the exporter of its type and
    makes it the global one, a logger belongs to the provider of the last [init]
    before it was made (one made before the first [init] stays with the default
    provider), every record reaches the SDK once, on its logger and in order, and
    the event number of a logger is the number of its records. *)
Theorem logging_refines dflt ops w :
  dflt ≠ 0 → Z.of_nat (length ops) < 2 ^ 63 → Forall in_enum ops → env_ok (sdk_ok dflt) w →
  let '(h, o) := run w (session [] ops) [] in
  ∃ objs, o = Val objs ∧ implements dflt h objs (foldl spec_step spec0 ops).
Proof.
  intros Hd Hn Ho Hw.
  assert (implements dflt [] [] spec0) as H0 by (unfold implements; cbn; by split_and!).
  pose proof (wp_run _ w _ _ [] Hw (session_wp dflt ops [] [] spec0 Hd Hn Ho ltac:(done) H0)) as H.
  by destruct (run w (session [] ops) []).
Qed.

(** An SDK: the provider set last, always the same pointers, and a crash on a
    record once there is a provider without exporter. *)
Definition sdk_env : env extR := λ h e,
  match e return extR e with
  | GetLoggerProvider => default 1 (last (view v_set h))
  | CreateProvider _ => 2
  | SdkGetLogger _ _ _ => 3
  | Now => 0
  | SdkGetName _ => []
  | EmitLogRecord _ _ _ _ =>
      forallb (λ x, match x with (NullExporter, _) => false | _ => true end) (view v_created h)
  | _ => tt
  end.

Lemma sdk_env_ok : env_ok (sdk_ok 1) sdk_env.
Proof.
  intros h []; cbn; try done. intros Hn. apply forallb_forall. intros [x p] Hx%list_elem_of_In.
  destruct x; try done. destruct Hn. apply list_elem_of_fmap. by exists (NullExporter, p).
Qed.

Lemma logging_refines_witness :
  let ops := [Get (bs "early") (bs "lib"); Init OStream; Get (bs "test") (bs "test");
              LogOn 1 5 (bs "test log"); LogOn 0 5 (bs "lost"); LogOn 1 9 (bs "again")] in
  let '(h, o) := run sdk_env (session [] ops) [] in
  ∃ objs, o = Val objs ∧ implements 1 h objs (foldl spec_step spec0 ops).
Proof.
  apply (logging_refines 1
    [Get (bs "early") (bs "lib"); Init OStream; Get (bs "test") (bs "test");
     LogOn 1 5 (bs "test log"); LogOn 0 5 (bs "lost"); LogOn 1 9 (bs "again")] sdk_env).
  - lia.
  - cbn. lia.
  - by repeat constructor.
  - apply sdk_env_ok.
Defined.

(** With a number outside of the enumeration the first record is undefined. *)
Example null_exporter :
  (run sdk_env (session [] [Init (OtherExport 7); Get (bs "a") (bs "b"); LogOn 0 5 (bs "x")]) []).2 =
  Stopped (Undefined "the null exporter is dereferenced").
Proof. reflexivity. Qed.

(** Once the factory is destroyed no logger can be made any more. *)
Lemma get_after_destroy dflt name caller h :
  wp (sdk_ok dflt) (destroy ;;; GetLogger name caller)
     (λ _ o, o = Stopped (Undefined "the null provider is dereferenced")) h.
Proof.
  cbn. intros [] _ r ->. autorewrite with cs. cbn. by rewrite last_snoc.
Qed.

End OtelLog.
