(* ===== verification/BoostDns.v ===== *)
(** The resolver programs on Boost.Asio (src/sockets/dns_lookup/boost: dns.cc,
    dns_coroutine.cc and dns_poll_timer.cc).

    The first waits for a future and is a program of [Io]; the second never gets
    to its resolver; the third runs two event loops, and is a machine whose
    labels are what the library can do next: the resolver finishes, or the timer
    expires. *)

From stdpp Require Import base list gmap strings.
From S2P Require Import Prelude Io Posix Dns.

Local Open Scope Z_scope.
Local Open Scope cs_scope.

Module BoostDns.

(** * dns.cc *)

(** What [get] of the future throws, as the catch clauses see it. *)
Inductive exn :=
  | StdSystemError (what : list Z)       (* std::system_error or derived from it *)
  | OtherException.

Inductive ext :=
  | ResolveHttp (host : list Z)          (* async_resolve and get, with a worker thread *)
  | Say (l : list item).

Definition extR (e : ext) : Type :=
  match e with ResolveHttp _ => (exn + list (list Z))%type | Say _ => unit end.

Definition say (l : list item) : prog extR unit := call (Say l).

(** The loop over the results. *)
Fixpoint say_endpoints (dns_result : list (list Z)) : prog extR unit :=
  match dns_result with
  | [] => Ret tt
  | a :: rest => say [T "Endpoint "; B a] ;;; say_endpoints rest
  end.

Definition dns_main (argv : list (list Z)) : prog extR Z :=
  let host := Dns.getHostFromArg 1 argv in
  say [T "Resolving "; B host] ;;;
  r ⇐ call (ResolveHttp host);
  (match r with
   | inr dns_result => say_endpoints dns_result
   | inl (StdSystemError what) => say [B what]
   | inl OtherException => say [T "Uncaught exception"]
   end) ;;;
  Ret 0.

Definition v_said (e : ext) : extR e → option (list item) :=
  match e return extR e → option (list item) with Say l => λ _, Some l | _ => λ _, None end.
Definition v_resolved (e : ext) : extR e → option (list Z * (exn + list (list Z))) :=
  match e return extR e → option (list Z * (exn + list (list Z))) with
  | ResolveHttp host => λ r, Some (host, r) | _ => λ _, None end.

(** The lines for an answer. *)
Definition lines_of (r : exn + list (list Z)) : list (list item) :=
  match r with
  | inr l => (λ a, [T "Endpoint "; B a]) <$> l
  | inl (StdSystemError what) => [[B what]]
  | inl OtherException => [[T "Uncaught exception"]]
  end.

Lemma say_endpoints_wp ok l h :
  wp ok (say_endpoints l)
     (λ h' o, o = Val tt ∧ view v_resolved h' = view v_resolved h ∧
        view v_said h' = view v_said h ++ ((λ a, [T "Endpoint "; B a]) <$> l)) h.
Proof.
  revert h. induction l as [|a l IH]; intros h; cbn.
  - by rewrite app_nil_r.
  - intros [] _. eapply wp_mono; [|apply IH]. intros h' o (-> & E1 & E2).
    rewrite E1, E2. autorewrite with cs. cbn. by rewrite app_nil_r, <- app_assoc.
Qed.

(** The program asks once, shows every address or one line for an exception,
    and returns 0 in both cases. *)
Lemma dns_main_wp ok argv :
  wp ok (dns_main argv)
     (λ h o, ∃ r, o = Val 0 ∧ view v_resolved h = [(Dns.getHostFromArg 1 argv, r)] ∧
        view v_said h = [T "Resolving "; B (Dns.getHostFromArg 1 argv)] :: lines_of r) [].
Proof.
  unfold dns_main. cbn. intros [] _ [[what|]|l] _.
  - intros [] _. cbn. by eexists.
  - intros [] _. cbn. by eexists.
  - apply wp_bind. eapply wp_mono; [|apply say_endpoints_wp].
    intros h o (-> & E1 & E2). cbn in *. exists (inr l). by rewrite E1, E2.
Qed.

(** * dns_coroutine.cc *)

(** [io_service.run()] is never called, so [do_resolve] is only spawned; the
    loop that follows has no effect, which C++ does not define. *)
Definition coroutine_main (argv : list (list Z)) : prog extR Z :=
  say [T "Resolving "; B (Dns.getHostFromArg 1 argv)] ;;;
  Halt (Undefined "an endless loop without effects").

(** * dns_poll_timer.cc *)

(** The handler of the resolver in [dns_io]. *)
Inductive query := Asked | Posted (results : list (list Z)) | Called.

(** [waiting]: an [async_wait] is pending on the timer. *)
Record machine := {
  waiting : bool; expiry : Z; nCount : Z; dns : query; console : list (list item) }.

Inductive label :=
  | Resolved (results : list (list Z))     (* the resolver posts the handler *)
  | Expired.                               (* [timer_io] runs the handler of the timer *)

Definition dnsCallback (results : list (list Z)) : list (list item) :=
  (λ a, [T "Endpoint "; B a]) <$> results.

(** [poll_one]: at most one handler that is ready. *)
Definition poll_one (q : query) : query * list (list item) :=
  match q with
  | Posted results => (Called, dnsCallback results)
  | q => (q, [])
  end.

Definition pollDNS (m : machine) : machine :=
  let '(q, out) := poll_one (dns m) in
  {| waiting := waiting m; expiry := expiry m + 2; nCount := nCount m + 1;
     dns := q; console := console m ++ [[T "***Hit pollDNS"]] ++ out |}.

(** [None]: the library cannot do that now. *)
Definition next (m : machine) (l : label) : option machine :=
  match l with
  | Resolved r =>
      match dns m with
      | Asked => Some {| waiting := waiting m; expiry := expiry m; nCount := nCount m;
                         dns := Posted r; console := console m |}
      | _ => None
      end
  | Expired =>
      if waiting m then
        Some (pollDNS {| waiting := false; expiry := expiry m; nCount := nCount m;
                         dns := dns m; console := console m |})
      else None
  end.

Fixpoint nexts (m : machine) (ls : list label) : option machine :=
  match ls with
  | [] => Some m
  | l :: ls' => m' ← next m l; nexts m' ls'
  end.

(** [main] up to [timer_io.run()], which does not return: [work] keeps it busy. *)
Definition poll_start (argv : list (list Z)) : machine :=
  {| waiting := true; expiry := 2; nCount := 0; dns := Asked;
     console := [[T "Resolving "; B (Dns.getHostFromArg 1 argv)]] |}.

(** Note: [pollDNS] never asks for the timer again, so the program polls once: in
    every run the timer handler is called at most once, and the addresses are
    shown if and only if the resolver was done before that; an answer that comes
    later is never shown, and nothing more can happen. *)
Theorem poll_timer_once argv ls m :
  nexts (poll_start argv) ls = Some m →
  nCount m ≤ 1 ∧ (length ls ≤ 2)%nat ∧
  console m = [T "Resolving "; B (Dns.getHostFromArg 1 argv)] ::
    match ls with
    | [Resolved r; Expired] => [T "***Hit pollDNS"] :: dnsCallback r
    | [Expired] | [Expired; Resolved _] => [[T "***Hit pollDNS"]]
    | _ => []
    end.
Proof.
  destruct ls as [|[r|] [|[r'|] [|[r''|] ls]]]; cbn; intros; simplify_eq; cbn;
    (split_and!; [lia|lia|done]).
Qed.

Lemma poll_timer_once_witness :
  match nexts (poll_start []) [Expired; Resolved [bs "1.2.3.4"]] with
  | Some m => nCount m ≤ 1 ∧ (2 ≤ 2)%nat ∧
      console m = [[T "Resolving "; B (bs "google.com")]; [T "***Hit pollDNS"]]
  | None => False
  end.
Proof.
  exact (poll_timer_once [] [Expired; Resolved [bs "1.2.3.4"]] _ eq_refl).
Defined.

End BoostDns.
