(* ===== verification/Grpc.v ===== *)
(** The gRPC client (src/grpc/cpp/hello/client.cc).

    gRPC, Abseil's flags and the generated stub are on the other side of
    [Io.prog]; a status is its code, 0 for success, and its message. *)

From stdpp Require Import base list gmap strings.
From S2P Require Import Prelude Io Posix.

Local Open Scope Z_scope.
Local Open Scope cs_scope.

Module Grpc.

Record Status := { error_code : Z; error_message : list Z }.
Definition ok (s : Status) : bool := error_code s =? 0.

Inductive ext :=
  | ParseCommandLine (argv : list (list Z))
  | GetFlagTarget (default : list Z)
  | CreateInsecureChannel (target : list Z)
  | NewStub
  | RpcSayHello (name : list Z)              (* the status and the message of the reply *)
  | Say (l : list item).

Definition extR (e : ext) : Type :=
  match e with
  | GetFlagTarget _ => list Z
  | RpcSayHello _ => Status * list Z
  | _ => unit
  end.

Definition SayHello (user : list Z) : prog extR (list Z) :=
  r ⇐ call (RpcSayHello user);
  if ok r.1 then Ret r.2
  else
    call (Say [N (error_code r.1); T ": "; B (error_message r.1)]) ;;;
    Ret (bs "RPC failed").

Definition main (argv : list (list Z)) : prog extR Z :=
  call (ParseCommandLine argv) ;;;
  target_str ⇐ call (GetFlagTarget (bs "localhost:50051"));
  call (CreateInsecureChannel target_str) ;;;
  call NewStub ;;;
  reply ⇐ SayHello (bs "world");
  call (Say [T "Greeter received: "; B reply]) ;;;
  Ret 0.

Definition v_rpc (e : ext) : extR e → option (list Z * (Status * list Z)) :=
  match e return extR e → option (list Z * (Status * list Z)) with
  | RpcSayHello n => λ r, Some (n, r) | _ => λ _, None end.
Definition v_said (e : ext) : extR e → option (list item) :=
  match e return extR e → option (list item) with Say l => λ _, Some l | _ => λ _, None end.

(** The client makes one call and returns 0 whatever its status is; a failed
    call shows its code and message and counts as the reply "RPC failed". *)
Lemma grpc_main_wp env_ok argv :
  wp env_ok (main argv)
     (λ h o, o = Val 0 ∧ ∃ s m, view v_rpc h = [(bs "world", (s, m))] ∧
        view v_said h =
          if ok s then [[T "Greeter received: "; B m]]
          else [[N (error_code s); T ": "; B (error_message s)];
                [T "Greeter received: "; B (bs "RPC failed")]]) [].
Proof.
  unfold main, SayHello. cbn. intros [] _ target _ [] _ [] _ [s m] _. cbn [fst snd].
  destruct (ok s) eqn:E; cbn; intros; (split; [done|]; exists s, m; rewrite E; done).
Qed.

End Grpc.
